(** * Buffered I/O and byte utilities of the vendored Deno standard library

    A shallow embedding of [bytes/mod.ts] (the byte-slice utilities) and of
    [io/bufio.ts] (the buffered reader, the buffered writers and the
    delimiter splitter), followed by the properties established about them.

    JavaScript numbers that the code uses as counts and indices are integers
    of [Z] (where a product can leave the exact range, in [repeat], the
    rounding of the numbers is written out); a byte is a [Z] in [0, 256);
    the contents of a [Uint8Array] is a [list Z].  An indexed read outside
    the array yields [undefined], which is [None] here.  Loops whose trip
    count is not fixed by their header take a [fuel] argument and report
    [OutOfFuel] when it runs out. *)

From Stdlib Require Import ZArith Lia List String Ascii.
From stdpp Require Import base tactics option list.

Local Open Scope Z_scope.

(** ** Outcomes of a call: a value, a thrown exception, or fuel exhausted *)

Inductive outcome (E A : Type) : Type :=
| Ok (a : A)
| Throw (e : E)
| OutOfFuel.

Arguments Ok {E A} a.
Arguments Throw {E A} e.
Arguments OutOfFuel {E A}.

(** ** Typed-array primitives on contents *)

Abbreviation bytes := (list Z).

(** [a.length] as a JavaScript number. *)
Definition len (a : bytes) : Z := Z.of_nat (length a).

(** [a[i]]: [undefined] outside [0 .. a.length - 1]. *)
Definition at_ (a : bytes) (i : Z) : option Z :=
  if decide (0 <= i) then a !! Z.to_nat i else None.

(** Relative index resolution of [subarray] and [slice]: a negative index
    counts from the end, and the result is clamped to [0 .. length]. *)
Definition rel_index (n i : Z) : Z :=
  if decide (i < 0) then Z.max (n + i) 0 else Z.min i n.

(** Contents of [a.subarray(b, e)] (and of the copy [a.slice(b, e)]). *)
Definition subarray (a : bytes) (b e : Z) : bytes :=
  let b' := rel_index (len a) b in
  let e' := rel_index (len a) e in
  take (Z.to_nat (e' - b')) (drop (Z.to_nat b') a).

(** [a.subarray(b)]: up to the end. *)
Definition subarray_from (a : bytes) (b : Z) : bytes := subarray a b (len a).

(** [dst.set(src, off)]: a [RangeError] ([None]) unless [src] fits. *)
Definition typed_set (dst src : bytes) (off : Z) : option bytes :=
  if decide (0 <= off /\ off + len src <= len dst)
  then Some (take (Z.to_nat off) dst ++ src ++
             drop (Z.to_nat (off + len src)) dst)
  else None.

(** [new Uint8Array(n)]: [n] zero bytes. *)
Definition new_Uint8Array (n : Z) : bytes := replicate (Z.to_nat n) 0.

(** [a.copyWithin(target, start, end)]. *)
Definition copyWithin (a : bytes) (target start end_ : Z) : bytes :=
  let to := rel_index (len a) target in
  let from := rel_index (len a) start in
  let final := rel_index (len a) end_ in
  let count := Z.min (final - from) (len a - to) in
  if decide (count > 0) then
    take (Z.to_nat to) a
      ++ take (Z.to_nat count) (drop (Z.to_nat from) a)
      ++ drop (Z.to_nat (to + count)) a
  else a.

(** [a.indexOf(x)]: the first index holding [x], or [-1]. *)
Fixpoint indexOf_from (a : bytes) (x : Z) (i : Z) : Z :=
  match a with
  | [] => -1
  | y :: a' => if decide (y = x) then i else indexOf_from a' x (i + 1)
  end.

Definition indexOf (a : bytes) (x : Z) : Z := indexOf_from a x 0.

(** ** JavaScript numbers on the integers

    A JavaScript number is an IEEE 754 double.  Every integer below [2 ^ 53]
    is a number; from there on only the multiples of a power of two that
    have 53 significant bits are.  An arithmetic operation gives the number
    nearest to its exact result, a tie going to the one whose significand
    is even, and [Infinity] when that number would be [2 ^ 1024] or more.
    Only what [repeat] needs is defined: the product of two integers and
    the comparison of a quotient with an integer. *)

Module Number.

Definition MAX_SAFE_INTEGER : Z := 2 ^ 53 - 1.

(** The number nearest to the integer [n >= 0]; [None] is [Infinity].  The
    unit in the last place of [n] is [2 ^ (Z.log2 n - 52)]. *)
Definition round (n : Z) : option Z :=
  let e := Z.log2 n - 52 in
  if decide (e <= 0) then Some n
  else
    let ulp := 2 ^ e in
    let q := n / ulp in
    let r := n mod ulp in
    let up :=
      bool_decide (ulp < 2 * r) || (bool_decide (2 * r = ulp) && Z.odd q) in
    let v := (if up then q + 1 else q) * ulp in
    if decide (v < 2 ^ 1024) then Some v else None.

(** [a * b] for integers [a >= 0] and [b >= 0] that are numbers. *)
Definition mul (a b : Z) : option Z := round (a * b).

(** [p / c === a] for integers that are numbers, [p >= 0], [c > 0] and
    [0 <= a < 2 ^ 53].  The exact quotient rounds to [a] when it lies
    between the midpoints of [a] and its two neighbours, a midpoint counting
    when the significand of [a] is even.  With [k = Z.log2 a] the neighbours
    are [a + 2 ^ (k - 52)] and [a - 2 ^ (k - 52)], the lower one being
    [a - 2 ^ (k - 53)] when [a = 2 ^ k]; everything is scaled by
    [2 ^ (54 - k)] and by [c] to stay on integers.  A quotient is [0] only
    when [p] is, since [p / c >= 2 ^ -1024] otherwise. *)
Definition quotient_is (p c a : Z) : bool :=
  if decide (a = 0) then bool_decide (p = 0)
  else
    let k := Z.log2 a in
    let scale := 2 ^ (54 - k) in
    let A := a * scale in
    let lo := if decide (a = 2 ^ k) then A - 1 else A - 2 in
    let hi := A + 2 in
    let x := p * scale in
    (bool_decide (lo * c < x) && bool_decide (x < hi * c))
    || (Z.even (A / 4)
        && (bool_decide (x = lo * c) || bool_decide (x = hi * c))).

End Number.

(** ** bytes/mod.ts *)

Module ByteUtil.

(** [copy(src, dst, off)]: the new contents of [dst] and the number of bytes
    copied.  The offset is clamped and [src] is cut to what fits, so the call
    of [set] is always in range (lemma [copy_set_in_range]). *)
Definition copy (src dst : bytes) (off : Z) : bytes * Z :=
  let off := Z.max 0 (Z.min off (len dst)) in
  let dstBytesAvailable := len dst - off in
  let src := if decide (len src > dstBytesAvailable)
             then subarray src 0 dstBytesAvailable else src in
  (default dst (typed_set dst src off), len src).

(** [startsWith(source, prefix)]: [i] runs from 0 to [prefix.length]; the
    recursion is on the number of iterations left. *)
Fixpoint startsWith_loop (source prefix : bytes) (i : Z) (left : nat) : bool :=
  match left with
  | O => true
  | S left' =>
      if decide (at_ source i <> at_ prefix i) then false
      else startsWith_loop source prefix (i + 1) left'
  end.

Definition startsWith (source prefix : bytes) : bool :=
  startsWith_loop source prefix 0 (length prefix).

(** [endsWith(source, suffix)]: [srci] and [sfxi] run down together while
    [sfxi >= 0]; the recursion is on [sfxi + 1]. *)
Fixpoint endsWith_loop (source suffix : bytes) (srci sfxi : Z) (left : nat)
  : bool :=
  match left with
  | O => true
  | S left' =>
      if decide (at_ source srci <> at_ suffix sfxi) then false
      else endsWith_loop source suffix (srci - 1) (sfxi - 1) left'
  end.

Definition endsWith (source suffix : bytes) : bool :=
  endsWith_loop source suffix (len source - 1) (len suffix - 1)
                (Z.to_nat (len suffix - 1 + 1)).

(** Exceptions of [repeat].  [RangeError] and [Error] are the two that
    [repeat] throws itself, with their messages; [InvalidArrayLength] is the
    [RangeError] of [new Uint8Array(n)] for a length that the engine does
    not give a typed array (its message is the engine's). *)
Inductive repeat_error : Type :=
| RangeError (msg : string)
| Error (msg : string)
| InvalidArrayLength.

(** The doubling loop of [repeat]:
    [for (; bp < nb.length; bp *= 2) copy(nb.slice(0, bp), nb, bp)]. *)
Fixpoint repeat_loop (fuel : nat) (nb : bytes) (bp : Z)
  : outcome repeat_error bytes :=
  if decide (bp < len nb) then
    match fuel with
    | O => OutOfFuel
    | S fuel' =>
        repeat_loop fuel' (fst (copy (subarray nb 0 bp) nb bp)) (bp * 2)
    end
  else Ok nb.

(** [repeat(origin, count)] for an integer [count] that is a number.

    [origin.length * count] is a product of numbers, so it is rounded and
    may be [Infinity]; the overflow test divides the rounded product by
    [count] and compares the rounded quotient with [origin.length].  An
    infinite product fails it, as [Infinity / count] is [Infinity].  On an
    integer [Math.floor(count) !== count] is never true.

    [new Uint8Array(n)] throws for a length above [maxLength], the largest
    length that the engine gives a typed array; the language fixes no more
    than [maxLength <= 2 ^ 53 - 1]. *)
Definition repeat (maxLength : Z) (fuel : nat) (origin : bytes) (count : Z)
  : outcome repeat_error bytes :=
  if decide (count = 0) then Ok (new_Uint8Array 0)
  else if decide (count < 0) then
    Throw (RangeError "bytes: negative repeat count")
  else
    match Number.mul (len origin) count with
    | None => Throw (Error "bytes: repeat count causes overflow")
    | Some product =>
        if negb (Number.quotient_is product count (len origin)) then
          Throw (Error "bytes: repeat count causes overflow")
        else if decide (maxLength < product) then Throw InvalidArrayLength
        else
          let nb := new_Uint8Array product in
          let '(nb, bp) := copy origin nb 0 in
          repeat_loop fuel nb bp
    end.

(** [concat(...buf)]: a first pass sums the lengths, a second one places
    each array at the running index. *)
Definition concat (buf : list bytes) : bytes :=
  let length := fold_left (fun length b => length + len b) buf 0 in
  let output := new_Uint8Array length in
  fst (fold_left
         (fun '(output, index) b =>
            (default output (typed_set output b index), index + len b))
         buf (output, 0)).

(** The inner loop of [indexOf], [while (matched < pat.length)]: the value
    of [matched] when it ends.  The recursion is on the number of passes
    left, [pat.length - matched]. *)
Fixpoint indexOf_match (source pat : bytes) (pin matched j : Z) (left : nat)
  : Z :=
  match left with
  | O => matched
  | S left' =>
      let j := j + 1 in
      if decide (at_ source j <> at_ pat (j - pin)) then matched
      else indexOf_match source pat pin (matched + 1) j left'
  end.

(** The loop [for (let i = start; i < source.length; i++)] of [indexOf];
    the recursion is on [source.length - i]. *)
Fixpoint indexOf_loop (source pat : bytes) (i : Z) (left : nat) : Z :=
  match left with
  | O => -1
  | S left' =>
      let s := at_ pat 0 in
      if decide (at_ source i <> s) then
        indexOf_loop source pat (i + 1) left'
      else
        let pin := i in
        let matched :=
          indexOf_match source pat pin 1 i (Z.to_nat (len pat - 1)) in
        if decide (matched = len pat) then pin
        else indexOf_loop source pat (i + 1) left'
  end.

(** [indexOf(source, pat, start)]; the default of [start] is [0]. *)
Definition indexOf (source pat : bytes) (start : Z) : Z :=
  if decide (start >= len source) then -1
  else
    let start := if decide (start < 0) then 0 else start in
    indexOf_loop source pat start (Z.to_nat (len source - start)).

(** The inner loop of [lastIndexOf]. *)
Fixpoint lastIndexOf_match (source pat : bytes) (pin matched j : Z)
  (left : nat) : Z :=
  match left with
  | O => matched
  | S left' =>
      let j := j - 1 in
      if decide (at_ source j <> at_ pat (len pat - 1 - (pin - j)))
      then matched
      else lastIndexOf_match source pat pin (matched + 1) j left'
  end.

(** The loop [for (let i = start; i >= 0; i--)] of [lastIndexOf]; the
    recursion is on [i + 1]. *)
Fixpoint lastIndexOf_loop (source pat : bytes) (i : Z) (left : nat) : Z :=
  match left with
  | O => -1
  | S left' =>
      let e := at_ pat (len pat - 1) in
      if decide (at_ source i <> e) then
        lastIndexOf_loop source pat (i - 1) left'
      else
        let pin := i in
        let matched :=
          lastIndexOf_match source pat pin 1 i (Z.to_nat (len pat - 1)) in
        if decide (matched = len pat) then pin - len pat + 1
        else lastIndexOf_loop source pat (i - 1) left'
  end.

(** [lastIndexOf(source, pat, start)]; the default of [start] is
    [source.length - 1]. *)
Definition lastIndexOf (source pat : bytes) (start : Z) : Z :=
  if decide (start < 0) then -1
  else
    let start := if decide (start >= len source) then len source - 1
                 else start in
    lastIndexOf_loop source pat start (Z.to_nat (start + 1)).

(** [equals(a, b)]. *)
Fixpoint equals_loop (a b : bytes) (i : Z) (left : nat) : bool :=
  match left with
  | O => true
  | S left' =>
      if decide (at_ a i <> at_ b i) then false
      else equals_loop a b (i + 1) left'
  end.

Definition equals (a b : bytes) : bool :=
  if decide (len a <> len b) then false
  else equals_loop a b 0 (length b).

(** [contains(source, pat)]. *)
Definition contains (source pat : bytes) : bool :=
  bool_decide (indexOf source pat 0 <> -1).

End ByteUtil.

(** ** The abstract byte source and byte sink (Deno.Reader, Deno.Writer) *)

(** [read(p)] of a source: [None] is the end-of-stream value [null];
    otherwise the number [rr] it returns and the bytes it stored at the
    start of [p].  A source is handed the length of [p] only. *)
Class Reader (R : Type) := reader_read : R -> Z -> option (Z * bytes) * R.

(** The effect on [p] of a source storing [data] at its start: what does not
    fit is not stored. *)
Definition deposit (p data : bytes) : bytes :=
  take (length p) data ++ drop (length data) p.

(** A source that hands out a given list of fragments, one per read (a
    fragment may be empty: a read of zero bytes), and then signals the end
    of the stream.  A fragment longer than [p] is handed out in parts. *)
Abbreviation fragments := (list (list Z)).

#[global] Instance fragments_reader : Reader fragments := fun rd n =>
  match rd with
  | [] => (None, [])
  | c :: rest =>
      let d := take (Z.to_nat n) c in
      (Some (len d, d),
       if decide (length c <= Z.to_nat n)%nat then rest
       else drop (Z.to_nat n) c :: rest)
  end.

(** ** io/bufio.ts: the delimiter splitter *)

Module Delim.

(** [lps[i] = v] on a [Uint8Array]: stored modulo 256, ignored outside the
    array. *)
Definition typed_store (a : bytes) (i v : Z) : bytes :=
  if decide (0 <= i) then <[Z.to_nat i := v mod 256]> a else a.

(** The loop of [createLPS].  [prefixEnd] is a number or [undefined]
    ([None]): the fall-back [prefixEnd = pat[prefixEnd - 1]] reads the
    pattern, and outside it the read is [undefined].  With [prefixEnd]
    undefined neither [pat[i] == pat[prefixEnd]] nor [prefixEnd === 0] holds
    and [pat[prefixEnd - 1]] is undefined again. *)
Fixpoint createLPS_loop (fuel : nat) (pat lps : bytes) (prefixEnd : option Z)
  (i : Z) : option bytes :=
  if decide (i < len lps) then
    match fuel with
    | O => None
    | S fuel' =>
        match prefixEnd with
        | Some p =>
            if decide (at_ pat i = at_ pat p) then
              let p := p + 1 in
              createLPS_loop fuel' pat (typed_store lps i p) (Some p) (i + 1)
            else if decide (p = 0) then
              createLPS_loop fuel' pat (typed_store lps i 0) (Some p) (i + 1)
            else
              createLPS_loop fuel' pat lps (at_ pat (p - 1)) i
        | None => createLPS_loop fuel' pat lps None i
        end
    end
  else Some lps.

(** [createLPS(pat)]; [None] when the loop has not ended within [fuel]
    passes. *)
Definition createLPS (fuel : nat) (pat : bytes) : option bytes :=
  let lps := new_Uint8Array (len pat) in
  let lps := typed_store lps 0 0 in
  createLPS_loop fuel pat lps (Some 0) 1.

(** How a run of the generator [readDelim] ends. *)
Inductive gen_end : Type :=
| Returned    (* returned after the last chunk, at the end of the stream *)
| Aborted     (* returned silently on a negative read result *)
| Unfinished. (* neither, within the reads and passes allowed *)

(** Scanning state kept across reads: the bytes being processed, the scan
    index, and the match index (a number, or [undefined] after a read
    outside the failure table). *)
Definition scan_state : Type := bytes * Z * option Z.

Definition emit {A : Type} (chunk : bytes) (r : list bytes * A)
  : list bytes * A := (chunk :: fst r, snd r).

(** The inner loop of [readDelim],
    [while (inspectIndex < sliceToProcess.length)]: the chunks it yields and
    the state it ends in ([None] when [steps] passes were not enough). *)
Fixpoint scan (steps : nat) (delim delimLPS : bytes)
  (sliceToProcess : bytes) (inspectIndex : Z) (matchIndex : option Z)
  : list bytes * option scan_state :=
  if decide (inspectIndex < len sliceToProcess) then
    match steps with
    | O => ([], None)
    | S steps' =>
        match matchIndex with
        | Some m =>
            if decide (at_ sliceToProcess inspectIndex = at_ delim m) then
              let inspectIndex := inspectIndex + 1 in
              let m := m + 1 in
              if decide (m = len delim) then
                let matchEnd := inspectIndex - len delim in
                let readyBytes := subarray sliceToProcess 0 matchEnd in
                let pendingBytes := subarray_from sliceToProcess inspectIndex in
                emit readyBytes (scan steps' delim delimLPS pendingBytes 0 (Some 0))
              else scan steps' delim delimLPS sliceToProcess inspectIndex (Some m)
            else if decide (m = 0) then
              scan steps' delim delimLPS sliceToProcess (inspectIndex + 1) (Some m)
            else
              scan steps' delim delimLPS sliceToProcess inspectIndex
                   (at_ delimLPS (m - 1))
        | None => scan steps' delim delimLPS sliceToProcess inspectIndex None
        end
    end
  else ([], Some (sliceToProcess, inspectIndex, matchIndex)).

(** Modelled from the spec: the class [Buffer] of [io/buffer.ts] and
    [writeAll] of [io/util.ts] are imported by [bufio.ts] and are not part
    of the vendored sources.  The pending accumulation buffer is a growable
    byte buffer: [new Buffer()] is empty, [new Buffer(a)] holds the bytes of
    [a], [writeAll(buffer, a)] appends all of [a], and [bytes()] is the
    contents. *)
Definition Buffer_new : bytes := [].
Definition Buffer_from (a : bytes) : bytes := a.
Definition Buffer_writeAll (buffer a : bytes) : bytes := buffer ++ a.
Definition Buffer_bytes (buffer : bytes) : bytes := buffer.

Section ReadDelim.
Context {R : Type} `{Reader R}.

(** The outer loop of [readDelim], [while (true)], one pass per read of the
    source: the chunks yielded and how the run ends. *)
Fixpoint readDelim_loop (reads steps : nat) (reader : R)
  (delim delimLPS inputBuffer inspectArr : bytes)
  (inspectIndex : Z) (matchIndex : option Z) : list bytes * gen_end :=
  match reads with
  | O => ([], Unfinished)
  | S reads' =>
      let '(result, reader) := reader_read reader (len inspectArr) in
      match result with
      | None => ([Buffer_bytes inputBuffer], Returned)
      | Some (result, stored) =>
          let inspectArr := deposit inspectArr stored in
          if decide (result < 0) then ([], Aborted)
          else
            let sliceRead := subarray inspectArr 0 result in
            let inputBuffer := Buffer_writeAll inputBuffer sliceRead in
            let sliceToProcess := Buffer_bytes inputBuffer in
            match scan steps delim delimLPS sliceToProcess
                       inspectIndex matchIndex with
            | (chunks, None) => (chunks, Unfinished)
            | (chunks, Some (sliceToProcess, inspectIndex, matchIndex)) =>
                let r := readDelim_loop reads' steps reader delim delimLPS
                           (Buffer_from sliceToProcess) inspectArr
                           inspectIndex matchIndex in
                (chunks ++ fst r, snd r)
            end
      end
  end.

(** [readDelim(reader, delim)], run until the generator returns, or until
    [reads] reads of the source or [steps] passes of an inner loop were not
    enough. *)
Definition readDelim (reads steps : nat) (reader : R) (delim : bytes)
  : list bytes * gen_end :=
  let delimLen := len delim in
  match createLPS steps delim with
  | None => ([], Unfinished)
  | Some delimLPS =>
      let inputBuffer := Buffer_new in
      let inspectArr := new_Uint8Array (Z.max 1024 (delimLen + 1)) in
      readDelim_loop reads steps reader delim delimLPS inputBuffer inspectArr
                     0 (Some 0)
  end.

End ReadDelim.

(** The failure table as the documentation of [createLPS] describes it:
    entry [i] is the length of the longest proper prefix of the pattern
    that is also a suffix of [pat[0..i]].  [border_below k] looks for the
    longest such length below [k]. *)
Fixpoint border_below (w : bytes) (k : nat) : nat :=
  match k with
  | O => O
  | S k' =>
      if decide (take k' w = drop (length w - k') w) then k'
      else border_below w k'
  end.

Definition longest_proper_prefix_suffix (pat : bytes) (i : nat) : nat :=
  let w := take (S i) pat in border_below w (length w).

Definition lps_table (pat : bytes) : bytes :=
  map (fun i => Z.of_nat (longest_proper_prefix_suffix pat i))
      (seq 0 (length pat)).

End Delim.

(** ** Splitting a given input, fragment by fragment *)

Module Scenario.
Import Delim.

Section Table.
Variables (input delim delimLPS : bytes) (chunks : list bytes).
Variable passes : nat.

(** The chunks yielded and the scanning state reached once the first [k]
    bytes of the input have been read in a single piece. *)
Definition progress (k : nat) : list bytes * option scan_state :=
  scan passes delim delimLPS (take k input) 0 (Some 0).

Definition yielded (k : nat) : list bytes := fst (progress k).

Definition state (k : nat) : scan_state :=
  default ([], 0, None) (snd (progress k)).

(** What is still to be yielded after the first [k] bytes. *)
Definition remaining (k : nat) : list bytes :=
  drop (length (yielded k)) chunks.

(** Reading the next [j] bytes in the state reached after [k] bytes yields
    what the table says and leads to the state reached after [k + j]. *)
Definition fragment_ok (k j : nat) : bool :=
  let '(s, inspectIndex, matchIndex) := state k in
  match scan passes delim delimLPS (s ++ take j (drop k input))
             inspectIndex matchIndex with
  | (ys, Some st) =>
      bool_decide (st = state (k + j) /\ ys ++ remaining (k + j) = remaining k)
  | (_, None) => false
  end.

(** The whole table: every fragment at every position, the chunk yielded at
    the end of the stream, the failure table, and the size of the input
    against the scratch array of [readDelim]. *)
Definition table_ok : bool :=
  forallb (fun k => forallb (fragment_ok k) (seq 0 (S (length input) - k)))
          (seq 0 (S (length input)))
  && bool_decide ([fst (fst (state (length input)))] = remaining (length input))
  && bool_decide (remaining 0 = chunks)
  && bool_decide (state 0 = ([], 0, Some 0))
  && bool_decide (createLPS passes delim = Some delimLPS)
  && bool_decide (length input <= 1024)%nat.

End Table.

(** The bytes of ["A::B::C"], of ["A::"], of [":::"] and of the delimiter
    ["::"]. *)
Definition A_B_C : bytes := [65; 58; 58; 66; 58; 58; 67].
Definition A_ : bytes := [65; 58; 58].
Definition colons : bytes := [58; 58; 58].
Definition delim : bytes := [58; 58].

End Scenario.

(** ** io/bufio.ts: the buffered writers *)

(** [write(p)] of a sink ([Deno.Writer]) and [writeSync(p)] of a synchronous
    sink ([Deno.WriterSync]): the exception thrown, or the number of bytes
    the sink says it accepted, and the sink afterwards. *)
Class Writer (W E : Type) := writer_write : W -> bytes -> (E + Z) * W.
Class WriterSync (W E : Type) := writer_writeSync : W -> bytes -> (E + Z) * W.

(** A record of one call of a sink: the array it was handed and its
    answer.  The bytes a sink has received are, call after call, the part
    of each array that it accepted. *)
Definition sink_call (E : Type) : Type := bytes * (E + Z).

Definition accepted {E : Type} (c : sink_call E) : bytes :=
  match snd c with
  | inr n => subarray (fst c) 0 n
  | inl _ => []
  end.

Definition received {E : Type} (calls : list (sink_call E)) : bytes :=
  List.concat (map accepted calls).

Definition DEFAULT_BUF_SIZE : Z := 4096.
Definition MIN_BUF_SIZE : Z := 16.
Definition MAX_CONSECUTIVE_EMPTY_READS : nat := 100.
Definition CR : Z := 13.
Definition LF : Z := 10.

Module BufWriter.
Section BufWriter.
Context {W E : Type} `{Writer W E}.

(** The fields of [AbstractBufBase] and of [BufWriter]; [sink_calls] is not
    a field of the class: it records the calls made to the sinks, oldest
    first. *)
Record t : Type := mk {
  buf : bytes;
  usedBufferBytes : Z;
  err : option E;
  writer : W;
  sink_calls : list (sink_call E)
}.

Definition size (this : t) : Z := len (buf this).
Definition available (this : t) : Z := len (buf this) - usedBufferBytes this.
Definition buffered (this : t) : Z := usedBufferBytes this.

(** [new BufWriter(writer, size)]. *)
Definition new (writer : W) (size : Z) : t :=
  let size := if decide (size <= 0) then DEFAULT_BUF_SIZE else size in
  mk (new_Uint8Array size) 0 None writer [].

(** [reset(w)]. *)
Definition reset (this : t) (w : W) : t :=
  mk (buf this) 0 None w (sink_calls this).

(** Modelled from the spec: [writeAll] of [io/util.ts] is imported by
    [bufio.ts] and is not part of the vendored sources.  It writes the
    buffered region to the sink in one logical operation, decomposed into
    as many calls of the sink as it takes: each call is handed what the
    previous ones have not accepted. *)
Fixpoint writeAll (fuel : nat) (w : W) (calls : list (sink_call E))
  (arr : bytes) (nwritten : Z) : outcome E unit * W * list (sink_call E) :=
  if decide (nwritten < len arr) then
    match fuel with
    | O => (OutOfFuel, w, calls)
    | S fuel' =>
        let p := subarray_from arr nwritten in
        let '(answer, w) := writer_write w p in
        let calls := calls ++ [(p, answer)] in
        match answer with
        | inl e => (Throw e, w, calls)
        | inr n => writeAll fuel' w calls arr (nwritten + n)
        end
    end
  else (Ok tt, w, calls).

(** [flush()]. *)
Definition flush (fuel : nat) (this : t) : outcome E unit * t :=
  match err this with
  | Some e => (Throw e, this)
  | None =>
      if decide (usedBufferBytes this = 0) then (Ok tt, this)
      else
        match writeAll fuel (writer this) (sink_calls this)
                       (subarray (buf this) 0 (usedBufferBytes this)) 0 with
        | (Throw e, w, calls) =>
            (Throw e, mk (buf this) (usedBufferBytes this) (Some e) w calls)
        | (OutOfFuel, w, calls) =>
            (OutOfFuel, mk (buf this) (usedBufferBytes this) None w calls)
        | (Ok _, w, calls) =>
            (Ok tt, mk (new_Uint8Array (len (buf this))) 0 None w calls)
        end
  end.

(** The loop of [write(data)],
    [while (data.byteLength > this.available())], and what follows it. *)
Fixpoint write_loop (fuel : nat) (this : t) (data : bytes)
  (totalBytesWritten : Z) : outcome E Z * t :=
  if decide (len data > available this) then
    match fuel with
    | O => (OutOfFuel, this)
    | S fuel' =>
        if decide (buffered this = 0) then
          let '(answer, w) := writer_write (writer this) data in
          let calls := sink_calls this ++ [(data, answer)] in
          match answer with
          | inl e =>
              (Throw e,
               mk (buf this) (usedBufferBytes this) (Some e) w calls)
          | inr numBytesWritten =>
              write_loop fuel'
                (mk (buf this) (usedBufferBytes this) (err this) w calls)
                (subarray_from data numBytesWritten)
                (totalBytesWritten + numBytesWritten)
          end
        else
          let '(buf', numBytesWritten) :=
            ByteUtil.copy data (buf this) (usedBufferBytes this) in
          let this := mk buf' (usedBufferBytes this + numBytesWritten)
                         (err this) (writer this) (sink_calls this) in
          match flush fuel' this with
          | (Ok _, this) =>
              write_loop fuel' this (subarray_from data numBytesWritten)
                         (totalBytesWritten + numBytesWritten)
          | (Throw e, this) => (Throw e, this)
          | (OutOfFuel, this) => (OutOfFuel, this)
          end
    end
  else
    let '(buf', numBytesWritten) :=
      ByteUtil.copy data (buf this) (usedBufferBytes this) in
    (Ok (totalBytesWritten + numBytesWritten),
     mk buf' (usedBufferBytes this + numBytesWritten)
        (err this) (writer this) (sink_calls this)).

(** [write(data)]. *)
Definition write (fuel : nat) (this : t) (data : bytes) : outcome E Z * t :=
  match err this with
  | Some e => (Throw e, this)
  | None =>
      if decide (len data = 0) then (Ok 0, this)
      else write_loop fuel this data 0
  end.

(** [write(b1)], ..., [write(bn)] in a row: the answers, oldest first, and
    the writer afterwards. *)
Fixpoint writes (fuel : nat) (this : t) (bs : list bytes)
  : list (outcome E Z) * t :=
  match bs with
  | [] => ([], this)
  | b :: bs' =>
      let '(answer, this) := write fuel this b in
      let '(answers, this) := writes fuel this bs' in
      (answer :: answers, this)
  end.

End BufWriter.
Arguments t W E : clear implicits.
End BufWriter.

Module BufWriterSync.
Section BufWriterSync.
Context {W E : Type} `{WriterSync W E}.

(** The fields of [AbstractBufBase] and of [BufWriterSync]; [sink_calls]
    records the calls made to the sinks, oldest first. *)
Record t : Type := mk {
  buf : bytes;
  usedBufferBytes : Z;
  err : option E;
  writer : W;
  sink_calls : list (sink_call E)
}.

Definition size (this : t) : Z := len (buf this).
Definition available (this : t) : Z := len (buf this) - usedBufferBytes this.
Definition buffered (this : t) : Z := usedBufferBytes this.

(** [new BufWriterSync(writer, size)]. *)
Definition new (writer : W) (size : Z) : t :=
  let size := if decide (size <= 0) then DEFAULT_BUF_SIZE else size in
  mk (new_Uint8Array size) 0 None writer [].

(** [reset(w)]. *)
Definition reset (this : t) (w : W) : t :=
  mk (buf this) 0 None w (sink_calls this).

(** Modelled from the spec: [writeAllSync] of [io/util.ts], the synchronous
    twin of [writeAll], is not part of the vendored sources either. *)
Fixpoint writeAllSync (fuel : nat) (w : W) (calls : list (sink_call E))
  (arr : bytes) (nwritten : Z) : outcome E unit * W * list (sink_call E) :=
  if decide (nwritten < len arr) then
    match fuel with
    | O => (OutOfFuel, w, calls)
    | S fuel' =>
        let p := subarray_from arr nwritten in
        let '(answer, w) := writer_writeSync w p in
        let calls := calls ++ [(p, answer)] in
        match answer with
        | inl e => (Throw e, w, calls)
        | inr n => writeAllSync fuel' w calls arr (nwritten + n)
        end
    end
  else (Ok tt, w, calls).

(** [flush()]. *)
Definition flush (fuel : nat) (this : t) : outcome E unit * t :=
  match err this with
  | Some e => (Throw e, this)
  | None =>
      if decide (usedBufferBytes this = 0) then (Ok tt, this)
      else
        match writeAllSync fuel (writer this) (sink_calls this)
                           (subarray (buf this) 0 (usedBufferBytes this)) 0
        with
        | (Throw e, w, calls) =>
            (Throw e, mk (buf this) (usedBufferBytes this) (Some e) w calls)
        | (OutOfFuel, w, calls) =>
            (OutOfFuel, mk (buf this) (usedBufferBytes this) None w calls)
        | (Ok _, w, calls) =>
            (Ok tt, mk (new_Uint8Array (len (buf this))) 0 None w calls)
        end
  end.

(** The loop of [writeSync(data)] and what follows it. *)
Fixpoint writeSync_loop (fuel : nat) (this : t) (data : bytes)
  (totalBytesWritten : Z) : outcome E Z * t :=
  if decide (len data > available this) then
    match fuel with
    | O => (OutOfFuel, this)
    | S fuel' =>
        if decide (buffered this = 0) then
          let '(answer, w) := writer_writeSync (writer this) data in
          let calls := sink_calls this ++ [(data, answer)] in
          match answer with
          | inl e =>
              (Throw e,
               mk (buf this) (usedBufferBytes this) (Some e) w calls)
          | inr numBytesWritten =>
              writeSync_loop fuel'
                (mk (buf this) (usedBufferBytes this) (err this) w calls)
                (subarray_from data numBytesWritten)
                (totalBytesWritten + numBytesWritten)
          end
        else
          let '(buf', numBytesWritten) :=
            ByteUtil.copy data (buf this) (usedBufferBytes this) in
          let this := mk buf' (usedBufferBytes this + numBytesWritten)
                         (err this) (writer this) (sink_calls this) in
          match flush fuel' this with
          | (Ok _, this) =>
              writeSync_loop fuel' this (subarray_from data numBytesWritten)
                             (totalBytesWritten + numBytesWritten)
          | (Throw e, this) => (Throw e, this)
          | (OutOfFuel, this) => (OutOfFuel, this)
          end
    end
  else
    let '(buf', numBytesWritten) :=
      ByteUtil.copy data (buf this) (usedBufferBytes this) in
    (Ok (totalBytesWritten + numBytesWritten),
     mk buf' (usedBufferBytes this + numBytesWritten)
        (err this) (writer this) (sink_calls this)).

(** [writeSync(data)]. *)
Definition writeSync (fuel : nat) (this : t) (data : bytes)
  : outcome E Z * t :=
  match err this with
  | Some e => (Throw e, this)
  | None =>
      if decide (len data = 0) then (Ok 0, this)
      else writeSync_loop fuel this data 0
  end.

(** [writeSync(b1)], ..., [writeSync(bn)] in a row. *)
Fixpoint writes (fuel : nat) (this : t) (bs : list bytes)
  : list (outcome E Z) * t :=
  match bs with
  | [] => ([], this)
  | b :: bs' =>
      let '(answer, this) := writeSync fuel this b in
      let '(answers, this) := writes fuel this bs' in
      (answer :: answers, this)
  end.

End BufWriterSync.
Arguments t W E : clear implicits.
End BufWriterSync.

(** A sink that, handed a non-empty array, accepts at least one byte and at
    most the whole array, and does not throw. *)
Definition accepts_some {W E : Type} `{Writer W E} : Prop :=
  forall (w : W) (p : bytes), p <> [] ->
    exists (n : Z) (w' : W),
      writer_write w p = (inr n, w') /\ 1 <= n <= len p.

(** The state of a [BufWriter] between calls, in the course of sending
    [sent]: the writer is writable, its buffer has capacity [C], and what
    the sinks have received followed by what is buffered is [sent]. *)
Definition holds {W E : Type} (C : Z) (sent : bytes) (this : BufWriter.t W E)
  : Prop :=
  BufWriter.err this = None /\
  len (BufWriter.buf this) = C /\
  0 <= BufWriter.usedBufferBytes this <= C /\
  received (BufWriter.sink_calls this)
    ++ take (Z.to_nat (BufWriter.usedBufferBytes this)) (BufWriter.buf this)
  = sent.

(** Two sinks for examples.  The first accepts at most three bytes of what
    it is handed.  The second accepts everything until its budget of calls
    is spent and throws from then on. *)
Inductive stingy_sink : Type := Stingy.

#[global] Instance stingy_writer : Writer stingy_sink unit :=
  fun w p => (inr (Z.min 3 (len p)), w).

Inductive failing_sink : Type := FailsAfter (budget : nat).

Definition failing_write (w : failing_sink) (p : bytes)
  : (string + Z) * failing_sink :=
  match w with
  | FailsAfter O => (inl "sink closed"%string, w)
  | FailsAfter (S n) => (inr (len p), FailsAfter n)
  end.

#[global] Instance failing_writer : Writer failing_sink string := failing_write.
#[global] Instance failing_writerSync : WriterSync failing_sink string :=
  failing_write.

(** ** io/bufio.ts: the buffered reader *)

(** The slices that [BufReader] returns are windows on its internal buffer,
    and the payload of a [BufferFullError] is that buffer itself.  Arrays
    are therefore kept in a store of [ArrayBuffer]s, and a [Uint8Array] is a
    window on one of them. *)
Abbreviation heap := (list (list Z)).

Record u8 : Type := U8 { base : nat; offset : nat; extent : nat }.

Definition byteLength (v : u8) : Z := Z.of_nat (extent v).

(** The bytes seen through a window. *)
Definition contents (h : heap) (v : u8) : bytes :=
  take (extent v) (drop (offset v) (h !!! base v)).

(** Storing [data] at the start of a window ([deposit] cuts what does not
    fit). *)
Definition store (h : heap) (v : u8) (data : bytes) : heap :=
  alter (fun old =>
           take (offset v) old
             ++ deposit (take (extent v) (drop (offset v) old)) data
             ++ drop (offset v + extent v) old)
        (base v) h.

(** [new Uint8Array(n)] and [v.slice(0)]: a new [ArrayBuffer] and the window
    on the whole of it. *)
Definition alloc (h : heap) (b : bytes) : heap * u8 :=
  (h ++ [b], U8 (length h) 0 (length b)).

(** [v.subarray(b, e)] and [v.subarray(b)]: a window on the same
    [ArrayBuffer]. *)
Definition u8_subarray (v : u8) (b e : Z) : u8 :=
  let b' := rel_index (byteLength v) b in
  let e' := rel_index (byteLength v) e in
  U8 (base v) (offset v + Z.to_nat b') (Z.to_nat (e' - b')).

Definition u8_subarray_from (v : u8) (b : Z) : u8 :=
  u8_subarray v b (byteLength v).

(** A window lies within its [ArrayBuffer]. *)
Definition window_ok (h : heap) (v : u8) : Prop :=
  (base v < length h)%nat /\
  (offset v + extent v <= length (h !!! base v))%nat.

(** Two stores with the same arrays, up to their bytes. *)
Definition same_shape (h h' : heap) : Prop :=
  length h' = length h /\
  forall loc : nat, length (h' !!! loc) = length (h !!! loc).

(** Exceptions: the class, the message and the [partial] property
    ([None] while it is undefined). *)
Inductive error_class : Type :=
| BufferFullError
| PartialReadError
| AssertionError
| PlainError.

#[global] Instance error_class_eq_dec : EqDecision error_class.
Proof. solve_decision. Defined.

Record error : Type := mkError {
  class : error_class;
  message : string;
  partial : option u8
}.

Definition set_partial (e : error) (p : option u8) : error :=
  mkError (class e) (message e) p.

(** Modelled from the spec: [assert] of [_util/assert.ts] is imported by
    [bufio.ts] and is not part of the vendored sources.  A failed assertion
    is a programming-error-class failure: it throws an exception carrying
    the message. *)
Definition assertion (msg : string) : error := mkError AssertionError msg None.

Module BufReader.
Section BufReader.
Context {R : Type} `{Reader R}.

(** The fields of a [BufReader], together with the store of arrays. *)
Record state : Type := mkState {
  mem : heap;
  buf : u8;
  rd : R;
  r : Z;
  w : Z;
  eof : bool
}.

Definition with_mem (s : state) (h : heap) : state :=
  mkState h (buf s) (rd s) (r s) (w s) (eof s).
Definition with_buf (s : state) (v : u8) : state :=
  mkState (mem s) v (rd s) (r s) (w s) (eof s).
Definition with_rd (s : state) (x : R) : state :=
  mkState (mem s) (buf s) x (r s) (w s) (eof s).
Definition with_r (s : state) (x : Z) : state :=
  mkState (mem s) (buf s) (rd s) x (w s) (eof s).
Definition with_w (s : state) (x : Z) : state :=
  mkState (mem s) (buf s) (rd s) (r s) x (eof s).
Definition with_eof (s : state) (x : bool) : state :=
  mkState (mem s) (buf s) (rd s) (r s) (w s) x.

Definition size (s : state) : Z := byteLength (buf s).
Definition buffered (s : state) : Z := w s - r s.

(** [rd.read(p)]: the answer, and the state once the source has stored its
    bytes in [p]. *)
Definition source_read (s : state) (p : u8) : option Z * state :=
  let '(answer, rd') := reader_read (rd s) (byteLength p) in
  match answer with
  | None => (None, with_rd s rd')
  | Some (rr, stored) =>
      (Some rr, with_rd (with_mem s (store (mem s) p stored)) rd')
  end.

(** The loop of [_fill]:
    [for (let i = MAX_CONSECUTIVE_EMPTY_READS; i > 0; i--)]. *)
Fixpoint fill_loop (i : nat) (s : state) : outcome error unit * state :=
  match i with
  | O => (Throw (mkError PlainError "No progress after 100 read() calls" None),
          s)
  | S i' =>
      match source_read s (u8_subarray_from (buf s) (w s)) with
      | (None, s) => (Ok tt, with_eof s true)
      | (Some rr, s) =>
          if decide (rr >= 0) then
            let s := with_w s (w s + rr) in
            if decide (rr > 0) then (Ok tt, s) else fill_loop i' s
          else (Throw (assertion "negative read"), s)
      end
  end.

(** The beginning of [_fill()]: slide existing data to beginning. *)
Definition slide (s : state) : state :=
  if decide (r s > 0) then
    let moved := copyWithin (contents (mem s) (buf s)) 0 (r s) (w s) in
    let s := with_mem s (store (mem s) (buf s) moved) in
    let s := with_w s (w s - r s) in
    with_r s 0
  else s.

(** [_fill()]. *)
Definition _fill (s : state) : outcome error unit * state :=
  let s := slide s in
  if decide (w s >= byteLength (buf s)) then
    (Throw (mkError PlainError "bufio: tried to fill full buffer" None), s)
  else fill_loop MAX_CONSECUTIVE_EMPTY_READS s.

(** [_reset(buf, rd)] sets [buf], [rd] and [eof], and [reset(r)] is
    [_reset(this.buf, r)]: the cursors [r] and [w] stay as they are. *)
Definition _reset (s : state) (b : u8) (x : R) : state :=
  with_eof (with_rd (with_buf s b) x) false.

Definition reset (s : state) (x : R) : state := _reset s (buf s) x.

(** [new BufReader(rd, size)]: the fields [r], [w] and [eof] start at [0],
    [0] and [false]. *)
Definition new (h : heap) (rd : R) (size : Z) : state :=
  let size := if decide (size < MIN_BUF_SIZE) then MIN_BUF_SIZE else size in
  let '(h, b) := alloc h (new_Uint8Array size) in
  _reset (mkState h b rd 0 0 false) b rd.


(** [copy(src, dst, 0)] between windows. *)
Definition copy_to (s : state) (src dst : u8) : Z * state :=
  let '(dst', n) :=
    ByteUtil.copy (contents (mem s) src) (contents (mem s) dst) 0 in
  (n, with_mem s (store (mem s) dst dst')).

(** The end of [read(p)]: copy as much as we can. *)
Definition read_copy (s : state) (p : u8) : outcome error (option Z) * state :=
  let '(copied, s) := copy_to s (u8_subarray (buf s) (r s) (w s)) p in
  (Ok (Some copied), with_r s (r s + copied)).

(** [read(p)]: [None] is [null]. *)
Definition read (s : state) (p : u8) : outcome error (option Z) * state :=
  let rr := byteLength p in
  if decide (byteLength p = 0) then (Ok (Some rr), s)
  else
    if decide (r s = w s) then
      if decide (byteLength p >= byteLength (buf s)) then
        match source_read s p with
        | (None, s) => (Ok None, s)
        | (Some rr, s) =>
            if decide (rr >= 0) then (Ok (Some rr), s)
            else (Throw (assertion "negative read"), s)
        end
      else
        let s := with_w (with_r s 0) 0 in
        match source_read s (buf s) with
        | (None, s) => (Ok None, s)
        | (Some rr, s) =>
            if decide (rr = 0) then (Ok (Some rr), s)
            else if decide (rr >= 0) then read_copy (with_w s (w s + rr)) p
            else (Throw (assertion "negative read"), s)
        end
    else read_copy s p.

(** The loop of [readFull(p)]. *)
Fixpoint readFull_loop (fuel : nat) (s : state) (p : u8) (bytesRead : Z)
  : outcome error (option u8) * state :=
  if decide (bytesRead < byteLength p) then
    match fuel with
    | O => (OutOfFuel, s)
    | S fuel' =>
        match read s (u8_subarray_from p bytesRead) with
        | (Ok None, s) =>
            if decide (bytesRead = 0) then (Ok None, s)
            else
              (Throw (mkError PartialReadError
                        "Encountered UnexpectedEof, data only partially read"
                        (Some (u8_subarray p 0 bytesRead))), s)
        | (Ok (Some rr), s) => readFull_loop fuel' s p (bytesRead + rr)
        | (Throw err, s) =>
            (Throw (set_partial err (Some (u8_subarray p 0 bytesRead))), s)
        | (OutOfFuel, s) => (OutOfFuel, s)
        end
    end
  else (Ok (Some p), s).

Definition readFull (fuel : nat) (s : state) (p : u8)
  : outcome error (option u8) * state :=
  readFull_loop fuel s p 0.

(** [readByte()]: [None] is [null], otherwise the value read at
    [this.buf[this.r]]. *)
Fixpoint readByte (fuel : nat) (s : state)
  : outcome error (option (option Z)) * state :=
  if decide (r s = w s) then
    match fuel with
    | O => (OutOfFuel, s)
    | S fuel' =>
        if eof s then (Ok None, s)
        else
          match _fill s with
          | (Ok _, s) => readByte fuel' s
          | (Throw err, s) => (Throw err, s)
          | (OutOfFuel, s) => (OutOfFuel, s)
          end
    end
  else
    let c := at_ (contents (mem s) (buf s)) (r s) in
    (Ok (Some c), with_r s (r s + 1)).

(** The loop of [readSlice(delim)], [while (true)], with the search start
    index [s0].  The local [slice] is still undefined where a failure of
    [_fill] is caught, so that the [partial] property of what is rethrown
    is undefined. *)
Fixpoint readSlice_loop (fuel : nat) (s : state) (delim : Z) (s0 : Z)
  : outcome error (option u8) * state :=
  match fuel with
  | O => (OutOfFuel, s)
  | S fuel' =>
      let i := indexOf (contents (mem s)
                          (u8_subarray (buf s) (r s + s0) (w s))) delim in
      if decide (i >= 0) then
        let i := i + s0 in
        let slice := u8_subarray (buf s) (r s) (r s + i + 1) in
        (Ok (Some slice), with_r s (r s + (i + 1)))
      else if eof s then
        if decide (r s = w s) then (Ok None, s)
        else
          let slice := u8_subarray (buf s) (r s) (w s) in
          (Ok (Some slice), with_r s (w s))
      else if decide (buffered s >= byteLength (buf s)) then
        let s := with_r s (w s) in
        let oldbuf := buf s in
        let '(h, newbuf) := alloc (mem s) (contents (mem s) (buf s)) in
        let s := with_buf (with_mem s h) newbuf in
        (Throw (mkError BufferFullError "Buffer full" (Some oldbuf)), s)
      else
        let s0 := w s - r s in
        match _fill s with
        | (Ok _, s) => readSlice_loop fuel' s delim s0
        | (Throw err, s) => (Throw (set_partial err None), s)
        | (OutOfFuel, s) => (OutOfFuel, s)
        end
  end.

Definition readSlice (fuel : nat) (s : state) (delim : Z)
  : outcome error (option u8) * state :=
  readSlice_loop fuel s delim 0.

(** [readString(delim)], for a string given by its code units.  The text
    returned is the decoding of the slice; the slice stands for it. *)
Definition readString (fuel : nat) (s : state) (delim : list Z)
  : outcome error (option u8) * state :=
  if decide (length delim <> 1%nat) then
    (Throw (mkError PlainError "Delimiter should be a single character" None),
     s)
  else readSlice fuel s (default 0 (head delim)).

(** [readLine()]: [None] is [null], otherwise [line] and [more]. *)
Definition readLine (fuel : nat) (s : state)
  : outcome error (option (u8 * bool)) * state :=
  match readSlice fuel s LF with
  | (Throw err, s) =>
      match partial err with
      | None =>
          (Throw (assertion
             "bufio: caught error from `readSlice()` without `partial` property"),
           s)
      | Some partial =>
          if decide (class err <> BufferFullError) then (Throw err, s)
          else if decide (eof s = false /\ byteLength partial > 0 /\
                          at_ (contents (mem s) partial)
                              (byteLength partial - 1) = Some CR) then
            if decide (r s > 0) then
              let s := with_r s (r s - 1) in
              let partial := u8_subarray partial 0 (byteLength partial - 1) in
              (Ok (Some (partial, negb (eof s))), s)
            else
              (Throw (assertion "bufio: tried to rewind past start of buffer"),
               s)
          else (Ok (Some (partial, negb (eof s))), s)
      end
  | (OutOfFuel, s) => (OutOfFuel, s)
  | (Ok None, s) => (Ok None, s)
  | (Ok (Some line), s) =>
      if decide (byteLength line = 0) then (Ok (Some (line, false)), s)
      else
        let line :=
          if decide (at_ (contents (mem s) line) (byteLength line - 1)
                     = Some LF) then
            let drop :=
              if decide (byteLength line > 1 /\
                         at_ (contents (mem s) line) (byteLength line - 2)
                         = Some CR) then 2 else 1 in
            u8_subarray line 0 (byteLength line - drop)
          else line in
        (Ok (Some (line, false)), s)
  end.

(** The loop of [peek(n)]. *)
Fixpoint peek_loop (fuel : nat) (s : state) (n : Z) (avail : Z)
  : outcome error Z * state :=
  if decide (avail < n /\ avail < byteLength (buf s) /\ eof s = false) then
    match fuel with
    | O => (OutOfFuel, s)
    | S fuel' =>
        match _fill s with
        | (Ok _, s) => peek_loop fuel' s n (w s - r s)
        | (Throw err, s) =>
            (Throw (set_partial err (Some (u8_subarray (buf s) (r s) (w s)))),
             s)
        | (OutOfFuel, s) => (OutOfFuel, s)
        end
    end
  else (Ok avail, s).

(** [peek(n)]. *)
Definition peek (fuel : nat) (s : state) (n : Z)
  : outcome error (option u8) * state :=
  if decide (n < 0) then
    (Throw (mkError PlainError "negative count" None), s)
  else
    match peek_loop fuel s n (w s - r s) with
    | (Ok avail, s) =>
        if decide (avail = 0 /\ eof s = true) then (Ok None, s)
        else if decide (avail < n /\ eof s = true) then
          (Ok (Some (u8_subarray (buf s) (r s) (r s + avail))), s)
        else if decide (avail < n) then
          (Throw (mkError BufferFullError "Buffer full"
                    (Some (u8_subarray (buf s) (r s) (w s)))), s)
        else (Ok (Some (u8_subarray (buf s) (r s) (r s + n))), s)
    | (Throw err, s) => (Throw err, s)
    | (OutOfFuel, s) => (OutOfFuel, s)
    end.

(** The operations of a [BufReader], for talking about any of them and
    about sequences of them. *)
Inductive op : Type :=
| Read (p : u8)
| ReadFull (p : u8)
| ReadByte
| ReadSlice (delim : Z)
| ReadString (delim : list Z)
| ReadLine
| Peek (n : Z)
| Reset (x : R).

(** The state after an operation, whatever it answers. *)
Definition after (fuel : nat) (o : op) (s : state) : state :=
  match o with
  | Read p => snd (read s p)
  | ReadFull p => snd (readFull fuel s p)
  | ReadByte => snd (readByte fuel s)
  | ReadSlice delim => snd (readSlice fuel s delim)
  | ReadString delim => snd (readString fuel s delim)
  | ReadLine => snd (readLine fuel s)
  | Peek n => snd (peek fuel s n)
  | Reset x => reset s x
  end.

Definition after_all (fuel : nat) (os : list op) (s : state) : state :=
  fold_left (fun s o => after fuel o s) os s.

(** The array that an operation is handed to fill, if any. *)
Definition destination (o : op) : option u8 :=
  match o with
  | Read p | ReadFull p => Some p
  | _ => None
  end.

(** The cursor invariant. *)
Definition cursors_ok (s : state) : Prop :=
  0 <= r s /\ r s <= w s /\ w s <= byteLength (buf s).

(** The state of a reader of capacity [C] between calls: the cursor
    invariant, and the internal buffer is an array of [C] bytes. *)
Definition reader_ok (C : Z) (s : state) : Prop :=
  cursors_ok s /\ byteLength (buf s) = C /\ window_ok (mem s) (buf s).

(** The array at [loc] is one that the reader does not use as its internal
    buffer; and it is the same in [s'] as in [s], where the reader still
    does not use it. *)
Definition apart (loc : nat) (s : state) : Prop :=
  (loc < length (mem s))%nat /\ base (buf s) <> loc.

Definition kept (loc : nat) (s s' : state) : Prop :=
  mem s' !! loc = mem s !! loc /\ apart loc s'.

(** No operation of the list is handed an array on [loc] to fill. *)
Definition fills_elsewhere (loc : nat) (os : list op) : Prop :=
  Forall (fun o => forall p, destination o = Some p -> base p <> loc) os.

(** A source that answers [null] or a count between [0] and the length of
    the array it is handed. *)
Definition bounded_source : Prop :=
  forall (x : R) (n : Z),
    0 <= n ->
    match fst (reader_read x n) with
    | None => True
    | Some (rr, _) => 0 <= rr <= n
    end.

End BufReader.
Arguments state R : clear implicits.
Arguments op R : clear implicits.
End BufReader.

(** The bytes between the cursors, and, over a source that hands out
    fragments, the bytes still to be read: those followed by the fragments
    that the source still holds. *)
Definition buffered_bytes {R : Type} (s : BufReader.state R) : bytes :=
  subarray (contents (BufReader.mem s) (BufReader.buf s))
           (BufReader.r s) (BufReader.w s).

Definition unread (s : BufReader.state fragments) : bytes :=
  buffered_bytes s ++ List.concat (BufReader.rd s).

(** A source of fragments none of which is empty: every read before the
    end of the stream delivers at least one byte. *)
Definition nonempty_fragments (rd : fragments) : Prop :=
  Forall (fun c : bytes => c <> []) rd.

(** A line without its end, as the documentation of [readLine] has it: a
    trailing LF is stripped, and a trailing CR immediately preceding it. *)
Definition chomp (line : bytes) : bytes :=
  match reverse line with
  | x :: y :: m =>
      if decide (x = LF) then
        if decide (y = CR) then reverse m else reverse (y :: m)
      else line
  | [x] => if decide (x = LF) then [] else line
  | [] => []
  end.

(** The bytes of ["abc\r\ndef\n"]. *)
Definition two_lines : bytes := [97; 98; 99; 13; 10; 100; 101; 102; 10].

(** ** Notions used in the statements about the utilities, the writers and
    the reader *)

(** [pat] occurs in [source] at index [i]. *)
Definition occurs_at (source pat : bytes) (i : Z) : Prop :=
  exists front back : bytes, source = front ++ pat ++ back /\ len front = i.

(** The pieces of [l] between the occurrences of the byte [d]: one more
    piece than there are occurrences. *)
Fixpoint split_on (d : Z) (l : bytes) : list bytes :=
  match l with
  | [] => [[]]
  | x :: l' =>
      if decide (x = d) then [] :: split_on d l'
      else
        match split_on d l' with
        | c :: cs => (x :: c) :: cs
        | [] => [[x]]
        end
  end.

(** [source] holds the bytes of [pat] from index [k] on, index by index. *)
Definition agrees_at (source pat : bytes) (k : Z) : Prop :=
  0 <= k /\
  forall m : Z, 0 <= m < len pat -> at_ source (k + m) = at_ pat m.

(** The same notions for the synchronous writer and its sinks. *)
Definition accepts_some_sync {W E : Type} `{WriterSync W E} : Prop :=
  forall (w : W) (p : bytes), p <> [] ->
    exists (n : Z) (w' : W),
      writer_writeSync w p = (inr n, w') /\ 1 <= n <= len p.

Definition holds_sync {W E : Type} (C : Z) (sent : bytes)
  (this : BufWriterSync.t W E) : Prop :=
  BufWriterSync.err this = None /\
  len (BufWriterSync.buf this) = C /\
  0 <= BufWriterSync.usedBufferBytes this <= C /\
  received (BufWriterSync.sink_calls this)
    ++ take (Z.to_nat (BufWriterSync.usedBufferBytes this))
            (BufWriterSync.buf this)
  = sent.

#[global] Instance stingy_writerSync : WriterSync stingy_sink unit :=
  fun w p => (inr (Z.min 3 (len p)), w).

(** A reader of capacity [C] over a source of fragments, between calls:
    the fragments are not empty, and once the end of the stream has been
    seen the source has nothing left. *)
Definition stream_ok (C : Z) (s : BufReader.state fragments) : Prop :=
  0 < C /\ BufReader.reader_ok C s /\
  nonempty_fragments (BufReader.rd s) /\
  (BufReader.eof s = true -> BufReader.rd s = []).


(** The pieces of [l] between the occurrences of [delim] found from left to
    right, each one looked for from the end of the one before: the first
    [skip] bytes of [l] are the rest of an occurrence already found.  After
    the last occurrence comes what is left of [l], possibly nothing. *)
Fixpoint pieces (delim : bytes) (skip : nat) (l : bytes) : list bytes :=
  match l with
  | [] => [[]]
  | x :: l' =>
      match skip with
      | S k => pieces delim k l'
      | O =>
          if decide (take (length delim) l = delim)
          then [] :: pieces delim (length delim - 1) l'
          else
            match pieces delim 0 l' with
            | c :: cs => (x :: c) :: cs
            | [] => [[x]]
            end
      end
  end.

Definition split_seq (delim l : bytes) : list bytes := pieces delim 0 l.

(** [s] holds the first [k] bytes of [delim] from index [j] on. *)
Definition matched (delim s : bytes) (j k : nat) : Prop :=
  forall t : nat, (t < k)%nat -> s !! (j + t)%nat = delim !! t.

(** The first [k] bytes of [delim] are also the last [k] of its first
    [m]. *)
Definition border (delim : bytes) (m k : nat) : Prop :=
  forall t : nat, (t < k)%nat -> delim !! (m - k + t)%nat = delim !! t.

(** What the inner loop of [readDelim] knows at scan index [i] with match
    index [m], when the failure table is right: the [m] bytes before [i]
    are the first [m] of the delimiter; a longer beginning of the delimiter
    that ends at [i] is one that the byte at [i] does not continue; and the
    delimiter does not occur within the first [i] bytes. *)
Definition scan_inv (delim s : bytes) (i m : nat) : Prop :=
  (m <= i)%nat /\ (i <= length s)%nat /\ (m < length delim)%nat /\
  matched delim s (i - m) m /\
  (forall j : nat,
      (j < i - m)%nat -> (i - j < length delim)%nat ->
      matched delim s j (i - j) ->
      (i < length s)%nat /\ s !! i <> delim !! (i - j)%nat) /\
  (forall j : nat,
      (j + length delim <= i)%nat -> ~ matched delim s j (length delim)).
(** * Properties *)

(** ** Typed-array primitives *)

Lemma len_nonneg (a : bytes) : 0 <= len a.
Proof. unfold len. lia. Qed.

Lemma len_app (a b : bytes) : len (a ++ b) = len a + len b.
Proof. unfold len. rewrite length_app. lia. Qed.

Lemma at_in_range (a : bytes) (i : Z) :
  0 <= i < len a -> exists x, at_ a i = Some x.
Proof.
  intros Hi. unfold at_, len in *.
  destruct (decide (0 <= i)); [|lia].
  apply lookup_lt_is_Some. lia.
Qed.

Lemma at_out_of_range (a : bytes) (i : Z) :
  i < 0 \/ len a <= i -> at_ a i = None.
Proof.
  intros Hi. unfold at_, len in *.
  destruct (decide (0 <= i)); [|reflexivity].
  apply lookup_ge_None. lia.
Qed.

Lemma subarray_prefix (a : bytes) (n : Z) :
  0 <= n -> subarray a 0 n = take (Z.to_nat n) a.
Proof.
  intros Hn. unfold subarray, rel_index.
  destruct (decide (0 < 0)); [lia|].
  destruct (decide (n < 0)); [lia|].
  pose proof (len_nonneg a) as Hl. unfold len in *.
  rewrite (Z.min_l 0) by lia. rewrite Z.sub_0_r. simpl. rewrite drop_0.
  destruct (Z.min_spec n (Z.of_nat (length a))) as [[? ->]|[? ->]];
    [reflexivity|].
  rewrite Nat2Z.id. rewrite !take_ge; [reflexivity|lia|lia].
Qed.

Lemma subarray_suffix (a : bytes) (n : Z) :
  0 <= n -> subarray_from a n = drop (Z.to_nat n) a.
Proof.
  intros Hn. unfold subarray_from, subarray, rel_index.
  pose proof (len_nonneg a) as Hl.
  destruct (decide (n < 0)); [lia|].
  destruct (decide (len a < 0)); [lia|].
  rewrite (Z.min_l (len a)) by lia. unfold len in *.
  destruct (Z.min_spec n (Z.of_nat (length a))) as [[? ->]|[? ->]].
  - apply take_ge. rewrite length_drop. lia.
  - rewrite Nat2Z.id, Z.sub_diag. simpl. rewrite !drop_ge; [reflexivity|lia|lia].
Qed.

(** ** bytes/mod.ts: prefix and suffix tests on a short source *)

Section Affix.
Import ByteUtil.

Lemma startsWith_loop_short (source prefix : bytes) (left : nat) (i : Z) :
  0 <= i <= len source ->
  i + Z.of_nat left = len prefix ->
  len source < len prefix ->
  startsWith_loop source prefix i left = false.
Proof.
  revert i. induction left as [|left IH]; intros i Hi Hleft Hshort.
  - lia.
  - simpl. destruct (decide (at_ source i <> at_ prefix i)) as [|Heq];
      [reflexivity|].
    apply dec_stable in Heq.
    destruct (decide (i = len source)) as [->|Hne].
    + rewrite (at_out_of_range source) in Heq by lia.
      destruct (at_in_range prefix (len source)) as [x Hx]; [lia|].
      congruence.
    + apply IH; lia.
Qed.

Lemma endsWith_loop_short (source suffix : bytes) (left : nat) (srci sfxi : Z) :
  Z.of_nat left = sfxi + 1 ->
  -1 <= srci < sfxi ->
  sfxi < len suffix ->
  endsWith_loop source suffix srci sfxi left = false.
Proof.
  revert srci sfxi. induction left as [|left IH]; intros srci sfxi Hl Hs Hx.
  - lia.
  - simpl. destruct (decide (at_ source srci <> at_ suffix sfxi)) as [|Heq];
      [reflexivity|].
    apply dec_stable in Heq.
    destruct (decide (srci = -1)) as [->|Hne].
    + rewrite (at_out_of_range source) in Heq by lia.
      destruct (at_in_range suffix sfxi) as [x Hx']; [lia|].
      congruence.
    + apply IH; lia.
Qed.

(** C9: when the source is shorter than a (hence non-empty) affix, both
    [startsWith] and [endsWith] answer [false]: the read outside the source
    is [undefined], which differs from every byte of the affix. *)
Theorem affix_longer_than_source_is_false (source affix : bytes) :
  affix <> [] ->
  len source < len affix ->
  startsWith source affix = false /\ endsWith source affix = false.
Proof.
  intros _ Hshort. pose proof (len_nonneg source) as Hs. split.
  - unfold startsWith. apply startsWith_loop_short; unfold len in *; lia.
  - unfold endsWith. apply endsWith_loop_short; lia.
Qed.

Lemma affix_longer_than_source_is_false_witness :
  startsWith [97] [97; 98] = false /\ endsWith [97] [97; 98] = false.
Proof.
  apply (affix_longer_than_source_is_false [97] [97; 98]);
    [discriminate | unfold len; simpl; lia].
Defined.

End Affix.

(** ** bytes/mod.ts: [copy], [concat] and [repeat] *)

Section Repeat.
Import ByteUtil.

(** What [copy] does, with the clamping spelled out on list positions. *)
Lemma copy_eq (src dst : bytes) (off : Z) :
  let o := Z.to_nat (Z.max 0 (Z.min off (len dst))) in
  let s := take (length dst - o) src in
  copy src dst off = (take o dst ++ s ++ drop (o + length s) dst, len s).
Proof.
  intros o s. unfold copy.
  set (off' := Z.max 0 (Z.min off (len dst))).
  assert (Hoff : 0 <= off' <= len dst)
    by (pose proof (len_nonneg dst); unfold off'; lia).
  assert (Hs : (if decide (len src > len dst - off')
                then subarray src 0 (len dst - off') else src) = s).
  { unfold s, o. fold off'. destruct (decide (len src > len dst - off')).
    - rewrite subarray_prefix by lia. f_equal. unfold len in *. lia.
    - symmetry. apply take_ge. unfold len in *. lia. }
  rewrite Hs. unfold typed_set.
  assert (Hfit : len s <= len dst - off').
  { unfold s, o, len in *. fold off'. rewrite length_take. lia. }
  destruct (decide (0 <= off' /\ off' + len s <= len dst)) as [_|Hn]; [|lia].
  simpl. unfold o. fold off'. do 4 f_equal. unfold len in *. lia.
Qed.

(** The [set] inside [copy] never raises. *)
Lemma copy_set_in_range (src dst : bytes) (off : Z) :
  let off' := Z.max 0 (Z.min off (len dst)) in
  let src' := if decide (len src > len dst - off')
              then subarray src 0 (len dst - off') else src in
  is_Some (typed_set dst src' off').
Proof.
  intros off' src'. unfold typed_set.
  assert (Hoff : 0 <= off' <= len dst)
    by (pose proof (len_nonneg dst); unfold off'; lia).
  assert (len src' <= len dst - off').
  { unfold src'. destruct (decide (len src > len dst - off')); [|lia].
    rewrite subarray_prefix by lia. unfold len in *. rewrite length_take. lia. }
  destruct (decide (0 <= off' /\ off' + len src' <= len dst)); [eauto|lia].
Qed.

Lemma copy_length (src dst : bytes) (off : Z) :
  length (fst (copy src dst off)) = length dst.
Proof.
  rewrite copy_eq. simpl. rewrite !length_app, !length_take, length_drop.
  pose proof (len_nonneg dst). unfold len in *. lia.
Qed.

Lemma sum_lengths (buf : list bytes) (acc : Z) :
  fold_left (fun length b => length + len b) buf acc
  = acc + len (List.concat buf).
Proof.
  revert acc. induction buf as [|b buf IH]; intros acc; simpl.
  - unfold len. simpl. lia.
  - rewrite IH, len_app. lia.
Qed.

Lemma new_Uint8Array_add (a b : Z) :
  0 <= a -> 0 <= b ->
  new_Uint8Array (a + b) = new_Uint8Array a ++ new_Uint8Array b.
Proof.
  intros Ha Hb. unfold new_Uint8Array.
  rewrite Z2Nat.inj_add by lia. apply replicate_add.
Qed.

Lemma typed_set_middle (done old new rest : bytes) :
  length old = length new ->
  typed_set (done ++ old ++ rest) new (len done) = Some (done ++ new ++ rest).
Proof.
  intros Hlen. unfold typed_set. rewrite !len_app.
  pose proof (len_nonneg done). pose proof (len_nonneg rest).
  destruct (decide _) as [_|Hn]; [|unfold len in *; lia].
  f_equal. unfold len. rewrite Nat2Z.id, take_app_length. do 2 f_equal.
  rewrite drop_app_ge by lia. rewrite drop_app_length'; [reflexivity|lia].
Qed.

Lemma concat_placement (buf : list bytes) (done : bytes) :
  fold_left
    (fun '(output, index) b =>
       (default output (typed_set output b index), index + len b))
    buf (done ++ new_Uint8Array (len (List.concat buf)), len done)
  = (done ++ List.concat buf, len done + len (List.concat buf)).
Proof.
  revert done. induction buf as [|b buf IH]; intros done; simpl.
  - unfold new_Uint8Array, len. simpl. f_equal. lia.
  - rewrite len_app, new_Uint8Array_add by apply len_nonneg.
    rewrite typed_set_middle
      by (unfold new_Uint8Array, len; rewrite length_replicate; lia).
    simpl. rewrite <- len_app, app_assoc, IH.
    rewrite <- app_assoc, !len_app. f_equal. lia.
Qed.

(** [concat] joins its arguments in order. *)
Lemma concat_eq (buf : list bytes) : concat buf = List.concat buf.
Proof.
  unfold concat. rewrite sum_lengths, Z.add_0_l.
  change 0 with (len []) at 1.
  change (new_Uint8Array (len (List.concat buf)))
    with ([] ++ new_Uint8Array (len (List.concat buf))).
  rewrite concat_placement. reflexivity.
Qed.

(** [count] copies of [x] in a row are periodic with period [x.length]. *)
Lemma length_copies (c : nat) (x : bytes) :
  length (List.concat (replicate c x)) = (c * length x)%nat.
Proof. induction c as [|c IH]; simpl; [|rewrite length_app, IH]; lia. Qed.

Lemma copies_add (a b : nat) (x : bytes) :
  List.concat (replicate (a + b) x)
  = List.concat (replicate a x) ++ List.concat (replicate b x).
Proof. rewrite replicate_add. apply concat_app. Qed.

Lemma copies_comm (a b : nat) (x : bytes) :
  List.concat (replicate a x) ++ List.concat (replicate b x)
  = List.concat (replicate b x) ++ List.concat (replicate a x).
Proof. rewrite <- !copies_add. f_equal. f_equal. lia. Qed.

Lemma copies_periodic (c m : nat) (x : bytes) :
  (m <= c)%nat ->
  let T := List.concat (replicate c x) in
  drop (m * length x) T = take (length T - m * length x) T.
Proof.
  intros Hm T. unfold T.
  replace c with (m + (c - m))%nat at 1 by lia.
  rewrite copies_add.
  rewrite drop_app_length' by (rewrite length_copies; lia).
  replace c with (m + (c - m))%nat at 3 by lia.
  rewrite copies_add, copies_comm.
  rewrite take_app_length'; [reflexivity|].
  rewrite !length_copies. nia.
Qed.

(** One pass of the doubling loop extends the correct prefix from [b] to
    [2 * b] bytes. *)
Lemma double_step (T nb : bytes) (b : nat) :
  length nb = length T ->
  (b < length T)%nat ->
  take b nb = take b T ->
  drop b T = take (length T - b) T ->
  let s := take (length nb - b) (take b nb) in
  let nb' := take b nb ++ s ++ drop (b + length s) nb in
  take (2 * b) nb' = take (2 * b) T.
Proof.
  intros Hlen Hb Hpre Hper s nb'.
  set (k := (min b (length T - b))%nat).
  assert (Hs : s = take k (drop b T)).
  { unfold s. rewrite Hpre, take_take, Hper, take_take, Hlen.
    f_equal. unfold k. lia. }
  assert (Hls : length s = k).
  { rewrite Hs, length_take, length_drop. unfold k. lia. }
  unfold nb'. rewrite Hls, Hpre, Hs, app_assoc, take_take_drop.
  destruct (decide (b <= length T - b)%nat) as [Hle|Hgt].
  - replace k with b by (unfold k; lia).
    replace (b + b)%nat with (2 * b)%nat by lia.
    rewrite take_app_length'; [reflexivity|].
    rewrite length_take. lia.
  - replace (b + k)%nat with (length T) by (unfold k; lia).
    rewrite (drop_ge nb) by lia. rewrite app_nil_r.
    rewrite (take_ge T (length T)) by lia. reflexivity.
Qed.

Lemma repeat_loop_correct (x : bytes) (c : nat) (fuel : nat) :
  let T := List.concat (replicate c x) in
  forall (nb : bytes) (m : nat),
    (1 <= m)%nat -> (0 < length x)%nat ->
    length nb = length T ->
    take (m * length x) nb = take (m * length x) T ->
    (length T - m * length x <= fuel)%nat ->
    repeat_loop fuel nb (Z.of_nat (m * length x)) = Ok T.
Proof.
  intros T. induction fuel as [|fuel IH]; intros nb m Hm Hx Hlen Hpre Hfuel.
  - cbn [repeat_loop]. destruct (decide _) as [Hlt|Hge]; [unfold len in *; lia|].
    f_equal. unfold len in *.
    rewrite <- (take_ge nb (m * length x)) by lia.
    rewrite Hpre. apply take_ge. lia.
  - cbn [repeat_loop]. destruct (decide _) as [Hlt|Hge].
    + unfold len in Hlt.
      assert (Hmc : (m < c)%nat).
      { unfold T in Hlen. rewrite length_copies in Hlen. nia. }
      rewrite subarray_prefix by lia. rewrite copy_eq. cbn [fst].
      replace (Z.to_nat (Z.max 0 (Z.min (Z.of_nat (m * length x)) (len nb))))
        with (m * length x)%nat by (unfold len; lia).
      rewrite Nat2Z.id.
      replace (Z.of_nat (m * length x) * 2)
        with (Z.of_nat ((2 * m) * length x)) by lia.
      apply IH; try lia.
      * rewrite !length_app, !length_take, length_drop. lia.
      * replace (2 * m * length x)%nat with (2 * (m * length x))%nat by lia.
        apply double_step; try lia; [exact Hpre|].
        apply copies_periodic. lia.
    + f_equal. unfold len in *.
      rewrite <- (take_ge nb (m * length x)) by lia.
      rewrite Hpre. apply take_ge. lia.
Qed.

(** Below [2 ^ 53] an integer is a number: the product is exact. *)
Lemma round_exact (n : Z) :
  0 <= n <= Number.MAX_SAFE_INTEGER -> Number.round n = Some n.
Proof.
  unfold Number.MAX_SAFE_INTEGER, Number.round. intros Hn.
  destruct (decide (Z.log2 n - 52 <= 0)) as [_|Hbig]; [reflexivity|].
  exfalso. destruct (decide (n = 0)) as [->|Hpos]; [simpl in Hbig; lia|].
  assert (Hlog : Z.log2 n < 53) by (apply Z.log2_lt_pow2; lia). lia.
Qed.

(** Rounding does not take an integer from [2 ^ 53] on back below it. *)
Lemma round_large (n v : Z) :
  Number.MAX_SAFE_INTEGER < n -> Number.round n = Some v ->
  Number.MAX_SAFE_INTEGER < v.
Proof.
  unfold Number.MAX_SAFE_INTEGER, Number.round. intros Hn.
  destruct (decide (Z.log2 n - 52 <= 0)) as [_|Hbig].
  { intros [= <-]. exact Hn. }
  set (e := Z.log2 n - 52) in *. cbv zeta.
  destruct (decide (_ < 2 ^ 1024)) as [_|_]; [|discriminate].
  intros [= <-].
  assert (Hulp : 2 <= 2 ^ e).
  { change 2 with (2 ^ 1) at 1. apply Z.pow_le_mono_r; lia. }
  assert (Hq : 2 ^ 52 <= n / 2 ^ e).
  { apply Z.div_le_lower_bound; [lia|].
    rewrite <- Z.pow_add_r by lia.
    replace (e + 52) with (Z.log2 n) by (unfold e; lia).
    apply Z.log2_spec. lia. }
  destruct (_ || _); nia.
Qed.

(** The overflow test passes on an exact product. *)
Lemma quotient_of_exact_product (a c : Z) :
  0 <= a -> 0 < c -> Number.quotient_is (a * c) c a = true.
Proof.
  intros Ha Hc. unfold Number.quotient_is.
  destruct (decide (a = 0)) as [->|Ha0]; [reflexivity|].
  cbv zeta.
  pose proof (Z.pow_nonneg 2 (54 - Z.log2 a) ltac:(lia)) as Hs.
  set (scale := 2 ^ (54 - Z.log2 a)) in *.
  apply orb_true_iff. left. apply andb_true_iff.
  split; apply bool_decide_eq_true; [destruct (decide _)|]; nia.
Qed.

(** Within the lengths that a typed array can have, the doubling loop ends,
    within [x.length * count] passes, with [count] copies of [x] in a
    row. *)
Lemma repeat_within_limit (x : bytes) (maxLength c : Z) (fuel : nat) :
  0 <= c ->
  len x * c <= maxLength -> maxLength <= Number.MAX_SAFE_INTEGER ->
  len x * c <= Z.of_nat fuel ->
  repeat maxLength fuel x c = Ok (List.concat (replicate (Z.to_nat c) x)).
Proof.
  intros Hc Hfit Hmax Hf. unfold repeat.
  destruct (decide (c = 0)) as [->|Hc0]; [reflexivity|].
  destruct (decide (c < 0)); [lia|].
  unfold Number.mul.
  rewrite round_exact by (unfold len in *; nia).
  rewrite quotient_of_exact_product by (unfold len; lia). cbn [negb].
  destruct (decide (maxLength < len x * c)) as [Hbad|_]; [lia|].
  rewrite copy_eq. unfold new_Uint8Array, len.
  rewrite length_replicate.
  replace (Z.to_nat (Z.max 0
             (Z.min 0 (Z.of_nat (Z.to_nat (Z.of_nat (length x) * c))))))
    with 0%nat by lia.
  rewrite Nat.sub_0_r, take_0, app_nil_l, Nat.add_0_l.
  assert (Hlen : (length x <= Z.to_nat (Z.of_nat (length x) * c))%nat) by nia.
  rewrite (take_ge x) by lia.
  destruct (decide (length x = 0)%nat) as [Hx0|Hx0].
  - apply length_zero_iff_nil in Hx0. subst x.
    assert (Hnil : List.concat (replicate (Z.to_nat c) (@nil Z)) = [])
      by (induction (Z.to_nat c); simpl; auto).
    rewrite Hnil. simpl. destruct fuel; reflexivity.
  - replace (Z.of_nat (length x)) with (Z.of_nat (1 * length x)) at 2 by lia.
    apply repeat_loop_correct; try lia.
    + rewrite length_app, length_drop, length_replicate, length_copies. nia.
    + rewrite Nat.mul_1_l. rewrite take_app_length.
      replace (Z.to_nat c) with (1 + (Z.to_nat c - 1))%nat by lia.
      rewrite copies_add. simpl. rewrite app_nil_r.
      rewrite take_app_length. reflexivity.
    + rewrite length_copies. unfold len in Hf. nia.
Qed.

(** Beyond them [repeat] throws. *)
Lemma repeat_beyond_limit (x : bytes) (maxLength c : Z) (fuel : nat) :
  0 < c ->
  maxLength < len x * c -> maxLength <= Number.MAX_SAFE_INTEGER ->
  exists e, repeat maxLength fuel x c = Throw e.
Proof.
  intros Hc Hbig Hmax. unfold repeat.
  destruct (decide (c = 0)) as [?|_]; [lia|].
  destruct (decide (c < 0)) as [?|_]; [lia|].
  unfold Number.mul.
  destruct (Number.round (len x * c)) as [product|] eqn:Hround;
    [|eexists; reflexivity].
  destruct (negb _); [eexists; reflexivity|].
  destruct (decide (maxLength < product)) as [_|Hsmall];
    [eexists; reflexivity|].
  exfalso. apply Hsmall.
  destruct (decide (len x * c <= Number.MAX_SAFE_INTEGER)) as [Hle|Hgt].
  - rewrite round_exact in Hround by (unfold len in *; nia).
    injection Hround as <-. exact Hbig.
  - apply round_large in Hround; lia.
Qed.

(** The count [2 ^ 53] asks for an array longer than any typed array, and
    the product of [2] and [2 ^ 1023] is [Infinity]: [repeat] throws for
    both, whatever the engine's largest length. *)
Lemma repeat_large_count_counterexample :
  0 <= 2 ^ 53 /\
  repeat Number.MAX_SAFE_INTEGER 0 [7] (2 ^ 53) = Throw InvalidArrayLength /\
  0 <= 2 ^ 1023 /\
  repeat Number.MAX_SAFE_INTEGER 0 [7; 8] (2 ^ 1023)
  = Throw (Error "bytes: repeat count causes overflow") /\
  (forall (maxLength : Z) (fuel : nat) (nb : bytes),
      maxLength <= Number.MAX_SAFE_INTEGER ->
      repeat maxLength fuel [7] (2 ^ 53) <> Ok nb /\
      repeat maxLength fuel [7; 8] (2 ^ 1023) <> Ok nb).
Proof.
  split; [lia|]. split; [vm_compute; reflexivity|].
  split; [lia|]. split; [vm_compute; reflexivity|].
  intros maxLength fuel nb Hmax. unfold repeat.
  destruct (decide (2 ^ 53 = 0)) as [?|_]; [lia|].
  destruct (decide (2 ^ 53 < 0)) as [?|_]; [lia|].
  destruct (decide (2 ^ 1023 = 0)) as [?|_]; [lia|].
  destruct (decide (2 ^ 1023 < 0)) as [?|_]; [lia|].
  replace (Number.mul (len [7]) (2 ^ 53)) with (Some (2 ^ 53))
    by (vm_compute; reflexivity).
  replace (Number.quotient_is (2 ^ 53) (2 ^ 53) (len [7])) with true
    by (vm_compute; reflexivity).
  replace (Number.mul (len [7; 8]) (2 ^ 1023)) with (@None Z)
    by (vm_compute; reflexivity).
  cbn [negb].
  destruct (decide (maxLength < 2 ^ 53)) as [_|Hno];
    [split; discriminate|].
  unfold Number.MAX_SAFE_INTEGER in Hmax. lia.
Qed.

(** C8 (amended): [repeat(x, 0)] is empty; [repeat(x, 3)] is
    [concat(x, x, x)] and, for every integer [count >= 0], [repeat(x, count)]
    ends the doubling loop within [x.length * count] passes with [count]
    copies of [x] in a row, of total length [x.length * count], as long as
    that length is one a typed array can have (at most [maxLength], itself
    at most [2 ^ 53 - 1]); for a longer one [repeat] throws. *)
Theorem repeat_is_copies (x : bytes) :
  (forall (maxLength : Z) (fuel : nat), repeat maxLength fuel x 0 = Ok []) /\
  (forall (maxLength : Z) (fuel : nat),
      len x * 3 <= maxLength -> maxLength <= Number.MAX_SAFE_INTEGER ->
      len x * 3 <= Z.of_nat fuel ->
      repeat maxLength fuel x 3 = Ok (concat [x; x; x])) /\
  (forall (maxLength count : Z) (fuel : nat),
      0 <= count ->
      len x * count <= maxLength -> maxLength <= Number.MAX_SAFE_INTEGER ->
      len x * count <= Z.of_nat fuel ->
      repeat maxLength fuel x count
      = Ok (List.concat (replicate (Z.to_nat count) x)) /\
      len (List.concat (replicate (Z.to_nat count) x)) = len x * count) /\
  (forall (maxLength count : Z) (fuel : nat),
      0 < count ->
      maxLength < len x * count -> maxLength <= Number.MAX_SAFE_INTEGER ->
      exists e, repeat maxLength fuel x count = Throw e).
Proof.
  split; [reflexivity|]. split; [|split].
  - intros maxLength fuel Hfit Hmax Hfuel.
    rewrite repeat_within_limit by lia. rewrite concat_eq.
    simpl. rewrite app_nil_r. reflexivity.
  - intros maxLength count fuel Hcount Hfit Hmax Hfuel.
    split; [apply repeat_within_limit; assumption|].
    unfold len. rewrite length_copies. lia.
  - intros maxLength count fuel Hcount Hbig Hmax.
    apply repeat_beyond_limit; assumption.
Qed.

Lemma repeat_is_copies_witness :
  repeat Number.MAX_SAFE_INTEGER 6 [1; 2] 3 = Ok [1; 2; 1; 2; 1; 2] /\
  repeat 6 6 [1; 2] 3 = Ok (concat [[1; 2]; [1; 2]; [1; 2]]) /\
  exists e, repeat 5 6 [1; 2] 3 = Throw e.
Proof.
  destruct (repeat_is_copies [1; 2]) as (_ & Hthree & Hany & Hlong).
  split; [|split].
  - apply (Hany Number.MAX_SAFE_INTEGER 3 6%nat);
      unfold len, Number.MAX_SAFE_INTEGER; simpl; lia.
  - apply (Hthree 6 6%nat); unfold len, Number.MAX_SAFE_INTEGER; simpl; lia.
  - apply (Hlong 5 3 6%nat); unfold len, Number.MAX_SAFE_INTEGER; simpl; lia.
Defined.

End Repeat.

(** ** io/bufio.ts: the failure table *)

Section FailureTable.
Import Delim.

Lemma createLPS_loop_done (fuel : nat) (pat lps : bytes) (p : option Z) (i : Z) :
  ~ i < len lps -> createLPS_loop fuel pat lps p i = Some lps.
Proof.
  intros Hi. destruct fuel; simpl; destruct (decide (i < len lps)); tauto.
Qed.

(** Once [prefixEnd] is [undefined] the loop never leaves that state. *)
Lemma createLPS_loop_undefined (fuel : nat) (pat lps : bytes) (i : Z) :
  i < len lps -> createLPS_loop fuel pat lps None i = None.
Proof.
  intros Hi. induction fuel as [|fuel IH]; simpl;
    destruct (decide (i < len lps)); try tauto.
Qed.

(** C2 (the code departs from it): on the pattern ["aab"] the loop of
    [createLPS] never ends, because the fall-back reads the pattern, not the
    table; and on [0 1 0 1 1] it ends with [0 0 1 2 2], whereas the longest
    proper prefix of [0 1 0 1 1] that is also a suffix has length 0. *)
Theorem createLPS_departs_from_failure_table :
  (forall fuel, createLPS fuel [97; 97; 98] = None) /\
  createLPS 8 [0; 1; 0; 1; 1] = Some [0; 0; 1; 2; 2] /\
  lps_table [0; 1; 0; 1; 1] = [0; 0; 1; 2; 0].
Proof.
  split; [|split; reflexivity].
  intros fuel. unfold createLPS.
  destruct fuel as [|[|[|fuel]]]; try reflexivity.
  change (createLPS_loop fuel [97; 97; 98] [0; 1; 0] None 2 = None).
  apply createLPS_loop_undefined. unfold len. simpl. lia.
Qed.

End FailureTable.

(** ** io/bufio.ts: the delimiter splitter *)

Section Splitter.
Import Delim.

(** More passes do not change a table that has been completed. *)
Lemma createLPS_loop_fuel_mono (n : nat) (pat : bytes) :
  forall (lps : bytes) (p : option Z) (i : Z) (r : bytes) (m : nat),
    createLPS_loop n pat lps p i = Some r ->
    (n <= m)%nat ->
    createLPS_loop m pat lps p i = Some r.
Proof.
  induction n as [|n IH]; intros lps p i r m Hrun Hm.
  - simpl in Hrun. destruct m; simpl;
      destruct (decide (i < len lps)); congruence.
  - destruct m as [|m]; [lia|].
    simpl in Hrun |- *.
    destruct (decide (i < len lps)); [|exact Hrun].
    destruct p as [p|]; [|apply IH; [exact Hrun|lia]].
    destruct (decide (at_ pat i = at_ pat p));
      [apply IH; [exact Hrun|lia]|].
    destruct (decide (p = 0)); apply IH; try exact Hrun; lia.
Qed.

Lemma createLPS_fuel_mono (n m : nat) (pat r : bytes) :
  createLPS n pat = Some r -> (n <= m)%nat -> createLPS m pat = Some r.
Proof. unfold createLPS. apply createLPS_loop_fuel_mono. Qed.

Lemma emit_eq {A : Type} (chunk : bytes) (ys : list bytes) (a : A) :
  emit chunk (ys, a) = (chunk :: ys, a).
Proof. reflexivity. Qed.

(** More passes do not change a scan that has ended. *)
Lemma scan_fuel_mono (n : nat) (delim lps : bytes) :
  forall (s : bytes) (ii : Z) (mi : option Z) ys st (m : nat),
    scan n delim lps s ii mi = (ys, Some st) ->
    (n <= m)%nat ->
    scan m delim lps s ii mi = (ys, Some st).
Proof.
  induction n as [|n IH]; intros s ii mi ys st m Hscan Hm.
  - simpl in Hscan. destruct m; simpl;
      destruct (decide (ii < len s)); congruence.
  - destruct m as [|m]; [lia|].
    simpl in Hscan |- *.
    destruct (decide (ii < len s)); [|exact Hscan].
    destruct mi as [mi|]; [|apply IH; [exact Hscan|lia]].
    destruct (decide (at_ s ii = at_ delim mi)).
    + destruct (decide (mi + 1 = len delim)); [|apply IH; [exact Hscan|lia]].
      destruct (scan n delim lps (subarray_from s (ii + 1)) 0 (Some 0))
        as [ys' st'] eqn:Hrec.
      rewrite emit_eq in Hscan. inversion Hscan; subst.
      rewrite (IH _ _ _ _ _ m Hrec) by lia. reflexivity.
    + destruct (decide (mi = 0)); apply IH; try exact Hscan; lia.
Qed.

Lemma deposit_length (p data : bytes) : length (deposit p data) = length p.
Proof.
  unfold deposit. rewrite length_app, length_take, length_drop. lia.
Qed.

(** What a read returns is what the source stored, when it fits. *)
Lemma deposit_sliceRead (p data : bytes) :
  (length data <= length p)%nat ->
  subarray (deposit p data) 0 (len data) = data.
Proof.
  intros Hfit. rewrite subarray_prefix by apply len_nonneg.
  unfold deposit, len. rewrite Nat2Z.id, (take_ge data) by lia.
  apply take_app_length.
Qed.

Lemma fragments_read (c : bytes) (rest : fragments) (n : Z) :
  len c <= n ->
  reader_read (c :: rest) n = (Some (len c, c), rest).
Proof.
  intros Hn. unfold reader_read, fragments_reader, len in *.
  rewrite take_ge by lia.
  destruct (decide (length c <= Z.to_nat n)%nat); [reflexivity|lia].
Qed.

End Splitter.

Section SplitScenario.
Import Delim Scenario.

Lemma forallb_seq (f : nat -> bool) (n : nat) :
  forallb f (seq 0 n) = true -> forall i, (i < n)%nat -> f i = true.
Proof.
  intros Hall i Hi. rewrite forallb_forall in Hall. apply Hall, in_seq. lia.
Qed.

Section Table.
Variables (input delim delimLPS : bytes) (chunks : list bytes).
Variable passes : nat.
Hypothesis Htable : table_ok input delim delimLPS chunks passes = true.

Let state := state input delim delimLPS passes.
Let remaining := remaining input delim delimLPS chunks passes.

Lemma table_parts :
  (forall k j, (k + j <= length input)%nat ->
     fragment_ok input delim delimLPS chunks passes k j = true) /\
  [fst (fst (state (length input)))] = remaining (length input) /\
  remaining 0 = chunks /\
  state 0 = ([], 0, Some 0) /\
  createLPS passes delim = Some delimLPS /\
  (length input <= 1024)%nat.
Proof.
  unfold table_ok in Htable. rewrite !andb_true_iff in Htable.
  destruct Htable as [[[[[Hall Hend] Hzero] Hinit] Hlps] Hsize].
  apply bool_decide_eq_true in Hend, Hzero, Hinit, Hlps, Hsize.
  repeat split; try assumption.
  intros k j Hkj.
  assert (Hk : (k < S (length input))%nat) by lia.
  pose proof (forallb_seq _ _ Hall k Hk) as Hrow. cbv beta in Hrow.
  apply (forallb_seq _ _ Hrow). lia.
Qed.

Lemma fragment_ok_spec (k j : nat) :
  fragment_ok input delim delimLPS chunks passes k j = true ->
  exists ys,
    scan passes delim delimLPS
         (fst (fst (state k)) ++ take j (drop k input))
         (snd (fst (state k))) (snd (state k))
    = (ys, Some (state (k + j))) /\
    ys ++ remaining (k + j) = remaining k.
Proof.
  unfold fragment_ok. fold state. fold remaining.
  generalize (state (k + j)) (remaining (k + j)) (remaining k).
  intros stkj rkj rk.
  destruct (state k) as [[s ii] mi]. cbn [fst snd].
  destruct (scan passes delim delimLPS (s ++ take j (drop k input)) ii mi)
    as [ys [st|]]; [|discriminate].
  intros Hok. apply bool_decide_eq_true in Hok. destruct Hok as [-> Hys].
  exists ys. split; [reflexivity|exact Hys].
Qed.

Lemma readDelim_loop_table (frags : fragments) :
  forall (k reads steps : nat) (inspectArr : bytes),
    (k <= length input)%nat ->
    List.concat frags = drop k input ->
    (length frags < reads)%nat ->
    (passes <= steps)%nat ->
    (1024 <= length inspectArr)%nat ->
    readDelim_loop reads steps frags delim delimLPS
      (fst (fst (state k))) inspectArr (snd (fst (state k))) (snd (state k))
    = (remaining k, Returned).
Proof.
  destruct table_parts as (Hall & Hend & _ & _ & _ & Hsize).
  induction frags as [|c rest IH];
    intros k reads steps arr Hk Hcat Hreads Hsteps Harr.
  - destruct reads as [|reads]; [simpl in Hreads; lia|].
    simpl in Hcat. symmetry in Hcat. apply drop_nil_inv in Hcat.
    assert (k = length input) as -> by lia.
    cbn [readDelim_loop reader_read fragments_reader]. unfold Buffer_bytes.
    rewrite Hend. reflexivity.
  - destruct reads as [|reads]; [simpl in Hreads; lia|].
    simpl in Hcat, Hreads.
    assert (Hlen : (length c + length (List.concat rest)
                    = length input - k)%nat).
    { rewrite <- length_app, Hcat, length_drop. reflexivity. }
    assert (Hc : c = take (length c) (drop k input)).
    { rewrite <- Hcat. symmetry. apply take_app_length. }
    assert (Hrest : List.concat rest = drop (k + length c) input).
    { rewrite <- drop_drop, <- Hcat. symmetry. apply drop_app_length. }
    destruct (fragment_ok_spec k (length c)) as (ys & Hscan & Hys);
      [apply Hall; lia|].
    rewrite <- Hc in Hscan.
    cbn [readDelim_loop].
    rewrite fragments_read by (unfold len; lia).
    destruct (decide (len c < 0)) as [Hneg|_];
      [pose proof (len_nonneg c); lia|].
    rewrite deposit_sliceRead by lia.
    unfold Buffer_writeAll, Buffer_bytes, Buffer_from.
    rewrite (scan_fuel_mono passes _ _ _ _ _ _ _ steps Hscan) by lia.
    destruct (state (k + length c)) as [[s' ii'] mi'] eqn:Hst.
    specialize (IH (k + length c)%nat reads steps (deposit arr c)).
    rewrite Hst in IH. cbn [fst snd] in IH.
    rewrite IH; try lia; try assumption.
    + cbn [fst snd]. rewrite Hys. reflexivity.
    + rewrite deposit_length. exact Harr.
Qed.

(** A table that checks gives the outcome of [readDelim] on every way of
    cutting the input into fragments. *)
Lemma readDelim_table (frags : fragments) (reads steps : nat) :
  List.concat frags = input ->
  (length frags < reads)%nat ->
  (passes <= steps)%nat ->
  readDelim reads steps frags delim = (chunks, Returned).
Proof.
  intros Hcat Hreads Hsteps.
  destruct table_parts as (_ & _ & Hzero & Hinit & Hlps & _).
  unfold readDelim.
  rewrite (createLPS_fuel_mono _ _ _ _ Hlps Hsteps).
  pose proof (readDelim_loop_table frags 0 reads steps
                (new_Uint8Array (Z.max 1024 (len delim + 1)))) as Hrun.
  rewrite Hinit, Hzero in Hrun. apply Hrun; try assumption; try lia.
  unfold new_Uint8Array. rewrite length_replicate. lia.
Qed.

End Table.

(** C3: however the source cuts ["A::B::C"] into fragments (empty ones
    included, and wherever the cuts fall), [readDelim] with the delimiter
    ["::"] yields ["A"], ["B"], ["C"] and returns, as soon as it is given
    one read more than there are fragments and 16 passes of its inner
    loops. *)
Theorem readDelim_A_B_C (frags : fragments) (reads steps : nat) :
  List.concat frags = A_B_C ->
  (length frags < reads)%nat ->
  (16 <= steps)%nat ->
  readDelim reads steps frags delim = ([[65]; [66]; [67]], Returned).
Proof.
  apply (readDelim_table A_B_C delim [0; 1] [[65]; [66]; [67]] 16).
  vm_compute. reflexivity.
Qed.

Lemma readDelim_A_B_C_witness :
  readDelim 5 16 [[65; 58]; []; [58; 66; 58]; [58; 67]] delim
  = ([[65]; [66]; [67]], Returned).
Proof.
  apply (readDelim_A_B_C [[65; 58]; []; [58; 66; 58]; [58; 67]] 5 16);
    [reflexivity | simpl; lia | lia].
Defined.

End SplitScenario.

(** ** io/bufio.ts: what a buffered writer hands to its sink *)

Section WriterRoundTrip.
Import BufWriter.
Context {W E : Type} `{Writer W E}.
Hypothesis Hsink : @accepts_some W E _.

Lemma received_snoc (calls : list (sink_call E)) (c : sink_call E) :
  received (calls ++ [c]) = received calls ++ accepted c.
Proof.
  unfold received. rewrite map_app, concat_app. simpl.
  rewrite app_nil_r. reflexivity.
Qed.

Lemma len_zero_nil (a : bytes) : len a = 0 -> a = [].
Proof. unfold len. destruct a; [reflexivity|simpl; lia]. Qed.

(** [writeAll] hands the whole of its array to a sink that accepts some of
    what it is handed. *)
Lemma writeAll_ok (fuel : nat) :
  forall (w : W) (calls : list (sink_call E)) (arr : bytes) (k : Z),
    0 <= k <= len arr ->
    len arr - k <= Z.of_nat fuel ->
    exists w' calls',
      writeAll fuel w calls arr k = (Ok tt, w', calls') /\
      received calls' = received calls ++ drop (Z.to_nat k) arr.
Proof.
  induction fuel as [|fuel IH]; intros w calls arr k Hk Hfuel.
  - simpl. destruct (decide (k < len arr)); [lia|].
    exists w, calls. split; [reflexivity|].
    rewrite drop_ge by (unfold len in *; lia). rewrite app_nil_r. reflexivity.
  - simpl. destruct (decide (k < len arr)) as [Hlt|Hge].
    + rewrite subarray_suffix by lia.
      destruct (Hsink w (drop (Z.to_nat k) arr)) as (n & w' & Hw & Hn).
      { intros Hnil. apply (f_equal length) in Hnil.
        rewrite length_drop in Hnil. unfold len in *. simpl in Hnil. lia. }
      rewrite Hw.
      assert (Hlen : len (drop (Z.to_nat k) arr) = len arr - k)
        by (unfold len in *; rewrite length_drop; lia).
      destruct (IH w' (calls ++ [(drop (Z.to_nat k) arr, inr n)]) arr (k + n))
        as (w'' & calls'' & Hrun & Hrec); [lia|lia|].
      exists w'', calls''. split; [exact Hrun|].
      rewrite Hrec, received_snoc. unfold accepted. cbn [fst snd].
      rewrite subarray_prefix by lia. rewrite <- app_assoc. f_equal.
      rewrite Z2Nat.inj_add by lia. rewrite <- drop_drop.
      apply take_drop.
    + exists w, calls. split; [reflexivity|].
      rewrite drop_ge by (unfold len in *; lia).
      rewrite app_nil_r. reflexivity.
Qed.

Lemma flush_ok (C : Z) (sent : bytes) (this : t W E) (fuel : nat) :
  holds C sent this ->
  C <= Z.of_nat fuel ->
  exists this',
    flush fuel this = (Ok tt, this') /\
    holds C sent this' /\
    usedBufferBytes this' = 0 /\
    received (sink_calls this') = sent.
Proof.
  intros (Herr & Hcap & Hused & Hsent) Hfuel. unfold flush. rewrite Herr.
  destruct (decide (usedBufferBytes this = 0)) as [H0|Hn0].
  - exists this. rewrite H0 in Hsent. simpl in Hsent. rewrite app_nil_r in Hsent.
    repeat split; try assumption; try lia.
    rewrite H0. simpl. rewrite app_nil_r. exact Hsent.
  - rewrite subarray_prefix by lia.
    set (arr := take (Z.to_nat (usedBufferBytes this)) (buf this)) in *.
    assert (Hlen : len arr = usedBufferBytes this).
    { unfold arr, len in *. rewrite length_take. lia. }
    destruct (writeAll_ok fuel (writer this) (sink_calls this) arr 0)
      as (w' & calls' & Hrun & Hrec); [lia|lia|].
    rewrite Hrun. rewrite drop_0 in Hrec.
    eexists. split; [reflexivity|].
    unfold holds. cbn [err buf usedBufferBytes sink_calls].
    assert (Hnew : len (new_Uint8Array (len (buf this))) = C).
    { unfold new_Uint8Array, len in *. rewrite length_replicate. lia. }
    rewrite Hrec, Hsent. simpl. rewrite app_nil_r.
    repeat split; try assumption; try lia.
Qed.

(** [copy] into the free part of the buffer. *)
Lemma copy_into_buffer (data dst : bytes) (used : Z) :
  0 <= used <= len dst ->
  let n := Z.min (len data) (len dst - used) in
  exists buf',
    ByteUtil.copy data dst used = (buf', n) /\
    len buf' = len dst /\
    take (Z.to_nat (used + n)) buf'
    = take (Z.to_nat used) dst ++ take (Z.to_nat n) data.
Proof.
  intros Hused n. rewrite copy_eq.
  replace (Z.to_nat (Z.max 0 (Z.min used (len dst)))) with (Z.to_nat used)
    by lia.
  replace (length dst - Z.to_nat used)%nat with (Z.to_nat (len dst - used))
    by (unfold len; lia).
  assert (Hs : take (Z.to_nat (len dst - used)) data = take (Z.to_nat n) data).
  { unfold n. destruct (Z.min_spec (len data) (len dst - used))
      as [[Hlt ->]|[Hge ->]]; [|reflexivity].
    rewrite !take_ge; [reflexivity|unfold len in *; lia|unfold len in *; lia]. }
  rewrite Hs.
  assert (Hls : length (take (Z.to_nat n) data) = Z.to_nat n).
  { rewrite length_take. unfold n, len in *. lia. }
  eexists. split; [|split].
  - f_equal. unfold len. rewrite Hls. unfold n, len in *. lia.
  - unfold len in *. rewrite !length_app, length_take, length_drop, Hls.
    unfold n in *. lia.
  - rewrite app_assoc. rewrite take_app_length'; [reflexivity|].
    rewrite length_app, length_take, Hls. unfold n, len in *. lia.
Qed.

Lemma write_loop_ok (C : Z) (fuel : nat) :
  forall (this : t W E) (data sent : bytes) (total : Z),
    holds C sent this ->
    len data + C + 1 + (if decide (usedBufferBytes this = 0) then 0 else 1)
      <= Z.of_nat fuel ->
    exists this',
      write_loop fuel this data total = (Ok (total + len data), this') /\
      holds C (sent ++ data) this'.
Proof.
  induction fuel as [|fuel IH]; intros this data sent total Hinv Hfuel.
  { pose proof (len_nonneg data). destruct Hinv as (_ & _ & ? & _).
    destruct (decide (usedBufferBytes this = 0)); lia. }
  pose proof Hinv as (Herr & Hcap & Hused & Hsent).
  pose proof (len_nonneg data) as Hdata.
  cbn [write_loop]. unfold available, buffered.
  destruct (decide (len data > len (buf this) - usedBufferBytes this))
    as [Hbig|Hfits].
  - destruct (decide (usedBufferBytes this = 0)) as [H0|Hn0].
    + (* Large write, empty buffer. *)
      destruct (Hsink (writer this) data) as (n & w' & Hw & Hn).
      { intros ->. unfold len in Hbig. simpl in Hbig. lia. }
      rewrite Hw.
      set (this1 := mk (buf this) (usedBufferBytes this) (err this) w'
                       (sink_calls this ++ [(data, inr n)])).
      assert (Hinv1 : holds C (sent ++ take (Z.to_nat n) data) this1).
      { unfold holds, this1. cbn [err buf usedBufferBytes sink_calls].
        repeat split; try assumption; try lia.
        rewrite received_snoc. unfold accepted. cbn [fst snd].
        rewrite subarray_prefix by lia. rewrite <- Hsent.
        rewrite H0. simpl. rewrite !app_nil_r. reflexivity. }
      rewrite subarray_suffix by lia.
      assert (Hrest : len (drop (Z.to_nat n) data) = len data - n)
        by (unfold len in *; rewrite length_drop; lia).
      destruct (IH this1 (drop (Z.to_nat n) data) _ (total + n) Hinv1)
        as (this' & Hrun & Hinv').
      { unfold this1. cbn [usedBufferBytes].
        destruct (decide (usedBufferBytes this = 0)); lia. }
      exists this'. split.
      * rewrite Hrun. do 2 f_equal. lia.
      * rewrite <- app_assoc, take_drop in Hinv'. exact Hinv'.
    + (* Fill the buffer, flush it, and go on with the rest. *)
      destruct (copy_into_buffer data (buf this) (usedBufferBytes this))
        as (buf' & Hcopy & Hlen' & Htake); [lia|].
      rewrite Z.min_r in Hcopy, Htake by lia.
      set (n := len (buf this) - usedBufferBytes this) in *.
      rewrite Hcopy.
      set (this1 := mk buf' (usedBufferBytes this + n) (err this)
                       (writer this) (sink_calls this)).
      assert (Hinv1 : holds C (sent ++ take (Z.to_nat n) data) this1).
      { unfold holds, this1. cbn [err buf usedBufferBytes sink_calls].
        repeat split; try assumption; try lia.
        rewrite Htake, app_assoc, Hsent. reflexivity. }
      destruct (flush_ok C _ this1 fuel Hinv1)
        as (this2 & Hflush & Hinv2 & Hused2 & _); [lia|].
      rewrite Hflush. rewrite subarray_suffix by (unfold n; lia).
      assert (Hrest : len (drop (Z.to_nat n) data) = len data - n)
        by (unfold len in *; rewrite length_drop; lia).
      destruct (IH this2 (drop (Z.to_nat n) data) _ (total + n) Hinv2)
        as (this' & Hrun & Hinv').
      { rewrite Hused2. destruct (decide (0 = 0)); [|lia].
        destruct (decide (usedBufferBytes this = 0)); [lia|]. unfold n in *. lia. }
      exists this'. split.
      * rewrite Hrun. do 2 f_equal. lia.
      * rewrite <- app_assoc, take_drop in Hinv'. exact Hinv'.
  - destruct (copy_into_buffer data (buf this) (usedBufferBytes this))
      as (buf' & Hcopy & Hlen' & Htake); [lia|].
    rewrite Z.min_l in Hcopy, Htake by lia. rewrite Hcopy.
    eexists. split; [reflexivity|].
    unfold holds. cbn [err buf usedBufferBytes sink_calls].
    repeat split; try assumption; try lia.
    rewrite Htake, app_assoc, Hsent. f_equal.
    apply take_ge. unfold len. lia.
Qed.

Lemma write_ok (C : Z) (fuel : nat) (this : t W E) (data sent : bytes) :
  holds C sent this ->
  len data + C + 2 <= Z.of_nat fuel ->
  exists this',
    write fuel this data = (Ok (len data), this') /\
    holds C (sent ++ data) this'.
Proof.
  intros Hinv Hfuel. unfold write. destruct Hinv as (Herr & Hrest).
  rewrite Herr. destruct (decide (len data = 0)) as [H0|Hn0].
  - exists this. rewrite H0. apply len_zero_nil in H0. subst data.
    rewrite app_nil_r. split; [reflexivity|]. split; assumption.
  - destruct (write_loop_ok C fuel this data sent 0) as (this' & Hrun & Hinv').
    + split; assumption.
    + destruct (decide (usedBufferBytes this = 0)); lia.
    + exists this'. split; [exact Hrun|exact Hinv'].
Qed.

Lemma writes_ok (C : Z) (fuel : nat) (bs : list bytes) :
  forall (this : t W E) (sent : bytes),
    holds C sent this ->
    len (List.concat bs) + C + 2 <= Z.of_nat fuel ->
    exists this',
      writes fuel this bs = (map (fun b => Ok (len b)) bs, this') /\
      holds C (sent ++ List.concat bs) this'.
Proof.
  induction bs as [|b bs IH]; intros this sent Hinv Hfuel.
  - exists this. simpl. rewrite app_nil_r. auto.
  - simpl in Hfuel. rewrite len_app in Hfuel.
    pose proof (len_nonneg b). pose proof (len_nonneg (List.concat bs)).
    destruct (write_ok C fuel this b sent Hinv) as (this1 & Hw & Hinv1); [lia|].
    destruct (IH this1 (sent ++ b) Hinv1) as (this' & Hws & Hinv'); [lia|].
    exists this'. cbn [writes]. rewrite Hw, Hws. split; [reflexivity|].
    simpl. rewrite app_assoc. exact Hinv'.
Qed.

End WriterRoundTrip.

(** C1: on a sink that accepts at least one byte and at most the whole of
    what it is handed, a [BufWriter] of any capacity [C >= 1] answers each
    [write(bi)] with [bi.length], and after the final [flush()] the sink has
    received exactly [b1 ++ ... ++ bn].  The loops end within
    [length (b1 ++ ... ++ bn) + C + 2] passes. *)
Theorem BufWriter_round_trip {W E : Type} `{Writer W E}
  (sink : W) (C : Z) (bs : list bytes) (fuel : nat) :
  @accepts_some W E _ ->
  1 <= C ->
  len (List.concat bs) + C + 2 <= Z.of_nat fuel ->
  exists this this',
    BufWriter.writes fuel (BufWriter.new sink C) bs
      = (map (fun b => Ok (len b)) bs, this) /\
    BufWriter.flush fuel this = (Ok tt, this') /\
    received (BufWriter.sink_calls this') = List.concat bs.
Proof.
  intros Hsink HC Hfuel.
  assert (Hnew : @holds W E C [] (BufWriter.new sink C)).
  { unfold holds, BufWriter.new. destruct (decide (C <= 0)); [lia|].
    cbn. unfold new_Uint8Array, len. rewrite length_replicate.
    repeat split; lia. }
  destruct (writes_ok Hsink C fuel bs _ [] Hnew Hfuel) as (this & Hws & Hinv).
  pose proof (len_nonneg (List.concat bs)).
  destruct (flush_ok Hsink C _ this fuel Hinv) as (this' & Hfl & _ & _ & Hrec);
    [lia|].
  exists this, this'. repeat split; assumption.
Qed.

Lemma stingy_accepts_some : @accepts_some stingy_sink unit _.
Proof.
  intros w p Hp. exists (Z.min 3 (len p)), w. split; [reflexivity|].
  destruct p; [congruence|]. unfold len. simpl. lia.
Qed.

Lemma BufWriter_round_trip_witness :
  exists this this',
    BufWriter.writes 16 (BufWriter.new Stingy 2)
                     [[1; 2; 3; 4; 5]; []; [6]; [7; 8; 9; 10]]
      = ([Ok 5; Ok 0; Ok 1; Ok 4], this) /\
    BufWriter.flush 16 this = (Ok tt, this') /\
    received (BufWriter.sink_calls this') = [1; 2; 3; 4; 5; 6; 7; 8; 9; 10].
Proof.
  apply (BufWriter_round_trip Stingy 2
           [[1; 2; 3; 4; 5]; []; [6]; [7; 8; 9; 10]] 16).
  - exact stingy_accepts_some.
  - lia.
  - unfold len. simpl. lia.
Defined.

(** ** io/bufio.ts: the stored error of the buffered writers *)

(** The scripts below serve both writers, whose methods differ in name
    only. *)
Ltac split_answer :=
  match goal with
  | |- context [let '(_, _) := ?c in _] => destruct c as [[?e|?n] ?w] eqn:?Hw
  end.

Ltac on_throw H := inversion H; subst; clear H.

Section LatchAsync.
Import BufWriter.
Context {W E : Type} `{Writer W E}.

Lemma writeAll_throw (fuel : nat) :
  forall (w w' : W) (calls calls' : list (sink_call E)) (arr : bytes) (k : Z)
         (e : E),
    writeAll fuel w calls arr k = (Throw e, w', calls') ->
    exists p, last calls' = Some (p, inl e).
Proof.
  induction fuel as [|fuel IH]; intros w w' calls calls' arr k e Hrun;
    simpl in Hrun; destruct (decide (k < len arr)); try discriminate.
  revert Hrun. split_answer; intros Hrun.
  - on_throw Hrun. eexists. apply last_snoc.
  - eapply IH. exact Hrun.
Qed.

Lemma flush_throw (fuel : nat) (this this' : t W E) (e : E) :
  err this = None ->
  flush fuel this = (Throw e, this') ->
  err this' = Some e /\ exists p, last (sink_calls this') = Some (p, inl e).
Proof.
  intros Herr Hrun. unfold flush in Hrun. rewrite Herr in Hrun.
  destruct (decide (usedBufferBytes this = 0)); [discriminate|].
  destruct (writeAll _ _ _ _ _) as [[[?|e'|] w] calls] eqn:Hall;
    try discriminate.
  on_throw Hrun. split; [reflexivity|].
  apply writeAll_throw in Hall. exact Hall.
Qed.

Lemma flush_err_unchanged (fuel : nat) (this this' : t W E) :
  err this = None ->
  flush fuel this = (Ok tt, this') ->
  err this' = None.
Proof.
  intros Herr Hrun. unfold flush in Hrun. rewrite Herr in Hrun.
  destruct (decide (usedBufferBytes this = 0)); [congruence|].
  destruct (writeAll _ _ _ _ _) as [[[?|e'|] w] calls];
    try discriminate.
  on_throw Hrun. reflexivity.
Qed.

Lemma write_loop_throw (fuel : nat) :
  forall (this this' : t W E) (data : bytes) (total : Z) (e : E),
    err this = None ->
    write_loop fuel this data total = (Throw e, this') ->
    err this' = Some e /\ exists p, last (sink_calls this') = Some (p, inl e).
Proof.
  induction fuel as [|fuel IH]; intros this this' data total e Herr Hrun;
    cbn [write_loop] in Hrun.
  - destruct (decide (len data > available this)); [discriminate|].
    destruct (ByteUtil.copy _ _ _). discriminate.
  - destruct (decide (len data > available this));
      [|destruct (ByteUtil.copy _ _ _); discriminate].
    destruct (decide (buffered this = 0)).
    + revert Hrun. split_answer; intros Hrun.
      * on_throw Hrun. split; [reflexivity|]. eexists. apply last_snoc.
      * eapply IH; [|exact Hrun]. exact Herr.
    + destruct (ByteUtil.copy _ _ _) as [buf' n'].
      destruct (flush fuel _) as [[[]|e'|] this1] eqn:Hflush;
        try discriminate.
      * eapply IH; [|exact Hrun].
        eapply flush_err_unchanged; [|exact Hflush]. exact Herr.
      * on_throw Hrun. eapply flush_throw; [|exact Hflush]. exact Herr.
Qed.

Lemma write_throw (fuel : nat) (this this' : t W E) (data : bytes) (e : E) :
  err this = None ->
  write fuel this data = (Throw e, this') ->
  err this' = Some e /\ exists p, last (sink_calls this') = Some (p, inl e).
Proof.
  intros Herr Hrun. unfold write in Hrun. rewrite Herr in Hrun.
  destruct (decide (len data = 0)); [discriminate|].
  eapply write_loop_throw; [|exact Hrun]. exact Herr.
Qed.

Lemma failed_stays_failed (fuel : nat) (this : t W E) (data : bytes) (e : E) :
  err this = Some e ->
  write fuel this data = (Throw e, this) /\ flush fuel this = (Throw e, this).
Proof. intros Herr. unfold write, flush. rewrite Herr. auto. Qed.

Lemma write_within_capacity (fuel : nat) (this : t W E) (data : bytes) :
  err this = None -> usedBufferBytes this = 0 ->
  len data <= len (buf this) ->
  exists buf',
    write fuel this data
    = (Ok (len data), mk buf' (len data) None (writer this) (sink_calls this))
    /\ take (length data) buf' = data.
Proof.
  intros Herr Hused Hfits. unfold write. rewrite Herr.
  destruct (decide (len data = 0)) as [H0|Hn0].
  - exists (buf this). rewrite H0. apply len_zero_nil in H0. subst data.
    destruct this; simpl in *; subst. auto.
  - destruct (copy_into_buffer data (buf this) (usedBufferBytes this))
      as (buf' & Hcopy & _ & Htake); [pose proof (len_nonneg (buf this)); lia|].
    rewrite Hused in *. rewrite Z.min_l in Hcopy, Htake by lia.
    exists buf'. split.
    + destruct fuel; cbn [write_loop]; unfold available; rewrite Hused;
        (destruct (decide (len data > len (buf this) - 0)); [lia|]);
        rewrite Hcopy, Herr; do 2 f_equal; lia.
    + replace (length data) with (Z.to_nat (0 + len data))
        by (unfold len; lia).
      rewrite Htake. simpl. apply take_ge. unfold len. lia.
Qed.

End LatchAsync.

Section LatchSync.
Import BufWriterSync.
Context {W E : Type} `{WriterSync W E}.

Lemma writeAllSync_throw (fuel : nat) :
  forall (w w' : W) (calls calls' : list (sink_call E)) (arr : bytes) (k : Z)
         (e : E),
    writeAllSync fuel w calls arr k = (Throw e, w', calls') ->
    exists p, last calls' = Some (p, inl e).
Proof.
  induction fuel as [|fuel IH]; intros w w' calls calls' arr k e Hrun;
    simpl in Hrun; destruct (decide (k < len arr)); try discriminate.
  revert Hrun. split_answer; intros Hrun.
  - on_throw Hrun. eexists. apply last_snoc.
  - eapply IH. exact Hrun.
Qed.

Lemma flushSync_throw (fuel : nat) (this this' : t W E) (e : E) :
  err this = None ->
  flush fuel this = (Throw e, this') ->
  err this' = Some e /\ exists p, last (sink_calls this') = Some (p, inl e).
Proof.
  intros Herr Hrun. unfold flush in Hrun. rewrite Herr in Hrun.
  destruct (decide (usedBufferBytes this = 0)); [discriminate|].
  destruct (writeAllSync _ _ _ _ _) as [[[?|e'|] w] calls] eqn:Hall;
    try discriminate.
  on_throw Hrun. split; [reflexivity|].
  apply writeAllSync_throw in Hall. exact Hall.
Qed.

Lemma flushSync_err_unchanged (fuel : nat) (this this' : t W E) :
  err this = None ->
  flush fuel this = (Ok tt, this') ->
  err this' = None.
Proof.
  intros Herr Hrun. unfold flush in Hrun. rewrite Herr in Hrun.
  destruct (decide (usedBufferBytes this = 0)); [congruence|].
  destruct (writeAllSync _ _ _ _ _) as [[[?|e'|] w] calls];
    try discriminate.
  on_throw Hrun. reflexivity.
Qed.

Lemma writeSync_loop_throw (fuel : nat) :
  forall (this this' : t W E) (data : bytes) (total : Z) (e : E),
    err this = None ->
    writeSync_loop fuel this data total = (Throw e, this') ->
    err this' = Some e /\ exists p, last (sink_calls this') = Some (p, inl e).
Proof.
  induction fuel as [|fuel IH]; intros this this' data total e Herr Hrun;
    cbn [writeSync_loop] in Hrun.
  - destruct (decide (len data > available this)); [discriminate|].
    destruct (ByteUtil.copy _ _ _). discriminate.
  - destruct (decide (len data > available this));
      [|destruct (ByteUtil.copy _ _ _); discriminate].
    destruct (decide (buffered this = 0)).
    + revert Hrun. split_answer; intros Hrun.
      * on_throw Hrun. split; [reflexivity|]. eexists. apply last_snoc.
      * eapply IH; [|exact Hrun]. exact Herr.
    + destruct (ByteUtil.copy _ _ _) as [buf' n'].
      destruct (flush fuel _) as [[[]|e'|] this1] eqn:Hflush;
        try discriminate.
      * eapply IH; [|exact Hrun].
        eapply flushSync_err_unchanged; [|exact Hflush]. exact Herr.
      * on_throw Hrun. eapply flushSync_throw; [|exact Hflush]. exact Herr.
Qed.

Lemma writeSync_throw (fuel : nat) (this this' : t W E) (data : bytes)
  (e : E) :
  err this = None ->
  writeSync fuel this data = (Throw e, this') ->
  err this' = Some e /\ exists p, last (sink_calls this') = Some (p, inl e).
Proof.
  intros Herr Hrun. unfold writeSync in Hrun. rewrite Herr in Hrun.
  destruct (decide (len data = 0)); [discriminate|].
  eapply writeSync_loop_throw; [|exact Hrun]. exact Herr.
Qed.

Lemma failedSync_stays_failed (fuel : nat) (this : t W E) (data : bytes)
  (e : E) :
  err this = Some e ->
  writeSync fuel this data = (Throw e, this) /\
  flush fuel this = (Throw e, this).
Proof. intros Herr. unfold writeSync, flush. rewrite Herr. auto. Qed.

Lemma writeSync_within_capacity (fuel : nat) (this : t W E) (data : bytes) :
  err this = None -> usedBufferBytes this = 0 ->
  len data <= len (buf this) ->
  exists buf',
    writeSync fuel this data
    = (Ok (len data), mk buf' (len data) None (writer this) (sink_calls this))
    /\ take (length data) buf' = data.
Proof.
  intros Herr Hused Hfits. unfold writeSync. rewrite Herr.
  destruct (decide (len data = 0)) as [H0|Hn0].
  - exists (buf this). rewrite H0. apply len_zero_nil in H0. subst data.
    destruct this; simpl in *; subst. auto.
  - destruct (copy_into_buffer data (buf this) (usedBufferBytes this))
      as (buf' & Hcopy & _ & Htake); [pose proof (len_nonneg (buf this)); lia|].
    rewrite Hused in *. rewrite Z.min_l in Hcopy, Htake by lia.
    exists buf'. split.
    + destruct fuel; cbn [writeSync_loop]; unfold available; rewrite Hused;
        (destruct (decide (len data > len (buf this) - 0)); [lia|]);
        rewrite Hcopy, Herr; do 2 f_equal; lia.
    + replace (length data) with (Z.to_nat (0 + len data))
        by (unfold len; lia).
      rewrite Htake. simpl. apply take_ge. unfold len. lia.
Qed.

End LatchSync.

(** C4: for [BufWriter] and for [BufWriterSync] alike.  When [write] (or
    [writeSync]) or [flush] of a writable writer throws, the exception is
    the one the sink has just thrown and it is stored in [err].  With an
    error stored, [write] and [flush] throw it and leave the writer, the
    sink and the record of the calls of the sink as they are.  [reset(w)]
    clears the stored error and the used-byte count and binds the sink [w]
    without a call of any sink: a [flush] then has nothing to send, and a
    [write] of what fits in the buffer is accepted whole. *)
Theorem writers_latch_sink_error :
  (forall (W E : Type) (Hw : Writer W E) (fuel : nat)
          (this this' : BufWriter.t W E) (data : bytes) (e : E),
      BufWriter.err this = None ->
      BufWriter.write fuel this data = (Throw e, this') \/
      BufWriter.flush fuel this = (Throw e, this') ->
      BufWriter.err this' = Some e /\
      exists p, last (BufWriter.sink_calls this') = Some (p, inl e)) /\
  (forall (W E : Type) (Hw : Writer W E) (fuel : nat)
          (this : BufWriter.t W E) (data : bytes) (e : E),
      BufWriter.err this = Some e ->
      BufWriter.write fuel this data = (Throw e, this) /\
      BufWriter.flush fuel this = (Throw e, this)) /\
  (forall (W E : Type) (Hw : Writer W E) (fuel : nat)
          (this : BufWriter.t W E) (w : W),
      let this' := BufWriter.reset this w in
      this' = BufWriter.mk (BufWriter.buf this) 0 None w
                           (BufWriter.sink_calls this) /\
      BufWriter.flush fuel this' = (Ok tt, this') /\
      forall data : bytes, len data <= len (BufWriter.buf this) ->
        exists buf',
          BufWriter.write fuel this' data
          = (Ok (len data),
             BufWriter.mk buf' (len data) None w (BufWriter.sink_calls this))
          /\ take (length data) buf' = data) /\
  (forall (W E : Type) (Hw : WriterSync W E) (fuel : nat)
          (this this' : BufWriterSync.t W E) (data : bytes) (e : E),
      BufWriterSync.err this = None ->
      BufWriterSync.writeSync fuel this data = (Throw e, this') \/
      BufWriterSync.flush fuel this = (Throw e, this') ->
      BufWriterSync.err this' = Some e /\
      exists p, last (BufWriterSync.sink_calls this') = Some (p, inl e)) /\
  (forall (W E : Type) (Hw : WriterSync W E) (fuel : nat)
          (this : BufWriterSync.t W E) (data : bytes) (e : E),
      BufWriterSync.err this = Some e ->
      BufWriterSync.writeSync fuel this data = (Throw e, this) /\
      BufWriterSync.flush fuel this = (Throw e, this)) /\
  (forall (W E : Type) (Hw : WriterSync W E) (fuel : nat)
          (this : BufWriterSync.t W E) (w : W),
      let this' := BufWriterSync.reset this w in
      this' = BufWriterSync.mk (BufWriterSync.buf this) 0 None w
                               (BufWriterSync.sink_calls this) /\
      BufWriterSync.flush fuel this' = (Ok tt, this') /\
      forall data : bytes, len data <= len (BufWriterSync.buf this) ->
        exists buf',
          BufWriterSync.writeSync fuel this' data
          = (Ok (len data),
             BufWriterSync.mk buf' (len data) None w
                              (BufWriterSync.sink_calls this))
          /\ take (length data) buf' = data).
Proof.
  repeat apply conj.
  - intros W E Hw fuel this this' data e Herr [Hrun|Hrun].
    + eapply write_throw; eassumption.
    + eapply flush_throw; eassumption.
  - intros W E Hw fuel this data e. apply failed_stays_failed.
  - intros W E Hw fuel this w this'. repeat apply conj; try reflexivity.
    intros data Hfits.
    apply (write_within_capacity fuel this' data); auto.
  - intros W E Hw fuel this this' data e Herr [Hrun|Hrun].
    + eapply writeSync_throw; eassumption.
    + eapply flushSync_throw; eassumption.
  - intros W E Hw fuel this data e. apply failedSync_stays_failed.
  - intros W E Hw fuel this w this'. repeat apply conj; try reflexivity.
    intros data Hfits.
    apply (writeSync_within_capacity fuel this' data); auto.
Qed.

Lemma writers_latch_sink_error_witness :
  let this := BufWriter.new (FailsAfter 0) 2 in
  let failed := BufWriter.mk [0; 0] 0 (Some "sink closed"%string)
                  (FailsAfter 0) [([1; 2; 3], inl "sink closed"%string)] in
  BufWriter.write 4 this [1; 2; 3] = (Throw "sink closed"%string, failed) /\
  BufWriter.write 4 failed [4] = (Throw "sink closed"%string, failed) /\
  BufWriter.flush 4 failed = (Throw "sink closed"%string, failed) /\
  BufWriter.flush 4 (BufWriter.reset failed (FailsAfter 1))
  = (Ok tt, BufWriter.reset failed (FailsAfter 1)).
Proof.
  intros this failed.
  destruct writers_latch_sink_error as (_ & Hfailed & Hreset & _).
  split; [reflexivity|].
  destruct (Hfailed failing_sink string _ 4%nat failed [4]
              "sink closed"%string eq_refl) as [Hw Hf].
  split; [exact Hw|]. split; [exact Hf|].
  exact (proj1 (proj2 (Hreset failing_sink string _ 4%nat failed
                         (FailsAfter 1)))).
Defined.

(** ** The store of arrays *)

Section Heap.

Lemma length_contents_le (h : heap) (v : u8) :
  (length (contents h v) <= extent v)%nat.
Proof. unfold contents. rewrite length_take. lia. Qed.

Lemma length_contents (h : heap) (v : u8) :
  window_ok h v -> length (contents h v) = extent v.
Proof.
  intros [_ Hin]. unfold contents. rewrite length_take, length_drop. lia.
Qed.

Lemma stored_length (old data : bytes) (off n : nat) :
  length (take off old ++ deposit (take n (drop off old)) data
            ++ drop (off + n) old) = length old.
Proof.
  rewrite !length_app, deposit_length, !length_take, !length_drop. lia.
Qed.

Lemma store_length (h : heap) (v : u8) (data : bytes) :
  length (store h v data) = length h.
Proof. unfold store. apply length_alter. Qed.

Lemma store_lookup_ne (h : heap) (v : u8) (data : bytes) (loc : nat) :
  base v <> loc -> store h v data !! loc = h !! loc.
Proof. intros Hne. unfold store. apply list_lookup_alter_ne. exact Hne. Qed.

Lemma store_buffer_length (h : heap) (v : u8) (data : bytes) (loc : nat) :
  length (store h v data !!! loc) = length (h !!! loc).
Proof.
  unfold store. rewrite list_lookup_total_alter.
  destruct (decide (base v = loc /\ (base v < length h)%nat)) as [[<- _]|_];
    [apply stored_length|reflexivity].
Qed.

Lemma store_window_ok (h : heap) (v v' : u8) (data : bytes) :
  window_ok h v' -> window_ok (store h v data) v'.
Proof.
  intros [Hb Hin]. split.
  - rewrite store_length. exact Hb.
  - rewrite store_buffer_length. exact Hin.
Qed.

Lemma alloc_window_ok (h : heap) (b : bytes) :
  window_ok (fst (alloc h b)) (snd (alloc h b)).
Proof.
  unfold alloc, window_ok. simpl. rewrite length_app. simpl. split; [lia|].
  rewrite list_lookup_total_middle by reflexivity. lia.
Qed.

Lemma contents_alloc_new (h : heap) (b : bytes) :
  contents (h ++ [b]) (U8 (length h) 0 (length b)) = b.
Proof.
  unfold contents. cbn [base offset extent].
  rewrite list_lookup_total_middle by reflexivity.
  rewrite drop_0. apply take_ge. lia.
Qed.

Lemma contents_alloc_old (h : heap) (b : bytes) (v : u8) :
  (base v < length h)%nat -> contents (h ++ [b]) v = contents h v.
Proof.
  intros Hin. unfold contents. rewrite lookup_total_app_l by exact Hin.
  reflexivity.
Qed.

Lemma byteLength_subarray (v : u8) (b e : Z) :
  0 <= b <= e -> e <= byteLength v ->
  byteLength (u8_subarray v b e) = e - b.
Proof.
  intros Hb He. unfold u8_subarray, byteLength, rel_index in *. simpl.
  destruct (decide (b < 0)); [lia|]. destruct (decide (e < 0)); lia.
Qed.

Lemma byteLength_nonneg (v : u8) : 0 <= byteLength v.
Proof. unfold byteLength. lia. Qed.

Lemma byteLength_subarray_le (v : u8) (b e : Z) :
  0 <= b -> 0 <= e ->
  byteLength (u8_subarray v b e) <= Z.max 0 (e - b).
Proof.
  intros Hb He. unfold u8_subarray, byteLength, rel_index in *. simpl.
  destruct (decide (b < 0)); [lia|]. destruct (decide (e < 0)); lia.
Qed.

Lemma indexOf_from_bound (a : bytes) (x i : Z) :
  indexOf_from a x i = -1 \/ i <= indexOf_from a x i < i + len a.
Proof.
  revert i. induction a as [|y a IH]; intros i; simpl; [auto|].
  unfold len in *. simpl length.
  destruct (decide (y = x)); [right; lia|].
  destruct (IH (i + 1)) as [->|Hin]; [auto|right; lia].
Qed.

Lemma indexOf_bound (a : bytes) (x : Z) :
  indexOf a x >= 0 -> indexOf a x < len a.
Proof.
  intros Hi. unfold indexOf in *.
  destruct (indexOf_from_bound a x 0) as [Hno|Hin]; lia.
Qed.

End Heap.

(** ** io/bufio.ts: the cursor invariant of the buffered reader *)

Section ReaderInvariant.
Import BufReader.
Context {R : Type} `{Reader R}.
Hypothesis Hsrc : @bounded_source R _.

Ltac simpl_state :=
  cbn [r w buf mem eof rd with_mem with_buf with_rd with_r with_w with_eof
       fst snd] in *.

Ltac split_ok := split; [split; [|split] | split].

Ltac open_ok :=
  repeat match goal with
  | Hok : reader_ok _ _ |- _ =>
      destruct Hok as ((? & ? & ?) & ? & ?)
  end.

Lemma source_read_ok (C : Z) (s s' : state R) (p : u8) (a : option Z) :
  reader_ok C s ->
  source_read s p = (a, s') ->
  reader_ok C s' /\ r s' = r s /\ w s' = w s /\ eof s' = eof s /\
  buf s' = buf s /\
  (forall rr, a = Some rr -> 0 <= rr /\ rr <= byteLength p).
Proof.
  intros Hok Hread. unfold source_read in Hread.
  assert (Hsome : forall x y : Z, Some x = Some y -> x = y) by congruence.
  pose proof (Hsrc (rd s) (byteLength p) (byteLength_nonneg p)) as Hb.
  destruct (reader_read (rd s) (byteLength p)) as [[[rr stored]|] rd'];
    inversion Hread; subst; clear Hread; simpl_state; open_ok.
  - split; [|do 4 (split; [reflexivity|]);
               intros rr0 Heq; apply Hsome in Heq; subst; exact Hb].
    split_ok; simpl_state; try assumption; try lia.
    apply store_window_ok. assumption.
  - split; [|repeat split; discriminate].
    split_ok; simpl_state; assumption.
Qed.

Lemma fill_loop_ok (C : Z) (i : nat) :
  forall (s s' : state R) (a : outcome error unit),
    reader_ok C s ->
    fill_loop i s = (a, s') ->
    reader_ok C s' /\ r s' = r s /\ w s <= w s'.
Proof.
  induction i as [|i IH]; intros s s' a Hok Hrun; cbn [fill_loop] in Hrun.
  - inversion Hrun; subst. auto with zarith.
  - destruct (source_read s (u8_subarray_from (buf s) (w s)))
      as [[rr|] s1] eqn:Hread;
      destruct (source_read_ok C _ _ _ _ Hok Hread)
        as (Hok1 & Hr & Hw & He & Hb & Hrr).
    + specialize (Hrr rr eq_refl).
      assert (Hlen : byteLength (u8_subarray_from (buf s) (w s)) = C - w s).
      { open_ok. unfold u8_subarray_from.
        rewrite byteLength_subarray; lia. }
      destruct (decide (rr >= 0)); [|inversion Hrun; subst; split; [auto|lia]].
      assert (Hok2 : reader_ok C (with_w s1 (w s1 + rr))).
      { open_ok. split_ok; simpl_state; try assumption; try lia. }
      destruct (decide (rr > 0)).
      * inversion Hrun; subst. simpl_state. split; [exact Hok2|]. lia.
      * destruct (IH _ _ _ Hok2 Hrun) as (Hok' & Hr' & Hw').
        simpl_state. split; [exact Hok'|]. lia.
    + inversion Hrun; subst. open_ok. split; [|simpl_state; lia].
      split_ok; simpl_state; try assumption; try lia.
Qed.

Lemma fill_ok (C : Z) (s s' : state R) (a : outcome error unit) :
  reader_ok C s ->
  _fill s = (a, s') ->
  reader_ok C s' /\ w s - r s <= w s' - r s'.
Proof.
  intros Hok Hrun. unfold _fill in Hrun.
  set (s1 := slide s) in Hrun.
  assert (Hok1 : reader_ok C s1 /\ w s1 - r s1 = w s - r s).
  { unfold s1, slide. destruct (decide (r s > 0)); [|auto].
    open_ok. split; [|simpl_state; lia].
    split_ok; simpl_state; try assumption; try lia.
    apply store_window_ok. assumption. }
  destruct Hok1 as [Hok1 Hbuf].
  destruct (decide (w s1 >= byteLength (buf s1))).
  - inversion Hrun; subst. split; [exact Hok1|lia].
  - destruct (fill_loop_ok C _ _ _ _ Hok1 Hrun) as (Hok' & Hr & Hw).
    split; [exact Hok'|lia].
Qed.

Lemma copy_count (src dst : bytes) (off : Z) :
  0 <= snd (ByteUtil.copy src dst off) <= len src.
Proof.
  rewrite copy_eq. cbn [snd]. unfold len. rewrite length_take. lia.
Qed.

Lemma copy_to_ok (C : Z) (s s' : state R) (src dst : u8) (n : Z) :
  reader_ok C s ->
  copy_to s src dst = (n, s') ->
  reader_ok C s' /\ r s' = r s /\ w s' = w s /\ 0 <= n <= byteLength src.
Proof.
  intros Hok Hrun. unfold copy_to in Hrun.
  pose proof (copy_count (contents (mem s) src) (contents (mem s) dst) 0) as Hn.
  destruct (ByteUtil.copy _ _ 0) as [dst' n'].
  inversion Hrun; subst; clear Hrun. cbn [snd] in Hn.
  pose proof (length_contents_le (mem s) src).
  open_ok. split; [|simpl_state; unfold len, byteLength in *; lia].
  split_ok; simpl_state; try assumption; try lia.
  apply store_window_ok. assumption.
Qed.

Lemma read_copy_ok (C : Z) (s s' : state R) (p : u8)
  (a : outcome error (option Z)) :
  reader_ok C s ->
  read_copy s p = (a, s') ->
  reader_ok C s'.
Proof.
  intros Hok Hrun. unfold read_copy in Hrun.
  destruct (copy_to s _ p) as [copied s1] eqn:Hto.
  destruct (copy_to_ok C _ _ _ _ _ Hok Hto) as (Hok1 & Hr & Hw & Hn).
  inversion Hrun; subst; clear Hrun.
  rewrite byteLength_subarray in Hn by (open_ok; lia).
  open_ok. split_ok; simpl_state; try assumption; try lia.
Qed.

Lemma read_ok (C : Z) (s s' : state R) (p : u8) (a : outcome error (option Z)) :
  reader_ok C s ->
  read s p = (a, s') ->
  reader_ok C s'.
Proof.
  intros Hok Hrun. unfold read in Hrun.
  destruct (decide (byteLength p = 0)); [inversion Hrun; subst; exact Hok|].
  destruct (decide (r s = w s)); [|eapply read_copy_ok; eassumption].
  destruct (decide (byteLength p >= byteLength (buf s))).
  - destruct (source_read s p) as [[rr|] s1] eqn:Hread;
      destruct (source_read_ok C _ _ _ _ Hok Hread) as (Hok1 & _).
    + destruct (decide (rr >= 0)); inversion Hrun; subst; exact Hok1.
    + inversion Hrun; subst; exact Hok1.
  - assert (Hok0 : reader_ok C (with_w (with_r s 0) 0)).
    { open_ok. split_ok; simpl_state; try assumption; try lia. }
    destruct (source_read (with_w (with_r s 0) 0) _) as [[rr|] s1] eqn:Hread;
      destruct (source_read_ok C _ _ _ _ Hok0 Hread)
        as (Hok1 & Hr & Hw & He & Hb & Hrr).
    + specialize (Hrr rr eq_refl). simpl_state.
      destruct (decide (rr = 0)); [inversion Hrun; subst; exact Hok1|].
      destruct (decide (rr >= 0)); [|inversion Hrun; subst; exact Hok1].
      eapply read_copy_ok; [|exact Hrun].
      open_ok. rewrite Hb in *. simpl_state.
      split_ok; simpl_state; rewrite ?Hb; try assumption; try lia.
    + inversion Hrun; subst; exact Hok1.
Qed.

Lemma readFull_loop_ok (C : Z) (fuel : nat) :
  forall (s s' : state R) (p : u8) (bytesRead : Z)
         (a : outcome error (option u8)),
    reader_ok C s ->
    readFull_loop fuel s p bytesRead = (a, s') ->
    reader_ok C s'.
Proof.
  induction fuel as [|fuel IH]; intros s s' p n a Hok Hrun;
    cbn [readFull_loop] in Hrun;
    (destruct (decide (n < byteLength p));
     [|inversion Hrun; subst; exact Hok]).
  - inversion Hrun; subst; exact Hok.
  - destruct (read s (u8_subarray_from p n)) as [a1 s1] eqn:Hread.
    pose proof (read_ok C _ _ _ _ Hok Hread) as Hok1.
    destruct a1 as [[rr|]|err|].
    + eapply IH; eassumption.
    + destruct (decide (n = 0)); inversion Hrun; subst; exact Hok1.
    + inversion Hrun; subst; exact Hok1.
    + inversion Hrun; subst; exact Hok1.
Qed.

Lemma readByte_ok (C : Z) (fuel : nat) :
  forall (s s' : state R) (a : outcome error (option (option Z))),
    reader_ok C s ->
    readByte fuel s = (a, s') ->
    reader_ok C s'.
Proof.
  assert (Hlast : forall s : state R,
            reader_ok C s -> r s <> w s -> reader_ok C (with_r s (r s + 1))).
  { intros s Hok Hne. open_ok.
    split_ok; simpl_state; try assumption; try lia. }
  induction fuel as [|fuel IH]; intros s s' a Hok Hrun;
    cbn [readByte] in Hrun;
    (destruct (decide (r s = w s));
     [|inversion Hrun; subst; apply Hlast; assumption]).
  - inversion Hrun; subst; exact Hok.
  - destruct (eof s); [inversion Hrun; subst; exact Hok|].
    destruct (_fill s) as [a1 s1] eqn:Hfill.
    destruct (fill_ok C _ _ _ Hok Hfill) as [Hok1 _].
    destruct a1 as [[]|err|].
    + eapply IH; eassumption.
    + inversion Hrun; subst; exact Hok1.
    + inversion Hrun; subst; exact Hok1.
Qed.

Lemma readSlice_loop_ok (C : Z) (fuel : nat) :
  forall (s s' : state R) (delim s0 : Z) (a : outcome error (option u8)),
    reader_ok C s ->
    0 <= s0 <= w s - r s ->
    readSlice_loop fuel s delim s0 = (a, s') ->
    reader_ok C s'.
Proof.
  induction fuel as [|fuel IH]; intros s s' delim s0 a Hok Hs0 Hrun;
    cbn [readSlice_loop] in Hrun.
  - inversion Hrun; subst; exact Hok.
  - set (i := indexOf _ delim) in Hrun.
    destruct (decide (i >= 0)) as [Hi|Hi].
    + pose proof (indexOf_bound _ _ Hi) as Hlt. fold i in Hlt.
      pose proof (length_contents_le (mem s)
                    (u8_subarray (buf s) (r s + s0) (w s))) as Hle.
      assert (Hsz : byteLength (u8_subarray (buf s) (r s + s0) (w s))
                    = w s - (r s + s0))
        by (open_ok; apply byteLength_subarray; lia).
      inversion Hrun; subst; clear Hrun.
      open_ok. unfold len, byteLength in *.
      split_ok; simpl_state; unfold byteLength in *;
        try assumption; try lia.
    + destruct (eof s).
      * destruct (decide (r s = w s)); inversion Hrun; subst; [exact Hok|].
        open_ok. split_ok; simpl_state; try assumption; try lia.
      * destruct (decide (buffered s >= byteLength (buf s))).
        -- simpl_state.
           pose proof (alloc_window_ok (mem s) (contents (mem s) (buf s)))
             as Hnew.
           destruct (alloc (mem s) (contents (mem s) (buf s)))
             as [h newbuf] eqn:Halloc.
           inversion Hrun; subst; clear Hrun.
           assert (Hsize : byteLength newbuf = byteLength (buf s)).
           { unfold alloc in Halloc. inversion Halloc; subst.
             unfold byteLength. cbn [extent]. f_equal.
             apply length_contents. open_ok. assumption. }
           open_ok. split_ok; simpl_state; try lia. exact Hnew.
        -- destruct (_fill s) as [a1 s1] eqn:Hfill.
           destruct (fill_ok C _ _ _ Hok Hfill) as [Hok1 Hgrow].
           destruct a1 as [[]|err|].
           ++ eapply IH; [exact Hok1| |exact Hrun]. lia.
           ++ inversion Hrun; subst; exact Hok1.
           ++ inversion Hrun; subst; exact Hok1.
Qed.

Lemma readSlice_ok (C : Z) (fuel : nat) (s s' : state R) (delim : Z)
  (a : outcome error (option u8)) :
  reader_ok C s ->
  readSlice fuel s delim = (a, s') ->
  reader_ok C s'.
Proof.
  intros Hok Hrun. eapply readSlice_loop_ok; [exact Hok| |exact Hrun].
  open_ok. lia.
Qed.

Lemma readLine_ok (C : Z) (fuel : nat) (s s' : state R)
  (a : outcome error (option (u8 * bool))) :
  reader_ok C s ->
  readLine fuel s = (a, s') ->
  reader_ok C s'.
Proof.
  intros Hok Hrun. unfold readLine in Hrun.
  destruct (readSlice fuel s LF) as [a1 s1] eqn:Hslice.
  pose proof (readSlice_ok C _ _ _ _ _ Hok Hslice) as Hok1.
  destruct a1 as [[line|]|err|].
  - destruct (decide (byteLength line = 0)); inversion Hrun; subst; exact Hok1.
  - inversion Hrun; subst; exact Hok1.
  - destruct (partial err) as [part|]; [|inversion Hrun; subst; exact Hok1].
    destruct (decide (class err <> BufferFullError));
      [inversion Hrun; subst; exact Hok1|].
    destruct (decide (eof s1 = false /\ _ /\ _));
      [|inversion Hrun; subst; exact Hok1].
    destruct (decide (r s1 > 0)); inversion Hrun; subst; [|exact Hok1].
    open_ok. split_ok; simpl_state; try assumption; try lia.
  - inversion Hrun; subst; exact Hok1.
Qed.

Lemma peek_loop_ok (C : Z) (fuel : nat) :
  forall (s s' : state R) (n avail : Z) (a : outcome error Z),
    reader_ok C s ->
    peek_loop fuel s n avail = (a, s') ->
    reader_ok C s'.
Proof.
  induction fuel as [|fuel IH]; intros s s' n avail a Hok Hrun;
    cbn [peek_loop] in Hrun;
    (destruct (decide (avail < n /\ _ /\ _));
     [|inversion Hrun; subst; exact Hok]).
  - inversion Hrun; subst; exact Hok.
  - destruct (_fill s) as [a1 s1] eqn:Hfill.
    destruct (fill_ok C _ _ _ Hok Hfill) as [Hok1 _].
    destruct a1 as [[]|err|].
    + eapply IH; eassumption.
    + inversion Hrun; subst; exact Hok1.
    + inversion Hrun; subst; exact Hok1.
Qed.

Lemma peek_ok (C : Z) (fuel : nat) (s s' : state R) (n : Z)
  (a : outcome error (option u8)) :
  reader_ok C s ->
  peek fuel s n = (a, s') ->
  reader_ok C s'.
Proof.
  intros Hok Hrun. unfold peek in Hrun.
  destruct (decide (n < 0)); [inversion Hrun; subst; exact Hok|].
  destruct (peek_loop fuel s n (w s - r s)) as [a1 s1] eqn:Hloop.
  pose proof (peek_loop_ok C _ _ _ _ _ _ Hok Hloop) as Hok1.
  destruct a1 as [avail|err|]; try (inversion Hrun; subst; exact Hok1).
  repeat (destruct (decide _) in Hrun); inversion Hrun; subst; exact Hok1.
Qed.

Lemma after_ok (C : Z) (fuel : nat) (o : op R) (s : state R) :
  reader_ok C s -> reader_ok C (after fuel o s).
Proof.
  intros Hok. destruct o as [p|p| |delim|delim| |n|x]; cbn [after].
  - destruct (read s p) as [a s'] eqn:Hrun. eapply read_ok; eassumption.
  - destruct (readFull fuel s p) as [a s'] eqn:Hrun.
    eapply readFull_loop_ok; eassumption.
  - destruct (readByte fuel s) as [a s'] eqn:Hrun.
    eapply readByte_ok; eassumption.
  - destruct (readSlice fuel s delim) as [a s'] eqn:Hrun.
    eapply readSlice_ok; eassumption.
  - unfold readString. destruct (decide (length delim <> 1%nat)); [exact Hok|].
    destruct (readSlice fuel s _) as [a s'] eqn:Hrun.
    eapply readSlice_ok; eassumption.
  - destruct (readLine fuel s) as [a s'] eqn:Hrun.
    eapply readLine_ok; eassumption.
  - destruct (peek fuel s n) as [a s'] eqn:Hrun. eapply peek_ok; eassumption.
  - unfold reset, _reset. open_ok. split_ok; simpl_state; assumption.
Qed.

End ReaderInvariant.

(** C6: over a source that answers [null] or a count between [0] and the
    length of the array it is handed, every operation of a [BufReader]
    ([read], [readFull], [readByte], [readSlice], [readString], [readLine],
    [peek], [reset]), however it ends, leaves [0 <= r <= w <= capacity],
    and the capacity is the same afterwards. *)
Theorem BufReader_cursor_invariant {R : Type} `{Reader R}
  (fuel : nat) (o : BufReader.op R) (s : BufReader.state R) :
  @BufReader.bounded_source R _ ->
  window_ok (BufReader.mem s) (BufReader.buf s) ->
  BufReader.cursors_ok s ->
  BufReader.cursors_ok (BufReader.after fuel o s) /\
  byteLength (BufReader.buf (BufReader.after fuel o s))
  = byteLength (BufReader.buf s).
Proof.
  intros Hsrc Hwin Hcur.
  assert (Hok : BufReader.reader_ok (byteLength (BufReader.buf s)) s)
    by (split; [exact Hcur|split; [reflexivity|exact Hwin]]).
  pose proof (after_ok Hsrc _ fuel o s Hok) as (Hcur' & Hcap & _).
  split; assumption.
Qed.

Lemma fragments_bounded : @BufReader.bounded_source fragments _.
Proof.
  intros x n Hn. unfold reader_read, fragments_reader.
  destruct x as [|c rest]; [exact I|]. cbn [fst].
  unfold len. rewrite length_take. lia.
Qed.

Lemma BufReader_cursor_invariant_witness :
  let s := BufReader.new [] [[97; 98]; [99; 10; 100]] 16 in
  BufReader.cursors_ok (BufReader.after 8 BufReader.ReadLine s) /\
  byteLength (BufReader.buf (BufReader.after 8 BufReader.ReadLine s)) = 16.
Proof.
  intros s.
  apply (BufReader_cursor_invariant 8 BufReader.ReadLine s).
  - exact fragments_bounded.
  - split; vm_compute; lia.
  - repeat split; vm_compute; discriminate.
Defined.

(** ** io/bufio.ts: the payload of a buffer-full error *)

Section ReaderFrame.
Import BufReader.
Context {R : Type} `{Reader R}.

Ltac simpl_state :=
  cbn [r w buf mem eof rd with_mem with_buf with_rd with_r with_w with_eof
       fst snd] in *.

Ltac done_kept Hrun Hkept :=
  inversion Hrun; subst; clear Hrun; simpl_state; exact Hkept.

Lemma kept_refl (loc : nat) (s : state R) : apart loc s -> kept loc s s.
Proof. intros Ha. split; [reflexivity|exact Ha]. Qed.

Lemma kept_trans (loc : nat) (s1 s2 s3 : state R) :
  kept loc s1 s2 -> kept loc s2 s3 -> kept loc s1 s3.
Proof. intros [H12 _] [H23 Ha]. split; [congruence|exact Ha]. Qed.

Lemma kept_cursor (loc : nat) (s s' : state R) :
  kept loc s s' ->
  forall x y e d,
    kept loc s (mkState (mem s') (buf s') d x y e).
Proof. intros [Hm [Hl Hb]] x y e d. repeat split; assumption. Qed.

Lemma store_kept (loc : nat) (s : state R) (v : u8) (data : bytes) :
  apart loc s -> base v <> loc ->
  kept loc s (with_mem s (store (mem s) v data)).
Proof.
  intros [Hl Hb] Hv. split; [|split]; simpl_state.
  - apply store_lookup_ne. exact Hv.
  - rewrite store_length. exact Hl.
  - exact Hb.
Qed.

Lemma source_read_buf (s s' : state R) (p : u8) (a : option Z) :
  source_read s p = (a, s') -> buf s' = buf s.
Proof.
  unfold source_read.
  destruct (reader_read (rd s) (byteLength p)) as [[[rr stored]|] rd'];
    intros [= _ <-]; reflexivity.
Qed.

(** [_fill] keeps the same internal buffer, and what it throws is not a
    [BufferFullError]. *)
Lemma fill_loop_plain (i : nat) :
  forall (s s' : state R) (a : outcome error unit),
    fill_loop i s = (a, s') ->
    buf s' = buf s /\ (forall e, a = Throw e -> class e <> BufferFullError).
Proof.
  induction i as [|i IH]; intros s s' a Hrun; cbn [fill_loop] in Hrun.
  - inversion Hrun; subst. split; [reflexivity|].
    intros e [= <-]. discriminate.
  - destruct (source_read s _) as [[rr|] s1] eqn:Hread;
      apply source_read_buf in Hread.
    + destruct (decide (rr >= 0)).
      * destruct (decide (rr > 0)).
        -- inversion Hrun; subst. split; [exact Hread|discriminate].
        -- destruct (IH _ _ _ Hrun) as [Hb Hc]. simpl_state.
           split; [congruence|exact Hc].
      * inversion Hrun; subst. split; [exact Hread|].
        intros e [= <-]. discriminate.
    + inversion Hrun; subst. split; [exact Hread|discriminate].
Qed.

Lemma fill_plain (s s' : state R) (a : outcome error unit) :
  _fill s = (a, s') ->
  buf s' = buf s /\ (forall e, a = Throw e -> class e <> BufferFullError).
Proof.
  unfold _fill. set (s1 := slide s).
  assert (Hs1 : buf s1 = buf s)
    by (unfold s1, slide; destruct (decide (r s > 0)); reflexivity).
  destruct (decide (w s1 >= byteLength (buf s1))).
  - intros [= <- <-]. split; [exact Hs1|]. intros e [= <-]. discriminate.
  - intros Hloop. destruct (fill_loop_plain _ _ _ _ Hloop) as [Hb Hc].
    split; [congruence|exact Hc].
Qed.

Lemma source_read_kept (loc : nat) (s s' : state R) (p : u8) (a : option Z) :
  apart loc s -> base p <> loc ->
  source_read s p = (a, s') ->
  kept loc s s'.
Proof.
  intros Ha Hp Hread. unfold source_read in Hread.
  destruct (reader_read (rd s) (byteLength p)) as [[[rr stored]|] rd'];
    inversion Hread; subst; clear Hread.
  - apply (kept_cursor loc s _ (store_kept loc s p stored Ha Hp)).
  - apply (kept_cursor loc s _ (kept_refl loc s Ha)).
Qed.

Lemma fill_loop_kept (loc : nat) (i : nat) :
  forall (s s' : state R) (a : outcome error unit),
    apart loc s ->
    fill_loop i s = (a, s') ->
    kept loc s s'.
Proof.
  induction i as [|i IH]; intros s s' a Ha Hrun; cbn [fill_loop] in Hrun.
  - inversion Hrun; subst. apply kept_refl; exact Ha.
  - destruct (source_read s (u8_subarray_from (buf s) (w s)))
      as [[rr|] s1] eqn:Hread;
      pose proof (source_read_kept loc _ _ (u8_subarray_from (buf s) (w s)) _
                    Ha (proj2 Ha) Hread) as Hk1.
    + destruct (decide (rr >= 0)); [|inversion Hrun; subst; exact Hk1].
      pose proof (kept_cursor loc s s1 Hk1 (r s1) (w s1 + rr) (eof s1)
                    (rd s1)) as Hk2.
      destruct (decide (rr > 0)); [inversion Hrun; subst; exact Hk2|].
      eapply kept_trans; [exact Hk2|].
      eapply IH; [exact (proj2 Hk2)|exact Hrun].
    + inversion Hrun; subst; clear Hrun.
      apply (kept_cursor loc s s1 Hk1).
Qed.

Lemma fill_kept (loc : nat) (s s' : state R) (a : outcome error unit) :
  apart loc s ->
  _fill s = (a, s') ->
  kept loc s s'.
Proof.
  intros Ha Hrun. unfold _fill in Hrun.
  set (s1 := slide s) in Hrun.
  assert (Hk1 : kept loc s s1).
  { unfold s1, slide. destruct (decide (r s > 0)); [|apply kept_refl; exact Ha].
    apply (kept_cursor loc s _ (store_kept loc s (buf s) _ Ha (proj2 Ha))). }
  destruct (decide (w s1 >= byteLength (buf s1))).
  - inversion Hrun; subst; clear Hrun. exact Hk1.
  - eapply kept_trans; [exact Hk1|].
    eapply fill_loop_kept; [exact (proj2 Hk1)|exact Hrun].
Qed.

Lemma read_copy_kept (loc : nat) (s s' : state R) (p : u8)
  (a : outcome error (option Z)) :
  apart loc s -> base p <> loc ->
  read_copy s p = (a, s') ->
  kept loc s s'.
Proof.
  intros Ha Hp Hrun. unfold read_copy, copy_to in Hrun.
  destruct (ByteUtil.copy _ _ 0) as [dst' n].
  inversion Hrun; subst; clear Hrun.
  apply (kept_cursor loc s _ (store_kept loc s p dst' Ha Hp)).
Qed.

Lemma read_kept (loc : nat) (s s' : state R) (p : u8)
  (a : outcome error (option Z)) :
  apart loc s -> base p <> loc ->
  read s p = (a, s') ->
  kept loc s s'.
Proof.
  intros Ha Hp Hrun. unfold read in Hrun.
  destruct (decide (byteLength p = 0));
    [inversion Hrun; subst; apply kept_refl; exact Ha|].
  destruct (decide (r s = w s)); [|eapply read_copy_kept; eassumption].
  destruct (decide (byteLength p >= byteLength (buf s))).
  - destruct (source_read s p) as [[rr|] s1] eqn:Hread;
      pose proof (source_read_kept loc _ _ _ _ Ha Hp Hread) as Hk1.
    + destruct (decide (rr >= 0)); inversion Hrun; subst; exact Hk1.
    + inversion Hrun; subst; exact Hk1.
  - pose proof (kept_cursor loc s s (kept_refl loc s Ha) 0 0 (eof s) (rd s))
      as Hk0.
    change (mkState (mem s) (buf s) (rd s) 0 0 (eof s))
      with (with_w (with_r s 0) 0) in Hk0.
    destruct (source_read (with_w (with_r s 0) 0) _) as [[rr|] s1] eqn:Hread;
      pose proof (source_read_kept loc _ _ (buf s) _ (proj2 Hk0) (proj2 Ha)
                    Hread) as Hk1;
      pose proof (kept_trans _ _ _ _ Hk0 Hk1) as Hk.
    + destruct (decide (rr = 0)); [inversion Hrun; subst; exact Hk|].
      destruct (decide (rr >= 0)); [|inversion Hrun; subst; exact Hk].
      pose proof (kept_cursor loc s s1 Hk (r s1) (w s1 + rr) (eof s1) (rd s1))
        as Hk2.
      eapply kept_trans; [exact Hk2|].
      eapply read_copy_kept; [exact (proj2 Hk2)|exact Hp|exact Hrun].
    + inversion Hrun; subst; exact Hk.
Qed.

Lemma base_subarray (v : u8) (b e : Z) : base (u8_subarray v b e) = base v.
Proof. reflexivity. Qed.

Lemma readFull_loop_kept (loc : nat) (fuel : nat) :
  forall (s s' : state R) (p : u8) (bytesRead : Z)
         (a : outcome error (option u8)),
    apart loc s -> base p <> loc ->
    readFull_loop fuel s p bytesRead = (a, s') ->
    kept loc s s'.
Proof.
  induction fuel as [|fuel IH]; intros s s' p n a Ha Hp Hrun;
    cbn [readFull_loop] in Hrun;
    (destruct (decide (n < byteLength p));
     [|inversion Hrun; subst; apply kept_refl; exact Ha]).
  - inversion Hrun; subst; apply kept_refl; exact Ha.
  - destruct (read s (u8_subarray_from p n)) as [a1 s1] eqn:Hread.
    pose proof (read_kept loc _ _ (u8_subarray_from p n) _ Ha Hp Hread) as Hk1.
    destruct a1 as [[rr|]|err|].
    + eapply kept_trans; [exact Hk1|].
      eapply IH; [exact (proj2 Hk1)|exact Hp|exact Hrun].
    + destruct (decide (n = 0)); inversion Hrun; subst; exact Hk1.
    + inversion Hrun; subst; exact Hk1.
    + inversion Hrun; subst; exact Hk1.
Qed.

Lemma readByte_kept (loc : nat) (fuel : nat) :
  forall (s s' : state R) (a : outcome error (option (option Z))),
    apart loc s ->
    readByte fuel s = (a, s') ->
    kept loc s s'.
Proof.
  induction fuel as [|fuel IH]; intros s s' a Ha Hrun;
    cbn [readByte] in Hrun;
    (destruct (decide (r s = w s));
     [|inversion Hrun; subst;
       apply (kept_cursor loc s s (kept_refl loc s Ha))]).
  - inversion Hrun; subst; apply kept_refl; exact Ha.
  - destruct (eof s); [inversion Hrun; subst; apply kept_refl; exact Ha|].
    destruct (_fill s) as [a1 s1] eqn:Hfill.
    pose proof (fill_kept loc _ _ _ Ha Hfill) as Hk1.
    destruct a1 as [[]|err|].
    + eapply kept_trans; [exact Hk1|]. eapply IH; [exact (proj2 Hk1)|exact Hrun].
    + inversion Hrun; subst; exact Hk1.
    + inversion Hrun; subst; exact Hk1.
Qed.

Lemma same_shape_refl (h : heap) : same_shape h h.
Proof. split; reflexivity. Qed.

Lemma same_shape_trans (h1 h2 h3 : heap) :
  same_shape h1 h2 -> same_shape h2 h3 -> same_shape h1 h3.
Proof.
  intros [Hl12 Hb12] [Hl23 Hb23]. split; [congruence|].
  intros loc. rewrite Hb23. apply Hb12.
Qed.

Lemma store_same_shape (h : heap) (v : u8) (data : bytes) :
  same_shape h (store h v data).
Proof. split; [apply store_length|intros loc; apply store_buffer_length]. Qed.

Lemma same_shape_window_ok (h h' : heap) (v : u8) :
  same_shape h h' -> window_ok h v -> window_ok h' v.
Proof. intros [Hl Hb] [Hin Hfit]. split; [lia|]. rewrite Hb. exact Hfit. Qed.

Lemma source_read_shape (s s' : state R) (p : u8) (a : option Z) :
  source_read s p = (a, s') -> same_shape (mem s) (mem s').
Proof.
  unfold source_read.
  destruct (reader_read (rd s) (byteLength p)) as [[[rr stored]|] rd'];
    intros [= _ <-]; simpl_state;
    [apply store_same_shape|apply same_shape_refl].
Qed.

Lemma fill_loop_shape (i : nat) :
  forall (s s' : state R) (a : outcome error unit),
    fill_loop i s = (a, s') -> same_shape (mem s) (mem s').
Proof.
  induction i as [|i IH]; intros s s' a Hrun; cbn [fill_loop] in Hrun.
  - inversion Hrun; subst. apply same_shape_refl.
  - destruct (source_read s _) as [[rr|] s1] eqn:Hread;
      apply source_read_shape in Hread.
    + destruct (decide (rr >= 0)); [|inversion Hrun; subst; exact Hread].
      destruct (decide (rr > 0)); [inversion Hrun; subst; exact Hread|].
      apply IH in Hrun. simpl_state.
      eapply same_shape_trans; eassumption.
    + inversion Hrun; subst. exact Hread.
Qed.

Lemma fill_shape (s s' : state R) (a : outcome error unit) :
  _fill s = (a, s') -> same_shape (mem s) (mem s').
Proof.
  unfold _fill. set (s1 := slide s).
  assert (Hs1 : same_shape (mem s) (mem s1)).
  { unfold s1, slide. destruct (decide (r s > 0)); [|apply same_shape_refl].
    simpl_state. apply store_same_shape. }
  destruct (decide (w s1 >= byteLength (buf s1))).
  - intros [= _ <-]. exact Hs1.
  - intros Hloop. apply fill_loop_shape in Hloop.
    eapply same_shape_trans; eassumption.
Qed.

(** What [readSlice] leaves of an array it does not use, and what it
    throws when the buffer is full. *)
Lemma readSlice_loop_kept (loc : nat) (fuel : nat) :
  forall (s s' : state R) (delim s0 : Z) (a : outcome error (option u8)),
    apart loc s ->
    readSlice_loop fuel s delim s0 = (a, s') ->
    kept loc s s'.
Proof.
  induction fuel as [|fuel IH]; intros s s' delim s0 a Ha Hrun;
    cbn [readSlice_loop] in Hrun.
  - inversion Hrun; subst. apply kept_refl; exact Ha.
  - destruct (decide (_ >= 0)).
    { inversion Hrun; subst.
      apply (kept_cursor loc s s (kept_refl loc s Ha)). }
    destruct (eof s).
    { destruct (decide (r s = w s)); inversion Hrun; subst;
        [apply kept_refl; exact Ha|].
      apply (kept_cursor loc s s (kept_refl loc s Ha)). }
    destruct (decide (buffered s >= byteLength (buf s))).
    + simpl_state. unfold alloc in Hrun.
      inversion Hrun; subst; clear Hrun. destruct Ha as [Hl Hb].
      split; [|split]; simpl_state.
      * apply lookup_app_l. exact Hl.
      * rewrite length_app. simpl. lia.
      * cbn [base]. lia.
    + destruct (_fill s) as [a1 s1] eqn:Hfill.
      pose proof (fill_kept loc _ _ _ Ha Hfill) as Hk1.
      destruct a1 as [[]|err|].
      * eapply kept_trans; [exact Hk1|].
        eapply IH; [exact (proj2 Hk1)|exact Hrun].
      * inversion Hrun; subst; exact Hk1.
      * inversion Hrun; subst; exact Hk1.
Qed.

(** A [BufferFullError] of [readSlice] carries the internal buffer itself,
    and the reader goes on with a new array holding a copy of it. *)
Lemma readSlice_loop_full (fuel : nat) :
  forall (s s' : state R) (delim s0 : Z) (e : error),
    window_ok (mem s) (buf s) ->
    readSlice_loop fuel s delim s0 = (Throw e, s') ->
    class e = BufferFullError ->
    partial e = Some (buf s) /\
    (length (mem s) <= base (buf s'))%nat /\
    window_ok (mem s') (buf s') /\
    byteLength (buf s') = byteLength (buf s) /\
    contents (mem s') (buf s') = contents (mem s') (buf s).
Proof.
  induction fuel as [|fuel IH]; intros s s' delim s0 e Hwin Hrun Hclass;
    cbn [readSlice_loop] in Hrun; [discriminate|].
  destruct (decide (_ >= 0)); [discriminate|].
  destruct (eof s); [destruct (decide (r s = w s)); discriminate|].
  destruct (decide (buffered s >= byteLength (buf s))).
  - simpl_state. unfold alloc in Hrun.
    inversion Hrun; subst; clear Hrun. simpl_state. cbn [partial].
    pose proof (length_contents _ _ Hwin) as Hlen.
    destruct Hwin as [Hin Hfit].
    split; [reflexivity|]. split; [cbn [base]; lia|].
    split; [apply (alloc_window_ok (mem s) (contents (mem s) (buf s)))|].
    split; [unfold byteLength; cbn [extent]; lia|].
    rewrite contents_alloc_new. symmetry. apply contents_alloc_old.
    exact Hin.
  - destruct (_fill s) as [a1 s1] eqn:Hfill.
    pose proof (fill_shape _ _ _ Hfill) as Hshape.
    destruct (fill_plain _ _ _ Hfill) as [Hb1 Hc1].
    destruct a1 as [[]|err|].
    + assert (Hwin1 : window_ok (mem s1) (buf s1))
        by (rewrite Hb1; eapply same_shape_window_ok; eassumption).
      destruct (IH _ _ _ _ _ Hwin1 Hrun Hclass)
        as (Hp & Hfresh & Hwin' & Hsize & Hcopy).
      rewrite Hb1 in Hp, Hsize, Hcopy. destruct Hshape as [Hl _].
      split; [exact Hp|]. split; [lia|]. split; [exact Hwin'|].
      split; assumption.
    + inversion Hrun; subst; clear Hrun.
      exfalso. apply (Hc1 err eq_refl). exact Hclass.
    + discriminate.
Qed.

Lemma readLine_kept (loc : nat) (fuel : nat) (s s' : state R)
  (a : outcome error (option (u8 * bool))) :
  apart loc s ->
  readLine fuel s = (a, s') ->
  kept loc s s'.
Proof.
  intros Ha Hrun. unfold readLine in Hrun.
  destruct (readSlice fuel s LF) as [a1 s1] eqn:Hslice.
  pose proof (readSlice_loop_kept loc _ _ _ _ _ _ Ha Hslice) as Hk1.
  destruct a1 as [[line|]|err|].
  - destruct (decide (byteLength line = 0)); inversion Hrun; subst; exact Hk1.
  - inversion Hrun; subst; exact Hk1.
  - destruct (partial err) as [part|]; [|inversion Hrun; subst; exact Hk1].
    destruct (decide (class err <> BufferFullError));
      [inversion Hrun; subst; exact Hk1|].
    destruct (decide (eof s1 = false /\ _ /\ _));
      [|inversion Hrun; subst; exact Hk1].
    destruct (decide (r s1 > 0)); inversion Hrun; subst; [|exact Hk1].
    apply (kept_cursor loc s s1 Hk1).
  - inversion Hrun; subst; exact Hk1.
Qed.

Lemma peek_loop_kept (loc : nat) (fuel : nat) :
  forall (s s' : state R) (n avail : Z) (a : outcome error Z),
    apart loc s ->
    peek_loop fuel s n avail = (a, s') ->
    kept loc s s'.
Proof.
  induction fuel as [|fuel IH]; intros s s' n avail a Ha Hrun;
    cbn [peek_loop] in Hrun;
    (destruct (decide (avail < n /\ _ /\ _));
     [|inversion Hrun; subst; apply kept_refl; exact Ha]).
  - inversion Hrun; subst; apply kept_refl; exact Ha.
  - destruct (_fill s) as [a1 s1] eqn:Hfill.
    pose proof (fill_kept loc _ _ _ Ha Hfill) as Hk1.
    destruct a1 as [[]|err|].
    + eapply kept_trans; [exact Hk1|]. eapply IH; [exact (proj2 Hk1)|exact Hrun].
    + inversion Hrun; subst; exact Hk1.
    + inversion Hrun; subst; exact Hk1.
Qed.

Lemma after_kept (loc : nat) (fuel : nat) (o : op R) (s : state R) :
  apart loc s ->
  (forall p, destination o = Some p -> base p <> loc) ->
  kept loc s (after fuel o s).
Proof.
  intros Ha Hdest. destruct o as [p|p| |delim|delim| |n|x]; cbn [after].
  - destruct (read s p) as [a s'] eqn:Hrun.
    eapply read_kept; [exact Ha|apply Hdest; reflexivity|exact Hrun].
  - destruct (readFull fuel s p) as [a s'] eqn:Hrun.
    eapply readFull_loop_kept; [exact Ha|apply Hdest; reflexivity|exact Hrun].
  - destruct (readByte fuel s) as [a s'] eqn:Hrun.
    eapply readByte_kept; eassumption.
  - destruct (readSlice fuel s delim) as [a s'] eqn:Hrun.
    eapply readSlice_loop_kept; eassumption.
  - unfold readString.
    destruct (decide (length delim <> 1%nat)); [apply kept_refl; exact Ha|].
    destruct (readSlice fuel s _) as [a s'] eqn:Hrun.
    eapply readSlice_loop_kept; eassumption.
  - destruct (readLine fuel s) as [a s'] eqn:Hrun.
    eapply readLine_kept; eassumption.
  - unfold peek. destruct (decide (n < 0)); [apply kept_refl; exact Ha|].
    destruct (peek_loop fuel s n (w s - r s)) as [a1 s1] eqn:Hloop.
    pose proof (peek_loop_kept loc _ _ _ _ _ _ Ha Hloop) as Hk1.
    destruct a1 as [avail|err|]; cbn [snd]; try exact Hk1.
    repeat (destruct (decide _)); exact Hk1.
  - unfold reset, _reset. apply (kept_cursor loc s s (kept_refl loc s Ha)).
Qed.

Lemma after_all_kept (loc : nat) (fuel : nat) (os : list (op R)) :
  forall s : state R,
    apart loc s ->
    fills_elsewhere loc os ->
    kept loc s (after_all fuel os s).
Proof.
  induction os as [|o os IH]; intros s Ha Hdest; cbn [after_all fold_left].
  - apply kept_refl. exact Ha.
  - inversion Hdest as [|? ? Ho Hos]; subst.
    pose proof (after_kept loc fuel o s Ha Ho) as Hk1.
    eapply kept_trans; [exact Hk1|]. apply IH; [exact (proj2 Hk1)|exact Hos].
Qed.

(** A [_fill] that was started before the end of the stream and that has
    seen the end of the stream has stored no byte: the buffer still has the
    room that [_fill] found in it. *)
Lemma source_read_cursors (s s' : state R) (p : u8) (a : option Z) :
  source_read s p = (a, s') -> r s' = r s /\ w s' = w s /\ eof s' = eof s.
Proof.
  unfold source_read.
  destruct (reader_read (rd s) (byteLength p)) as [[[rr stored]|] rd'];
    intros [= _ <-]; repeat split.
Qed.

Lemma fill_loop_end (i : nat) :
  forall s s' : state R,
    fill_loop i s = (Ok tt, s') ->
    eof s = false ->
    (eof s' = true -> r s' = r s /\ w s' = w s).
Proof.
  induction i as [|i IH]; intros s s' Hrun Heof Hend; cbn [fill_loop] in Hrun.
  - discriminate.
  - destruct (source_read s _) as [[rr|] s1] eqn:Hread;
      apply source_read_cursors in Hread as (Hr & Hw & He).
    + destruct (decide (rr >= 0)); [|discriminate].
      destruct (decide (rr > 0)).
      * inversion Hrun; subst. simpl_state. congruence.
      * assert (He' : eof (with_w s1 (w s1 + rr)) = false)
          by (simpl_state; congruence).
        destruct (IH _ _ Hrun He' Hend) as [Hr' Hw']. simpl_state.
        split; [congruence|lia].
    + inversion Hrun; subst. simpl_state. split; assumption.
Qed.

Lemma fill_full_not_eof (s s' : state R) :
  0 <= r s ->
  eof s = false ->
  _fill s = (Ok tt, s') ->
  buffered s' >= byteLength (buf s') ->
  eof s' = false.
Proof.
  intros Hr Heof Hrun Hfull.
  destruct (fill_plain _ _ _ Hrun) as [Hbuf _].
  unfold _fill in Hrun. set (s1 := slide s) in *.
  assert (Hs1 : buf s1 = buf s /\ eof s1 = eof s /\ 0 <= r s1).
  { unfold s1, slide. destruct (decide (r s > 0)); simpl_state;
      repeat split; lia. }
  destruct Hs1 as (Hb1 & He1 & Hr1).
  destruct (decide (w s1 >= byteLength (buf s1))); [discriminate|].
  destruct (eof s') eqn:Hend; [|reflexivity].
  assert (He1' : eof s1 = false) by congruence.
  destruct (fill_loop_end _ _ _ Hrun He1' Hend) as [Hr' Hw'].
  unfold buffered in Hfull. rewrite Hbuf, <- Hb1 in Hfull. lia.
Qed.

End ReaderFrame.

(** C5: a [_fill] of [readSlice(delim)] (it is started before the end of
    the stream) that leaves the internal buffer completely full has not seen
    the end of the stream; and when the buffer is completely full, the end
    of the stream has not been seen and the delimiter is not in the part
    still to be searched, [readSlice] throws a [BufferFullError] whose
    [partial] is the internal buffer itself.  Whenever [readSlice] throws a
    [BufferFullError], its [partial] is the whole internal buffer, of the
    capacity of the reader; the reader goes on with a new array of the same
    length that holds a copy of the same bytes; and no later operation of
    the reader changes a byte of the payload, unless the caller hands the
    payload itself over to be filled ([read(p)], [readFull(p)]). *)
Theorem BufReader_full_buffer_payload {R : Type} `{Reader R} :
  (forall s s' : BufReader.state R,
      0 <= BufReader.r s ->
      BufReader.eof s = false ->
      BufReader._fill s = (Ok tt, s') ->
      BufReader.buffered s' >= byteLength (BufReader.buf s') ->
      BufReader.eof s' = false) /\
  (forall (fuel : nat) (s : BufReader.state R) (delim s0 : Z),
      BufReader.eof s = false ->
      BufReader.buffered s >= byteLength (BufReader.buf s) ->
      indexOf (contents (BufReader.mem s)
                 (u8_subarray (BufReader.buf s) (BufReader.r s + s0)
                              (BufReader.w s))) delim < 0 ->
      exists s',
        BufReader.readSlice_loop (S fuel) s delim s0
        = (Throw (mkError BufferFullError "Buffer full"
                          (Some (BufReader.buf s))), s')) /\
  (forall (fuel : nat) (s s' : BufReader.state R) (delim : Z) (e : error),
      window_ok (BufReader.mem s) (BufReader.buf s) ->
      BufReader.readSlice fuel s delim = (Throw e, s') ->
      class e = BufferFullError ->
      let payload := BufReader.buf s in
      partial e = Some payload /\
      byteLength payload = BufReader.size s /\
      base (BufReader.buf s') <> base payload /\
      BufReader.size s' = BufReader.size s /\
      contents (BufReader.mem s') (BufReader.buf s')
      = contents (BufReader.mem s') payload /\
      forall (fuel' : nat) (os : list (BufReader.op R)),
        BufReader.fills_elsewhere (base payload) os ->
        contents (BufReader.mem (BufReader.after_all fuel' os s')) payload
        = contents (BufReader.mem s') payload).
Proof.
  split; [|split].
  - intros s s'. apply fill_full_not_eof.
  - intros fuel s delim s0 Heof Hfull Hnone. cbn [BufReader.readSlice_loop].
    destruct (decide (_ >= 0)); [lia|]. rewrite Heof.
    destruct (decide (BufReader.buffered s >= byteLength (BufReader.buf s)));
      [|lia].
    unfold alloc. eexists. reflexivity.
  - intros fuel s s' delim e Hwin Hrun Hclass payload.
    destruct (readSlice_loop_full _ _ _ _ _ _ Hwin Hrun Hclass)
      as (Hp & Hfresh & Hwin' & Hsize & Hcopy).
    pose proof Hwin as [Hin _]. pose proof Hwin' as [Hin' _].
    split; [exact Hp|]. split; [reflexivity|].
    split; [unfold payload; lia|]. split; [exact Hsize|].
    split; [exact Hcopy|].
    intros fuel' os Hos.
    assert (Ha : BufReader.apart (base payload) s')
      by (split; unfold payload; lia).
    destruct (after_all_kept _ fuel' os s' Ha Hos) as [Hmem _].
    unfold contents. rewrite !list_lookup_total_alt, Hmem. reflexivity.
Qed.

Lemma BufReader_full_buffer_payload_witness :
  let s := BufReader.new [] [replicate 20 97 ++ [10]] 16 in
  exists (e : error) (s' : BufReader.state fragments),
    BufReader.readSlice 4 s 10 = (Throw e, s') /\
    partial e = Some (BufReader.buf s) /\
    byteLength (BufReader.buf s) = 16 /\
    contents
      (BufReader.mem
         (BufReader.after_all 8
            [BufReader.ReadLine; BufReader.ReadByte; BufReader.Peek 3] s'))
      (BufReader.buf s)
    = replicate 16 97.
Proof.
  intros s.
  set (e := mkError BufferFullError "Buffer full" (Some (BufReader.buf s))).
  set (s' := snd (BufReader.readSlice 4 s 10)).
  assert (Hrun : BufReader.readSlice 4 s 10 = (Throw e, s'))
    by (vm_compute; reflexivity).
  assert (Hwin : window_ok (BufReader.mem s) (BufReader.buf s))
    by (split; vm_compute; lia).
  exists e, s'. split; [exact Hrun|].
  destruct (proj2 (proj2 BufReader_full_buffer_payload) 4%nat s s' 10 e Hwin
              Hrun
              eq_refl) as (Hp & Hlen & _ & _ & _ & Hkept).
  split; [exact Hp|]. split; [reflexivity|].
  rewrite Hkept; [vm_compute; reflexivity|].
  repeat constructor; discriminate.
Defined.

(** ** Windows and what is stored through them *)

Section Windows.

Lemma drop_window (l : bytes) (off ext k : nat) :
  (k <= ext)%nat ->
  drop k (take ext (drop off l)) = take (ext - k) (drop (off + k) l).
Proof.
  intros Hk. rewrite <- (drop_drop l k off).
  rewrite (take_drop_commute (drop off l) (ext - k) k).
  do 2 f_equal. lia.
Qed.

Lemma window_update (old D : bytes) (off ext k : nat) :
  (off + ext <= length old)%nat -> (k <= ext)%nat ->
  length D = (ext - k)%nat ->
  take ext (drop off (take (off + k) old ++ D
                        ++ drop (off + k + (ext - k)) old))
  = take k (take ext (drop off old)) ++ D.
Proof.
  intros Hin Hk HD.
  rewrite drop_app_le by (rewrite length_take; lia).
  assert (Hhead : drop off (take (off + k) old) = take k (drop off old))
    by (symmetry; apply take_drop_commute).
  rewrite Hhead, app_assoc.
  rewrite take_app_length'
    by (rewrite length_app, length_take, length_drop; lia).
  rewrite take_take. do 2 f_equal. lia.
Qed.

Lemma len_contents (h : heap) (v : u8) :
  window_ok h v -> len (contents h v) = byteLength v.
Proof. intros Hwin. unfold len, byteLength. f_equal. apply length_contents. exact Hwin. Qed.

(** A window on a window shows the part of the bytes that [subarray]
    selects. *)
Lemma contents_subarray (h : heap) (v : u8) (b e : Z) :
  window_ok h v ->
  contents h (u8_subarray v b e) = subarray (contents h v) b e.
Proof.
  intros Hwin. unfold subarray. rewrite (len_contents h v Hwin).
  unfold u8_subarray, contents at 1. cbn [base offset extent].
  set (b' := rel_index (byteLength v) b). set (e' := rel_index (byteLength v) e).
  assert (Hb : 0 <= b' <= byteLength v /\ 0 <= e' <= byteLength v).
  { unfold b', e', rel_index. pose proof (byteLength_nonneg v).
    destruct (decide (b < 0)), (decide (e < 0)); lia. }
  unfold contents, byteLength in *.
  set (old := h !!! base v). set (nb := Z.to_nat b').
  assert (Hcut : drop nb (take (extent v) (drop (offset v) old))
                 = take (extent v - nb) (drop (offset v + nb) old)).
  { rewrite <- (drop_drop old nb (offset v)).
    rewrite (take_drop_commute (drop (offset v) old) (extent v - nb) nb).
    do 2 f_equal. unfold nb. lia. }
  rewrite Hcut, take_take. f_equal. unfold nb. lia.
Qed.

Lemma deposit_fits (p data : bytes) :
  (length data <= length p)%nat ->
  deposit p data = data ++ drop (length data) p.
Proof. intros Hfit. unfold deposit. rewrite take_ge by lia. reflexivity. Qed.

(** Storing through the window that starts [k] bytes into [v]: the first
    [k] bytes of [v] stay, the source's bytes follow. *)
Lemma contents_store_from (h : heap) (v : u8) (k : Z) (data : bytes) :
  window_ok h v ->
  0 <= k <= byteLength v ->
  contents (store h (u8_subarray_from v k) data) v
  = take (Z.to_nat k) (contents h v)
      ++ deposit (drop (Z.to_nat k) (contents h v)) data.
Proof.
  intros [Hin Hfit] Hk. unfold u8_subarray_from, u8_subarray, rel_index.
  pose proof (byteLength_nonneg v) as Hv.
  destruct (decide (k < 0)); [lia|].
  destruct (decide (byteLength v < 0)); [lia|].
  rewrite (Z.min_l k) by lia. rewrite Z.min_id.
  unfold store, contents. cbn [base offset extent].
  rewrite list_lookup_total_alter.
  destruct (decide (base v = base v /\ (base v < length h)%nat)) as [_|Hn];
    [|tauto].
  set (old := h !!! base v) in *. unfold byteLength in *.
  set (kn := Z.to_nat k).
  replace (Z.to_nat (Z.of_nat (extent v) - k)) with (extent v - kn)%nat by lia.
  assert (Hkn : (kn <= extent v)%nat) by lia.
  rewrite (drop_window old (offset v) (extent v) kn Hkn).
  apply window_update; try assumption.
  rewrite deposit_length, length_take, length_drop. lia.
Qed.

Lemma u8_subarray_from_0 (v : u8) : u8_subarray_from v 0 = v.
Proof.
  unfold u8_subarray_from, u8_subarray, rel_index.
  pose proof (byteLength_nonneg v).
  destruct (decide (0 < 0)); [lia|].
  destruct (decide (byteLength v < 0)); [lia|].
  rewrite Z.min_l by lia. rewrite Z.min_id. unfold byteLength.
  destruct v as [vb vo vn]. cbn [base offset extent]. f_equal; lia.
Qed.

Lemma contents_store_whole (h : heap) (v : u8) (data : bytes) :
  window_ok h v ->
  contents (store h v data) v = deposit (contents h v) data.
Proof.
  intros Hwin. rewrite <- (u8_subarray_from_0 v) at 1.
  rewrite contents_store_from by (pose proof (byteLength_nonneg v); auto with zarith).
  reflexivity.
Qed.

(** Sliding the unread bytes to the beginning. *)
Lemma copyWithin_slide (a : bytes) (r w : Z) :
  0 <= r <= w -> w <= len a ->
  length (copyWithin a 0 r w) = length a /\
  take (Z.to_nat (w - r)) (copyWithin a 0 r w)
  = take (Z.to_nat (w - r)) (drop (Z.to_nat r) a).
Proof.
  intros Hr Hw. unfold copyWithin, rel_index.
  destruct (decide (0 < 0)); [lia|].
  destruct (decide (r < 0)); [lia|]. destruct (decide (w < 0)); [lia|].
  rewrite (Z.min_l 0), (Z.min_l r), (Z.min_l w) by lia.
  rewrite Z.sub_0_r. rewrite (Z.min_l (w - r)) by lia.
  destruct (decide (w - r > 0)) as [Hpos|Hzero].
  - simpl. unfold len in *. split.
    + rewrite length_app, length_take, !length_drop. lia.
    + rewrite take_app_length'; [reflexivity|].
      rewrite length_take, length_drop. lia.
  - replace (w - r) with 0 by lia. simpl. auto.
Qed.

Lemma subarray_range (a : bytes) (b e : Z) :
  0 <= b <= e -> e <= len a ->
  subarray a b e = take (Z.to_nat (e - b)) (drop (Z.to_nat b) a).
Proof.
  intros Hb He. unfold subarray, rel_index.
  destruct (decide (b < 0)); [lia|]. destruct (decide (e < 0)); [lia|].
  rewrite !Z.min_l by lia. reflexivity.
Qed.

End Windows.

(** ** io/bufio.ts: reading lines *)

Section Lines.
Import BufReader.

Ltac simpl_state :=
  cbn [r w buf mem eof rd with_mem with_buf with_rd with_r with_w with_eof
       fst snd] in *.

Lemma snoc_case (l : bytes) : l = [] \/ exists l' x, l = l' ++ [x].
Proof.
  induction l as [|x l' _] using rev_ind; [left; reflexivity|right; eauto].
Qed.

Lemma indexOf_from_first (pre post : bytes) (x i : Z) :
  x ∉ pre -> indexOf_from (pre ++ x :: post) x i = i + len pre.
Proof.
  revert i. induction pre as [|y pre IH]; intros i Hno; simpl.
  - destruct (decide (x = x)); [unfold len; simpl; lia|congruence].
  - apply not_elem_of_cons in Hno as [Hne Hno].
    destruct (decide (y = x)); [congruence|].
    rewrite IH by exact Hno. unfold len. simpl length. lia.
Qed.

Lemma indexOf_from_absent (a : bytes) (x i : Z) :
  x ∉ a -> indexOf_from a x i = -1.
Proof.
  revert i. induction a as [|y a IH]; intros i Hno; simpl; [reflexivity|].
  apply not_elem_of_cons in Hno as [Hne Hno].
  destruct (decide (y = x)); [congruence|]. apply IH. exact Hno.
Qed.

Lemma window_ok_subarray (h : heap) (v : u8) (b e : Z) :
  window_ok h v -> window_ok h (u8_subarray v b e).
Proof.
  intros [Hin Hfit]. unfold u8_subarray, window_ok, rel_index, byteLength.
  cbn [base offset extent]. split; [exact Hin|].
  destruct (decide (b < 0)), (decide (e < 0)); lia.
Qed.

Lemma at_last (a : bytes) (x : Z) : at_ (a ++ [x]) (len (a ++ [x]) - 1) = Some x.
Proof.
  unfold at_, len. rewrite length_app. simpl.
  destruct (decide (0 <= Z.of_nat (length a + 1) - 1)); [|lia].
  replace (Z.to_nat (Z.of_nat (length a + 1) - 1)) with (length a) by lia.
  apply list_lookup_middle. reflexivity.
Qed.

Lemma at_before_last (a : bytes) (y x : Z) :
  at_ (a ++ [y; x]) (len (a ++ [y; x]) - 2) = Some y.
Proof.
  unfold at_, len. rewrite length_app. simpl.
  destruct (decide (0 <= Z.of_nat (length a + 2) - 2)); [|lia].
  replace (Z.to_nat (Z.of_nat (length a + 2) - 2)) with (length a) by lia.
  apply list_lookup_middle. reflexivity.
Qed.

(** What [readLine] makes of a slice that [readSlice] returns. *)
Lemma readLine_chomp {R : Type} `{Reader R} (fuel : nat) (s s' : state R)
  (line : u8) :
  readSlice fuel s LF = (Ok (Some line), s') ->
  window_ok (mem s') line ->
  exists line' : u8,
    readLine fuel s = (Ok (Some (line', false)), s') /\
    contents (mem s') line' = chomp (contents (mem s') line).
Proof.
  intros Hslice Hwin. unfold readLine. rewrite Hslice.
  pose proof (len_contents _ _ Hwin) as Hlen.
  assert (Hsub : forall k, 0 <= k <= byteLength line ->
            contents (mem s') (u8_subarray line 0 k)
            = take (Z.to_nat k) (contents (mem s') line)).
  { intros k Hk. rewrite contents_subarray by exact Hwin.
    apply subarray_prefix. lia. }
  remember (contents (mem s') line) as X eqn:HX.
  rewrite <- Hlen in *. clear Hlen.
  destruct (decide (len X = 0)) as [H0|Hn0].
  { exists line. split; [reflexivity|]. rewrite <- HX.
    apply len_zero_nil in H0. rewrite H0. reflexivity. }
  eexists. split; [reflexivity|].
  destruct (snoc_case X) as [HX0|(X1 & x & HX1)];
    [rewrite HX0 in Hn0; unfold len in Hn0; simpl in Hn0; lia|].
  rewrite HX1 in *. clear HX1 X. unfold chomp. rewrite reverse_snoc, at_last.
  destruct (decide (Some x = Some LF)) as [Hx|Hx].
  - assert (x = LF) as -> by congruence.
    destruct (snoc_case X1) as [->|(X2 & y & ->)].
    + simpl. rewrite Hsub by (unfold len; simpl; lia). reflexivity.
    + rewrite reverse_snoc. rewrite <- app_assoc. simpl app.
      rewrite <- app_assoc in Hsub. simpl app in Hsub.
      destruct (decide (LF = LF)); [|congruence].
      rewrite at_before_last.
      assert (Hl2 : len (X2 ++ [y; LF]) = len X2 + 2)
        by (unfold len; rewrite length_app; simpl; lia).
      pose proof (len_nonneg X2).
      case_decide as Hcr.
      * destruct Hcr as [_ Hy]. assert (y = CR) as -> by congruence.
        destruct (decide (CR = CR)); [|congruence].
        rewrite Hsub by lia. rewrite reverse_involutive.
        rewrite Hl2. replace (Z.to_nat (len X2 + 2 - 2)) with (length X2)
          by (unfold len; lia).
        apply take_app_length.
      * destruct (decide (y = CR)) as [->|Hy].
        { exfalso. apply Hcr. split; [lia|reflexivity]. }
        rewrite Hsub by lia. rewrite reverse_cons, reverse_involutive.
        rewrite Hl2.
        replace (Z.to_nat (len X2 + 2 - 1)) with (length (X2 ++ [y]))
          by (unfold len; rewrite length_app; simpl; lia).
        rewrite (app_assoc X2 [y] [LF] : X2 ++ [y; LF] = (X2 ++ [y]) ++ [LF]).
        apply take_app_length.
  - assert (x <> LF) by congruence.
    destruct (reverse X1) as [|y m] eqn:Hrev;
      destruct (decide (x = LF)); try congruence; symmetry; exact HX.
Qed.


(** *** Over a source of non-empty fragments *)

Lemma fragments_read_some (c : bytes) (cs : fragments) (n : Z) :
  c <> [] -> 1 <= n ->
  exists (d : bytes) (rd' : fragments),
    reader_read (c :: cs) n = (Some (len d, d), rd') /\
    d = take (Z.to_nat n) c /\ d <> [] /\
    d ++ List.concat rd' = c ++ List.concat cs /\
    (nonempty_fragments cs -> nonempty_fragments rd').
Proof.
  intros Hc Hn. unfold reader_read, fragments_reader.
  eexists. eexists. split; [reflexivity|]. split; [reflexivity|].
  split; [|split].
  - destruct c as [|x c]; [congruence|].
    replace (Z.to_nat n) with (S (Z.to_nat (n - 1))) by lia. discriminate.
  - destruct (decide (length c <= Z.to_nat n)%nat).
    + rewrite take_ge by lia. reflexivity.
    + simpl. rewrite app_assoc, take_drop. reflexivity.
  - intros Hcs. destruct (decide (length c <= Z.to_nat n)%nat); [exact Hcs|].
    constructor; [|exact Hcs].
    intros Hnil. apply (f_equal length) in Hnil.
    rewrite length_drop in Hnil. simpl in Hnil. lia.
Qed.

Lemma buffered_bytes_eq {R : Type} (C : Z) (s : state R) :
  reader_ok C s ->
  buffered_bytes s
  = take (Z.to_nat (w s - r s))
         (drop (Z.to_nat (r s)) (contents (mem s) (buf s))) /\
  len (buffered_bytes s) = w s - r s.
Proof.
  intros ((Hr & Hrw & Hw) & HC & Hwin). unfold buffered_bytes.
  pose proof (len_contents _ _ Hwin) as Hlen.
  rewrite subarray_range by lia. split; [reflexivity|].
  unfold len in *. rewrite length_take, length_drop. lia.
Qed.

Lemma slide_spec {R : Type} (C : Z) (s : state R) :
  reader_ok C s ->
  reader_ok C (slide s) /\ r (slide s) = 0 /\ w (slide s) = w s - r s /\
  buf (slide s) = buf s /\ rd (slide s) = rd s /\ eof (slide s) = eof s /\
  buffered_bytes (slide s) = buffered_bytes s.
Proof.
  intros Hok. pose proof Hok as ((Hr & Hrw & Hw) & HC & Hwin).
  pose proof (len_contents _ _ Hwin) as Hlen.
  unfold slide. destruct (decide (r s > 0)) as [Hpos|Hzero].
  - destruct (copyWithin_slide (contents (mem s) (buf s)) (r s) (w s))
      as [Hmlen Hmove]; [lia|lia|].
    set (s1 := with_r (with_w (with_mem s (store (mem s) (buf s)
                 (copyWithin (contents (mem s) (buf s)) 0 (r s) (w s))))
                 (w s - r s)) 0).
    assert (Hok1 : reader_ok C s1).
    { unfold s1.
      split; [split; [|split]|split]; simpl_state; try assumption; try lia.
      apply store_window_ok. exact Hwin. }
    change (reader_ok C s1 /\ r s1 = 0 /\ w s1 = w s - r s /\
            buf s1 = buf s /\ rd s1 = rd s /\ eof s1 = eof s /\
            buffered_bytes s1 = buffered_bytes s).
    split; [exact Hok1|]. do 5 (split; [reflexivity|]).
    rewrite (proj1 (buffered_bytes_eq C _ Hok1)).
    rewrite (proj1 (buffered_bytes_eq C _ Hok)). unfold s1. simpl_state.
    rewrite contents_store_whole by exact Hwin.
    rewrite deposit_fits by (rewrite Hmlen; reflexivity).
    rewrite Hmlen, drop_all, app_nil_r, Z.sub_0_r. simpl drop.
    exact Hmove.
  - assert (r s = 0) as Hr0 by lia.
    split; [exact Hok|]. split; [exact Hr0|]. rewrite Hr0, Z.sub_0_r.
    repeat split; reflexivity.
Qed.

Lemma fill_loop_S {R : Type} `{Reader R} (i : nat) (s : state R) :
  fill_loop (S i) s
  = match source_read s (u8_subarray_from (buf s) (w s)) with
    | (None, s) => (Ok tt, with_eof s true)
    | (Some rr, s) =>
        if decide (rr >= 0) then
          let s := with_w s (w s + rr) in
          if decide (rr > 0) then (Ok tt, s) else fill_loop i s
        else (Throw (assertion "negative read"), s)
    end.
Proof. reflexivity. Qed.

(** One successful [_fill] over a source of fragments: the buffered bytes
    grow by a non-empty piece of the next fragment. *)
Lemma fill_fragment (C : Z) (s : state fragments) :
  reader_ok C s ->
  nonempty_fragments (rd s) ->
  List.concat (rd s) <> [] ->
  w s - r s < C ->
  exists (s' : state fragments) (d : bytes),
    _fill s = (Ok tt, s') /\ reader_ok C s' /\ buf s' = buf s /\
    eof s' = eof s /\ d <> [] /\
    buffered_bytes s' = buffered_bytes s ++ d /\
    d ++ List.concat (rd s') = List.concat (rd s) /\
    nonempty_fragments (rd s').
Proof.
  intros Hok Hne Hmore Hroom.
  destruct (slide_spec C s Hok) as (Hok1 & Hr1 & Hw1 & Hb1 & Hrd1 & He1 & HB1).
  pose proof Hok1 as ((Hr1' & Hrw1 & Hw1C) & HC1 & Hwin1).
  pose proof Hok as ((Hr0 & Hrw0 & _) & _ & _).
  destruct (rd s) as [|c cs] eqn:Hrd; [exfalso; apply Hmore; reflexivity|].
  apply Forall_cons in Hne as [Hc Hcs].
  destruct (fragments_read_some c cs (C - w (slide s)) Hc)
    as (d & rd' & Hread & Hd & Hdne & Hcat & Hne'); [lia|].
  assert (Hp : byteLength (u8_subarray_from (buf (slide s)) (w (slide s)))
               = C - w (slide s)).
  { unfold u8_subarray_from. rewrite byteLength_subarray; lia. }
  assert (Hlen_d : 0 < len d <= C - w (slide s)).
  { split.
    - destruct d; [congruence|]. unfold len. simpl. lia.
    - rewrite Hd. unfold len. rewrite length_take. lia. }
  assert (Hfill : _fill s
                  = (Ok tt,
                     with_w (with_rd (with_mem (slide s)
                        (store (mem (slide s))
                           (u8_subarray_from (buf (slide s)) (w (slide s))) d))
                        rd') (w (slide s) + len d))).
  { unfold _fill. destruct (decide (w (slide s) >= byteLength (buf (slide s))));
      [lia|].
    change MAX_CONSECUTIVE_EMPTY_READS with (S 99). rewrite fill_loop_S.
    unfold source_read. rewrite Hp, Hrd1, Hread. simpl_state.
    destruct (decide (len d >= 0)); [|lia].
    destruct (decide (len d > 0)); [reflexivity|lia]. }
  eexists. exists d. split; [exact Hfill|].
  destruct (fill_ok fragments_bounded C _ _ _ Hok Hfill) as [Hok' _].
  split; [exact Hok'|]. split; [exact Hb1|]. split; [exact He1|].
  split; [exact Hdne|]. split; [|split; [exact Hcat|exact (Hne' Hcs)]].
  rewrite (proj1 (buffered_bytes_eq C _ Hok')). simpl_state.
  rewrite Hr1, Z.sub_0_r. simpl drop.
  rewrite contents_store_from by (try exact Hwin1; lia).
  rewrite <- HB1. rewrite (proj1 (buffered_bytes_eq C _ Hok1)).
  rewrite Hr1, Z.sub_0_r. simpl drop.
  pose proof (len_contents _ _ Hwin1) as HlenX.
  set (X1 := contents (mem (slide s)) (buf (slide s))) in *.
  rewrite deposit_fits
    by (rewrite length_drop; unfold len in *; lia).
  change (Z.to_nat 0) with 0%nat. rewrite !drop_0, app_assoc.
  apply take_app_length'.
  rewrite length_app, length_take. unfold len, byteLength in *. lia.
Qed.


Lemma unsearched_bytes {R : Type} (C : Z) (s : state R) (s0 : Z) :
  reader_ok C s ->
  0 <= s0 <= w s - r s ->
  contents (mem s) (u8_subarray (buf s) (r s + s0) (w s))
  = drop (Z.to_nat s0) (buffered_bytes s).
Proof.
  intros Hok Hs0. pose proof Hok as ((Hr & Hrw & Hw) & HC & Hwin).
  pose proof (len_contents _ _ Hwin) as Hlen.
  rewrite contents_subarray by exact Hwin.
  rewrite (proj1 (buffered_bytes_eq C s Hok)).
  rewrite subarray_range by lia.
  rewrite drop_window by lia.
  f_equal; [lia|]. f_equal. lia.
Qed.

Lemma slice_bytes {R : Type} (C : Z) (s : state R) (k : Z) :
  reader_ok C s ->
  0 <= k <= w s - r s ->
  contents (mem s) (u8_subarray (buf s) (r s) (r s + k))
  = take (Z.to_nat k) (buffered_bytes s).
Proof.
  intros Hok Hk. pose proof Hok as ((Hr & Hrw & Hw) & HC & Hwin).
  pose proof (len_contents _ _ Hwin) as Hlen.
  rewrite contents_subarray by exact Hwin.
  rewrite (proj1 (buffered_bytes_eq C s Hok)).
  rewrite subarray_range by lia. rewrite take_take.
  f_equal. lia.
Qed.

Lemma buffered_after_advance {R : Type} (C : Z) (s : state R) (k : Z) :
  reader_ok C s ->
  0 <= k <= w s - r s ->
  reader_ok C (with_r s (r s + k)) /\
  buffered_bytes (with_r s (r s + k)) = drop (Z.to_nat k) (buffered_bytes s).
Proof.
  intros Hok Hk. pose proof Hok as ((Hr & Hrw & Hw) & HC & Hwin).
  assert (Hok' : reader_ok C (with_r s (r s + k))).
  { split; [split; [|split]|split]; simpl_state; try assumption; lia. }
  split; [exact Hok'|].
  rewrite (proj1 (buffered_bytes_eq C _ Hok')).
  rewrite (proj1 (buffered_bytes_eq C s Hok)). simpl_state.
  rewrite drop_window by lia. f_equal; [lia|]. f_equal. lia.
Qed.

Lemma len_drop (a : bytes) (k : Z) :
  0 <= k <= len a -> len (drop (Z.to_nat k) a) = len a - k.
Proof. intros Hk. unfold len in *. rewrite length_drop. lia. Qed.

(** [readSlice] over a source of non-empty fragments, when the bytes still
    to be read hold a first line that fits in the buffer: it returns that
    line, delimiter included, and leaves the rest to be read. *)
Lemma readSlice_loop_line (C : Z) (delim : Z) (line rest : bytes) (fuel : nat) :
  forall (s : state fragments) (s0 : Z),
    reader_ok C s -> eof s = false -> nonempty_fragments (rd s) ->
    unread s = line ++ delim :: rest ->
    delim ∉ line -> len line + 1 <= C ->
    0 <= s0 <= w s - r s -> s0 <= len line ->
    (length (List.concat (rd s)) < fuel)%nat ->
    exists (v : u8) (s' : state fragments),
      readSlice_loop fuel s delim s0 = (Ok (Some v), s') /\
      contents (mem s') v = line ++ [delim] /\
      window_ok (mem s') v /\
      unread s' = rest /\ reader_ok C s' /\ eof s' = false /\
      nonempty_fragments (rd s').
Proof.
  induction fuel as [|fuel IH];
    intros s s0 Hok Heof Hne Hun Hno Hfit Hs0 Hs0' Hfuel; [lia|].
  cbn [readSlice_loop].
  pose proof Hok as ((Hr & Hrw & Hw) & HC & Hwin).
  destruct (buffered_bytes_eq C s Hok) as [_ HlenB].
  rewrite (unsearched_bytes C s s0 Hok Hs0).
  pose proof (len_nonneg line) as Hl0.
  assert (Hcases :
    (exists l', buffered_bytes s = line ++ delim :: l' /\
                rest = l' ++ List.concat (rd s)) \/
    (exists l, line = buffered_bytes s ++ l /\
               List.concat (rd s) = l ++ delim :: rest)).
  { unfold unread in Hun.
    apply app_eq_app in Hun as [l [[HB Hrest]|[Hline Hsrc]]].
    - destruct l as [|x l].
      + right. exists []. rewrite app_nil_r in *. simpl in Hrest. auto.
      + left. exists l. simpl in Hrest. inversion Hrest; subst. auto.
    - right. exists l. auto. }
  destruct Hcases as [(l' & HB & Hrest)|(l & Hline & Hsrc)].
  - (* the delimiter is in the buffer *)
    assert (Hi : indexOf (drop (Z.to_nat s0) (buffered_bytes s)) delim
                 = len line - s0).
    { rewrite HB. rewrite drop_app_le by (unfold len in *; lia).
      unfold indexOf. rewrite indexOf_from_first.
      - rewrite len_drop by lia. lia.
      - intros Hin. apply Hno.
        rewrite <- (take_drop (Z.to_nat s0) line).
        apply elem_of_app. right. exact Hin. }
    rewrite Hi. destruct (decide (len line - s0 >= 0)); [|lia].
    replace (len line - s0 + s0) with (len line) by lia.
    assert (HlB : len (buffered_bytes s) = len line + 1 + len l').
    { rewrite HB. rewrite len_app. unfold len. simpl length. lia. }
    pose proof (len_nonneg l').
    destruct (buffered_after_advance C s (len line + 1) Hok) as [Hok' HB'];
      [lia|].
    eexists. eexists. split; [reflexivity|].
    split; [|split; [|split]].
    + simpl_state.
      replace (r s + len line + 1) with (r s + (len line + 1)) by lia.
      rewrite (slice_bytes C s (len line + 1) Hok) by lia.
      rewrite HB.
      rewrite (app_assoc line [delim] l' : line ++ delim :: l'
                                           = (line ++ [delim]) ++ l').
      apply take_app_length'. rewrite length_app. unfold len. simpl. lia.
    + apply window_ok_subarray. exact Hwin.
    + unfold unread. rewrite HB'. simpl_state. rewrite HB, Hrest.
      f_equal.
      rewrite (app_assoc line [delim] l' : line ++ delim :: l'
                                           = (line ++ [delim]) ++ l').
      apply drop_app_length'. rewrite length_app. unfold len. simpl. lia.
    + split; [exact Hok'|]. split; [exact Heof|exact Hne].
  - (* the delimiter is still in the source *)
    assert (HlB : len (buffered_bytes s) + len l = len line)
      by (rewrite <- len_app, <- Hline; reflexivity).
    pose proof (len_nonneg l).
    assert (Hi : indexOf (drop (Z.to_nat s0) (buffered_bytes s)) delim = -1).
    { apply indexOf_from_absent. intros Hin. apply Hno.
      rewrite Hline. apply elem_of_app. left.
      rewrite <- (take_drop (Z.to_nat s0) (buffered_bytes s)).
      apply elem_of_app. right. exact Hin. }
    rewrite Hi. destruct (decide (-1 >= 0)); [lia|]. rewrite Heof.
    unfold buffered.
    destruct (decide (w s - r s >= byteLength (buf s))); [lia|].
    destruct (fill_fragment C s Hok Hne) as
      (s1 & d & Hfill & Hok1 & Hb1 & He1 & Hd & HB1 & Hcat & Hne1).
    { rewrite Hsrc. intros Hnil. apply (f_equal length) in Hnil.
      rewrite length_app in Hnil. simpl in Hnil. lia. }
    { lia. }
    rewrite Hfill.
    destruct (buffered_bytes_eq C s1 Hok1) as [_ HlenB1].
    assert (Hlen_d : 0 < len d)
      by (destruct d; [congruence|unfold len; simpl; lia]).
    apply (IH s1 (w s - r s)); try assumption.
    + congruence.
    + unfold unread. rewrite HB1, <- app_assoc, Hcat. exact Hun.
    + rewrite <- HlenB1, HB1, len_app. lia.
    + lia.
    + apply (f_equal length) in Hcat. rewrite length_app in Hcat.
      unfold len in Hlen_d. lia.
Qed.

(** [readSlice] at the end: nothing buffered, and the source has nothing
    left. *)
Lemma readSlice_loop_end (C : Z) (delim : Z) (fuel : nat)
  (s : state fragments) (s0 : Z) :
  reader_ok C s -> rd s = [] -> w s = r s -> 0 < C -> 0 <= s0 ->
  (2 <= fuel)%nat ->
  exists s' : state fragments,
    readSlice_loop fuel s delim s0 = (Ok None, s') /\
    reader_ok C s' /\ eof s' = true /\ rd s' = [] /\ w s' = r s'.
Proof.
  intros Hok Hrd Hempty HC0 Hs0 Hfuel.
  assert (Hnone : forall (s1 : state fragments) (k : Z),
            reader_ok C s1 -> w s1 = r s1 -> 0 <= k ->
            indexOf (contents (mem s1)
                       (u8_subarray (buf s1) (r s1 + k) (w s1))) delim = -1).
  { intros s1 k Hok1 He1 Hk. apply indexOf_from_absent.
    pose proof (length_contents_le (mem s1)
                  (u8_subarray (buf s1) (r s1 + k) (w s1))) as Hle.
    assert (Hz : extent (u8_subarray (buf s1) (r s1 + k) (w s1)) = 0%nat).
    { destruct Hok1 as ((? & ? & ?) & ? & ?).
      unfold u8_subarray, rel_index, byteLength in *. cbn [extent].
      destruct (decide (r s1 + k < 0)), (decide (w s1 < 0)); lia. }
    rewrite Hz in Hle. destruct (contents _ _); [|simpl in Hle; lia].
    apply not_elem_of_nil. }
  assert (Hat_end : forall (fuel' : nat) (s1 : state fragments) (k : Z),
            reader_ok C s1 -> w s1 = r s1 -> eof s1 = true -> 0 <= k ->
            readSlice_loop (S fuel') s1 delim k = (Ok None, s1)).
  { intros fuel' s1 k Hok1 He1 Heof1 Hk. cbn [readSlice_loop].
    rewrite (Hnone s1 k Hok1 He1 Hk). destruct (decide (-1 >= 0)); [lia|].
    rewrite Heof1. destruct (decide (r s1 = w s1)); [reflexivity|lia]. }
  destruct fuel as [|fuel]; [lia|].
  destruct (eof s) eqn:Heof.
  { exists s. rewrite Hat_end by assumption. auto. }
  cbn [readSlice_loop]. rewrite (Hnone s s0 Hok Hempty Hs0).
  destruct (decide (-1 >= 0)); [lia|]. rewrite Heof. unfold buffered.
  pose proof Hok as ((Hr & Hrw & Hw) & HCs & Hwin).
  destruct (decide (w s - r s >= byteLength (buf s))); [lia|].
  destruct (slide_spec C s Hok) as (Hok1 & Hr1 & Hw1 & Hb1 & Hrd1 & He1 & _).
  assert (Hfill : _fill s = (Ok tt, with_eof (with_rd (slide s) []) true)).
  { unfold _fill.
    destruct (decide (w (slide s) >= byteLength (buf (slide s))));
      [rewrite Hb1 in *; lia|].
    change MAX_CONSECUTIVE_EMPTY_READS with (S 99). rewrite fill_loop_S.
    unfold source_read. rewrite Hrd1, Hrd. reflexivity. }
  rewrite Hfill.
  assert (Hok2 : reader_ok C (with_eof (with_rd (slide s) []) true)).
  { destruct Hok1 as ((? & ? & ?) & ? & ?).
    split; [split; [|split]|split]; simpl_state; assumption. }
  exists (with_eof (with_rd (slide s) []) true).
  destruct fuel as [|fuel]; [lia|].
  rewrite Hat_end; simpl_state; try assumption; try lia.
  split; [reflexivity|]. split; [exact Hok2|]. repeat split; lia.
Qed.


Lemma new_ok {R : Type} `{Reader R} (h : heap) (x : R) (size : Z) :
  let C := if decide (size < MIN_BUF_SIZE) then MIN_BUF_SIZE else size in
  reader_ok C (new h x size) /\ MIN_BUF_SIZE <= C /\
  r (new h x size) = 0 /\ w (new h x size) = 0 /\
  eof (new h x size) = false /\ rd (new h x size) = x.
Proof.
  intros C. unfold new, _reset. fold C.
  assert (HC : MIN_BUF_SIZE <= C)
    by (unfold C; destruct (decide (size < MIN_BUF_SIZE)); lia).
  unfold MIN_BUF_SIZE in HC.
  pose proof (alloc_window_ok h (new_Uint8Array C)) as Hwin.
  unfold alloc in *. cbn [fst snd] in Hwin.
  split; [|repeat split; try reflexivity; exact HC].
  split; [split; [|split]|split]; simpl_state; try lia.
  - unfold byteLength, new_Uint8Array. cbn [extent].
    rewrite length_replicate. lia.
  - unfold byteLength, new_Uint8Array. cbn [extent].
    rewrite length_replicate. lia.
  - exact Hwin.
Qed.

Lemma readLine_line (C : Z) (body rest : bytes) (fuel : nat)
  (s : state fragments) :
  reader_ok C s -> eof s = false -> nonempty_fragments (rd s) ->
  unread s = body ++ LF :: rest ->
  LF ∉ body -> len body + 1 <= C ->
  (length (List.concat (rd s)) < fuel)%nat ->
  exists (v : u8) (s' : state fragments),
    readLine fuel s = (Ok (Some (v, false)), s') /\
    contents (mem s') v = chomp (body ++ [LF]) /\
    unread s' = rest /\ reader_ok C s' /\ eof s' = false /\
    nonempty_fragments (rd s').
Proof.
  intros Hok Heof Hne Hun Hno Hfit Hfuel.
  pose proof Hok as ((Hr & Hrw & Hw) & _).
  destruct (readSlice_loop_line C LF body rest fuel s 0 Hok Heof Hne Hun Hno
              Hfit) as (v & s' & Hslice & Hv & Hwin & Hrest);
    [lia|apply len_nonneg|exact Hfuel|].
  destruct (readLine_chomp fuel s s' v Hslice Hwin) as (v' & Hline & Hv').
  exists v', s'. split; [exact Hline|]. rewrite Hv', Hv.
  split; [reflexivity|exact Hrest].
Qed.

Lemma readLine_end (C : Z) (fuel : nat) (s : state fragments) :
  reader_ok C s -> rd s = [] -> w s = r s -> 0 < C -> (2 <= fuel)%nat ->
  exists s' : state fragments, readLine fuel s = (Ok None, s').
Proof.
  intros Hok Hrd Hempty HC Hfuel.
  destruct (readSlice_loop_end C LF fuel s 0 Hok Hrd Hempty HC) as (s' & Hrun & _);
    [lia|exact Hfuel|].
  exists s'. unfold readLine, readSlice. rewrite Hrun. reflexivity.
Qed.

End Lines.

(** C7: over a source that holds exactly ["abc\r\ndef\n"], cut into
    non-empty fragments in any way, a [BufReader] of any size answers three
    calls of [readLine] with [line = "abc", more = false], then
    [line = "def", more = false], then [null], given 10 passes for its
    loops.  And whenever [readSlice(LF)] returns a slice, [readLine]
    returns it with [more = false] and without its end: a trailing LF is
    stripped, and a trailing CR immediately before it. *)
Theorem readLine_strips_line_ends :
  (forall (h : heap) (size : Z) (frags : fragments) (fuel : nat),
      nonempty_fragments frags ->
      List.concat frags = two_lines ->
      (10 <= fuel)%nat ->
      exists (l1 l2 : u8) (s1 s2 s3 : BufReader.state fragments),
        BufReader.readLine fuel (BufReader.new h frags size)
        = (Ok (Some (l1, false)), s1) /\
        contents (BufReader.mem s1) l1 = [97; 98; 99] /\
        BufReader.readLine fuel s1 = (Ok (Some (l2, false)), s2) /\
        contents (BufReader.mem s2) l2 = [100; 101; 102] /\
        BufReader.readLine fuel s2 = (Ok None, s3)) /\
  (forall (R : Type) (rd : Reader R) (fuel : nat)
          (s s' : BufReader.state R) (line : u8),
      BufReader.readSlice fuel s LF = (Ok (Some line), s') ->
      window_ok (BufReader.mem s') line ->
      exists line' : u8,
        BufReader.readLine fuel s = (Ok (Some (line', false)), s') /\
        contents (BufReader.mem s') line'
        = chomp (contents (BufReader.mem s') line)).
Proof.
  split; [|intros R rd; apply readLine_chomp].
  intros h size frags fuel Hne Hcat Hfuel.
  destruct (@new_ok fragments _ h frags size)
    as (Hok0 & HC & Hr0 & Hw0 & Heof0 & Hrd0).
  set (C := if decide (size < MIN_BUF_SIZE) then MIN_BUF_SIZE else size) in *.
  set (s0 := BufReader.new h frags size) in *.
  unfold MIN_BUF_SIZE in HC.
  assert (Hun0 : unread s0 = [97; 98; 99; 13] ++ LF :: [100; 101; 102; 10]).
  { unfold unread, buffered_bytes. rewrite Hr0, Hw0, Hrd0, Hcat.
    unfold subarray, rel_index. destruct (decide (0 < 0)); [lia|].
    pose proof (len_nonneg (contents (BufReader.mem s0) (BufReader.buf s0))).
    rewrite Z.min_l by lia. simpl. reflexivity. }
  assert (Hlen0 : length (List.concat (BufReader.rd s0)) = 9%nat)
    by (rewrite Hrd0, Hcat; reflexivity).
  assert (Hne0 : nonempty_fragments (BufReader.rd s0))
    by (rewrite Hrd0; exact Hne).
  destruct (readLine_line C [97; 98; 99; 13] [100; 101; 102; 10] fuel s0
              Hok0 Heof0 Hne0 Hun0)
    as (l1 & s1 & Hrun1 & Hl1 & Hun1 & Hok1 & Heof1 & Hne1).
  { unfold LF. intros Hin.
    repeat (apply elem_of_cons in Hin as [Hin|Hin]; [discriminate Hin|]).
    apply elem_of_nil in Hin. exact Hin. }
  { unfold len. simpl. lia. }
  { lia. }
  assert (Hlen1 : (length (List.concat (BufReader.rd s1)) <= 4)%nat).
  { apply (f_equal length) in Hun1. unfold unread in Hun1.
    rewrite length_app in Hun1. simpl in Hun1. lia. }
  destruct (readLine_line C [100; 101; 102] [] fuel s1 Hok1 Heof1 Hne1 Hun1)
    as (l2 & s2 & Hrun2 & Hl2 & Hun2 & Hok2 & Heof2 & Hne2).
  { unfold LF. intros Hin.
    repeat (apply elem_of_cons in Hin as [Hin|Hin]; [discriminate Hin|]).
    apply elem_of_nil in Hin. exact Hin. }
  { unfold len. simpl. lia. }
  { lia. }
  assert (Hend : BufReader.rd s2 = [] /\ BufReader.w s2 = BufReader.r s2).
  { unfold unread in Hun2. apply app_eq_nil in Hun2 as [HB Hsrc]. split.
    - destruct (BufReader.rd s2) as [|c cs]; [reflexivity|].
      apply Forall_cons in Hne2 as [Hc _]. simpl in Hsrc.
      apply app_eq_nil in Hsrc as [-> _]. congruence.
    - destruct (buffered_bytes_eq C s2 Hok2) as [_ HlenB].
      rewrite HB in HlenB. unfold len in HlenB. simpl in HlenB. lia. }
  destruct Hend as [Hrd2 Hw2].
  destruct (readLine_end C fuel s2 Hok2 Hrd2 Hw2) as (s3 & Hrun3); [lia|lia|].
  exists l1, l2, s1, s2, s3.
  split; [exact Hrun1|]. split; [exact Hl1|]. split; [exact Hrun2|].
  split; [exact Hl2|exact Hrun3].
Qed.

Lemma readLine_strips_line_ends_witness :
  exists (l1 l2 : u8) (s1 s2 s3 : BufReader.state fragments),
    BufReader.readLine 10
      (BufReader.new [] [[97; 98; 99; 13]; [10; 100]; [101; 102; 10]] 4096)
    = (Ok (Some (l1, false)), s1) /\
    contents (BufReader.mem s1) l1 = [97; 98; 99] /\
    BufReader.readLine 10 s1 = (Ok (Some (l2, false)), s2) /\
    contents (BufReader.mem s2) l2 = [100; 101; 102] /\
    BufReader.readLine 10 s2 = (Ok None, s3).
Proof.
  apply (proj1 readLine_strips_line_ends []
           4096 [[97; 98; 99; 13]; [10; 100]; [101; 102; 10]] 10%nat).
  - repeat constructor; discriminate.
  - reflexivity.
  - lia.
Defined.

(** ** bytes/mod.ts: comparing and searching *)

Section Search.

Lemma at_nat (a : bytes) (k : nat) : at_ a (Z.of_nat k) = a !! k.
Proof.
  unfold at_. destruct (decide (0 <= Z.of_nat k)); [|lia].
  rewrite Nat2Z.id. reflexivity.
Qed.

Lemma at_some_range (a : bytes) (i x : Z) :
  at_ a i = Some x -> 0 <= i < len a.
Proof.
  unfold at_, len. destruct (decide (0 <= i)); [|discriminate].
  intros Hx. apply lookup_lt_Some in Hx. lia.
Qed.

(** The loops of [startsWith] and [equals] compare index by index. *)
Lemma startsWith_loop_true (source prefix : bytes) (left : nat) :
  forall i : Z,
    ByteUtil.startsWith_loop source prefix i left = true <->
    (forall k : nat, (k < left)%nat ->
       at_ source (i + Z.of_nat k) = at_ prefix (i + Z.of_nat k)).
Proof.
  induction left as [|left IH]; intros i; cbn [ByteUtil.startsWith_loop].
  - split; [intros _ k Hk; lia|reflexivity].
  - destruct (decide (at_ source i <> at_ prefix i)) as [Hne|Heq].
    + split; [discriminate|]. intros Hall. exfalso. apply Hne.
      specialize (Hall 0%nat ltac:(lia)). rewrite Z.add_0_r in Hall.
      exact Hall.
    + apply dec_stable in Heq. rewrite IH. split.
      * intros Hall [|k] Hk; [rewrite Z.add_0_r; exact Heq|].
        specialize (Hall k ltac:(lia)).
        replace (i + Z.of_nat (S k)) with (i + 1 + Z.of_nat k) by lia.
        exact Hall.
      * intros Hall k Hk. specialize (Hall (S k) ltac:(lia)).
        replace (i + 1 + Z.of_nat k) with (i + Z.of_nat (S k)) by lia.
        exact Hall.
Qed.

Lemma equals_loop_true (a b : bytes) (left : nat) :
  forall i : Z,
    ByteUtil.equals_loop a b i left = true <->
    (forall k : nat, (k < left)%nat ->
       at_ a (i + Z.of_nat k) = at_ b (i + Z.of_nat k)).
Proof.
  induction left as [|left IH]; intros i; cbn [ByteUtil.equals_loop].
  - split; [intros _ k Hk; lia|reflexivity].
  - destruct (decide (at_ a i <> at_ b i)) as [Hne|Heq].
    + split; [discriminate|]. intros Hall. exfalso. apply Hne.
      specialize (Hall 0%nat ltac:(lia)). rewrite Z.add_0_r in Hall.
      exact Hall.
    + apply dec_stable in Heq. rewrite IH. split.
      * intros Hall [|k] Hk; [rewrite Z.add_0_r; exact Heq|].
        specialize (Hall k ltac:(lia)).
        replace (i + Z.of_nat (S k)) with (i + 1 + Z.of_nat k) by lia.
        exact Hall.
      * intros Hall k Hk. specialize (Hall (S k) ltac:(lia)).
        replace (i + 1 + Z.of_nat k) with (i + Z.of_nat (S k)) by lia.
        exact Hall.
Qed.

(** Agreement on the first [length p] indices is being a prefix. *)
Lemma agree_prefix (source p : bytes) :
  (forall k : nat, (k < length p)%nat -> source !! k = p !! k) <->
  exists rest : bytes, source = p ++ rest.
Proof.
  split.
  - intros Hall. exists (drop (length p) source).
    rewrite <- (take_drop (length p) source) at 1. f_equal.
    apply list_eq. intros j.
    destruct (decide (j < length p)%nat) as [Hj|Hj].
    + rewrite lookup_take_lt by exact Hj. apply Hall. exact Hj.
    + rewrite lookup_take_ge by lia. symmetry. apply lookup_ge_None. lia.
  - intros [rest ->] k Hk. apply lookup_app_l. exact Hk.
Qed.

End Search.

(** X1: [equals(a, b)] is [true] exactly when the two arrays hold the same
    bytes. *)
Theorem equals_iff_same_bytes (a b : bytes) :
  ByteUtil.equals a b = true <-> a = b.
Proof.
  unfold ByteUtil.equals. destruct (decide (len a <> len b)) as [Hne|Heq].
  - split; [discriminate|]. intros ->. congruence.
  - apply dec_stable in Heq. rewrite equals_loop_true. split.
    + intros Hall. apply list_eq. intros j.
      destruct (decide (j < length b)%nat) as [Hj|Hj].
      * specialize (Hall j Hj). rewrite Z.add_0_l, !at_nat in Hall.
        exact Hall.
      * unfold len in Heq. rewrite !(proj2 (lookup_ge_None _ _)) by lia.
        reflexivity.
    + intros -> k _. reflexivity.
Qed.

(** X2: [startsWith(source, prefix)] is [true] exactly when [source] is
    [prefix] followed by some bytes; so it is [true] for the empty
    prefix. *)
Theorem startsWith_iff_prefix (source prefix : bytes) :
  ByteUtil.startsWith source prefix = true <->
  exists rest : bytes, source = prefix ++ rest.
Proof.
  unfold ByteUtil.startsWith. rewrite startsWith_loop_true.
  rewrite <- agree_prefix. split; intros Hall k Hk; specialize (Hall k Hk).
  - rewrite Z.add_0_l, !at_nat in Hall. exact Hall.
  - rewrite Z.add_0_l, !at_nat. exact Hall.
Qed.

Section Suffix.

Lemma endsWith_loop_true (source suffix : bytes) (left : nat) :
  forall srci sfxi : Z,
    ByteUtil.endsWith_loop source suffix srci sfxi left = true <->
    (forall k : nat, (k < left)%nat ->
       at_ source (srci - Z.of_nat k) = at_ suffix (sfxi - Z.of_nat k)).
Proof.
  induction left as [|left IH]; intros srci sfxi;
    cbn [ByteUtil.endsWith_loop].
  - split; [intros _ k Hk; lia|reflexivity].
  - destruct (decide (at_ source srci <> at_ suffix sfxi)) as [Hne|Heq].
    + split; [discriminate|]. intros Hall. exfalso. apply Hne.
      specialize (Hall 0%nat ltac:(lia)). rewrite !Z.sub_0_r in Hall.
      exact Hall.
    + apply dec_stable in Heq. rewrite IH. split.
      * intros Hall [|k] Hk; [rewrite !Z.sub_0_r; exact Heq|].
        specialize (Hall k ltac:(lia)).
        replace (srci - Z.of_nat (S k)) with (srci - 1 - Z.of_nat k) by lia.
        replace (sfxi - Z.of_nat (S k)) with (sfxi - 1 - Z.of_nat k) by lia.
        exact Hall.
      * intros Hall k Hk. specialize (Hall (S k) ltac:(lia)).
        replace (srci - 1 - Z.of_nat k) with (srci - Z.of_nat (S k)) by lia.
        replace (sfxi - 1 - Z.of_nat k) with (sfxi - Z.of_nat (S k)) by lia.
        exact Hall.
Qed.

End Suffix.

(** X3: [endsWith(source, suffix)] is [true] exactly when [source] is some
    bytes followed by [suffix]. *)
Theorem endsWith_iff_suffix (source suffix : bytes) :
  ByteUtil.endsWith source suffix = true <->
  exists front : bytes, source = front ++ suffix.
Proof.
  unfold ByteUtil.endsWith. rewrite endsWith_loop_true.
  replace (Z.to_nat (len suffix - 1 + 1)) with (length suffix)
    by (unfold len; lia).
  split.
  - intros Hall.
    assert (Hle : (length suffix <= length source)%nat).
    { destruct (decide (length suffix = 0)%nat) as [->|Hpos]; [lia|].
      specialize (Hall (length suffix - 1)%nat ltac:(lia)).
      replace (len suffix - 1 - Z.of_nat (length suffix - 1)) with 0 in Hall
        by (unfold len; lia).
      destruct suffix as [|x suffix]; [simpl in Hpos; lia|].
      change (at_ (x :: suffix) 0) with (Some x) in Hall.
      apply at_some_range in Hall. unfold len in *. simpl length in *. lia. }
    exists (take (length source - length suffix) source).
    rewrite <- (take_drop (length source - length suffix) source) at 1.
    f_equal. apply list_eq. intros j. rewrite lookup_drop.
    destruct (decide (j < length suffix)%nat) as [Hj|Hj].
    + specialize (Hall (length suffix - 1 - j)%nat ltac:(lia)).
      replace (len source - 1 - Z.of_nat (length suffix - 1 - j))
        with (Z.of_nat (length source - length suffix + j)) in Hall
        by (unfold len; lia).
      replace (len suffix - 1 - Z.of_nat (length suffix - 1 - j))
        with (Z.of_nat j) in Hall by (unfold len; lia).
      rewrite !at_nat in Hall. exact Hall.
    + rewrite !(proj2 (lookup_ge_None _ _)) by lia. reflexivity.
  - intros [front ->] k Hk.
    replace (len (front ++ suffix) - 1 - Z.of_nat k)
      with (Z.of_nat (length front + (length suffix - 1 - k)))
      by (unfold len; rewrite length_app; lia).
    replace (len suffix - 1 - Z.of_nat k)
      with (Z.of_nat (length suffix - 1 - k)) by (unfold len; lia).
    rewrite !at_nat, lookup_app_r by lia. f_equal. lia.
Qed.

Section Occurrences.

Lemma agrees_at_occurs (source pat : bytes) (k : Z) :
  pat <> [] -> agrees_at source pat k <-> occurs_at source pat k.
Proof.
  intros Hpat. split.
  - intros [Hk Hall].
    assert (Hin : 0 <= k < len source).
    { destruct pat as [|x pat]; [congruence|].
      specialize (Hall 0). rewrite Z.add_0_r in Hall.
      change (at_ (x :: pat) 0) with (Some x) in Hall.
      apply at_some_range with (x := x). apply Hall.
      unfold len. simpl. lia. }
    destruct (proj1 (agree_prefix (drop (Z.to_nat k) source) pat))
      as [rest Hrest].
    { intros m Hm. rewrite lookup_drop.
      specialize (Hall (Z.of_nat m) ltac:(unfold len; lia)).
      replace (k + Z.of_nat m) with (Z.of_nat (Z.to_nat k + m)) in Hall
        by lia.
      rewrite !at_nat in Hall. exact Hall. }
    exists (take (Z.to_nat k) source), rest. split.
    + rewrite <- Hrest. symmetry. apply take_drop.
    + unfold len in *. rewrite length_take. lia.
  - intros (front & back & -> & Hk). split; [unfold len in Hk; lia|].
    intros m Hm. subst k.
    replace (len front + m) with (Z.of_nat (length front + Z.to_nat m))
      by (unfold len; lia).
    replace m with (Z.of_nat (Z.to_nat m)) at 2 by lia.
    rewrite !at_nat, lookup_app_r by lia.
    replace (length front + Z.to_nat m - length front)%nat
      with (Z.to_nat m) by lia.
    apply lookup_app_l. unfold len in Hm. lia.
Qed.

Lemma agrees_at_range (source pat : bytes) (k : Z) :
  pat <> [] -> agrees_at source pat k -> k + len pat <= len source.
Proof.
  intros Hpat [Hk Hall].
  pose proof (len_nonneg pat) as Hl.
  assert (Hpos : 0 < len pat)
    by (destruct pat; [congruence|unfold len; simpl; lia]).
  specialize (Hall (len pat - 1) ltac:(lia)).
  destruct (at_in_range pat (len pat - 1) ltac:(lia)) as [x Hx].
  rewrite Hx in Hall. apply at_some_range in Hall. lia.
Qed.

Lemma indexOf_match_spec (source pat : bytes) (pin : Z) (left : nat) :
  forall matched j : Z,
    0 <= matched ->
    j = pin + matched - 1 ->
    matched + Z.of_nat left = len pat ->
    (forall m, 0 <= m < matched -> at_ source (pin + m) = at_ pat m) ->
    ByteUtil.indexOf_match source pat pin matched j left = len pat <->
    (forall m, 0 <= m < len pat -> at_ source (pin + m) = at_ pat m).
Proof.
  induction left as [|left IH]; intros matched j Hpos Hj Hleft Hdone;
    cbn [ByteUtil.indexOf_match].
  - split; [|lia]. intros _ m Hm. apply Hdone. lia.
  - replace (j + 1 - pin) with matched by lia.
    replace (j + 1) with (pin + matched) by lia.
    destruct (decide (at_ source (pin + matched) <> at_ pat matched))
      as [Hne|Heq].
    + split; [intros Hm; exfalso; lia|].
      intros Hall. exfalso. apply Hne. apply Hall. lia.
    + apply dec_stable in Heq. apply IH; [lia|lia|lia|].
      intros m Hm. destruct (decide (m = matched)) as [->|Hlt];
        [exact Heq|apply Hdone; lia].
Qed.

Lemma indexOf_loop_spec (source pat : bytes) (left : nat) :
  pat <> [] ->
  forall i : Z,
    0 <= i -> i + Z.of_nat left = len source ->
    let found := ByteUtil.indexOf_loop source pat i left in
    (found = -1 /\ forall k, i <= k -> ~ agrees_at source pat k) \/
    (i <= found /\ agrees_at source pat found /\
     forall k, i <= k < found -> ~ agrees_at source pat k).
Proof.
  intros Hpat. pose proof (len_nonneg pat) as Hl.
  assert (Hpos : 0 < len pat)
    by (destruct pat; [congruence|unfold len; simpl; lia]).
  induction left as [|left IH]; intros i Hi Hleft;
    cbn [ByteUtil.indexOf_loop]; cbv zeta.
  - left. split; [reflexivity|]. intros k Hk Hag.
    apply agrees_at_range in Hag; [lia|exact Hpat].
  - assert (Hstep : ~ agrees_at source pat i ->
              let found := ByteUtil.indexOf_loop source pat (i + 1) left in
              (found = -1 /\ forall k, i <= k -> ~ agrees_at source pat k) \/
              (i <= found /\ agrees_at source pat found /\
               forall k, i <= k < found -> ~ agrees_at source pat k)).
    { intros Hnot. cbv zeta.
      destruct (IH (i + 1) ltac:(lia) ltac:(lia))
        as [[Hf Hno]|(Hf & Hag & Hno)].
      - left. split; [exact Hf|]. intros k Hk.
        destruct (decide (k = i)) as [->|Hne]; [exact Hnot|apply Hno; lia].
      - right. split; [lia|]. split; [exact Hag|]. intros k Hk.
        destruct (decide (k = i)) as [->|Hne]; [exact Hnot|apply Hno; lia]. }
    destruct (decide (at_ source i <> at_ pat 0)) as [Hne|Heq].
    + apply Hstep. intros [_ Hall]. apply Hne.
      specialize (Hall 0 ltac:(lia)). rewrite Z.add_0_r in Hall. exact Hall.
    + apply dec_stable in Heq.
      pose proof (indexOf_match_spec source pat i (Z.to_nat (len pat - 1)) 1 i
                    ltac:(lia) ltac:(lia) ltac:(lia)) as Hmatch.
      destruct (decide (ByteUtil.indexOf_match source pat i 1 i
                          (Z.to_nat (len pat - 1)) = len pat)) as [Hall|Hnot].
      * right. split; [lia|]. split; [|intros k Hk; lia].
        split; [exact Hi|]. apply Hmatch; [|exact Hall].
        intros m Hm. replace m with 0 by lia. rewrite Z.add_0_r. exact Heq.
      * apply Hstep. intros [_ Hall]. apply Hnot. apply Hmatch; [|exact Hall].
        intros m Hm. replace m with 0 by lia. rewrite Z.add_0_r. exact Heq.
Qed.

End Occurrences.

Lemma indexOf_agreement (source pat : bytes) (start : Z) :
  pat <> [] ->
  let lo := Z.max start 0 in
  let i := ByteUtil.indexOf source pat start in
  (i = -1 /\ forall k, lo <= k -> ~ agrees_at source pat k) \/
  (lo <= i /\ agrees_at source pat i /\
   forall k, lo <= k < i -> ~ agrees_at source pat k).
Proof.
  intros Hpat lo i. unfold i, ByteUtil.indexOf.
  pose proof (len_nonneg source) as Hs.
  destruct (decide (start >= len source)) as [Hbig|Hsmall].
  - left. split; [reflexivity|]. intros k Hk Hag.
    pose proof (agrees_at_range _ _ _ Hpat Hag) as Hr.
    assert (0 < len pat)
      by (destruct pat; [congruence|unfold len; simpl; lia]).
    unfold lo in Hk. lia.
  - assert (Hlo : (if decide (start < 0) then 0 else start) = lo)
      by (unfold lo; destruct (decide (start < 0)); lia).
    rewrite Hlo.
    apply (indexOf_loop_spec source pat (Z.to_nat (len source - lo)) Hpat
             lo); unfold lo; lia.
Qed.

(** X4: for a pattern that is not empty, [indexOf(source, pat, start)] is
    the index of the first occurrence of [pat] in [source] that begins at
    [start] or later (a negative [start] counts as [0]), and [-1] when
    there is none. *)
Theorem indexOf_first_occurrence (source pat : bytes) (start : Z) :
  pat <> [] ->
  let lo := Z.max start 0 in
  let i := ByteUtil.indexOf source pat start in
  (i = -1 /\ forall k, lo <= k -> ~ occurs_at source pat k) \/
  (lo <= i /\ occurs_at source pat i /\
   forall k, lo <= k < i -> ~ occurs_at source pat k).
Proof.
  intros Hpat lo i.
  destruct (indexOf_agreement source pat start Hpat)
    as [[Hf Hno]|(Hf & Hag & Hno)].
  - left. split; [exact Hf|]. intros k Hk Hocc.
    apply (Hno k Hk). apply agrees_at_occurs; assumption.
  - right. split; [exact Hf|].
    split; [apply agrees_at_occurs; assumption|].
    intros k Hk Hocc. apply (Hno k Hk). apply agrees_at_occurs; assumption.
Qed.

Lemma indexOf_first_occurrence_witness :
  ByteUtil.indexOf [1; 2; 3; 2; 3] [2; 3] 0 = 1 /\
  occurs_at [1; 2; 3; 2; 3] [2; 3] 1.
Proof.
  destruct (indexOf_first_occurrence [1; 2; 3; 2; 3] [2; 3] 0
              ltac:(discriminate)) as [[Hf _]|(_ & Hocc & _)].
  - vm_compute in Hf. discriminate.
  - split; [reflexivity|exact Hocc].
Defined.

Section LastOccurrence.

Lemma lastIndexOf_match_spec (source pat : bytes) (pin : Z) (left : nat) :
  forall matched j : Z,
    0 <= matched ->
    j = pin - matched + 1 ->
    matched + Z.of_nat left = len pat ->
    (forall m, 0 <= m < matched ->
       at_ source (pin - m) = at_ pat (len pat - 1 - m)) ->
    ByteUtil.lastIndexOf_match source pat pin matched j left = len pat <->
    (forall m, 0 <= m < len pat ->
       at_ source (pin - m) = at_ pat (len pat - 1 - m)).
Proof.
  induction left as [|left IH]; intros matched j Hpos Hj Hleft Hdone;
    cbn [ByteUtil.lastIndexOf_match].
  - split; [|lia]. intros _ m Hm. apply Hdone. lia.
  - replace (pin - (j - 1)) with matched by lia.
    replace (j - 1) with (pin - matched) by lia.
    destruct (decide (at_ source (pin - matched)
                      <> at_ pat (len pat - 1 - matched))) as [Hne|Heq].
    + split; [intros Hm; exfalso; lia|].
      intros Hall. exfalso. apply Hne. apply Hall. lia.
    + apply dec_stable in Heq. apply IH; [lia|lia|lia|].
      intros m Hm. destruct (decide (m = matched)) as [->|Hlt];
        [exact Heq|apply Hdone; lia].
Qed.

(** A match found backwards from its last byte at [pin] is an occurrence
    at [pin - pat.length + 1]. *)
Lemma agrees_backwards (source pat : bytes) (pin : Z) :
  pat <> [] ->
  (forall m, 0 <= m < len pat ->
     at_ source (pin - m) = at_ pat (len pat - 1 - m)) <->
  agrees_at source pat (pin - len pat + 1).
Proof.
  intros Hpat. pose proof (len_nonneg pat) as Hl.
  assert (Hpos : 0 < len pat)
    by (destruct pat; [congruence|unfold len; simpl; lia]).
  split.
  - intros Hall. split.
    + specialize (Hall (len pat - 1) ltac:(lia)).
      replace (len pat - 1 - (len pat - 1)) with 0 in Hall by lia.
      destruct (at_in_range pat 0 ltac:(lia)) as [x Hx].
      rewrite Hx in Hall. apply at_some_range in Hall. lia.
    + intros m Hm. specialize (Hall (len pat - 1 - m) ltac:(lia)).
      replace (pin - (len pat - 1 - m)) with (pin - len pat + 1 + m) in Hall
        by lia.
      replace (len pat - 1 - (len pat - 1 - m)) with m in Hall by lia.
      exact Hall.
  - intros [_ Hall] m Hm. specialize (Hall (len pat - 1 - m) ltac:(lia)).
    replace (pin - len pat + 1 + (len pat - 1 - m)) with (pin - m) in Hall
      by lia.
    exact Hall.
Qed.

Lemma lastIndexOf_loop_spec (source pat : bytes) (left : nat) :
  pat <> [] ->
  forall i : Z,
    i + 1 = Z.of_nat left ->
    let found := ByteUtil.lastIndexOf_loop source pat i left in
    (found = -1 /\
     forall k, k + len pat - 1 <= i -> ~ agrees_at source pat k) \/
    (agrees_at source pat found /\ found + len pat - 1 <= i /\
     forall k, found < k -> k + len pat - 1 <= i ->
               ~ agrees_at source pat k).
Proof.
  intros Hpat. pose proof (len_nonneg pat) as Hl.
  assert (Hpos : 0 < len pat)
    by (destruct pat; [congruence|unfold len; simpl; lia]).
  induction left as [|left IH]; intros i Hleft;
    cbn [ByteUtil.lastIndexOf_loop]; cbv zeta.
  - left. split; [reflexivity|]. intros k Hk [Hk0 _]. lia.
  - assert (Hstep : ~ agrees_at source pat (i - len pat + 1) ->
              let found := ByteUtil.lastIndexOf_loop source pat (i - 1) left in
              (found = -1 /\
               forall k, k + len pat - 1 <= i -> ~ agrees_at source pat k) \/
              (agrees_at source pat found /\ found + len pat - 1 <= i /\
               forall k, found < k -> k + len pat - 1 <= i ->
                         ~ agrees_at source pat k)).
    { intros Hnot. cbv zeta.
      destruct (IH (i - 1) ltac:(lia)) as [[Hf Hno]|(Hag & Hf & Hno)].
      - left. split; [exact Hf|]. intros k Hk.
        destruct (decide (k = i - len pat + 1)) as [->|Hne];
          [exact Hnot|apply Hno; lia].
      - right. split; [exact Hag|]. split; [lia|]. intros k Hk Hki.
        destruct (decide (k = i - len pat + 1)) as [->|Hne];
          [exact Hnot|apply Hno; lia]. }
    destruct (decide (at_ source i <> at_ pat (len pat - 1))) as [Hne|Heq].
    + apply Hstep. intros Hend.
      pose proof (proj2 (agrees_backwards source pat i Hpat) Hend) as Hag.
      apply Hne. specialize (Hag 0 ltac:(lia)).
      rewrite !Z.sub_0_r in Hag. exact Hag.
    + apply dec_stable in Heq.
      pose proof (lastIndexOf_match_spec source pat i
                    (Z.to_nat (len pat - 1)) 1 i
                    ltac:(lia) ltac:(lia) ltac:(lia)) as Hmatch.
      assert (Hone : forall m, 0 <= m < 1 ->
                at_ source (i - m) = at_ pat (len pat - 1 - m)).
      { intros m Hm. replace m with 0 by lia. rewrite !Z.sub_0_r. exact Heq. }
      destruct (decide (ByteUtil.lastIndexOf_match source pat i 1 i
                          (Z.to_nat (len pat - 1)) = len pat)) as [Hall|Hnot].
      * right. split; [|split; [lia|intros k Hk Hki; lia]].
        apply (proj1 (agrees_backwards source pat i Hpat)).
        apply Hmatch; [exact Hone|exact Hall].
      * apply Hstep. intros Hag. apply Hnot. apply Hmatch; [exact Hone|].
        apply (proj2 (agrees_backwards source pat i Hpat)). exact Hag.
Qed.

End LastOccurrence.

(** X5: for a pattern that is not empty, [lastIndexOf(source, pat, start)]
    is the index of the last occurrence of [pat] in [source] whose last
    byte is at index [start] or earlier, and [-1] when there is none:
    [start] bounds where an occurrence ends, not where it begins. *)
Theorem lastIndexOf_last_occurrence (source pat : bytes) (start : Z) :
  pat <> [] ->
  let i := ByteUtil.lastIndexOf source pat start in
  (i = -1 /\
   forall k, k + len pat - 1 <= start -> ~ occurs_at source pat k) \/
  (occurs_at source pat i /\ i + len pat - 1 <= start /\
   forall k, i < k -> k + len pat - 1 <= start -> ~ occurs_at source pat k).
Proof.
  intros Hpat i. unfold i, ByteUtil.lastIndexOf.
  pose proof (len_nonneg source) as Hs. pose proof (len_nonneg pat) as Hl.
  assert (Hpos : 0 < len pat)
    by (destruct pat; [congruence|unfold len; simpl; lia]).
  destruct (decide (start < 0)) as [Hneg|Hnn].
  - left. split; [reflexivity|]. intros k Hk Hocc.
    apply agrees_at_occurs in Hocc; [|exact Hpat]. destruct Hocc as [Hk0 _].
    lia.
  - set (hi := if decide (start >= len source) then len source - 1
               else start).
    assert (Hhi : hi <= start /\ hi < len source /\
                  (hi = start \/ hi = len source - 1))
      by (unfold hi; destruct (decide (start >= len source)); lia).
    destruct (lastIndexOf_loop_spec source pat (Z.to_nat (hi + 1)) Hpat hi
                ltac:(lia)) as [[Hf Hno]|(Hag & Hf & Hno)].
    + left. split; [exact Hf|]. intros k Hk Hocc.
      apply agrees_at_occurs in Hocc; [|exact Hpat].
      pose proof (agrees_at_range _ _ _ Hpat Hocc) as Hr.
      apply (Hno k); [lia|exact Hocc].
    + right. split; [apply agrees_at_occurs; assumption|]. split; [lia|].
      intros k Hk Hks Hocc. apply agrees_at_occurs in Hocc; [|exact Hpat].
      pose proof (agrees_at_range _ _ _ Hpat Hocc) as Hr.
      apply (Hno k); [lia|lia|exact Hocc].
Qed.

Lemma lastIndexOf_last_occurrence_witness :
  ByteUtil.lastIndexOf [1; 2; 3; 2; 3] [2; 3] 3 = 1 /\
  occurs_at [1; 2; 3; 2; 3] [2; 3] 1 /\
  ~ occurs_at [1; 2; 3; 2; 3] [2; 3] 2.
Proof.
  destruct (lastIndexOf_last_occurrence [1; 2; 3; 2; 3] [2; 3] 3
              ltac:(discriminate)) as [[Hf _]|(Hocc & _ & Hno)].
  - vm_compute in Hf. discriminate.
  - split; [reflexivity|]. split; [exact Hocc|].
    apply Hno; vm_compute; [reflexivity|discriminate].
Defined.

(** X6: for a pattern that is not empty, [contains(source, pat)] is [true]
    exactly when [pat] occurs somewhere in [source]. *)
Theorem contains_iff_occurs (source pat : bytes) :
  pat <> [] ->
  ByteUtil.contains source pat = true <->
  exists front back : bytes, source = front ++ pat ++ back.
Proof.
  intros Hpat. unfold ByteUtil.contains. rewrite bool_decide_eq_true.
  destruct (indexOf_agreement source pat 0 Hpat)
    as [[Hf Hno]|(Hlo & Hag & _)].
  - split; [intros Hne; exfalso; apply Hne; exact Hf|].
    intros (front & back & Hsrc). exfalso.
    apply (Hno (len front)); [pose proof (len_nonneg front); lia|].
    apply agrees_at_occurs; [exact Hpat|].
    exists front, back. split; [exact Hsrc|reflexivity].
  - apply agrees_at_occurs in Hag as (front & back & Hsrc & Hlen);
      [|exact Hpat].
    split; [intros _; exists front, back; exact Hsrc|].
    intros _. lia.
Qed.

Lemma contains_iff_occurs_witness :
  ByteUtil.contains [1; 2; 3; 2; 3] [3; 2] = true.
Proof.
  apply (proj2 (contains_iff_occurs [1; 2; 3; 2; 3] [3; 2]
                  ltac:(discriminate))).
  exists [1; 2], [3]. reflexivity.
Defined.

Section EmptyPattern.

Lemma indexOf_loop_empty (source : bytes) (left : nat) :
  forall i : Z,
    0 <= i -> i + Z.of_nat left = len source ->
    ByteUtil.indexOf_loop source [] i left = -1.
Proof.
  induction left as [|left IH]; intros i Hi Hleft;
    cbn [ByteUtil.indexOf_loop]; cbv zeta; [reflexivity|].
  destruct (at_in_range source i ltac:(lia)) as [x Hx].
  destruct (decide (at_ source i <> at_ [] 0)) as [_|Heq].
  - apply IH; lia.
  - exfalso. apply Heq. rewrite Hx. discriminate.
Qed.

Lemma lastIndexOf_loop_empty (source : bytes) (left : nat) :
  forall i : Z,
    i < len source -> i + 1 = Z.of_nat left ->
    ByteUtil.lastIndexOf_loop source [] i left = -1.
Proof.
  induction left as [|left IH]; intros i Hi Hleft;
    cbn [ByteUtil.lastIndexOf_loop]; cbv zeta; [reflexivity|].
  destruct (at_in_range source i ltac:(lia)) as [x Hx].
  destruct (decide (at_ source i <> at_ [] (len [] - 1))) as [_|Heq].
  - apply IH; lia.
  - exfalso. apply Heq. rewrite Hx. discriminate.
Qed.

End EmptyPattern.

(** X7: the empty pattern is never found: whatever the source and the
    start, [indexOf] and [lastIndexOf] answer [-1] for it, and [contains]
    answers [false]. *)
Theorem empty_pattern_is_never_found (source : bytes) (start : Z) :
  ByteUtil.indexOf source [] start = -1 /\
  ByteUtil.lastIndexOf source [] start = -1 /\
  ByteUtil.contains source [] = false.
Proof.
  pose proof (len_nonneg source) as Hs.
  assert (Hfirst : forall st, ByteUtil.indexOf source [] st = -1).
  { intros st. unfold ByteUtil.indexOf.
    destruct (decide (st >= len source)); [reflexivity|].
    apply indexOf_loop_empty; destruct (decide (st < 0)); lia. }
  split; [apply Hfirst|]. split.
  - unfold ByteUtil.lastIndexOf.
    destruct (decide (start < 0)); [reflexivity|].
    apply lastIndexOf_loop_empty; destruct (decide (start >= len source));
      lia.
  - unfold ByteUtil.contains. rewrite Hfirst.
    apply bool_decide_eq_false. intros Hne. apply Hne. reflexivity.
Qed.


(** X9: [copy(src, dst, off)] never fails and never changes the length of
    [dst]: the offset is brought into [0 .. dst.length], the bytes of [src]
    that fit from there on replace those of [dst], and their number is
    returned. *)
Theorem copy_places_what_fits (src dst : bytes) (off : Z) :
  let o := Z.max 0 (Z.min off (len dst)) in
  let n := Z.min (len src) (len dst - o) in
  ByteUtil.copy src dst off
  = (take (Z.to_nat o) dst ++ take (Z.to_nat n) src
       ++ drop (Z.to_nat (o + n)) dst, n) /\
  len (fst (ByteUtil.copy src dst off)) = len dst.
Proof.
  intros o n. pose proof (len_nonneg dst) as Hd.
  pose proof (len_nonneg src) as Hs.
  assert (Ho : 0 <= o <= len dst) by (unfold o; lia).
  rewrite copy_eq. fold o. cbn [fst].
  assert (Htake : take (length dst - Z.to_nat o) src = take (Z.to_nat n) src).
  { unfold n, len in *.
    destruct (Z.min_spec (Z.of_nat (length src)) (Z.of_nat (length dst) - o))
      as [[Hlt ->]|[Hge ->]].
    - rewrite Nat2Z.id. rewrite !take_ge by lia. reflexivity.
    - f_equal. lia. }
  rewrite Htake.
  assert (Hlen : len (take (Z.to_nat n) src) = n)
    by (unfold n, len in *; rewrite length_take; lia).
  split.
  - f_equal; [|exact Hlen]. do 3 f_equal. unfold len in Hlen. lia.
  - unfold len in *. rewrite !length_app, length_take, length_drop.
    rewrite length_take in *. lia.
Qed.

(** ** io/bufio.ts: the synchronous writer *)

Section WriterSyncRoundTrip.
Import BufWriterSync.
Context {W E : Type} `{WriterSync W E}.
Hypothesis Hsink : @accepts_some_sync W E _.

(** [writeAllSync] hands the whole of its array to a sink that accepts some of
    what it is handed. *)
Lemma writeAllSync_ok (fuel : nat) :
  forall (w : W) (calls : list (sink_call E)) (arr : bytes) (k : Z),
    0 <= k <= len arr ->
    len arr - k <= Z.of_nat fuel ->
    exists w' calls',
      writeAllSync fuel w calls arr k = (Ok tt, w', calls') /\
      received calls' = received calls ++ drop (Z.to_nat k) arr.
Proof.
  induction fuel as [|fuel IH]; intros w calls arr k Hk Hfuel.
  - simpl. destruct (decide (k < len arr)); [lia|].
    exists w, calls. split; [reflexivity|].
    rewrite drop_ge by (unfold len in *; lia). rewrite app_nil_r. reflexivity.
  - simpl. destruct (decide (k < len arr)) as [Hlt|Hge].
    + rewrite subarray_suffix by lia.
      destruct (Hsink w (drop (Z.to_nat k) arr)) as (n & w' & Hw & Hn).
      { intros Hnil. apply (f_equal length) in Hnil.
        rewrite length_drop in Hnil. unfold len in *. simpl in Hnil. lia. }
      rewrite Hw.
      assert (Hlen : len (drop (Z.to_nat k) arr) = len arr - k)
        by (unfold len in *; rewrite length_drop; lia).
      destruct (IH w' (calls ++ [(drop (Z.to_nat k) arr, inr n)]) arr (k + n))
        as (w'' & calls'' & Hrun & Hrec); [lia|lia|].
      exists w'', calls''. split; [exact Hrun|].
      rewrite Hrec, (received_snoc (E:=E)). unfold accepted. cbn [fst snd].
      rewrite subarray_prefix by lia. rewrite <- app_assoc. f_equal.
      rewrite Z2Nat.inj_add by lia. rewrite <- drop_drop.
      apply take_drop.
    + exists w, calls. split; [reflexivity|].
      rewrite drop_ge by (unfold len in *; lia).
      rewrite app_nil_r. reflexivity.
Qed.

Lemma flushSync_ok (C : Z) (sent : bytes) (this : t W E) (fuel : nat) :
  holds_sync C sent this ->
  C <= Z.of_nat fuel ->
  exists this',
    flush fuel this = (Ok tt, this') /\
    holds_sync C sent this' /\
    usedBufferBytes this' = 0 /\
    received (sink_calls this') = sent.
Proof.
  intros (Herr & Hcap & Hused & Hsent) Hfuel. unfold flush. rewrite Herr.
  destruct (decide (usedBufferBytes this = 0)) as [H0|Hn0].
  - exists this. rewrite H0 in Hsent. simpl in Hsent. rewrite app_nil_r in Hsent.
    repeat split; try assumption; try lia.
    rewrite H0. simpl. rewrite app_nil_r. exact Hsent.
  - rewrite subarray_prefix by lia.
    set (arr := take (Z.to_nat (usedBufferBytes this)) (buf this)) in *.
    assert (Hlen : len arr = usedBufferBytes this).
    { unfold arr, len in *. rewrite length_take. lia. }
    destruct (writeAllSync_ok fuel (writer this) (sink_calls this) arr 0)
      as (w' & calls' & Hrun & Hrec); [lia|lia|].
    rewrite Hrun. rewrite drop_0 in Hrec.
    eexists. split; [reflexivity|].
    unfold holds_sync. cbn [err buf usedBufferBytes sink_calls].
    assert (Hnew : len (new_Uint8Array (len (buf this))) = C).
    { unfold new_Uint8Array, len in *. rewrite length_replicate. lia. }
    rewrite Hrec, Hsent. simpl. rewrite app_nil_r.
    repeat split; try assumption; try lia.
Qed.

Lemma writeSync_loop_ok (C : Z) (fuel : nat) :
  forall (this : t W E) (data sent : bytes) (total : Z),
    holds_sync C sent this ->
    len data + C + 1 + (if decide (usedBufferBytes this = 0) then 0 else 1)
      <= Z.of_nat fuel ->
    exists this',
      writeSync_loop fuel this data total = (Ok (total + len data), this') /\
      holds_sync C (sent ++ data) this'.
Proof.
  induction fuel as [|fuel IH]; intros this data sent total Hinv Hfuel.
  { pose proof (len_nonneg data). destruct Hinv as (_ & _ & ? & _).
    destruct (decide (usedBufferBytes this = 0)); lia. }
  pose proof Hinv as (Herr & Hcap & Hused & Hsent).
  pose proof (len_nonneg data) as Hdata.
  cbn [writeSync_loop]. unfold available, buffered.
  destruct (decide (len data > len (buf this) - usedBufferBytes this))
    as [Hbig|Hfits].
  - destruct (decide (usedBufferBytes this = 0)) as [H0|Hn0].
    + 
      destruct (Hsink (writer this) data) as (n & w' & Hw & Hn).
      { intros ->. unfold len in Hbig. simpl in Hbig. lia. }
      rewrite Hw.
      set (this1 := mk (buf this) (usedBufferBytes this) (err this) w'
                       (sink_calls this ++ [(data, inr n)])).
      assert (Hinv1 : holds_sync C (sent ++ take (Z.to_nat n) data) this1).
      { unfold holds_sync, this1. cbn [err buf usedBufferBytes sink_calls].
        repeat split; try assumption; try lia.
        rewrite (received_snoc (E:=E)). unfold accepted. cbn [fst snd].
        rewrite subarray_prefix by lia. rewrite <- Hsent.
        rewrite H0. simpl. rewrite !app_nil_r. reflexivity. }
      rewrite subarray_suffix by lia.
      assert (Hrest : len (drop (Z.to_nat n) data) = len data - n)
        by (unfold len in *; rewrite length_drop; lia).
      destruct (IH this1 (drop (Z.to_nat n) data) _ (total + n) Hinv1)
        as (this' & Hrun & Hinv').
      { unfold this1. cbn [usedBufferBytes].
        destruct (decide (usedBufferBytes this = 0)); lia. }
      exists this'. split.
      * rewrite Hrun. do 2 f_equal. lia.
      * rewrite <- app_assoc, take_drop in Hinv'. exact Hinv'.
    + 
      destruct (copy_into_buffer data (buf this) (usedBufferBytes this))
        as (buf' & Hcopy & Hlen' & Htake); [lia|].
      rewrite Z.min_r in Hcopy, Htake by lia.
      set (n := len (buf this) - usedBufferBytes this) in *.
      rewrite Hcopy.
      set (this1 := mk buf' (usedBufferBytes this + n) (err this)
                       (writer this) (sink_calls this)).
      assert (Hinv1 : holds_sync C (sent ++ take (Z.to_nat n) data) this1).
      { unfold holds_sync, this1. cbn [err buf usedBufferBytes sink_calls].
        repeat split; try assumption; try lia.
        rewrite Htake, app_assoc, Hsent. reflexivity. }
      destruct (flushSync_ok C _ this1 fuel Hinv1)
        as (this2 & Hflush & Hinv2 & Hused2 & _); [lia|].
      rewrite Hflush. rewrite subarray_suffix by (unfold n; lia).
      assert (Hrest : len (drop (Z.to_nat n) data) = len data - n)
        by (unfold len in *; rewrite length_drop; lia).
      destruct (IH this2 (drop (Z.to_nat n) data) _ (total + n) Hinv2)
        as (this' & Hrun & Hinv').
      { rewrite Hused2. destruct (decide (0 = 0)); [|lia].
        destruct (decide (usedBufferBytes this = 0)); [lia|]. unfold n in *. lia. }
      exists this'. split.
      * rewrite Hrun. do 2 f_equal. lia.
      * rewrite <- app_assoc, take_drop in Hinv'. exact Hinv'.
  - destruct (copy_into_buffer data (buf this) (usedBufferBytes this))
      as (buf' & Hcopy & Hlen' & Htake); [lia|].
    rewrite Z.min_l in Hcopy, Htake by lia. rewrite Hcopy.
    eexists. split; [reflexivity|].
    unfold holds_sync. cbn [err buf usedBufferBytes sink_calls].
    repeat split; try assumption; try lia.
    rewrite Htake, app_assoc, Hsent. f_equal.
    apply take_ge. unfold len. lia.
Qed.

Lemma writeSync_ok (C : Z) (fuel : nat) (this : t W E) (data sent : bytes) :
  holds_sync C sent this ->
  len data + C + 2 <= Z.of_nat fuel ->
  exists this',
    writeSync fuel this data = (Ok (len data), this') /\
    holds_sync C (sent ++ data) this'.
Proof.
  intros Hinv Hfuel. unfold writeSync. destruct Hinv as (Herr & Hrest).
  rewrite Herr. destruct (decide (len data = 0)) as [H0|Hn0].
  - exists this. rewrite H0. apply len_zero_nil in H0. subst data.
    rewrite app_nil_r. split; [reflexivity|]. split; assumption.
  - destruct (writeSync_loop_ok C fuel this data sent 0) as (this' & Hrun & Hinv').
    + split; assumption.
    + destruct (decide (usedBufferBytes this = 0)); lia.
    + exists this'. split; [exact Hrun|exact Hinv'].
Qed.

Lemma writesSync_ok (C : Z) (fuel : nat) (bs : list bytes) :
  forall (this : t W E) (sent : bytes),
    holds_sync C sent this ->
    len (List.concat bs) + C + 2 <= Z.of_nat fuel ->
    exists this',
      writes fuel this bs = (map (fun b => Ok (len b)) bs, this') /\
      holds_sync C (sent ++ List.concat bs) this'.
Proof.
  induction bs as [|b bs IH]; intros this sent Hinv Hfuel.
  - exists this. simpl. rewrite app_nil_r. auto.
  - simpl in Hfuel. rewrite len_app in Hfuel.
    pose proof (len_nonneg b). pose proof (len_nonneg (List.concat bs)).
    destruct (writeSync_ok C fuel this b sent Hinv) as (this1 & Hw & Hinv1); [lia|].
    destruct (IH this1 (sent ++ b) Hinv1) as (this' & Hws & Hinv'); [lia|].
    exists this'. cbn [writes]. rewrite Hw, Hws. split; [reflexivity|].
    simpl. rewrite app_assoc. exact Hinv'.
Qed.

End WriterSyncRoundTrip.

(** X10: on a synchronous sink that accepts at least one byte and at most
    the whole of what it is handed, a [BufWriterSync] of any capacity
    [C >= 1] answers each [writeSync(bi)] with [bi.length], and after the
    final [flush()] the sink has received exactly [b1 ++ ... ++ bn].  The
    loops end within [length (b1 ++ ... ++ bn) + C + 2] passes. *)
Theorem BufWriterSync_round_trip {W E : Type} `{WriterSync W E}
  (sink : W) (C : Z) (bs : list bytes) (fuel : nat) :
  @accepts_some_sync W E _ ->
  1 <= C ->
  len (List.concat bs) + C + 2 <= Z.of_nat fuel ->
  exists this this',
    BufWriterSync.writes fuel (BufWriterSync.new sink C) bs
      = (map (fun b => Ok (len b)) bs, this) /\
    BufWriterSync.flush fuel this = (Ok tt, this') /\
    received (BufWriterSync.sink_calls this') = List.concat bs.
Proof.
  intros Hsink HC Hfuel.
  assert (Hnew : @holds_sync W E C [] (BufWriterSync.new sink C)).
  { unfold holds_sync, BufWriterSync.new. destruct (decide (C <= 0)); [lia|].
    cbn. unfold new_Uint8Array, len. rewrite length_replicate.
    repeat split; lia. }
  destruct (writesSync_ok Hsink C fuel bs _ [] Hnew Hfuel) as (this & Hws & Hinv).
  pose proof (len_nonneg (List.concat bs)).
  destruct (flushSync_ok Hsink C _ this fuel Hinv) as (this' & Hfl & _ & _ & Hrec);
    [lia|].
  exists this, this'. repeat split; assumption.
Qed.

Lemma stingy_accepts_some_sync : @accepts_some_sync stingy_sink unit _.
Proof.
  intros w p Hp. exists (Z.min 3 (len p)), w. split; [reflexivity|].
  destruct p; [congruence|]. unfold len. simpl. lia.
Qed.

Lemma BufWriterSync_round_trip_witness :
  exists this this',
    BufWriterSync.writes 16 (BufWriterSync.new Stingy 2)
                     [[1; 2; 3; 4; 5]; []; [6]; [7; 8; 9; 10]]
      = ([Ok 5; Ok 0; Ok 1; Ok 4], this) /\
    BufWriterSync.flush 16 this = (Ok tt, this') /\
    received (BufWriterSync.sink_calls this') = [1; 2; 3; 4; 5; 6; 7; 8; 9; 10].
Proof.
  apply (BufWriterSync_round_trip Stingy 2
           [[1; 2; 3; 4; 5]; []; [6]; [7; 8; 9; 10]] 16).
  - exact stingy_accepts_some_sync.
  - lia.
  - unfold len. simpl. lia.
Defined.

(** ** io/bufio.ts: the accounts of the buffered writers *)

Section AccountingAsync.
Import BufWriter.
Context {W E : Type} `{Writer W E}.

Lemma flush_accounted (fuel : nat) (this : t W E) :
  0 <= usedBufferBytes this <= len (buf this) ->
  0 <= usedBufferBytes (snd (flush fuel this))
    <= len (buf (snd (flush fuel this))) /\
  len (buf (snd (flush fuel this))) = len (buf this).
Proof.
  intros Hacc. unfold flush. destruct (err this); [auto|].
  destruct (decide (usedBufferBytes this = 0)); [auto|].
  destruct (writeAll _ _ _ _ _) as [[[[]|e|] w] calls];
    cbn [snd buf usedBufferBytes]; auto.
  unfold new_Uint8Array, len in *. rewrite length_replicate. lia.
Qed.

Lemma write_loop_accounted (fuel : nat) :
  forall (this : t W E) (data : bytes) (total : Z),
    0 <= usedBufferBytes this <= len (buf this) ->
    0 <= usedBufferBytes (snd (write_loop fuel this data total))
      <= len (buf (snd (write_loop fuel this data total))) /\
    len (buf (snd (write_loop fuel this data total))) = len (buf this).
Proof.
  assert (Hcopy : forall (this : t W E) (data : bytes),
            0 <= usedBufferBytes this <= len (buf this) ->
            exists buf' n,
              ByteUtil.copy data (buf this) (usedBufferBytes this) = (buf', n)
              /\ len buf' = len (buf this)
              /\ 0 <= n <= len (buf this) - usedBufferBytes this).
  { intros this data Hacc.
    destruct (copy_into_buffer data (buf this) (usedBufferBytes this) Hacc)
      as (buf' & Hc & Hlen & _).
    pose proof (len_nonneg data) as Hd.
    exists buf', (Z.min (len data) (len (buf this) - usedBufferBytes this)).
    split; [exact Hc|]. split; [exact Hlen|lia]. }
  induction fuel as [|fuel IH]; intros this data total Hacc;
    cbn [write_loop]; unfold available, buffered;
    destruct (decide (len data > len (buf this) - usedBufferBytes this))
      as [Hbig|Hfit].
  - cbn [snd]. auto.
  - destruct (Hcopy this data Hacc) as (buf' & n & -> & Hlen & Hn).
    cbn [snd buf usedBufferBytes]. lia.
  - destruct (decide (usedBufferBytes this = 0)) as [H0|Hn0].
    + destruct (writer_write (writer this) data) as [[e|n] w].
      * cbn [snd buf usedBufferBytes]. auto.
      * apply (IH (mk (buf this) (usedBufferBytes this) (err this) w _)).
        exact Hacc.
    + destruct (Hcopy this data Hacc) as (buf' & n & -> & Hlen & Hn).
      set (this1 := mk buf' (usedBufferBytes this + n) (err this)
                       (writer this) (sink_calls this)).
      assert (Hacc1 : 0 <= usedBufferBytes this1 <= len (buf this1))
        by (unfold this1; cbn [buf usedBufferBytes]; lia).
      destruct (flush_accounted fuel this1 Hacc1) as [Hacc2 Hlen2].
      destruct (flush fuel this1) as [[[]|e|] this2]; cbn [snd] in *.
      * destruct (IH this2 (subarray_from data n) (total + n) Hacc2)
          as [Hacc3 Hlen3].
        split; [exact Hacc3|]. rewrite Hlen3, Hlen2. exact Hlen.
      * split; [exact Hacc2|]. rewrite Hlen2. exact Hlen.
      * split; [exact Hacc2|]. rewrite Hlen2. exact Hlen.
  - destruct (Hcopy this data Hacc) as (buf' & n & -> & Hlen & Hn).
    cbn [snd buf usedBufferBytes]. lia.
Qed.

Lemma write_accounted (fuel : nat) (this : t W E) (data : bytes) :
  0 <= usedBufferBytes this <= len (buf this) ->
  0 <= usedBufferBytes (snd (write fuel this data))
    <= len (buf (snd (write fuel this data))) /\
  len (buf (snd (write fuel this data))) = len (buf this).
Proof.
  intros Hacc. unfold write. destruct (err this); [auto|].
  destruct (decide (len data = 0)); [auto|].
  apply write_loop_accounted. exact Hacc.
Qed.

Lemma write_fits (fuel : nat) (this : t W E) (data : bytes) :
  err this = None -> 0 <= usedBufferBytes this ->
  len data <= available this ->
  exists buf',
    write fuel this data
    = (Ok (len data),
       mk buf' (usedBufferBytes this + len data) None (writer this)
          (sink_calls this)) /\
    len buf' = len (buf this) /\
    take (Z.to_nat (usedBufferBytes this + len data)) buf'
    = take (Z.to_nat (usedBufferBytes this)) (buf this) ++ data.
Proof.
  unfold available. intros Herr Hused Hfits. pose proof (len_nonneg data) as Hd.
  unfold write. rewrite Herr.
  destruct (decide (len data = 0)) as [H0|Hn0].
  - exists (buf this). rewrite H0, Z.add_0_r.
    apply len_zero_nil in H0. subst data. rewrite app_nil_r.
    split; [|split; reflexivity].
    destruct this; cbn in *; subst; reflexivity.
  - destruct (copy_into_buffer data (buf this) (usedBufferBytes this))
      as (buf' & Hcopy & Hlen & Htake); [lia|].
    rewrite Z.min_l in Hcopy, Htake by lia.
    exists buf'. split; [|split; [exact Hlen|]].
    + destruct fuel; cbn [write_loop]; unfold available;
        (destruct (decide (len data > len (buf this) - usedBufferBytes this));
         [lia|]);
        rewrite Hcopy, Herr; do 2 f_equal; lia.
    + rewrite Htake. f_equal. apply take_ge. unfold len. lia.
Qed.

End AccountingAsync.

Section AccountingSync.
Import BufWriterSync.
Context {W E : Type} `{WriterSync W E}.

Lemma flushSync_accounted (fuel : nat) (this : t W E) :
  0 <= usedBufferBytes this <= len (buf this) ->
  0 <= usedBufferBytes (snd (flush fuel this))
    <= len (buf (snd (flush fuel this))) /\
  len (buf (snd (flush fuel this))) = len (buf this).
Proof.
  intros Hacc. unfold flush. destruct (err this); [auto|].
  destruct (decide (usedBufferBytes this = 0)); [auto|].
  destruct (writeAllSync _ _ _ _ _) as [[[[]|e|] w] calls];
    cbn [snd buf usedBufferBytes]; auto.
  unfold new_Uint8Array, len in *. rewrite length_replicate. lia.
Qed.

Lemma writeSync_loop_accounted (fuel : nat) :
  forall (this : t W E) (data : bytes) (total : Z),
    0 <= usedBufferBytes this <= len (buf this) ->
    0 <= usedBufferBytes (snd (writeSync_loop fuel this data total))
      <= len (buf (snd (writeSync_loop fuel this data total))) /\
    len (buf (snd (writeSync_loop fuel this data total))) = len (buf this).
Proof.
  assert (Hcopy : forall (this : t W E) (data : bytes),
            0 <= usedBufferBytes this <= len (buf this) ->
            exists buf' n,
              ByteUtil.copy data (buf this) (usedBufferBytes this) = (buf', n)
              /\ len buf' = len (buf this)
              /\ 0 <= n <= len (buf this) - usedBufferBytes this).
  { intros this data Hacc.
    destruct (copy_into_buffer data (buf this) (usedBufferBytes this) Hacc)
      as (buf' & Hc & Hlen & _).
    pose proof (len_nonneg data) as Hd.
    exists buf', (Z.min (len data) (len (buf this) - usedBufferBytes this)).
    split; [exact Hc|]. split; [exact Hlen|lia]. }
  induction fuel as [|fuel IH]; intros this data total Hacc;
    cbn [writeSync_loop]; unfold available, buffered;
    destruct (decide (len data > len (buf this) - usedBufferBytes this))
      as [Hbig|Hfit].
  - cbn [snd]. auto.
  - destruct (Hcopy this data Hacc) as (buf' & n & -> & Hlen & Hn).
    cbn [snd buf usedBufferBytes]. lia.
  - destruct (decide (usedBufferBytes this = 0)) as [H0|Hn0].
    + destruct (writer_writeSync (writer this) data) as [[e|n] w].
      * cbn [snd buf usedBufferBytes]. auto.
      * apply (IH (mk (buf this) (usedBufferBytes this) (err this) w _)).
        exact Hacc.
    + destruct (Hcopy this data Hacc) as (buf' & n & -> & Hlen & Hn).
      set (this1 := mk buf' (usedBufferBytes this + n) (err this)
                       (writer this) (sink_calls this)).
      assert (Hacc1 : 0 <= usedBufferBytes this1 <= len (buf this1))
        by (unfold this1; cbn [buf usedBufferBytes]; lia).
      destruct (flushSync_accounted fuel this1 Hacc1) as [Hacc2 Hlen2].
      destruct (flush fuel this1) as [[[]|e|] this2]; cbn [snd] in *.
      * destruct (IH this2 (subarray_from data n) (total + n) Hacc2)
          as [Hacc3 Hlen3].
        split; [exact Hacc3|]. rewrite Hlen3, Hlen2. exact Hlen.
      * split; [exact Hacc2|]. rewrite Hlen2. exact Hlen.
      * split; [exact Hacc2|]. rewrite Hlen2. exact Hlen.
  - destruct (Hcopy this data Hacc) as (buf' & n & -> & Hlen & Hn).
    cbn [snd buf usedBufferBytes]. lia.
Qed.

Lemma writeSync_accounted (fuel : nat) (this : t W E) (data : bytes) :
  0 <= usedBufferBytes this <= len (buf this) ->
  0 <= usedBufferBytes (snd (writeSync fuel this data))
    <= len (buf (snd (writeSync fuel this data))) /\
  len (buf (snd (writeSync fuel this data))) = len (buf this).
Proof.
  intros Hacc. unfold writeSync. destruct (err this); [auto|].
  destruct (decide (len data = 0)); [auto|].
  apply writeSync_loop_accounted. exact Hacc.
Qed.

Lemma writeSync_fits (fuel : nat) (this : t W E) (data : bytes) :
  err this = None -> 0 <= usedBufferBytes this ->
  len data <= available this ->
  exists buf',
    writeSync fuel this data
    = (Ok (len data),
       mk buf' (usedBufferBytes this + len data) None (writer this)
          (sink_calls this)) /\
    len buf' = len (buf this) /\
    take (Z.to_nat (usedBufferBytes this + len data)) buf'
    = take (Z.to_nat (usedBufferBytes this)) (buf this) ++ data.
Proof.
  unfold available. intros Herr Hused Hfits. pose proof (len_nonneg data) as Hd.
  unfold writeSync. rewrite Herr.
  destruct (decide (len data = 0)) as [H0|Hn0].
  - exists (buf this). rewrite H0, Z.add_0_r.
    apply len_zero_nil in H0. subst data. rewrite app_nil_r.
    split; [|split; reflexivity].
    destruct this; cbn in *; subst; reflexivity.
  - destruct (copy_into_buffer data (buf this) (usedBufferBytes this))
      as (buf' & Hcopy & Hlen & Htake); [lia|].
    rewrite Z.min_l in Hcopy, Htake by lia.
    exists buf'. split; [|split; [exact Hlen|]].
    + destruct fuel; cbn [writeSync_loop]; unfold available;
        (destruct (decide (len data > len (buf this) - usedBufferBytes this));
         [lia|]);
        rewrite Hcopy, Herr; do 2 f_equal; lia.
    + rewrite Htake. f_equal. apply take_ge. unfold len. lia.
Qed.

End AccountingSync.

(** X11: whatever the sink answers, [write] and [flush] (and their
    synchronous twins) keep the count of buffered bytes between [0] and the
    size of the buffer, and never change that size; this holds however the
    call ends. *)
Theorem writers_keep_buffer_accounts :
  (forall (W E : Type) (Hw : Writer W E) (fuel : nat)
          (this : BufWriter.t W E) (data : bytes),
      0 <= BufWriter.buffered this <= BufWriter.size this ->
      let written := snd (BufWriter.write fuel this data) in
      let flushed := snd (BufWriter.flush fuel this) in
      0 <= BufWriter.buffered written <= BufWriter.size written /\
      BufWriter.size written = BufWriter.size this /\
      0 <= BufWriter.buffered flushed <= BufWriter.size flushed /\
      BufWriter.size flushed = BufWriter.size this) /\
  (forall (W E : Type) (Hw : WriterSync W E) (fuel : nat)
          (this : BufWriterSync.t W E) (data : bytes),
      0 <= BufWriterSync.buffered this <= BufWriterSync.size this ->
      let written := snd (BufWriterSync.writeSync fuel this data) in
      let flushed := snd (BufWriterSync.flush fuel this) in
      0 <= BufWriterSync.buffered written <= BufWriterSync.size written /\
      BufWriterSync.size written = BufWriterSync.size this /\
      0 <= BufWriterSync.buffered flushed <= BufWriterSync.size flushed /\
      BufWriterSync.size flushed = BufWriterSync.size this).
Proof.
  split; intros W E Hw fuel this data Hacc written flushed.
  - destruct (write_accounted fuel this data Hacc) as [H1 H2].
    destruct (flush_accounted fuel this Hacc) as [H3 H4].
    repeat split; try apply H1; try apply H3; assumption.
  - destruct (writeSync_accounted fuel this data Hacc) as [H1 H2].
    destruct (flushSync_accounted fuel this Hacc) as [H3 H4].
    repeat split; try apply H1; try apply H3; assumption.
Qed.

Lemma writers_keep_buffer_accounts_witness :
  let this := BufWriter.new Stingy 4 in
  let written := snd (BufWriter.write 16 this [1; 2; 3; 4; 5; 6; 7]) in
  0 <= BufWriter.buffered written <= BufWriter.size written /\
  BufWriter.size written = 4.
Proof.
  intros this written.
  destruct (proj1 writers_keep_buffer_accounts stingy_sink unit _ 16%nat this
              [1; 2; 3; 4; 5; 6; 7]) as (H1 & H2 & _).
  - vm_compute. split; discriminate.
  - split; [exact H1|exact H2].
Defined.

(** X12: a [write] (or [writeSync]) of data that fits in the free part of
    the buffer of a writable writer calls no sink: the data is appended to
    the buffered bytes and its length is answered. *)
Theorem write_that_fits_is_buffered :
  (forall (W E : Type) (Hw : Writer W E) (fuel : nat)
          (this : BufWriter.t W E) (data : bytes),
      BufWriter.err this = None -> 0 <= BufWriter.usedBufferBytes this ->
      len data <= BufWriter.available this ->
      exists buf',
        BufWriter.write fuel this data
        = (Ok (len data),
           BufWriter.mk buf' (BufWriter.usedBufferBytes this + len data) None
                        (BufWriter.writer this) (BufWriter.sink_calls this))
        /\ len buf' = len (BufWriter.buf this)
        /\ take (Z.to_nat (BufWriter.usedBufferBytes this + len data)) buf'
           = take (Z.to_nat (BufWriter.usedBufferBytes this))
                  (BufWriter.buf this) ++ data) /\
  (forall (W E : Type) (Hw : WriterSync W E) (fuel : nat)
          (this : BufWriterSync.t W E) (data : bytes),
      BufWriterSync.err this = None ->
      0 <= BufWriterSync.usedBufferBytes this ->
      len data <= BufWriterSync.available this ->
      exists buf',
        BufWriterSync.writeSync fuel this data
        = (Ok (len data),
           BufWriterSync.mk buf'
             (BufWriterSync.usedBufferBytes this + len data) None
             (BufWriterSync.writer this) (BufWriterSync.sink_calls this))
        /\ len buf' = len (BufWriterSync.buf this)
        /\ take (Z.to_nat (BufWriterSync.usedBufferBytes this + len data))
                buf'
           = take (Z.to_nat (BufWriterSync.usedBufferBytes this))
                  (BufWriterSync.buf this) ++ data).
Proof.
  split; intros W E Hw fuel this data.
  - apply write_fits.
  - apply writeSync_fits.
Qed.

Lemma write_that_fits_is_buffered_witness :
  exists this',
    BufWriter.write 0 (BufWriter.mk [1; 2; 0; 0; 0] 2 None Stingy []) [3; 4]
    = (Ok 2, this') /\
    BufWriter.sink_calls this' = [] /\
    take 4 (BufWriter.buf this') = [1; 2; 3; 4].
Proof.
  destruct (proj1 write_that_fits_is_buffered stingy_sink unit _ 0%nat
              (BufWriter.mk [1; 2; 0; 0; 0] 2 None Stingy []) [3; 4])
    as (buf' & Hrun & _ & Htake).
  - reflexivity.
  - vm_compute. discriminate.
  - vm_compute. discriminate.
  - eexists. split; [exact Hrun|]. split; [reflexivity|exact Htake].
Defined.

(** ** io/bufio.ts: what [readLine] throws, and when it says [more] *)

Ltac reader_fields :=
  cbn [BufReader.r BufReader.w BufReader.buf BufReader.mem BufReader.eof
       BufReader.rd BufReader.with_mem BufReader.with_buf BufReader.with_rd
       BufReader.with_r BufReader.with_w BufReader.with_eof fst snd] in *.

Section LineErrors.
Import BufReader.
Context {R : Type} `{Reader R}.

(** What [readSlice] throws is a [BufferFullError] with its payload, thrown
    with nothing left buffered, or a failure of [_fill], whose [partial]
    is undefined. *)
Lemma readSlice_loop_throw (fuel : nat) :
  forall (s s' : state R) (delim s0 : Z) (e : error),
    readSlice_loop fuel s delim s0 = (Throw e, s') ->
    (class e = BufferFullError /\ partial e <> None /\ r s' = w s' /\
     eof s' = false) \/
    partial e = None.
Proof.
  induction fuel as [|fuel IH]; intros s s' delim s0 e Hrun;
    cbn [readSlice_loop] in Hrun; [discriminate|].
  destruct (decide (_ >= 0)); [discriminate|].
  destruct (eof s) eqn:Heof; [destruct (decide (r s = w s)); discriminate|].
  destruct (decide (buffered s >= byteLength (buf s))).
  - reader_fields. unfold alloc in Hrun.
    inversion Hrun; subst; clear Hrun. reader_fields. left.
    split; [reflexivity|]. split; [discriminate|]. split; [reflexivity|].
    exact Heof.
  - destruct (_fill s) as [[[]|err|] s1] eqn:Hfill.
    + eapply IH. exact Hrun.
    + inversion Hrun; subst; clear Hrun. right. reflexivity.
    + discriminate.
Qed.

Lemma readLine_throw (fuel : nat) (s s' : state R) (e : error) :
  readLine fuel s = (Throw e, s') ->
  e = assertion
        "bufio: caught error from `readSlice()` without `partial` property" \/
  e = assertion "bufio: tried to rewind past start of buffer".
Proof.
  unfold readLine.
  destruct (readSlice fuel s LF) as [[[line|]|err|] s1] eqn:Hrun.
  - destruct (decide (byteLength line = 0)); discriminate.
  - discriminate.
  - apply readSlice_loop_throw in Hrun.
    destruct (partial err) as [p|] eqn:Hp.
    + destruct Hrun as [(Hclass & _)|Hnone]; [|congruence].
      destruct (decide (class err <> BufferFullError)); [congruence|].
      case_decide; [|discriminate].
      destruct (decide (r s1 > 0)); [discriminate|].
      intros [= <- <-]. right. reflexivity.
    + intros [= <- <-]. left. reflexivity.
  - discriminate.
Qed.

(** X14: when [readLine] answers [more = true], the end of the stream has
    not been seen and the line is the whole internal buffer as it was, the
    reader having nothing left buffered; or it is that buffer without its
    last byte, when that byte is a CR, which alone stays buffered for the
    next call. *)
Theorem readLine_more_is_a_full_buffer (fuel : nat) (s s' : state R)
  (line : u8) :
  window_ok (mem s) (buf s) ->
  readLine fuel s = (Ok (Some (line, true)), s') ->
  eof s' = false /\
  ((line = buf s /\ buffered s' = 0) \/
   (line = u8_subarray (buf s) 0 (size s - 1) /\
    at_ (contents (mem s') (buf s)) (size s - 1) = Some CR /\
    buffered s' = 1)).
Proof.
  intros Hwin. unfold readLine.
  destruct (readSlice fuel s LF) as [[[v|]|err|] s1] eqn:Hrun.
  - destruct (decide (byteLength v = 0)); discriminate.
  - discriminate.
  - pose proof (readSlice_loop_throw _ _ _ _ _ _ Hrun) as Hthrow.
    destruct (partial err) as [p|] eqn:Hp; [|discriminate].
    destruct Hthrow as [(Hclass & _ & Hrw & Heof)|Hnone]; [|congruence].
    destruct (readSlice_loop_full _ _ _ _ _ _ Hwin Hrun Hclass) as (Hpay & _).
    assert (p = buf s) as -> by congruence.
    destruct (decide (class err <> BufferFullError)); [congruence|].
    unfold buffered, size. case_decide as Hcr.
    + destruct (decide (r s1 > 0)); [|discriminate].
      reader_fields. rewrite Heof. intros [= <- <-]. reader_fields.
      split; [exact Heof|]. right.
      split; [reflexivity|]. split; [apply Hcr|lia].
    + rewrite Heof. intros [= <- <-].
      split; [exact Heof|]. left. split; [reflexivity|lia].
  - discriminate.
Qed.

End LineErrors.

(** X13: [readLine] passes on no exception of [readSlice]: a failure of
    the underlying [_fill] (a source that makes no progress, a negative
    read count) reaches [readLine] without a [partial] property and comes
    out as the assertion failure about that property; the only other
    exception of [readLine] is the assertion about rewinding. *)
Theorem readLine_throws_assertions_only {R : Type} `{Reader R}
  (fuel : nat) (s s' : BufReader.state R) (e : error) :
  BufReader.readLine fuel s = (Throw e, s') ->
  class e = AssertionError /\
  (message e
   = "bufio: caught error from `readSlice()` without `partial` property"%string
   \/ message e = "bufio: tried to rewind past start of buffer"%string).
Proof.
  intros Hrun. destruct (readLine_throw fuel s s' e Hrun) as [->| ->];
    (split; [reflexivity|]); [left|right]; reflexivity.
Qed.

Lemma readLine_throws_assertions_only_witness :
  exists e : error,
    fst (BufReader.readLine 2 (BufReader.new [] (replicate 100 []) 16))
    = Throw e /\
    class e = AssertionError.
Proof.
  destruct (BufReader.readLine 2 (BufReader.new [] (replicate 100 []) 16))
    as [a s'] eqn:Hrun.
  assert (Hthrow : exists e, a = Throw e)
    by (apply (f_equal fst) in Hrun; vm_compute in Hrun; subst a; eauto).
  destruct Hthrow as [e ->]. exists e. split; [reflexivity|].
  exact (proj1 (readLine_throws_assertions_only 2 _ s' e Hrun)).
Defined.

Lemma readLine_more_is_a_full_buffer_witness :
  let s := BufReader.new [] [replicate 15 97 ++ [13; 10]] 16 in
  exists (line : u8) (s' : BufReader.state fragments),
    BufReader.readLine 4 s = (Ok (Some (line, true)), s') /\
    line = u8_subarray (BufReader.buf s) 0 15 /\
    BufReader.buffered s' = 1.
Proof.
  intros s.
  destruct (BufReader.readLine 4 s) as [a s'] eqn:Hrun.
  assert (Ha : a = Ok (Some (u8_subarray (BufReader.buf s) 0 15, true)))
    by (apply (f_equal fst) in Hrun; vm_compute in Hrun; subst a;
        reflexivity).
  subst a.
  assert (Hwin : window_ok (BufReader.mem s) (BufReader.buf s))
    by (split; vm_compute; lia).
  destruct (readLine_more_is_a_full_buffer 4 s s' _ Hwin Hrun)
    as [_ [[Hline _]|(Hline & _ & Hbuf)]].
  - vm_compute in Hline. discriminate.
  - eexists. exists s'. split; [reflexivity|]. split; [reflexivity|exact Hbuf].
Defined.

(** ** io/bufio.ts: the buffered reader as a stream of bytes *)

Section Stream.
Import BufReader.

Lemma nonempty_concat_nil (rd : fragments) :
  nonempty_fragments rd -> List.concat rd = [] -> rd = [].
Proof.
  intros Hne Hnil. destruct rd as [|c cs]; [reflexivity|].
  apply Forall_cons in Hne as [Hc _]. simpl in Hnil.
  apply app_eq_nil in Hnil as [-> _]. congruence.
Qed.

(** [_fill] when the source has nothing left: the end of the stream is
    seen and the buffered bytes stay. *)
Lemma fill_at_end (C : Z) (s : state fragments) :
  reader_ok C s -> rd s = [] -> w s - r s < C ->
  exists s' : state fragments,
    _fill s = (Ok tt, s') /\ reader_ok C s' /\ buf s' = buf s /\
    eof s' = true /\ rd s' = [] /\
    buffered_bytes s' = buffered_bytes s.
Proof.
  intros Hok Hrd Hroom.
  destruct (slide_spec C s Hok) as (Hok1 & Hr1 & Hw1 & Hb1 & Hrd1 & He1 & HB1).
  pose proof Hok1 as (_ & HC1 & _).
  assert (Hfill : _fill s = (Ok tt, with_eof (with_rd (slide s) []) true)).
  { unfold _fill.
    destruct (decide (w (slide s) >= byteLength (buf (slide s)))); [lia|].
    change MAX_CONSECUTIVE_EMPTY_READS with (S 99). rewrite fill_loop_S.
    unfold source_read. rewrite Hrd1, Hrd. reflexivity. }
  eexists. split; [exact Hfill|].
  destruct (fill_ok fragments_bounded C _ _ _ Hok Hfill) as [Hok' _].
  split; [exact Hok'|]. split; [exact Hb1|].
  split; [reflexivity|]. split; [reflexivity|]. exact HB1.
Qed.

(** One [_fill] before the end of the stream has been seen: the bytes
    still to be read are the same, and either more of them are buffered or
    the end of the stream is seen. *)
Lemma fill_stream (C : Z) (s : state fragments) :
  stream_ok C s -> eof s = false -> w s - r s < C ->
  exists (s' : state fragments) (d : bytes),
    _fill s = (Ok tt, s') /\ stream_ok C s' /\ buf s' = buf s /\
    unread s' = unread s /\
    buffered_bytes s' = buffered_bytes s ++ d /\
    d ++ List.concat (rd s') = List.concat (rd s) /\
    ((eof s' = true /\ d = []) \/ (eof s' = false /\ d <> [])).
Proof.
  intros (HC & Hok & Hne & Hend) Heof Hroom.
  destruct (decide (List.concat (rd s) = [])) as [Hnil|Hmore].
  - pose proof (nonempty_concat_nil _ Hne Hnil) as Hrd.
    destruct (fill_at_end C s Hok Hrd Hroom)
      as (s' & Hfill & Hok' & Hb & He & Hrd' & HB).
    exists s', []. split; [exact Hfill|]. split.
    { split; [exact HC|]. split; [exact Hok'|]. rewrite Hrd'.
      split; [constructor|reflexivity]. }
    split; [exact Hb|]. unfold unread. rewrite HB, Hrd', Hrd, !app_nil_r.
    split; [reflexivity|]. split; [reflexivity|]. split; [reflexivity|].
    left. split; [exact He|reflexivity].
  - destruct (fill_fragment C s Hok Hne Hmore Hroom)
      as (s' & d & Hfill & Hok' & Hb & He & Hd & HB & Hcat & Hne').
    exists s', d. split; [exact Hfill|]. split.
    { split; [exact HC|]. split; [exact Hok'|]. split; [exact Hne'|].
      congruence. }
    split; [exact Hb|]. unfold unread. rewrite HB, <- Hcat, <- app_assoc.
    split; [reflexivity|]. split; [reflexivity|]. split; [reflexivity|].
    right. split; [congruence|exact Hd].
Qed.

Lemma buffered_empty {R : Type} (C : Z) (s : state R) :
  reader_ok C s -> (r s = w s <-> buffered_bytes s = []).
Proof.
  intros Hok. destruct (buffered_bytes_eq C s Hok) as [_ Hlen].
  pose proof Hok as ((Hr & Hrw & Hw) & _). split.
  - intros Heq. apply len_zero_nil. lia.
  - intros Hnil. rewrite Hnil in Hlen. unfold len in Hlen. simpl in Hlen. lia.
Qed.

(** The byte under the read cursor is the first buffered byte. *)
Lemma first_buffered {R : Type} (C : Z) (s : state R) (b : Z) (m : bytes) :
  reader_ok C s -> buffered_bytes s = b :: m ->
  at_ (contents (mem s) (buf s)) (r s) = Some b.
Proof.
  intros Hok HB. destruct (buffered_bytes_eq C s Hok) as [Heq _].
  pose proof Hok as ((Hr & Hrw & Hw) & _).
  rewrite HB in Heq. unfold at_. destruct (decide (0 <= r s)); [|lia].
  apply (f_equal (fun l => l !! 0%nat)) in Heq. simpl in Heq.
  destruct (decide (w s - r s = 0)) as [H0|Hn0].
  { rewrite H0 in Heq. simpl in Heq. discriminate. }
  rewrite lookup_take_lt in Heq by lia. rewrite lookup_drop in Heq.
  rewrite Nat.add_0_r in Heq. symmetry. exact Heq.
Qed.

Lemma readByte_buffered (C : Z) (fuel : nat) (s : state fragments)
  (b : Z) (m : bytes) :
  stream_ok C s -> buffered_bytes s = b :: m ->
  exists s' : state fragments,
    readByte fuel s = (Ok (Some (Some b)), s') /\ stream_ok C s' /\
    buffered_bytes s' = m /\ rd s' = rd s /\ eof s' = eof s.
Proof.
  intros (HC & Hok & Hne & Hend) HB.
  destruct (buffered_bytes_eq C s Hok) as [_ Hlen].
  assert (Hrw : r s <> w s).
  { intros Heq. apply (buffered_empty C s Hok) in Heq. congruence. }
  assert (Hone : 0 <= 1 <= w s - r s).
  { rewrite HB in Hlen. unfold len in Hlen. simpl in Hlen. lia. }
  destruct (buffered_after_advance C s 1 Hok Hone) as [Hok' HB'].
  exists (with_r s (r s + 1)). split.
  - destruct fuel; cbn [readByte]; (destruct (decide (r s = w s)); [lia|]);
      rewrite (first_buffered C s b m Hok HB); reflexivity.
  - split; [split; [exact HC|split; [exact Hok'|split; assumption]]|].
    rewrite HB', HB. repeat split.
Qed.

(** X15: over a source of non-empty fragments, [readByte()] answers the
    first of the bytes still to be read and leaves the others to be read,
    wherever the fragments are cut; when no byte is left it answers
    [null]. *)
Theorem readByte_reads_the_stream_in_order (C : Z) (fuel : nat)
  (s : state fragments) :
  stream_ok C s -> (2 <= fuel)%nat ->
  exists s' : state fragments,
    stream_ok C s' /\
    match unread s with
    | [] => readByte fuel s = (Ok None, s') /\ unread s' = []
    | b :: rest =>
        readByte fuel s = (Ok (Some (Some b)), s') /\ unread s' = rest
    end.
Proof.
  intros Hs Hfuel. pose proof Hs as (HC & Hok & Hne & Hend).
  destruct (buffered_bytes s) as [|b m] eqn:HB.
  - apply (buffered_empty C s Hok) in HB as Hrw.
    destruct fuel as [|fuel]; [lia|].
    destruct (eof s) eqn:Heof.
    + exists s. split; [exact Hs|]. unfold unread. rewrite HB, (Hend eq_refl).
      cbn [app List.concat readByte].
      destruct (decide (r s = w s)); [|lia]. rewrite Heof. auto.
    + destruct (fill_stream C s Hs Heof ltac:(lia))
        as (s1 & d & Hfill & Hs1 & _ & Hun & HB1 & Hcat & Hcase).
      rewrite HB in HB1. cbn [app] in HB1.
      assert (Hstep : readByte (S fuel) s = readByte fuel s1).
      { cbn [readByte]. destruct (decide (r s = w s)); [|lia].
        rewrite Heof, Hfill. reflexivity. }
      rewrite Hstep, <- Hun.
      destruct Hcase as [[Heof1 ->]|[Heof1 Hd]].
      * pose proof Hs1 as (_ & Hok1 & _ & Hend1).
        apply (buffered_empty C s1 Hok1) in HB1 as Hrw1.
        exists s1. split; [exact Hs1|]. unfold unread.
        rewrite HB1, (Hend1 Heof1). cbn [app List.concat].
        destruct fuel as [|fuel]; [lia|]. cbn [readByte].
        destruct (decide (r s1 = w s1)); [|lia]. rewrite Heof1. auto.
      * destruct d as [|b d]; [congruence|].
        destruct (readByte_buffered C fuel s1 b d Hs1 HB1)
          as (s' & Hrun & Hs' & HB' & Hrd' & _).
        exists s'. split; [exact Hs'|]. unfold unread at 1. rewrite HB1.
        cbn [app]. split; [exact Hrun|]. unfold unread.
        rewrite HB', Hrd'. reflexivity.
  - destruct (readByte_buffered C fuel s b m Hs HB)
      as (s' & Hrun & Hs' & HB' & Hrd' & _).
    exists s'. split; [exact Hs'|]. unfold unread at 1. rewrite HB.
    cbn [app]. split; [exact Hrun|]. unfold unread. rewrite HB', Hrd'.
    reflexivity.
Qed.

Lemma new_stream_ok (h : heap) (rd : fragments) (size : Z) :
  nonempty_fragments rd ->
  stream_ok (if decide (size < MIN_BUF_SIZE) then MIN_BUF_SIZE else size)
            (new h rd size) /\
  unread (new h rd size) = List.concat rd.
Proof.
  intros Hne. destruct (new_ok h rd size) as (Hok & HC & Hr & Hw & He & Hrd).
  split.
  - split; [unfold MIN_BUF_SIZE in *; lia|]. split; [exact Hok|].
    rewrite Hrd, He. split; [exact Hne|discriminate].
  - unfold unread. rewrite Hrd.
    replace (buffered_bytes (new h rd size)) with (@nil Z); [reflexivity|].
    symmetry. apply (buffered_empty _ _ Hok). lia.
Qed.

End Stream.

Lemma readByte_reads_the_stream_in_order_witness :
  exists s' : BufReader.state fragments,
    BufReader.readByte 2 (BufReader.new [] [[104]; [105; 33]] 16)
    = (Ok (Some (Some 104)), s') /\
    unread s' = [105; 33].
Proof.
  destruct (new_stream_ok [] [[104]; [105; 33]] 16) as [Hs Hun].
  { repeat constructor; discriminate. }
  destruct (readByte_reads_the_stream_in_order _ 2 _ Hs ltac:(lia))
    as (s' & _ & Hrun).
  rewrite Hun in Hrun. exists s'. exact Hrun.
Defined.

Section Peek.
Import BufReader.

Lemma peek_loop_stream (C n : Z) (fuel : nat) :
  forall s : state fragments,
    stream_ok C s ->
    (length (List.concat (rd s)) + 1 < fuel)%nat ->
    exists s1 : state fragments,
      peek_loop fuel s n (w s - r s) = (Ok (w s1 - r s1), s1) /\
      stream_ok C s1 /\ unread s1 = unread s /\
      ~ (w s1 - r s1 < n /\ w s1 - r s1 < C /\ eof s1 = false).
Proof.
  induction fuel as [|fuel IH]; intros s Hs Hfuel; [lia|].
  pose proof Hs as (HC & Hok & Hne & Hend).
  pose proof Hok as (_ & Hcap & _).
  cbn [peek_loop]. rewrite Hcap.
  destruct (decide (w s - r s < n /\ w s - r s < C /\ eof s = false))
    as [(Hn & Hroom & Heof)|Hstop].
  - destruct (fill_stream C s Hs Heof Hroom)
      as (s1 & d & Hfill & Hs1 & _ & Hun & _ & Hcat & Hcase).
    rewrite Hfill. destruct Hcase as [[Heof1 _]|[_ Hd]].
    + exists s1. pose proof Hs1 as (_ & (_ & Hcap1 & _) & _).
      split; [|split; [exact Hs1|split; [exact Hun|]]].
      * destruct fuel; cbn [peek_loop]; rewrite Hcap1;
          (destruct (decide (w s1 - r s1 < n /\ w s1 - r s1 < C /\
                             eof s1 = false)) as [(_ & _ & He)|_];
           [congruence|reflexivity]).
      * intros (_ & _ & He). congruence.
    + destruct (IH s1 Hs1) as (s2 & Hrun & Hs2 & Hun2 & Hstop2).
      { apply (f_equal length) in Hcat. rewrite length_app in Hcat.
        destruct d; [congruence|]. simpl in Hcat. lia. }
      exists s2. split; [exact Hrun|]. split; [exact Hs2|].
      split; [congruence|exact Hstop2].
  - exists s. split; [reflexivity|]. split; [exact Hs|].
    split; [reflexivity|exact Hstop].
Qed.

(** X16: over a source of non-empty fragments, [peek(n)] consumes nothing:
    the bytes still to be read are the same after it.  It answers [null]
    only when there are none, and otherwise the first [n] of them (all of
    them when the stream ends before that); it throws only when [n] is
    greater than the capacity and the stream still holds that many bytes,
    and it is then a [BufferFullError] whose payload is the first bytes of
    the stream, as many as the capacity. *)
Theorem peek_shows_without_consuming (C n : Z) (fuel : nat)
  (s : state fragments) :
  stream_ok C s -> 0 <= n ->
  (length (List.concat (rd s)) + 1 < fuel)%nat ->
  exists s' : state fragments,
    stream_ok C s' /\ unread s' = unread s /\
    ((peek fuel s n = (Ok None, s') /\ unread s = []) \/
     (exists v : u8,
        peek fuel s n = (Ok (Some v), s') /\
        contents (mem s') v = take (Z.to_nat n) (unread s) /\
        (n <= len (unread s) \/ unread s <> [])) \/
     (exists (e : error) (p : u8),
        peek fuel s n = (Throw e, s') /\ class e = BufferFullError /\
        partial e = Some p /\
        contents (mem s') p = take (Z.to_nat C) (unread s) /\
        C < n /\ C <= len (unread s))).
Proof.
  intros Hs Hn Hfuel.
  destruct (peek_loop_stream C n fuel s Hs Hfuel)
    as (s1 & Hloop & Hs1 & Hun & Hstop).
  exists s1. split; [exact Hs1|]. split; [exact Hun|].
  pose proof Hs1 as (HC & Hok1 & _ & Hend1).
  pose proof Hok1 as ((Hr & Hrw & Hw) & Hcap & _).
  destruct (buffered_bytes_eq C s1 Hok1) as [_ Hlen].
  unfold peek. destruct (decide (n < 0)); [lia|]. rewrite Hloop.
  rewrite <- Hun. unfold unread.
  assert (Hall : contents (mem s1) (u8_subarray (buf s1) (r s1) (w s1))
                 = buffered_bytes s1).
  { replace (w s1) with (r s1 + (w s1 - r s1)) at 1 by lia.
    rewrite (slice_bytes C s1 (w s1 - r s1) Hok1) by lia.
    apply take_ge. unfold len in Hlen. lia. }
  destruct (decide (w s1 - r s1 = 0 /\ eof s1 = true)) as [[H0 He]|Hsome].
  { left. split; [reflexivity|]. rewrite (Hend1 He).
    rewrite (len_zero_nil (buffered_bytes s1)) by lia. reflexivity. }
  destruct (decide (w s1 - r s1 < n /\ eof s1 = true)) as [[Hlt He]|Hfull].
  { right. left. eexists. split; [reflexivity|].
    rewrite (Hend1 He). cbn [List.concat]. rewrite app_nil_r.
    rewrite (slice_bytes C s1 (w s1 - r s1) Hok1) by lia.
    split.
    - rewrite !take_ge by (unfold len in Hlen; lia). reflexivity.
    - right. intros Hnil. rewrite Hnil in Hlen. unfold len in Hlen.
      simpl in Hlen. apply Hsome. split; [lia|exact He]. }
  destruct (decide (w s1 - r s1 < n)) as [Hlt|Hge].
  - assert (Heof : eof s1 = false)
      by (destruct (eof s1); [exfalso; apply Hfull; auto|reflexivity]).
    assert (Hfilled : w s1 - r s1 = C)
      by (destruct (decide (w s1 - r s1 < C));
          [exfalso; apply Hstop; auto|lia]).
    right. right. eexists. eexists. split; [reflexivity|].
    split; [reflexivity|]. split; [reflexivity|]. rewrite Hall.
    split; [|split; [lia|rewrite len_app; pose proof (len_nonneg
                                        (List.concat (rd s1))); lia]].
    symmetry. rewrite take_app_le by (unfold len in Hlen; lia).
    apply take_ge. unfold len in Hlen. lia.
  - right. left. eexists. split; [reflexivity|].
    rewrite (slice_bytes C s1 n Hok1) by lia.
    split.
    + rewrite take_app_le by (unfold len in Hlen; lia). reflexivity.
    + left. rewrite len_app. pose proof (len_nonneg (List.concat (rd s1))).
      lia.
Qed.

End Peek.

Lemma peek_shows_without_consuming_witness :
  exists (v : u8) (s' : BufReader.state fragments),
    BufReader.peek 8 (BufReader.new [] [[1]; [2; 3]; [4]] 16) 3
    = (Ok (Some v), s') /\
    contents (BufReader.mem s') v = [1; 2; 3] /\
    unread s' = [1; 2; 3; 4].
Proof.
  destruct (new_stream_ok [] [[1]; [2; 3]; [4]] 16) as [Hs Hun].
  { repeat constructor; discriminate. }
  destruct (peek_shows_without_consuming _ 3 8 _ Hs ltac:(lia))
    as (s' & _ & Hun' & Hcase).
  { vm_compute. lia. }
  rewrite Hun in Hun', Hcase.
  destruct Hcase as [[Hrun _]|[(v & Hrun & Hv & _)|(e & p & Hrun & _)]].
  - apply (f_equal fst) in Hrun. vm_compute in Hrun. discriminate.
  - exists v, s'. split; [exact Hrun|]. split; [exact Hv|exact Hun'].
  - apply (f_equal fst) in Hrun. vm_compute in Hrun. discriminate.
Defined.

(** ** io/bufio.ts: [read] and [readFull] into an array of the caller *)

Section ReadInto.
Import BufReader.

Lemma contents_store_ne (h : heap) (v v' : u8) (d : bytes) :
  base v <> base v' -> contents (store h v d) v' = contents h v'.
Proof.
  intros Hne. unfold contents, store. rewrite list_lookup_total_alter.
  destruct (decide (base v = base v' /\ (base v < length h)%nat))
    as [[He _]|_]; [congruence|reflexivity].
Qed.

(** Storing [d] through the window that starts [k] bytes into [p]. *)
Lemma contents_store_window (h : heap) (p : u8) (k : Z) (d : bytes) :
  window_ok h p -> 0 <= k <= byteLength p -> len d <= byteLength p - k ->
  contents (store h (u8_subarray_from p k) d) p
  = take (Z.to_nat k) (contents h p) ++ d
      ++ drop (Z.to_nat (k + len d)) (contents h p).
Proof.
  intros Hwin Hk Hd. rewrite contents_store_from by assumption.
  pose proof (len_contents h p Hwin) as Hlen.
  rewrite deposit_fits by (rewrite length_drop; unfold len in *; lia).
  rewrite drop_drop. do 3 f_equal. unfold len. lia.
Qed.

Lemma sub_window (h : heap) (p : u8) (k : Z) :
  window_ok h p -> 0 <= k <= byteLength p ->
  let q := u8_subarray_from p k in
  window_ok h q /\ base q = base p /\ byteLength q = byteLength p - k /\
  contents h q = drop (Z.to_nat k) (contents h p).
Proof.
  intros Hwin Hk q. unfold q, u8_subarray_from.
  split; [apply window_ok_subarray; exact Hwin|].
  split; [reflexivity|]. split; [apply byteLength_subarray; lia|].
  rewrite contents_subarray by exact Hwin.
  rewrite <- (len_contents h p Hwin). apply subarray_suffix. lia.
Qed.

(** The state of the reader seen through a store that has the same bytes
    in the internal buffer. *)
Lemma reader_ok_store (C : Z) (s : state fragments) (v : u8) (d : bytes) :
  reader_ok C s -> reader_ok C (with_mem s (store (mem s) v d)).
Proof.
  intros ((Hr & Hrw & Hw) & Hcap & Hwin).
  split; [split; [|split]|split]; reader_fields; try assumption.
  apply store_window_ok. exact Hwin.
Qed.

Lemma buffered_store_ne (s : state fragments) (v : u8) (d : bytes) :
  base v <> base (buf s) ->
  buffered_bytes (with_mem s (store (mem s) v d)) = buffered_bytes s.
Proof.
  intros Hne. unfold buffered_bytes. reader_fields.
  rewrite contents_store_ne by exact Hne. reflexivity.
Qed.

Lemma source_bytes (C : Z) (s : state fragments) :
  reader_ok C s ->
  contents (mem s) (u8_subarray (buf s) (r s) (w s)) = buffered_bytes s.
Proof.
  intros (_ & _ & Hwin). unfold buffered_bytes.
  apply contents_subarray. exact Hwin.
Qed.

(** The end of [read]: as many of the buffered bytes as fit go to the
    window that starts [k] bytes into [p]. *)
Lemma read_copy_stream (C : Z) (s : state fragments) (p : u8) (k : Z) :
  reader_ok C s -> window_ok (mem s) p -> base p <> base (buf s) ->
  0 <= k < byteLength p -> buffered_bytes s <> [] ->
  let n := Z.min (len (buffered_bytes s)) (byteLength p - k) in
  exists s' : state fragments,
    read_copy s (u8_subarray_from p k) = (Ok (Some n), s') /\
    reader_ok C s' /\ buf s' = buf s /\ rd s' = rd s /\ eof s' = eof s /\
    window_ok (mem s') p /\
    contents (mem s') p
    = take (Z.to_nat k) (contents (mem s) p)
        ++ take (Z.to_nat n) (buffered_bytes s)
        ++ drop (Z.to_nat (k + n)) (contents (mem s) p) /\
    buffered_bytes s' = drop (Z.to_nat n) (buffered_bytes s).
Proof.
  intros Hok Hwin Hbase Hk HB n.
  destruct (sub_window (mem s) p k Hwin ltac:(lia))
    as (Hwq & Hbq & Hlq & Hcq).
  set (q := u8_subarray_from p k) in *.
  set (B := buffered_bytes s) in *.
  set (X := contents (mem s) p) in *.
  pose proof (len_contents _ _ Hwin) as HlenX. fold X in HlenX.
  pose proof (len_contents _ _ Hwq) as Hlenq.
  destruct (buffered_bytes_eq C s Hok) as [_ HlenB]. fold B in HlenB.
  pose proof Hok as ((Hr & Hrw & Hw) & Hcap & Hwb).
  assert (Hn : 1 <= n <= len B /\ n <= byteLength p - k).
  { unfold n. destruct B; [congruence|]. unfold len. simpl. lia. }
  unfold read_copy, copy_to. rewrite (source_bytes C s Hok). fold B.
  destruct (copy_into_buffer B (contents (mem s) q) 0)
    as (dst' & Hcopy & Hlen' & Htake); [pose proof (len_nonneg
                                          (contents (mem s) q)); lia|].
  rewrite Hlenq, Hlq, Z.sub_0_r in Hcopy, Htake. fold n in Hcopy, Htake.
  rewrite Hcopy. cbn [Z.to_nat take app] in Htake. rewrite Z.add_0_l in Htake.
  assert (Hdst : dst' = take (Z.to_nat n) B
                          ++ drop (Z.to_nat n) (contents (mem s) q)).
  { pose proof (copy_eq B (contents (mem s) q) 0) as Heq. cbv zeta in Heq.
    rewrite Hcopy in Heq. apply (f_equal fst) in Heq. cbn [fst] in Heq.
    replace (Z.to_nat (Z.max 0 (Z.min 0 (len (contents (mem s) q)))))
      with 0%nat in Heq by lia.
    cbn [take app] in Heq. rewrite Nat.sub_0_r, Nat.add_0_l in Heq.
    assert (Htk : take (length (contents (mem s) q)) B
                  = take (Z.to_nat n) B).
    { unfold n, len in *.
      destruct (decide (length B <= length (contents (mem s) q))%nat).
      - rewrite !take_ge by lia. reflexivity.
      - f_equal. lia. }
    rewrite Htk in Heq. rewrite Heq, length_take.
    replace (Z.to_nat n `min` length B)%nat with (Z.to_nat n)
      by (unfold len in *; lia).
    reflexivity. }
  set (s1 := with_mem s (store (mem s) q dst')).
  assert (Hok1 : reader_ok C s1) by (apply reader_ok_store; exact Hok).
  assert (HB1 : buffered_bytes s1 = B)
    by (apply buffered_store_ne; rewrite Hbq; exact Hbase).
  destruct (buffered_after_advance C s1 n Hok1) as [Hok' HB'].
  { unfold s1. reader_fields. lia. }
  exists (with_r s1 (r s1 + n)). split; [reflexivity|].
  split; [exact Hok'|]. split; [reflexivity|]. split; [reflexivity|].
  split; [reflexivity|]. reader_fields.
  split; [apply store_window_ok; exact Hwin|].
  split; [|rewrite HB', HB1; reflexivity].
  unfold s1, q. reader_fields.
  rewrite contents_store_window
    by (try exact Hwin; unfold len in *; lia).
  fold X. f_equal. rewrite Hdst, <- app_assoc. f_equal.
  rewrite Hcq. fold X. rewrite drop_drop.
  replace (Z.to_nat (k + len (take (Z.to_nat n) B
                                ++ drop (Z.to_nat k + Z.to_nat n) X)))
    with (length X).
  - rewrite drop_all, app_nil_r. f_equal. lia.
  - unfold len in *. rewrite length_app, length_take, length_drop. lia.
Qed.


(** [read] into the window that starts [k] bytes into [p]: the first of
    the bytes still to be read, at least one and as many as one pass
    delivers, or [null] when there is none. *)
Lemma read_stream (C : Z) (s : state fragments) (p : u8) (k : Z) :
  stream_ok C s -> window_ok (mem s) p -> base p <> base (buf s) ->
  0 <= k < byteLength p ->
  exists s' : state fragments,
    stream_ok C s' /\ buf s' = buf s /\ window_ok (mem s') p /\
    ((read s (u8_subarray_from p k) = (Ok None, s') /\
      unread s = [] /\ unread s' = [] /\
      contents (mem s') p = contents (mem s) p) \/
     (exists n : Z,
        read s (u8_subarray_from p k) = (Ok (Some n), s') /\
        1 <= n <= byteLength p - k /\ n <= len (unread s) /\
        contents (mem s') p
        = take (Z.to_nat k) (contents (mem s) p)
            ++ take (Z.to_nat n) (unread s)
            ++ drop (Z.to_nat (k + n)) (contents (mem s) p) /\
        unread s' = drop (Z.to_nat n) (unread s))).
Proof.
  intros Hs Hwin Hbase Hk. pose proof Hs as (HC & Hok & Hne & Hend).
  destruct (sub_window (mem s) p k Hwin ltac:(lia))
    as (Hwq & Hbq & Hlq & Hcq).
  set (q := u8_subarray_from p k) in *.
  pose proof Hok as ((Hr & Hrw & Hw) & Hcap & Hwb).
  unfold read. destruct (decide (byteLength q = 0)); [lia|].
  destruct (decide (r s = w s)) as [Hempty|Hdata].
  - pose proof (proj1 (buffered_empty C s Hok) Hempty) as HB.
    assert (Hun : unread s = List.concat (rd s))
      by (unfold unread; rewrite HB; reflexivity).
    destruct (decide (byteLength q >= byteLength (buf s))) as [Hbig|Hsmall].
    + (* straight from the source into the caller's array *)
      unfold source_read. destruct (rd s) as [|c cs] eqn:Hrd.
      * exists (with_rd s []). cbn [reader_read fragments_reader].
        split; [|split; [reflexivity|split; [exact Hwin|]]].
        { split; [exact HC|]. split; [exact Hok|]. reader_fields.
          split; [constructor|reflexivity]. }
        left. split; [reflexivity|]. split; [exact Hun|].
        split; [|reflexivity]. unfold unread. reader_fields.
        change (buffered_bytes (with_rd s [])) with (buffered_bytes s).
        rewrite HB. reflexivity.
      * apply Forall_cons in Hne as [Hc Hcs].
        destruct (fragments_read_some c cs (byteLength q) Hc ltac:(lia))
          as (d & rd' & Hread & Hd & Hdne & Hcat & Hne').
        rewrite Hread.
        assert (Hlen_d : 1 <= len d <= byteLength q).
        { split; [destruct d; [congruence|unfold len; simpl; lia]|].
          rewrite Hd. unfold len. rewrite length_take. lia. }
        destruct (decide (len d >= 0)); [|lia].
        set (s1 := with_rd (with_mem s (store (mem s) q d)) rd').
        assert (Hok1 : reader_ok C s1)
          by (apply (reader_ok_store C s q d Hok)).
        exists s1. split; [|split; [reflexivity|split]].
        { split; [exact HC|]. split; [exact Hok1|]. unfold s1. reader_fields.
          split; [exact (Hne' Hcs)|]. intros He.
          specialize (Hend He). discriminate. }
        { apply store_window_ok. exact Hwin. }
        right. exists (len d). split; [reflexivity|].
        split; [lia|]. rewrite Hun. cbn [List.concat]. rewrite <- Hcat.
        split; [rewrite len_app; pose proof (len_nonneg (List.concat rd'));
                lia|].
        split.
        -- unfold s1, q. reader_fields.
           rewrite contents_store_window by (try exact Hwin; lia).
           do 2 f_equal. symmetry. apply take_app_length'. unfold len. lia.
        -- unfold unread.
           replace (buffered_bytes s1) with (@nil Z).
           ++ unfold s1. reader_fields. symmetry.
              apply drop_app_length'. unfold len. lia.
           ++ symmetry. apply (buffered_empty C s1 Hok1). exact Hempty.
    + (* through the internal buffer *)
      set (s0 := with_w (with_r s 0) 0).
      assert (Hok0 : reader_ok C s0).
      { split; [split; [|split]|split]; unfold s0; reader_fields;
          try assumption; lia. }
      unfold source_read. change (rd s0) with (rd s).
      change (buf s0) with (buf s). rewrite Hcap.
      destruct (rd s) as [|c cs] eqn:Hrd.
      * exists (with_rd s0 []). cbn [reader_read fragments_reader].
        split; [|split; [reflexivity|split; [exact Hwin|]]].
        { split; [exact HC|]. split; [exact Hok0|]. reader_fields.
          split; [constructor|reflexivity]. }
        left. split; [reflexivity|]. split; [exact Hun|].
        split; [|reflexivity]. unfold unread. reader_fields.
        replace (buffered_bytes (with_rd s0 [])) with (@nil Z);
          [reflexivity|].
        symmetry. apply (buffered_empty C _ Hok0). reflexivity.
      * apply Forall_cons in Hne as [Hc Hcs].
        destruct (fragments_read_some c cs C Hc ltac:(lia))
          as (d & rd' & Hread & Hd & Hdne & Hcat & Hne').
        rewrite Hread.
        assert (Hlen_d : 1 <= len d <= C).
        { split; [destruct d; [congruence|unfold len; simpl; lia]|].
          rewrite Hd. unfold len. rewrite length_take. lia. }
        destruct (decide (len d = 0)); [lia|].
        destruct (decide (len d >= 0)); [|lia].
        set (s2 := with_w (with_rd (with_mem s0 (store (mem s0) (buf s0) d))
                             rd') (w s0 + len d)).
        change (read_copy
                  (with_w (with_rd (with_mem s0 (store (mem s0) (buf s) d))
                             rd')
                     (w (with_rd (with_mem s0 (store (mem s0) (buf s) d)) rd')
                      + len d)) q)
          with (read_copy s2 q).
        assert (Hok2 : reader_ok C s2).
        { split; [split; [|split]|split]; unfold s2, s0; reader_fields;
            try assumption; try lia.
          apply store_window_ok. exact Hwb. }
        assert (HB2 : buffered_bytes s2 = d).
        { rewrite (proj1 (buffered_bytes_eq C s2 Hok2)). unfold s2, s0.
          reader_fields. rewrite contents_store_whole by exact Hwb.
          pose proof (len_contents _ _ Hwb) as Hlb.
          rewrite deposit_fits by (unfold len in *; lia).
          rewrite Z.add_0_l, Z.sub_0_r. cbn [Z.to_nat drop].
          apply take_app_length'. unfold len. lia. }
        assert (Hwin2 : window_ok (mem s2) p)
          by (apply store_window_ok; exact Hwin).
        assert (Hp2 : contents (mem s2) p = contents (mem s) p).
        { unfold s2, s0. reader_fields. apply contents_store_ne.
          congruence. }
        destruct (read_copy_stream C s2 p k Hok2 Hwin2 Hbase Hk)
          as (s' & Hrun & Hok' & Hb' & Hrd' & He' & Hwin' & Hp' & HB').
        { rewrite HB2. exact Hdne. }
        fold q in Hrun. rewrite HB2 in Hrun, Hp', HB'. rewrite Hp2 in Hp'.
        set (cnt := Z.min (len d) (byteLength p - k)) in *.
        exists s'. split; [|split; [exact Hb'|split; [exact Hwin'|]]].
        { split; [exact HC|]. split; [exact Hok'|]. rewrite Hrd', He'.
          unfold s2. reader_fields. split; [exact (Hne' Hcs)|].
          intros He. specialize (Hend He). discriminate. }
        right. exists cnt. split; [exact Hrun|]. split; [lia|].
        rewrite Hun. cbn [List.concat]. rewrite <- Hcat.
        split; [rewrite len_app; pose proof (len_nonneg (List.concat rd'));
                lia|].
        split.
        -- rewrite Hp'. do 2 f_equal. symmetry. apply take_app_le.
           unfold len in *. lia.
        -- unfold unread. rewrite HB', Hrd'. unfold s2. reader_fields.
           symmetry. apply drop_app_le. unfold len in *. lia.
  - assert (HB : buffered_bytes s <> []).
    { intros Hnil. apply Hdata. apply (buffered_empty C s Hok). exact Hnil. }
    destruct (read_copy_stream C s p k Hok Hwin Hbase Hk HB)
      as (s' & Hrun & Hok' & Hb' & Hrd' & He' & Hwin' & Hp' & HB').
    fold q in Hrun.
    set (cnt := Z.min (len (buffered_bytes s)) (byteLength p - k)) in *.
    assert (Hn : 1 <= cnt <= len (buffered_bytes s) /\
                 cnt <= byteLength p - k).
    { unfold cnt. destruct (buffered_bytes s); [congruence|].
      unfold len. simpl. lia. }
    exists s'. split; [|split; [exact Hb'|split; [exact Hwin'|]]].
    { split; [exact HC|]. split; [exact Hok'|]. rewrite Hrd', He'.
      split; assumption. }
    right. exists cnt. split; [exact Hrun|]. split; [lia|]. unfold unread.
    split; [rewrite len_app; pose proof (len_nonneg (List.concat (rd s)));
            lia|].
    split.
    + rewrite Hp'. do 2 f_equal. symmetry. apply take_app_le.
      unfold len in *. lia.
    + rewrite HB', Hrd'. symmetry. apply drop_app_le. unfold len in *. lia.
Qed.

End ReadInto.

Section ReadFull.
Import BufReader.

Lemma take_take_drop (u : bytes) (n m : nat) :
  take n u ++ take m (drop n u) = take (n + m) u.
Proof.
  rewrite <- (take_drop n u) at 3.
  destruct (decide (n <= length u)%nat) as [Hle|Hgt].
  - rewrite take_app_ge by (rewrite length_take; lia).
    rewrite length_take. do 2 f_equal. lia.
  - rewrite drop_ge by lia. rewrite take_nil, !app_nil_r.
    rewrite take_take. f_equal. lia.
Qed.

Lemma readFull_loop_stream (C : Z) (p : u8) (fuel : nat) :
  forall (s : state fragments) (k : Z),
    stream_ok C s -> window_ok (mem s) p -> base p <> base (buf s) ->
    0 <= k <= byteLength p -> byteLength p - k <= Z.of_nat fuel ->
    let u := unread s in
    let X := contents (mem s) p in
    let need := byteLength p - k in
    exists s' : state fragments,
      stream_ok C s' /\ window_ok (mem s') p /\
      ((need <= len u /\
        readFull_loop fuel s p k = (Ok (Some p), s') /\
        contents (mem s') p
        = take (Z.to_nat k) X ++ take (Z.to_nat need) u /\
        unread s' = drop (Z.to_nat need) u) \/
       (len u < need /\ k = 0 /\ u = [] /\
        readFull_loop fuel s p k = (Ok None, s') /\ unread s' = []) \/
       (len u < need /\ (0 < k \/ u <> []) /\
        readFull_loop fuel s p k
        = (Throw (mkError PartialReadError
                    "Encountered UnexpectedEof, data only partially read"
                    (Some (u8_subarray p 0 (k + len u)))), s') /\
        take (Z.to_nat (k + len u)) (contents (mem s') p)
        = take (Z.to_nat k) X ++ u /\
        unread s' = [])).
Proof.
  induction fuel as [|fuel IH]; intros s k Hs Hwin Hbase Hk Hfuel u X need.
  - assert (k = byteLength p) as Hfull by lia.
    exists s. split; [exact Hs|]. split; [exact Hwin|]. left.
    pose proof (len_nonneg u). split; [unfold need; lia|].
    cbn [readFull_loop]. destruct (decide (k < byteLength p)); [lia|].
    split; [reflexivity|]. unfold need.
    replace (Z.to_nat (byteLength p - k)) with 0%nat by lia.
    rewrite take_0, drop_0, app_nil_r. split; [|reflexivity].
    symmetry. apply take_ge. pose proof (len_contents _ _ Hwin) as Hl.
    unfold X, len in *. lia.
  - cbn [readFull_loop].
    destruct (decide (k < byteLength p)) as [Hlt|Hfull].
    + destruct (read_stream C s p k Hs Hwin Hbase ltac:(lia))
        as (s1 & Hs1 & Hb1 & Hwin1 &
            [(Hrun & Hu & Hu1 & Hp1)|(cnt & Hrun & Hcnt & Hle & Hp1 & Hu1)]).
      * rewrite Hrun. fold u in Hu. exists s1. split; [exact Hs1|].
        split; [exact Hwin1|]. right.
        destruct (decide (k = 0)) as [Hk0|Hkpos].
        -- left. rewrite Hu. unfold need, len. simpl.
           repeat split; try assumption; try reflexivity; lia.
        -- right. rewrite Hu. unfold need, len. simpl. rewrite Z.add_0_r.
           split; [lia|]. split; [left; lia|]. split; [reflexivity|].
           rewrite app_nil_r, Hp1. split; [reflexivity|exact Hu1].
      * rewrite Hrun. fold u X in Hle, Hp1, Hu1.
        pose proof (len_contents _ _ Hwin) as HlX. fold X in HlX.
        destruct (IH s1 (k + cnt) Hs1 Hwin1 ltac:(congruence) ltac:(lia)
                    ltac:(lia)) as (s' & Hs' & Hwin' & Hcase).
        cbv zeta in Hcase. rewrite Hu1, Hp1 in Hcase.
        assert (Hlu1 : len (drop (Z.to_nat cnt) u) = len u - cnt)
          by (unfold len in *; rewrite length_drop; lia).
        rewrite Hlu1 in Hcase.
        assert (Hpre : take (Z.to_nat (k + cnt))
                         (take (Z.to_nat k) X ++ take (Z.to_nat cnt) u
                            ++ drop (Z.to_nat (k + cnt)) X)
                       = take (Z.to_nat k) X ++ take (Z.to_nat cnt) u).
        { rewrite app_assoc. apply take_app_length'.
          rewrite length_app, !length_take. unfold len in *. lia. }
        rewrite Hpre in Hcase.
        exists s'. split; [exact Hs'|]. split; [exact Hwin'|].
        destruct Hcase as [(Hn & Hrun' & Hp' & Hu')|
                           [(_ & Hk0 & _)|(Hn & _ & Hrun' & Hp' & Hu')]].
        -- left. split; [unfold need; lia|]. split; [exact Hrun'|].
           split.
           ++ rewrite Hp', <- app_assoc. f_equal.
              rewrite take_take_drop. f_equal. unfold need. lia.
           ++ rewrite Hu', drop_drop. f_equal. unfold need. lia.
        -- lia.
        -- right. right. split; [unfold need; lia|].
           split; [right; intros Hnil; rewrite Hnil in Hle;
                   unfold len in Hle; simpl in Hle; lia|].
           replace (k + cnt + (len u - cnt)) with (k + len u) in Hrun', Hp'
             by lia.
           split; [exact Hrun'|]. split; [|exact Hu'].
           rewrite Hp', <- app_assoc, take_drop. reflexivity.
    + assert (k = byteLength p) as Hkp by lia.
      exists s. split; [exact Hs|]. split; [exact Hwin|]. left.
      pose proof (len_nonneg u). split; [unfold need; lia|].
      split; [reflexivity|]. unfold need.
      replace (Z.to_nat (byteLength p - k)) with 0%nat by lia.
      rewrite take_0, drop_0, app_nil_r. split; [|reflexivity].
      symmetry. apply take_ge. pose proof (len_contents _ _ Hwin) as Hl.
      unfold X, len in *. lia.
Qed.

End ReadFull.

(** X17: over a source of non-empty fragments, [read(p)] into an array of
    the caller that is not empty answers [null] when no byte is left to
    be read, and otherwise a count between one and the length of [p]: that
    many bytes, the first of those still to be read, are at the start of
    [p], and the others are left to be read.  On an empty array it answers
    [0] and touches nothing, whatever the source. *)
Theorem read_delivers_the_next_bytes :
  (forall (C : Z) (s : BufReader.state fragments) (p : u8),
      stream_ok C s -> window_ok (BufReader.mem s) p ->
      base p <> base (BufReader.buf s) -> 0 < byteLength p ->
      exists s' : BufReader.state fragments,
        stream_ok C s' /\
        ((BufReader.read s p = (Ok None, s') /\
          unread s = [] /\ unread s' = []) \/
         (exists n : Z,
            BufReader.read s p = (Ok (Some n), s') /\
            1 <= n <= byteLength p /\
            take (Z.to_nat n) (contents (BufReader.mem s') p)
            = take (Z.to_nat n) (unread s) /\
            len (take (Z.to_nat n) (unread s)) = n /\
            unread s' = drop (Z.to_nat n) (unread s)))) /\
  (forall (R : Type) (Hr : Reader R) (s : BufReader.state R) (p : u8),
      byteLength p = 0 -> BufReader.read s p = (Ok (Some 0), s)).
Proof.
  split.
  - intros C s p Hs Hwin Hbase Hlen.
    destruct (read_stream C s p 0 Hs Hwin Hbase ltac:(lia))
      as (s' & Hs' & _ & _ &
          [(Hrun & Hu & Hu' & _)|(n & Hrun & Hn & Hle & Hp & Hu')]);
      rewrite u8_subarray_from_0 in Hrun; exists s'; (split; [exact Hs'|]).
    + left. split; [exact Hrun|]. split; assumption.
    + right. exists n. split; [exact Hrun|]. split; [lia|].
      assert (Hl : len (take (Z.to_nat n) (unread s)) = n)
        by (unfold len in *; rewrite length_take; lia).
      split; [|split; [exact Hl|exact Hu']].
      rewrite Hp. change (Z.to_nat 0) with 0%nat. rewrite take_0.
      cbn [app]. apply take_app_length'. unfold len in Hl. lia.
  - intros R Hr s p Hlen. unfold BufReader.read.
    destruct (decide (byteLength p = 0)); [|lia]. rewrite Hlen. reflexivity.
Qed.

Lemma read_delivers_the_next_bytes_witness :
  let s := BufReader.new [[0; 0; 0; 0]] [[7; 8]; [9]] 16 in
  let p := U8 0 0 4 in
  exists s' : BufReader.state fragments,
    BufReader.read s p = (Ok (Some 2), s') /\
    take 2 (contents (BufReader.mem s') p) = [7; 8] /\
    unread s' = [9].
Proof.
  intros s p.
  destruct (new_stream_ok [[0; 0; 0; 0]] [[7; 8]; [9]] 16) as [Hs Hun].
  { repeat constructor; discriminate. }
  fold s in Hs, Hun.
  destruct (proj1 read_delivers_the_next_bytes _ s p Hs)
    as (s' & _ & [(Hrun & _)|(n & Hrun & _ & Hp & _ & Hu')]).
  - split; vm_compute; lia.
  - vm_compute. discriminate.
  - vm_compute. reflexivity.
  - apply (f_equal fst) in Hrun. vm_compute in Hrun. discriminate.
  - assert (Hn : n = 2)
      by (apply (f_equal fst) in Hrun; vm_compute in Hrun; congruence).
    subst n. rewrite Hun in Hp, Hu'. exists s'.
    split; [exact Hrun|]. split; [exact Hp|exact Hu'].
Defined.

(** X18: over a source of non-empty fragments, [readFull(p)] into an array
    of the caller answers [p] filled with the next [p.length] bytes when
    the stream holds that many, the rest being left to be read; [null]
    when no byte is left (and [p] is not empty); and otherwise throws a
    [PartialReadError] whose [partial] is the part of [p] that holds all
    the bytes that were left. *)
Theorem readFull_fills_or_reports (C : Z) (fuel : nat)
  (s : BufReader.state fragments) (p : u8) :
  stream_ok C s -> window_ok (BufReader.mem s) p ->
  base p <> base (BufReader.buf s) -> byteLength p <= Z.of_nat fuel ->
  let u := unread s in
  exists s' : BufReader.state fragments,
    stream_ok C s' /\
    ((byteLength p <= len u /\
      BufReader.readFull fuel s p = (Ok (Some p), s') /\
      contents (BufReader.mem s') p = take (Z.to_nat (byteLength p)) u /\
      unread s' = drop (Z.to_nat (byteLength p)) u) \/
     (0 < byteLength p /\ u = [] /\
      BufReader.readFull fuel s p = (Ok None, s') /\ unread s' = []) \/
     (u <> [] /\ len u < byteLength p /\
      exists partial : u8,
        BufReader.readFull fuel s p
        = (Throw (mkError PartialReadError
                    "Encountered UnexpectedEof, data only partially read"
                    (Some partial)), s') /\
        partial = u8_subarray p 0 (len u) /\
        contents (BufReader.mem s') partial = u /\
        unread s' = [])).
Proof.
  intros Hs Hwin Hbase Hfuel u.
  pose proof (byteLength_nonneg p) as Hp0.
  destruct (readFull_loop_stream C p fuel s 0 Hs Hwin Hbase ltac:(lia)
              ltac:(lia)) as (s' & Hs' & Hwin' & Hcase).
  cbv zeta in Hcase. fold u in Hcase.
  rewrite Z.sub_0_r in Hcase. change (Z.to_nat 0) with 0%nat in Hcase.
  rewrite !take_0 in Hcase. cbn [app] in Hcase.
  rewrite Z.add_0_l in Hcase.
  exists s'. split; [exact Hs'|]. unfold BufReader.readFull.
  destruct Hcase as [Hfull|[(Hlt & _ & Hu & Hrun & Hu')|
                            (Hlt & [Hk|Hu] & Hrun & Hp & Hu')]].
  - left. exact Hfull.
  - right. left. rewrite Hu in Hlt. unfold len in Hlt. simpl in Hlt.
    repeat split; assumption.
  - lia.
  - right. right. split; [exact Hu|]. split; [exact Hlt|].
    eexists. split; [exact Hrun|]. split; [reflexivity|].
    split; [|exact Hu'].
    rewrite contents_subarray by exact Hwin'.
    rewrite subarray_prefix by apply len_nonneg. exact Hp.
Qed.

Lemma readFull_fills_or_reports_witness :
  let s := BufReader.new [[0; 0; 0; 0]] [[7; 8]; [9]] 16 in
  let p := U8 0 0 4 in
  exists s' : BufReader.state fragments,
    BufReader.readFull 4 s p
    = (Throw (mkError PartialReadError
                "Encountered UnexpectedEof, data only partially read"
                (Some (u8_subarray p 0 3))), s') /\
    contents (BufReader.mem s') (u8_subarray p 0 3) = [7; 8; 9].
Proof.
  intros s p.
  destruct (new_stream_ok [[0; 0; 0; 0]] [[7; 8]; [9]] 16) as [Hs Hun].
  { repeat constructor; discriminate. }
  fold s in Hs, Hun.
  destruct (readFull_fills_or_reports _ 4 s p Hs) as (s' & _ & Hcase).
  - split; vm_compute; lia.
  - vm_compute. discriminate.
  - vm_compute. discriminate.
  - rewrite Hun in Hcase.
    destruct Hcase as [(Hle & _)|[(_ & Hnil & _)|
                                  (_ & _ & q & Hrun & Hq & Hc & _)]].
    + vm_compute in Hle. exfalso. apply Hle. reflexivity.
    + discriminate.
    + subst q. exists s'. split; [exact Hrun|exact Hc].
Defined.

(** ** io/bufio.ts: [readSlice] over a stream, whatever it holds *)

Section Slices.
Import BufReader.

Lemma readSlice_loop_stream (C delim : Z) (fuel : nat) :
  forall (s : state fragments) (s0 : Z),
    stream_ok C s -> 0 <= s0 <= w s - r s ->
    delim ∉ take (Z.to_nat s0) (buffered_bytes s) ->
    ((if eof s then 1 else length (List.concat (rd s)) + 2) <= fuel)%nat ->
    let u := unread s in
    let run := readSlice_loop fuel s delim s0 in
    exists s' : state fragments,
      stream_ok C s' /\
      ((exists (line rest : bytes) (v : u8),
          u = line ++ delim :: rest /\ (delim ∉ line) /\
          run = (Ok (Some v), s') /\
          contents (mem s') v = line ++ [delim] /\ unread s' = rest /\
          window_ok (mem s') v) \/
       (u = [] /\ run = (Ok None, s') /\ unread s' = []) \/
       (exists v : u8,
          u <> [] /\ (delim ∉ u) /\ run = (Ok (Some v), s') /\
          contents (mem s') v = u /\ unread s' = [] /\ eof s' = true /\
          window_ok (mem s') v) \/
       (exists (e : error) (p : u8),
          run = (Throw e, s') /\ class e = BufferFullError /\
          partial e = Some p /\
          contents (mem s') p = take (Z.to_nat C) u /\ C <= len u /\
          (delim ∉ take (Z.to_nat C) u) /\
          unread s' = drop (Z.to_nat C) u /\
          window_ok (mem s') p /\ byteLength p = C /\
          r s' = C /\ w s' = C /\ eof s' = false /\
          contents (mem s') (buf s') = take (Z.to_nat C) u)).
Proof.
  induction fuel as [|fuel IH]; intros s s0 Hs Hs0 Hno Hfuel u run.
  { destruct (eof s); lia. }
  pose proof Hs as (HC & Hok & Hne & Hend).
  pose proof Hok as ((Hr & Hrw & Hw) & Hcap & Hwin).
  destruct (buffered_bytes_eq C s Hok) as [_ HlenB].
  unfold run. cbn [readSlice_loop].
  rewrite (unsearched_bytes C s s0 Hok Hs0).
  set (B := buffered_bytes s) in *.
  assert (HB : B = take (Z.to_nat s0) B ++ drop (Z.to_nat s0) B)
    by (symmetry; apply take_drop).
  assert (Hls0 : len (take (Z.to_nat s0) B) = s0)
    by (unfold len in *; rewrite length_take; lia).
  destruct (decide (delim ∈ drop (Z.to_nat s0) B)) as [Hin|Hout].
  - (* the delimiter is buffered *)
    apply list_elem_of_split_l in Hin as (l1 & l2 & Hsplit & Hno1).
    rewrite Hsplit. unfold indexOf. rewrite indexOf_from_first by exact Hno1.
    pose proof (len_nonneg l1) as Hl1. pose proof (len_nonneg l2) as Hl2.
    destruct (decide (0 + len l1 >= 0)); [|lia].
    set (line := take (Z.to_nat s0) B ++ l1).
    assert (HBline : B = (line ++ [delim]) ++ l2).
    { unfold line. rewrite HB at 1. rewrite Hsplit, <- !app_assoc.
      reflexivity. }
    assert (Hlline : len line = s0 + len l1)
      by (unfold line; rewrite len_app; lia).
    assert (HlB : len B = len line + 1 + len l2).
    { rewrite HBline at 1. rewrite !len_app. unfold len. simpl length. lia. }
    replace (0 + len l1 + s0) with (len line) by lia.
    destruct (buffered_after_advance C s (len line + 1) Hok) as [Hok' HB'];
      [lia|].
    exists (with_r s (r s + (len line + 1))).
    split; [split; [exact HC|split; [exact Hok'|split; [exact Hne|]]];
               intros He; reader_fields;
               first [exact (Hend He)|exact (Hend eq_refl)|congruence
                     |change (eof s = true) in He; congruence]|].
    left. exists line, (l2 ++ List.concat (rd s)). eexists.
    split; [|split; [|split; [reflexivity|split; [|split]]]].
    + unfold u, unread. fold B. rewrite HBline at 1.
      rewrite <- !app_assoc. reflexivity.
    + unfold line. intros Hel. apply elem_of_app in Hel as [Hel|Hel];
        [exact (Hno Hel)|exact (Hno1 Hel)].
    + reader_fields.
      replace (r s + len line + 1) with (r s + (len line + 1)) by lia.
      rewrite (slice_bytes C s (len line + 1) Hok) by lia. fold B.
      rewrite HBline at 1. apply take_app_length'.
      rewrite length_app. unfold len. simpl. lia.
    + unfold unread. rewrite HB'. reader_fields. fold B. f_equal.
      rewrite HBline at 1. apply drop_app_length'.
      rewrite length_app. unfold len. simpl. lia.
    + reader_fields. apply window_ok_subarray. exact Hwin.
  - (* it is not *)
    unfold indexOf. rewrite indexOf_from_absent by exact Hout.
    destruct (decide (-1 >= 0)); [lia|].
    assert (HnoB : delim ∉ B).
    { rewrite HB. intros Hel. apply elem_of_app in Hel as [Hel|Hel];
        [exact (Hno Hel)|exact (Hout Hel)]. }
    destruct (eof s) eqn:Heof.
    + (* the end of the stream has been seen *)
      assert (Hu : u = B)
        by (unfold u, unread; rewrite (Hend eq_refl); apply app_nil_r).
      destruct (decide (r s = w s)) as [Hempty|Hdata].
      * exists s. split; [exact Hs|]. right. left.
        assert (B = []) as HBnil
          by (apply (buffered_empty C s Hok); exact Hempty).
        split; [congruence|]. split; [reflexivity|]. fold u. congruence.
      * destruct (buffered_after_advance C s (w s - r s) Hok) as [Hok' HB'];
          [lia|].
        replace (r s + (w s - r s)) with (w s) in Hok', HB' by lia.
        exists (with_r s (w s)).
        split; [split; [exact HC|split; [exact Hok'|split; [exact Hne|]]];
               intros He; reader_fields;
               first [exact (Hend He)|exact (Hend eq_refl)|congruence
                     |change (eof s = true) in He; congruence]|].
        right. right. left. eexists.
        assert (HBne : B <> []).
        { intros Hnil. apply Hdata. apply (buffered_empty C s Hok).
          exact Hnil. }
        split; [congruence|]. split; [congruence|].
        split; [reflexivity|].
        split; [|split; [|split; [exact Heof|]]];
          [| |reader_fields; apply window_ok_subarray; exact Hwin].
        -- reader_fields.
           replace (w s) with (r s + (w s - r s)) at 1 by lia.
           rewrite (slice_bytes C s (w s - r s) Hok) by lia. fold B.
           rewrite Hu. apply take_ge. unfold len in *. lia.
        -- unfold unread. rewrite HB'. reader_fields. fold B.
           rewrite (Hend eq_refl), app_nil_r.
           apply drop_ge. unfold len in *. lia.
    + unfold buffered. rewrite Hcap.
      destruct (decide (w s - r s >= C)) as [Hfull|Hroom].
      * (* the buffer is full *)
        assert (r s = 0 /\ w s = C) as [Hr0 HwC] by lia.
        pose proof (len_contents _ _ Hwin) as HlX.
        set (X := contents (mem s) (buf s)) in *.
        assert (HBX : B = X).
        { unfold B. rewrite (proj1 (buffered_bytes_eq C s Hok)). fold X.
          rewrite Hr0, HwC, Z.sub_0_r. cbn [Z.to_nat drop].
          apply take_ge. unfold len in *. lia. }
        unfold alloc. reader_fields. fold X.
        set (s' := with_buf (with_mem (with_r s (w s)) (mem s ++ [X]))
                     (U8 (length (mem s)) 0 (length X))).
        assert (Hok' : reader_ok C s').
        { pose proof (alloc_window_ok (mem s) X) as Hwa.
          unfold alloc in Hwa. cbn [fst snd] in Hwa.
          split; [split; [|split]|split]; unfold s'; reader_fields;
            try exact Hwa; unfold byteLength in *; cbn [extent];
            unfold len in *; lia. }
        exists s'.
        split; [split; [exact HC|split; [exact Hok'|split; [exact Hne|]]];
               intros He; reader_fields;
               first [exact (Hend He)|exact (Hend eq_refl)|congruence
                     |change (eof s = true) in He; congruence]|].
        right. right. right. eexists. eexists.
        split; [reflexivity|]. split; [reflexivity|]. split; [reflexivity|].
        assert (Htake : take (Z.to_nat C) u = B).
        { unfold u, unread. fold B. apply take_app_length'.
          unfold len in *. lia. }
        rewrite Htake. unfold s' at 1. reader_fields.
        assert (Hwold : window_ok (mem s ++ [X]) (buf s)).
        { destruct Hwin as [Hin Hfit]. split.
          - rewrite length_app. simpl. lia.
          - rewrite lookup_total_app_l by exact Hin. exact Hfit. }
        split; [|split; [|split; [exact HnoB|split;
                 [|split; [exact Hwold|split; [exact Hcap|split;
                    [exact HwC|split; [exact HwC|split; [exact Heof|]]]]]]]]].
        -- rewrite contents_alloc_old by apply Hwin. fold X. congruence.
        -- unfold u, unread. fold B. rewrite len_app.
           pose proof (len_nonneg (List.concat (rd s))). lia.
        -- unfold unread at 1.
           replace (buffered_bytes s') with (@nil Z).
           ++ unfold u, unread. fold B. symmetry.
              apply drop_app_length'. unfold len in *. lia.
           ++ symmetry. apply (buffered_empty C s' Hok'). reflexivity.
        -- unfold s'. reader_fields. rewrite contents_alloc_new.
           congruence.
      * (* more is read *)
        destruct (fill_stream C s Hs Heof ltac:(lia))
          as (s1 & d & Hfill & Hs1 & _ & Hun & HB1 & Hcat & Hcase).
        rewrite Hfill. fold B in HB1.
        pose proof Hs1 as (_ & Hok1 & _).
        destruct (buffered_bytes_eq C s1 Hok1) as [_ HlenB1].
        pose proof (len_nonneg d) as Hld.
        destruct (IH s1 (w s - r s) Hs1) as (s' & Hs' & Hres).
        -- rewrite <- HlenB1, HB1, len_app. lia.
        -- rewrite HB1. rewrite take_app_length'; [exact HnoB|].
           unfold len in *. lia.
        -- destruct Hcase as [[-> _]|[-> Hd]]; [lia|].
           apply (f_equal length) in Hcat. rewrite length_app in Hcat.
           destruct d; [congruence|]. simpl in Hcat. lia.
        -- cbv zeta in Hres. rewrite Hun in Hres. fold u in Hres.
           exists s'. split; [exact Hs'|exact Hres].
Qed.

End Slices.

Section FirstOccurrence.

Lemma first_occurrence_unique (x : Z) (l1 : bytes) :
  forall l1' l2 l2' : bytes,
    l1 ++ x :: l2 = l1' ++ x :: l2' -> x ∉ l1 -> x ∉ l1' ->
    l1 = l1' /\ l2 = l2'.
Proof.
  induction l1 as [|y l1 IH]; intros [|y' l1'] l2 l2' Heq Hno Hno';
    simpl in Heq.
  - inversion Heq. auto.
  - inversion Heq; subst. exfalso. apply Hno'. apply elem_of_cons. auto.
  - inversion Heq; subst. exfalso. apply Hno. apply elem_of_cons. auto.
  - inversion Heq; subst.
    apply not_elem_of_cons in Hno as [_ Hno].
    apply not_elem_of_cons in Hno' as [_ Hno'].
    destruct (IH _ _ _ H1 Hno Hno') as [-> ->]. auto.
Qed.

End FirstOccurrence.

(** X19: over a source of non-empty fragments, [readSlice(delim)] answers
    the next slice of the stream.  It answers the bytes up to and including
    the first delimiter and leaves what follows it to be read; or [null]
    when no byte is left; or, the end of the stream seen, all the bytes
    that were left, none of them the delimiter; or it throws a
    [BufferFullError] whose payload holds the first bytes of the stream, as
    many as the capacity and none of them the delimiter, the bytes after
    them being left to be read.  When the first delimiter is among the
    first bytes of the stream, as many as the capacity, the answer is the
    first of these. *)
Theorem readSlice_returns_the_next_slice (C delim : Z) (fuel : nat)
  (s : BufReader.state fragments) :
  stream_ok C s ->
  (length (List.concat (BufReader.rd s)) + 2 <= fuel)%nat ->
  let u := unread s in
  let run := BufReader.readSlice fuel s delim in
  (exists s' : BufReader.state fragments,
     stream_ok C s' /\
     ((exists (line rest : bytes) (v : u8),
         u = line ++ delim :: rest /\ (delim ∉ line) /\
         run = (Ok (Some v), s') /\
         contents (BufReader.mem s') v = line ++ [delim] /\
         unread s' = rest) \/
      (u = [] /\ run = (Ok None, s') /\ unread s' = []) \/
      (exists v : u8,
         u <> [] /\ (delim ∉ u) /\ run = (Ok (Some v), s') /\
         contents (BufReader.mem s') v = u /\ unread s' = [] /\
         BufReader.eof s' = true) \/
      (exists (e : error) (p : u8),
         run = (Throw e, s') /\ class e = BufferFullError /\
         partial e = Some p /\
         contents (BufReader.mem s') p = take (Z.to_nat C) u /\
         C <= len u /\ (delim ∉ take (Z.to_nat C) u) /\
         unread s' = drop (Z.to_nat C) u))) /\
  (forall line rest : bytes,
     u = line ++ delim :: rest -> (delim ∉ line) -> len line + 1 <= C ->
     exists (v : u8) (s' : BufReader.state fragments),
       run = (Ok (Some v), s') /\ stream_ok C s' /\
       contents (BufReader.mem s') v = line ++ [delim] /\
       unread s' = rest).
Proof.
  intros Hs Hfuel u run.
  assert (Hres := readSlice_loop_stream C delim fuel s 0 Hs).
  cbv zeta in Hres. fold u in Hres.
  change (BufReader.readSlice_loop fuel s delim 0) with run in Hres.
  destruct Hres as (s' & Hs' & Hcase).
  { pose proof Hs as (_ & ((? & ? & ?) & _) & _). lia. }
  { apply not_elem_of_nil. }
  { destruct (BufReader.eof s); lia. }
  split.
  { exists s'. split; [exact Hs'|].
    destruct Hcase as [(line & rest & v & Hu & Hno & Hrun & Hv & Hrest & _)|
                       [Hnil|[(v & Hne & Hout & Hrun & Hv & Hrest & He & _)|
                              (e & p & Hrun & Hcl & Hp & Hc & Hle & Hout
                               & Hrest & _)]]].
    - left. exists line, rest, v. auto.
    - right. left. exact Hnil.
    - right. right. left. exists v. auto 10.
    - right. right. right. exists e, p. auto 10. }
  intros line rest Hu Hno Hfit.
  destruct Hcase as [(line' & rest' & v & Hu' & Hno' & Hrun & Hv & Hrest & _)|
                     [(Hnil & _)|[(v & _ & Hout & _)|
                                  (e & p & _ & _ & _ & _ & _ & Hout & _)]]].
  - rewrite Hu in Hu'.
    destruct (first_occurrence_unique _ _ _ _ _ Hu' Hno Hno') as [<- <-].
    exists v, s'. split; [exact Hrun|]. split; [exact Hs'|].
    split; [exact Hv|exact Hrest].
  - rewrite Hu in Hnil. destruct line; discriminate.
  - exfalso. apply Hout. rewrite Hu. apply elem_of_app. right.
    apply elem_of_cons. auto.
  - exfalso. apply Hout. rewrite Hu.
    rewrite (app_assoc line [delim] rest : line ++ delim :: rest
                                           = (line ++ [delim]) ++ rest).
    rewrite take_app_ge
      by (rewrite length_app; unfold len in *; simpl; lia).
    apply elem_of_app. left. apply elem_of_app. right.
    apply elem_of_cons. auto.
Qed.

Lemma readSlice_returns_the_next_slice_witness :
  exists (v : u8) (s' : BufReader.state fragments),
    BufReader.readSlice 8 (BufReader.new [] [[97; 98]; [44; 99]] 16) 44
    = (Ok (Some v), s') /\
    contents (BufReader.mem s') v = [97; 98; 44] /\
    unread s' = [99].
Proof.
  destruct (new_stream_ok [] [[97; 98]; [44; 99]] 16) as [Hs Hun].
  { repeat constructor; discriminate. }
  destruct (readSlice_returns_the_next_slice _ 44 8 _ Hs) as [_ Hline].
  { vm_compute. lia. }
  rewrite Hun in Hline.
  destruct (Hline [97; 98] [99] eq_refl) as (v & s' & Hrun & _ & Hv & Hrest).
  - intros Hel. apply elem_of_cons in Hel as [Hel|Hel]; [discriminate|].
    apply elem_of_cons in Hel as [Hel|Hel]; [discriminate|].
    apply not_elem_of_nil in Hel. exact Hel.
  - vm_compute. discriminate.
  - exists v, s'. split; [exact Hrun|]. split; [exact Hv|exact Hrest].
Defined.

(** X20: [reset(r)] switches the source and clears the end-of-stream mark
    but keeps the cursors, so the bytes that were buffered are not
    discarded: the next [readByte()] answers the first of them, without
    asking the new source. *)
Theorem reset_keeps_the_buffered_bytes {R : Type} `{Reader R}
  (C : Z) (fuel : nat) (s : BufReader.state R) (x : R)
  (b : Z) (m : bytes) :
  BufReader.reader_ok C s ->
  buffered_bytes s = b :: m ->
  let s1 := BufReader.reset s x in
  BufReader.eof s1 = false /\ BufReader.rd s1 = x /\
  buffered_bytes s1 = b :: m /\
  exists s2 : BufReader.state R,
    BufReader.readByte fuel s1 = (Ok (Some (Some b)), s2) /\
    buffered_bytes s2 = m /\ BufReader.rd s2 = x.
Proof.
  intros Hok HB s1.
  assert (Hok1 : BufReader.reader_ok C s1) by exact Hok.
  assert (HB1 : buffered_bytes s1 = b :: m) by exact HB.
  split; [reflexivity|]. split; [reflexivity|]. split; [exact HB1|].
  destruct (buffered_bytes_eq C s1 Hok1) as [_ Hlen].
  rewrite HB1 in Hlen. unfold len in Hlen. cbn [length] in Hlen.
  destruct (buffered_after_advance C s1 1 Hok1 ltac:(lia)) as [_ HB'].
  exists (BufReader.with_r s1 (BufReader.r s1 + 1)). split.
  - destruct fuel; cbn [BufReader.readByte];
      (destruct (decide (BufReader.r s1 = BufReader.w s1)); [lia|]);
      rewrite (first_buffered C s1 b m Hok1 HB1); reflexivity.
  - rewrite HB', HB1. split; reflexivity.
Qed.

Lemma reset_keeps_the_buffered_bytes_witness :
  let s := snd (BufReader.readByte 2 (BufReader.new [] [[1; 2; 3]] 16)) in
  let s1 := BufReader.reset s [[9]] in
  exists s2 : BufReader.state fragments,
    BufReader.readByte 0 s1 = (Ok (Some (Some 2)), s2) /\
    buffered_bytes s2 = [3] /\ BufReader.rd s2 = [[9]].
Proof.
  intros s s1.
  assert (Hok : BufReader.reader_ok 16 s).
  { split; [split; [|split]|split; [|split]]; vm_compute;
      try reflexivity; try discriminate; lia. }
  destruct (reset_keeps_the_buffered_bytes 16 0 s [[9]] 2 [3] Hok eq_refl)
    as (_ & _ & _ & Hread).
  exact Hread.
Defined.

Section LinesOfAStream.
Import BufReader.

Lemma chomp_without_LF (u : bytes) : LF ∉ u -> chomp u = u.
Proof.
  intros Hno. unfold chomp.
  assert (Hu : u = reverse (reverse u))
    by (symmetry; apply reverse_involutive).
  destruct (reverse u) as [|x [|y m]] eqn:Hrev.
  - rewrite Hu. reflexivity.
  - destruct (decide (x = LF)) as [->|_]; [|reflexivity].
    exfalso. apply Hno. rewrite Hu. apply elem_of_reverse.
    apply elem_of_cons. auto.
  - destruct (decide (x = LF)) as [->|_]; [|reflexivity].
    exfalso. apply Hno. rewrite Hu. apply elem_of_reverse.
    apply elem_of_cons. auto.
Qed.

Lemma at_take (u : bytes) (k i : Z) :
  0 <= i < k -> at_ (take (Z.to_nat k) u) i = at_ u i.
Proof.
  intros Hi. unfold at_. destruct (decide (0 <= i)); [|lia].
  apply lookup_take_lt. lia.
Qed.

(** X21: over a source of non-empty fragments, [readLine()] answers the
    next line of the stream.  When a LF is among the first bytes of the
    stream, as many as the capacity, the line is what is before it, less a
    CR right before it, and what follows the LF is left to be read.  With
    no byte left the answer is [null].  When the stream ends with no LF
    the line is all that was left.  And when the first bytes of the
    stream, as many as the capacity, hold no LF, the answer has
    [more = true] and the line is those bytes, less the last of them when
    it is a CR, which is then left to be read with what follows. *)
Theorem readLine_reads_the_next_line (C : Z) (fuel : nat)
  (s : state fragments) :
  stream_ok C s ->
  (length (List.concat (rd s)) + 2 <= fuel)%nat ->
  let u := unread s in
  let run := readLine fuel s in
  exists s' : state fragments,
    stream_ok C s' /\
    ((exists (body rest : bytes) (v : u8),
        u = body ++ LF :: rest /\ (LF ∉ body) /\
        run = (Ok (Some (v, false)), s') /\
        contents (mem s') v = chomp (body ++ [LF]) /\ unread s' = rest) \/
     (u = [] /\ run = (Ok None, s') /\ unread s' = []) \/
     (exists v : u8,
        u <> [] /\ (LF ∉ u) /\ run = (Ok (Some (v, false)), s') /\
        contents (mem s') v = u /\ unread s' = []) \/
     (exists v : u8,
        C <= len u /\ (LF ∉ take (Z.to_nat C) u) /\
        run = (Ok (Some (v, true)), s') /\
        let k := if decide (at_ u (C - 1) = Some CR) then C - 1 else C in
        contents (mem s') v = take (Z.to_nat k) u /\
        unread s' = drop (Z.to_nat k) u)).
Proof.
  intros Hs Hfuel u run.
  assert (Hres := readSlice_loop_stream C LF fuel s 0 Hs).
  cbv zeta in Hres. fold u in Hres.
  change (readSlice_loop fuel s LF 0) with (readSlice fuel s LF) in Hres.
  destruct Hres as (s1 & Hs1 & Hcase).
  { pose proof Hs as (_ & ((? & ? & ?) & _) & _). lia. }
  { apply not_elem_of_nil. }
  { destruct (eof s); lia. }
  destruct Hcase as [(body & rest & v & Hu & Hno & Hrun & Hv & Hrest & Hwv)|
                     [(Hnil & Hrun & Hrest)|
                      [(v & Hne & Hout & Hrun & Hv & Hrest & He & Hwv)|
                       (e & p & Hrun & Hcl & Hp & Hc & Hle & Hout & Hrest
                        & Hwp & Hlp & Hr1 & Hw1 & He1 & Hbuf)]]].
  - destruct (readLine_chomp fuel s s1 v Hrun Hwv) as (v' & Hline & Hv').
    exists s1. split; [exact Hs1|]. left. exists body, rest, v'.
    rewrite Hv' , Hv. auto.
  - exists s1. split; [exact Hs1|]. right. left.
    split; [exact Hnil|]. split; [|exact Hrest].
    unfold run, readLine. rewrite Hrun. reflexivity.
  - destruct (readLine_chomp fuel s s1 v Hrun Hwv) as (v' & Hline & Hv').
    exists s1. split; [exact Hs1|]. right. right. left. exists v'.
    rewrite Hv', Hv, chomp_without_LF by exact Hout. auto.
  - pose proof Hs1 as (HC & Hok1 & Hne1 & Hend1).
    set (P := take (Z.to_nat C) u) in *.
    assert (HlP : len P = C)
      by (unfold P, len in *; rewrite length_take; lia).
    assert (Hlast : at_ (contents (mem s1) p) (byteLength p - 1)
                    = at_ u (C - 1)).
    { rewrite Hc, Hlp. unfold P. apply at_take. lia. }
    unfold run, readLine. rewrite Hrun, Hp.
    destruct (decide (class e <> BufferFullError)); [congruence|].
    rewrite Hlast, Hlp, He1, Hr1.
    destruct (decide (at_ u (C - 1) = Some CR)) as [Hcr|Hplain].
    + (* the last byte is a CR: it is given back *)
      case_decide as Hcond;
        [|exfalso; apply Hcond; repeat split; [lia|exact Hcr]].
      destruct (decide (C > 0)); [|lia].
      set (s2 := with_r s1 (C - 1)).
      assert (Hok2 : reader_ok C s2).
      { destruct Hok1 as ((? & ? & ?) & ? & ?).
        split; [split; [|split]|split]; unfold s2; reader_fields;
          try assumption; lia. }
      exists s2.
      split; [split; [exact HC|split; [exact Hok2|split; assumption]]|].
      right. right. right. eexists. split; [exact Hle|].
      split; [exact Hout|]. unfold s2. reader_fields. rewrite He1.
      split; [reflexivity|]. cbv zeta. split.
      * rewrite contents_subarray by exact Hwp.
        rewrite subarray_prefix by lia. rewrite Hc. unfold P.
        rewrite take_take. f_equal. lia.
      * unfold unread. fold s2.
        rewrite (proj1 (buffered_bytes_eq C s2 Hok2)).
        unfold s2. reader_fields. rewrite Hbuf, Hw1.
        assert (Hrd : List.concat (rd s1) = drop (Z.to_nat C) u).
        { rewrite <- Hrest. unfold unread.
          replace (buffered_bytes s1) with (@nil Z); [reflexivity|].
          symmetry. apply (buffered_empty C s1 Hok1). lia. }
        rewrite Hrd. rewrite take_ge
          by (rewrite length_drop; unfold len in HlP; lia).
        transitivity (drop (Z.to_nat (C - 1)) (P ++ drop (Z.to_nat C) u)).
        -- symmetry. apply drop_app_le. unfold len in HlP. lia.
        -- unfold P. rewrite take_drop. reflexivity.
    + case_decide as Hcond; [exfalso; apply Hplain; apply Hcond|].
      exists s1. split; [exact Hs1|]. right. right. right. exists p.
      split; [exact Hle|]. split; [exact Hout|]. split; [reflexivity|].
      cbv zeta. split; [exact Hc|exact Hrest].
Qed.

End LinesOfAStream.

Lemma readLine_reads_the_next_line_witness :
  exists (v : u8) (s' : BufReader.state fragments),
    BufReader.readLine 32
      (BufReader.new [] [replicate 15 97; [13; 10; 98]] 16)
    = (Ok (Some (v, true)), s') /\
    contents (BufReader.mem s') v = replicate 15 97 /\
    unread s' = [13; 10; 98].
Proof.
  destruct (new_stream_ok [] [replicate 15 97; [13; 10; 98]] 16)
    as [Hs Hun].
  { repeat constructor; discriminate. }
  destruct (readLine_reads_the_next_line _ 32 _ Hs) as (s' & _ & Hcase).
  { vm_compute. lia. }
  cbv zeta in Hcase. rewrite Hun in Hcase.
  destruct Hcase as [(body & rest & v & _ & _ & Hrun & _)|
                     [(_ & Hrun & _)|[(v & _ & _ & Hrun & _)|
                                      (v & _ & _ & Hrun & Hv & Hrest)]]];
    try (apply (f_equal fst) in Hrun; vm_compute in Hrun; discriminate).
  exists v, s'. split; [exact Hrun|]. split; [exact Hv|exact Hrest].
Defined.

(** ** io/bufio.ts: [readDelim] on a delimiter of one byte *)

Section SingleByte.
Import Delim.

Lemma split_on_clean (d : Z) (l : bytes) : d ∉ l -> split_on d l = [l].
Proof.
  induction l as [|x l IH]; intros Hno; cbn [split_on]; [reflexivity|].
  apply not_elem_of_cons in Hno as [Hne Hno].
  destruct (decide (x = d)); [congruence|]. rewrite IH by exact Hno.
  reflexivity.
Qed.

Lemma split_on_delim (d : Z) (pre rest : bytes) :
  d ∉ pre -> split_on d (pre ++ d :: rest) = pre :: split_on d rest.
Proof.
  induction pre as [|x pre IH]; intros Hno; cbn [app split_on].
  - destruct (decide (d = d)); [reflexivity|congruence].
  - apply not_elem_of_cons in Hno as [Hne Hno].
    destruct (decide (x = d)); [congruence|]. rewrite IH by exact Hno.
    reflexivity.
Qed.

Lemma at_middle (pre post : bytes) (x : Z) :
  at_ (pre ++ x :: post) (len pre) = Some x.
Proof.
  unfold at_, len. destruct (decide (0 <= Z.of_nat (length pre))); [|lia].
  rewrite Nat2Z.id. apply list_lookup_middle. reflexivity.
Qed.

(** One pass of the inner loop over the bytes just read: with a delimiter
    of one byte the match index is [0] at every byte, the failure table is
    never read, and a chunk is yielded at every delimiter. *)
Lemma scan_single (d : Z) (lps : bytes) (new : bytes) :
  forall (steps : nat) (pre : bytes),
    d ∉ pre -> (length new <= steps)%nat ->
    exists (chunks : list bytes) (last : bytes),
      scan steps [d] lps (pre ++ new) (len pre) (Some 0)
      = (chunks, Some (last, len last, Some 0)) /\
      (d ∉ last) /\
      forall tail : bytes,
        split_on d (pre ++ new ++ tail) = chunks ++ split_on d (last ++ tail).
Proof.
  induction new as [|x new IH]; intros steps pre Hno Hsteps.
  - exists [], pre. rewrite app_nil_r. split; [|split; [exact Hno|]].
    + destruct steps; cbn [scan];
        (destruct (decide (len pre < len pre)); [lia|reflexivity]).
    + intros tail. reflexivity.
  - destruct steps as [|steps]; [simpl in Hsteps; lia|].
    cbn [scan]. rewrite len_app.
    destruct (decide (len pre < len pre + len (x :: new))) as [_|Hge];
      [|unfold len in Hge; simpl in Hge; lia].
    rewrite at_middle. change (at_ [d] 0) with (Some d).
    destruct (decide (Some x = Some d)) as [Hx|Hx].
    + assert (x = d) as -> by congruence.
      change (len [d]) with 1.
      destruct (decide (0 + 1 = 1)); [|lia].
      replace (len pre + 1 - 1) with (len pre) by lia.
      rewrite subarray_prefix by apply len_nonneg.
      rewrite subarray_suffix by (pose proof (len_nonneg pre); lia).
      rewrite (take_app_length' pre) by (unfold len; lia).
      rewrite (app_assoc pre [d] new : pre ++ d :: new = (pre ++ [d]) ++ new).
      rewrite (drop_app_length' (pre ++ [d]))
        by (rewrite length_app; unfold len; simpl; lia).
      destruct (IH steps [] ltac:(apply not_elem_of_nil)
                  ltac:(simpl in Hsteps; lia))
        as (chunks & last & Hscan & Hlast & Hsplit).
      cbn [app] in Hscan, Hsplit. change (len []) with 0 in Hscan.
      rewrite Hscan. exists (pre :: chunks), last.
      split; [reflexivity|]. split; [exact Hlast|].
      intros tail. cbn [app].
      rewrite split_on_delim by exact Hno. rewrite Hsplit. reflexivity.
    + destruct (decide (0 = 0)); [|lia].
      destruct (IH steps (pre ++ [x]))
        as (chunks & last & Hscan & Hlast & Hsplit).
      { intros Hel. apply elem_of_app in Hel as [Hel|Hel]; [exact (Hno Hel)|].
        apply elem_of_cons in Hel as [Hel|Hel]; [congruence|].
        apply not_elem_of_nil in Hel. exact Hel. }
      { simpl in Hsteps. lia. }
      rewrite <- app_assoc in Hscan. cbn [app] in Hscan.
      replace (len (pre ++ [x])) with (len pre + 1) in Hscan
        by (rewrite len_app; reflexivity).
      rewrite Hscan. exists chunks, last.
      split; [reflexivity|]. split; [exact Hlast|].
      intros tail. specialize (Hsplit tail).
      rewrite <- app_assoc in Hsplit. exact Hsplit.
Qed.

Lemma readDelim_loop_single (d : Z) (lps : bytes) (steps : nat)
  (reads : nat) :
  forall (frags : fragments) (pre arr : bytes),
    d ∉ pre -> 1 <= len arr ->
    (length frags + length (List.concat frags) < reads)%nat ->
    (length (List.concat frags) <= steps)%nat ->
    readDelim_loop reads steps frags [d] lps pre arr (len pre) (Some 0)
    = (split_on d (pre ++ List.concat frags), Returned).
Proof.
  induction reads as [|reads IH]; intros frags pre arr Hno Harr Hreads Hsteps;
    [lia|].
  cbn [readDelim_loop]. destruct frags as [|c rest].
  - cbn [reader_read fragments_reader List.concat].
    rewrite app_nil_r, split_on_clean by exact Hno. reflexivity.
  - set (dt := take (Z.to_nat (len arr)) c).
    set (rd' := if decide (length c <= Z.to_nat (len arr))%nat then rest
                else drop (Z.to_nat (len arr)) c :: rest).
    assert (Hread : reader_read (c :: rest) (len arr)
                    = (Some (len dt, dt), rd')) by reflexivity.
    rewrite Hread.
    assert (Hcat : dt ++ List.concat rd' = c ++ List.concat rest).
    { unfold dt, rd'. destruct (decide (length c <= Z.to_nat (len arr))%nat).
      - rewrite take_ge by lia. reflexivity.
      - cbn [List.concat]. rewrite app_assoc, take_drop. reflexivity. }
    assert (Hless : (length rd' + length (List.concat rd')
                     < length (c :: rest)
                       + length (List.concat (c :: rest)))%nat).
    { unfold rd'. cbn [List.concat length]. rewrite length_app.
      destruct (decide (length c <= Z.to_nat (len arr))%nat); [lia|].
      cbn [List.concat length]. rewrite length_app, length_drop.
      unfold len in *. lia. }
    assert (Hldt : (length dt <= length arr)%nat)
      by (unfold dt, len; rewrite length_take; lia).
    destruct (decide (len dt < 0)); [pose proof (len_nonneg dt); lia|].
    rewrite deposit_sliceRead by exact Hldt.
    unfold Buffer_writeAll, Buffer_bytes, Buffer_from.
    assert (Hlens : (length dt + length (List.concat rd')
                     = length (List.concat (c :: rest)))%nat).
    { cbn [List.concat]. rewrite <- Hcat, length_app. reflexivity. }
    destruct (scan_single d lps dt steps pre Hno ltac:(lia))
      as (chunks & last & Hscan & Hlast & Hsplit).
    rewrite Hscan.
    rewrite (IH rd' last (deposit arr dt) Hlast)
      by (try lia; unfold len in *; rewrite deposit_length; lia).
    cbn [fst snd List.concat]. rewrite <- Hcat, <- Hsplit. reflexivity.
Qed.

End SingleByte.

(** X22: on a delimiter of one byte, [readDelim] yields the pieces of the
    stream between the occurrences of that byte, one more piece than there
    are occurrences, and returns; this holds however the source cuts the
    stream into reads, empty reads included. *)
Theorem readDelim_splits_on_a_byte (frags : fragments) (d : Z)
  (reads steps : nat) :
  (length frags + length (List.concat frags) < reads)%nat ->
  (length (List.concat frags) <= steps)%nat ->
  Delim.readDelim reads steps frags [d]
  = (split_on d (List.concat frags), Delim.Returned).
Proof.
  intros Hreads Hsteps. unfold Delim.readDelim.
  assert (Hlps : Delim.createLPS steps [d] = Some [0])
    by (destruct steps; reflexivity).
  rewrite Hlps. unfold Delim.Buffer_new.
  apply (readDelim_loop_single d [0] steps reads frags []).
  - apply not_elem_of_nil.
  - vm_compute. discriminate.
  - exact Hreads.
  - exact Hsteps.
Qed.

Lemma readDelim_splits_on_a_byte_witness :
  Delim.readDelim 16 8 [[97; 10]; []; [10; 98]; [99; 10]] [10]
  = ([[97]; []; [98; 99]; []], Delim.Returned).
Proof.
  apply (readDelim_splits_on_a_byte [[97; 10]; []; [10; 98]; [99; 10]] 10
           16 8); vm_compute; lia.
Defined.

(** ** io/bufio.ts: [_fill] and reads that deliver nothing *)

Section EmptyReads.
Import BufReader.

Lemma store_nothing (h : heap) (v : u8) : store h v [] = h.
Proof.
  unfold store. apply list_alter_id. intros old. unfold deposit.
  rewrite take_nil. cbn [length app]. rewrite drop_0.
  rewrite <- (drop_drop old (extent v) (offset v)).
  rewrite take_drop. apply take_drop.
Qed.

(** A read of zero bytes changes nothing but the source. *)
Lemma source_read_empty (s : state fragments) (p : u8) (rest : fragments) :
  rd s = [] :: rest -> source_read s p = (Some 0, with_rd s rest).
Proof.
  intros Hrd. unfold source_read. rewrite Hrd.
  cbn [reader_read fragments_reader].
  rewrite take_nil. cbn [length]. change (len []) with 0.
  destruct (decide (0 <= Z.to_nat (byteLength p))%nat); [|lia].
  rewrite store_nothing. destruct s; reflexivity.
Qed.

Lemma fill_loop_empties (k : nat) :
  forall (i : nat) (s : state fragments) (rest : fragments),
    rd s = replicate k [] ++ rest -> (k <= i)%nat ->
    fill_loop i s = fill_loop (i - k) (with_rd s rest).
Proof.
  induction k as [|k IH]; intros i s rest Hrd Hk.
  - cbn [replicate app] in Hrd. rewrite Nat.sub_0_r. f_equal.
    destruct s; cbn in *; subst; reflexivity.
  - destruct i as [|i]; [lia|]. cbn [replicate app] in Hrd.
    rewrite fill_loop_S, (source_read_empty s _ _ Hrd).
    destruct (decide (0 >= 0)); [|lia]. destruct (decide (0 > 0)); [lia|].
    cbv zeta. rewrite (IH i _ rest); [|reader_fields; reflexivity|lia].
    cbn [Nat.sub]. f_equal.
    destruct s; unfold with_rd, with_w; cbn [mem buf rd r w eof]; f_equal; lia.
Qed.

(** With room in the buffer, a first read that delivers bytes, or the end
    of the stream, ends the loop of [_fill] at its first pass. *)
Lemma fill_loop_first (C : Z) (s : state fragments) (i j : nat) :
  reader_ok C s -> w s < C ->
  match rd s with [] => True | c :: _ => c <> [] end ->
  fill_loop (S i) s = fill_loop (S j) s.
Proof.
  intros ((Hr & Hrw & Hw) & Hcap & Hwin) Hroom Hfirst.
  rewrite !fill_loop_S. unfold source_read.
  assert (Hp : byteLength (u8_subarray_from (buf s) (w s)) = C - w s)
    by (unfold u8_subarray_from; rewrite byteLength_subarray; lia).
  rewrite Hp. destruct (rd s) as [|c cs]; [reflexivity|].
  destruct (fragments_read_some c cs (C - w s) Hfirst ltac:(lia))
    as (d & rd' & Hread & _ & Hd & _).
  rewrite Hread.
  assert (0 < len d) by (destruct d; [congruence|unfold len; simpl; lia]).
  destruct (decide (len d >= 0)); [|lia].
  cbv zeta. destruct (decide (len d > 0)); [reflexivity|lia].
Qed.

Lemma slide_with_rd (s : state fragments) (x : fragments) :
  slide (with_rd s x) = with_rd (slide s) x.
Proof.
  unfold slide. reader_fields. destruct (decide (r s > 0)); reflexivity.
Qed.

(** X23: [_fill] goes on past reads that deliver no byte, up to 99 of them
    in a row: it then does what it would have done had they not taken
    place; at the hundredth it gives up with the error
    ["No progress after 100 read() calls"]. *)
Theorem fill_gives_up_at_the_hundredth_empty_read (C : Z)
  (s : state fragments) (k : nat) (rest : fragments) :
  reader_ok C s -> w s - r s < C ->
  rd s = replicate k [] ++ rest ->
  ((100 <= k)%nat ->
   exists s' : state fragments,
     _fill s
     = (Throw (mkError PlainError "No progress after 100 read() calls" None),
        s') /\
     rd s' = replicate (k - 100) [] ++ rest) /\
  ((k < 100)%nat ->
   match rest with [] => True | c :: _ => c <> [] end ->
   _fill s = _fill (with_rd s rest)).
Proof.
  intros Hok Hroom Hrd.
  destruct (slide_spec C s Hok) as (Hok1 & Hr1 & Hw1 & Hb1 & Hrd1 & _).
  pose proof Hok1 as (_ & Hcap1 & _).
  assert (Hfill : forall x,
            _fill (with_rd s x)
            = fill_loop MAX_CONSECUTIVE_EMPTY_READS (with_rd (slide s) x)).
  { intros x. unfold _fill. rewrite slide_with_rd. reader_fields.
    destruct (decide (w (slide s) >= byteLength (buf (slide s)))); [lia|].
    reflexivity. }
  assert (Hfill0 : _fill s = fill_loop MAX_CONSECUTIVE_EMPTY_READS (slide s)).
  { unfold _fill.
    destruct (decide (w (slide s) >= byteLength (buf (slide s)))); [lia|].
    reflexivity. }
  split.
  - intros Hk. eexists. rewrite Hfill0.
    change MAX_CONSECUTIVE_EMPTY_READS with 100%nat.
    rewrite (fill_loop_empties 100 100 (slide s)
               (replicate (k - 100) [] ++ rest)).
    + cbn [Nat.sub fill_loop]. split; reflexivity.
    + rewrite Hrd1, Hrd, app_assoc, <- replicate_add. do 2 f_equal. lia.
    + lia.
  - intros Hk Hfirst. rewrite Hfill0.
    change MAX_CONSECUTIVE_EMPTY_READS with 100%nat.
    rewrite (fill_loop_empties k 100 (slide s) rest)
      by (try lia; rewrite Hrd1; exact Hrd).
    assert (Hok2 : reader_ok C (with_rd (slide s) rest)).
    { destruct Hok1 as ((? & ? & ?) & ? & ?).
      split; [split; [|split]|split]; reader_fields; assumption. }
    replace (100 - k)%nat with (S (99 - k)) by lia.
    rewrite (fill_loop_first C _ (99 - k) 99 Hok2)
      by (reader_fields; try exact Hfirst; lia).
    symmetry. apply (Hfill rest).
Qed.

End EmptyReads.

Lemma fill_gives_up_at_the_hundredth_empty_read_witness :
  let s := BufReader.new [] (replicate 99 [] ++ [[7]]) 16 in
  BufReader._fill s = BufReader._fill (BufReader.with_rd s [[7]]).
Proof.
  intros s.
  destruct (new_ok [] (replicate 99 [] ++ [[7]]) 16)
    as (Hok & _ & Hr & Hw & _ & Hrd).
  fold s in Hok, Hr, Hw, Hrd.
  apply (proj2 (fill_gives_up_at_the_hundredth_empty_read _ s 99 [[7]] Hok
                  ltac:(unfold BufReader.buffered; rewrite Hr, Hw;
                        vm_compute; reflexivity) Hrd)).
  - lia.
  - discriminate.
Defined.

(** ** io/bufio.ts: [readDelim] on a delimiter of any length *)

Section Split.
Import Delim.
Variable D : bytes.
Hypothesis D_not_empty : D <> [].

Lemma D_length : (0 < length D)%nat.
Proof. destruct D; [congruence|simpl; lia]. Qed.

(** *** Occurrences and pieces *)

Lemma matched_occurrence (s : bytes) (j : nat) :
  matched D s j (length D) <-> take (length D) (drop j s) = D.
Proof.
  split.
  - intros Hm.
    assert (Hpre : exists rest, drop j s = D ++ rest).
    { apply agree_prefix. intros k Hk. rewrite lookup_drop. apply Hm, Hk. }
    destruct Hpre as [rest ->]. apply take_app_length.
  - intros Ht t Hlt. rewrite <- lookup_drop.
    rewrite <- (lookup_take_lt (drop j s) (length D) t) by lia.
    rewrite Ht. reflexivity.
Qed.

Lemma matched_inside (s : bytes) (j k : nat) :
  matched D s j k -> (1 <= k <= length D)%nat -> (j + k <= length s)%nat.
Proof.
  intros Hm Hk. destruct k as [|k]; [lia|].
  specialize (Hm k ltac:(lia)).
  destruct (lookup_lt_is_Some_2 D k ltac:(lia)) as [x Hx].
  rewrite Hx in Hm. apply lookup_lt_Some in Hm. lia.
Qed.

Lemma matched_app (s tail : bytes) (j k : nat) :
  (j + k <= length s)%nat ->
  matched D (s ++ tail) j k <-> matched D s j k.
Proof.
  intros Hin. split; intros Hm t Ht; specialize (Hm t Ht).
  - rewrite lookup_app_l in Hm by lia. exact Hm.
  - rewrite lookup_app_l by lia. exact Hm.
Qed.

Lemma matched_next (s : bytes) (j k : nat) :
  matched D s j (S k) <->
  matched D s j k /\ s !! (j + k)%nat = D !! k.
Proof.
  split.
  - intros Hm. split; [|apply Hm; lia]. intros t Ht. apply Hm. lia.
  - intros [Hm Hk] t Ht. destruct (decide (t = k)) as [->|Hne];
      [exact Hk|apply Hm; lia].
Qed.

Lemma pieces_not_nil (skip : nat) (l : bytes) : pieces D skip l <> [].
Proof.
  revert skip. induction l as [|x l IH]; intros skip; cbn [pieces];
    [discriminate|].
  destruct skip as [|k]; [|apply IH].
  destruct (decide _); [discriminate|].
  destruct (pieces D 0 l); discriminate.
Qed.

Lemma pieces_skip (d a post : bytes) :
  pieces d (length a) (a ++ post) = pieces d 0 post.
Proof. induction a as [|x a IH]; [reflexivity|exact IH]. Qed.

(** Where the delimiter does not occur there is one piece. *)
Lemma split_seq_none (l : bytes) :
  (forall j : nat, ~ matched D l j (length D)) -> split_seq D l = [l].
Proof.
  unfold split_seq. induction l as [|x l IH]; intros Hno; [reflexivity|].
  cbn [pieces]. destruct (decide _) as [Hocc|_].
  - exfalso. apply (Hno 0%nat). apply matched_occurrence. exact Hocc.
  - rewrite IH; [reflexivity|]. intros j Hm. apply (Hno (S j)).
    intros t Ht. exact (Hm t Ht).
Qed.

(** The first piece ends where the delimiter first occurs, and the others
    are those of what follows that occurrence. *)
Lemma split_seq_first (pre post : bytes) :
  (forall j : nat,
      (j < length pre)%nat -> ~ matched D (pre ++ D ++ post) j (length D)) ->
  split_seq D (pre ++ D ++ post) = pre :: split_seq D post.
Proof.
  unfold split_seq. induction pre as [|y pre IH]; intros Hno.
  - cbn [app]. destruct D as [|x D'] eqn:HD; [congruence|].
    cbn [app pieces].
    destruct (decide _) as [_|Hocc].
    + f_equal. cbn [length]. rewrite Nat.sub_succ, Nat.sub_0_r.
      apply pieces_skip.
    + exfalso. apply Hocc.
      change (x :: D' ++ post) with ((x :: D') ++ post).
      apply take_app_length.
  - cbn [app pieces]. destruct (decide _) as [Hocc|_].
    + exfalso. apply (Hno 0%nat); [simpl; lia|].
      apply matched_occurrence. exact Hocc.
    + rewrite IH; [reflexivity|]. intros j Hj Hm.
      apply (Hno (S j)); [simpl; lia|]. intros t Ht. exact (Hm t Ht).
Qed.

(** Pieces that end with an empty one end at an occurrence (or are those
    of no bytes): the pieces of what follows are found as from the start. *)
Lemma pieces_app (l : bytes) :
  forall (skip : nat) (more : bytes),
    (skip <= length l)%nat -> last (pieces D skip l) = Some [] ->
    pieces D skip (l ++ more)
    = removelast (pieces D skip l) ++ pieces D 0 more.
Proof.
  pose proof D_length as HL.
  induction l as [|x l IH]; intros skip more Hskip Hlast.
  - assert (skip = 0%nat) by (simpl in Hskip; lia). subst skip. reflexivity.
  - destruct skip as [|k].
    2:{ cbn [app pieces] in *. apply IH; [simpl in Hskip; lia|exact Hlast]. }
    cbn [app pieces] in *.
    destruct (decide (take (length D) (x :: l) = D)) as [Hocc|Hocc].
    + assert (Hfit : (length D <= length (x :: l))%nat).
      { rewrite <- Hocc at 1. rewrite length_take. lia. }
      change (x :: l ++ more) with ((x :: l) ++ more).
      rewrite take_app_le by exact Hfit.
      destruct (decide (take (length D) (x :: l) = D)) as [_|?];
        [|contradiction].
      pose proof (pieces_not_nil (length D - 1) l) as Hnn.
      assert (Hl : last (pieces D (length D - 1) l) = Some []).
      { destruct (pieces D (length D - 1) l); [congruence|exact Hlast]. }
      rewrite (IH (length D - 1)%nat more ltac:(simpl in Hfit; lia) Hl).
      destruct (pieces D (length D - 1) l); [congruence|reflexivity].
    + destruct (decide (take (length D) (x :: l ++ more) = D))
        as [Hstraddle|_].
      * exfalso.
        assert (Hshort : (length (x :: l) < length D)%nat).
        { destruct (decide (length D <= length (x :: l))%nat) as [Hfit|?];
            [|lia].
          change (x :: l ++ more) with ((x :: l) ++ more) in Hstraddle.
          rewrite take_app_le in Hstraddle by exact Hfit. contradiction. }
        assert (Hone : split_seq D (x :: l) = [x :: l]).
        { apply split_seq_none. intros j Hm.
          apply matched_inside in Hm; lia. }
        unfold split_seq in Hone. cbn [pieces] in Hone.
        destruct (decide (take (length D) (x :: l) = D)); [contradiction|].
        rewrite Hone in Hlast. discriminate.
      * destruct (pieces D 0 l) as [|c cs] eqn:Hp.
        { exfalso. exact (pieces_not_nil 0 l Hp). }
        destruct cs as [|c2 cs]; [discriminate|].
        rewrite (IH 0%nat more ltac:(lia)) by (rewrite Hp; exact Hlast).
        rewrite Hp. reflexivity.
Qed.


(** *** The failure table *)

Lemma border_below_spec (w : bytes) (n : nat) :
  (1 <= n)%nat ->
  let b := border_below w n in
  (b < n)%nat /\ take b w = drop (length w - b) w /\
  forall k : nat,
    (k < n)%nat -> take k w = drop (length w - k) w -> (k <= b)%nat.
Proof.
  induction n as [|n IH]; intros Hn; [lia|]. cbn [border_below].
  destruct (decide _) as [Hb|Hb].
  - split; [lia|]. split; [exact Hb|]. intros k Hk _. lia.
  - destruct (decide (n = 0)%nat) as [->|Hpos].
    { exfalso. apply Hb. rewrite take_0, Nat.sub_0_r, drop_all.
      reflexivity. }
    destruct (IH ltac:(lia)) as (Hlt & Hbord & Hmax).
    split; [lia|]. split; [exact Hbord|]. intros k Hk Hkb.
    destruct (decide (k = n)) as [->|Hne]; [contradiction|].
    apply Hmax; [lia|exact Hkb].
Qed.

Lemma border_lists (m k : nat) :
  (k <= m)%nat -> (m <= length D)%nat ->
  border D m k <->
  take k (take m D) = drop (length (take m D) - k) (take m D).
Proof.
  intros Hk Hm. rewrite length_take, Nat.min_l by lia. split.
  - intros Hb. apply list_eq. intros t.
    destruct (decide (t < k)%nat) as [Ht|Ht].
    + rewrite lookup_take_lt by lia. rewrite lookup_drop.
      rewrite !lookup_take_lt by lia. symmetry. apply Hb, Ht.
    + rewrite !(proj2 (lookup_ge_None _ _)); [reflexivity| |].
      * rewrite length_drop, length_take. lia.
      * rewrite !length_take. lia.
  - intros Heq t Ht.
    assert (Hl : take k (take m D) !! t = drop (m - k) (take m D) !! t)
      by (rewrite <- Heq; reflexivity).
    rewrite lookup_take_lt in Hl by lia. rewrite lookup_drop in Hl.
    rewrite !lookup_take_lt in Hl by lia. symmetry. exact Hl.
Qed.

Lemma lookup_map_seq {A : Type} (f : nat -> A) (n start i : nat) :
  (i < n)%nat -> map f (seq start n) !! i = Some (f (start + i)%nat).
Proof.
  revert start i. induction n as [|n IH]; intros start i Hi; [lia|].
  destruct i as [|i]; cbn [seq map].
  - rewrite Nat.add_0_r. reflexivity.
  - cbn [lookup list_lookup]. rewrite IH by lia. f_equal. f_equal. lia.
Qed.

(** Entry [m - 1] of the table is the longest border of the first [m]
    bytes of the delimiter. *)
Lemma table_entry (m : nat) :
  (1 <= m)%nat -> (m <= length D)%nat ->
  exists b : nat,
    at_ (lps_table D) (Z.of_nat m - 1) = Some (Z.of_nat b) /\
    (b < m)%nat /\ border D m b /\
    forall k : nat, (k < m)%nat -> border D m k -> (k <= b)%nat.
Proof.
  intros Hm Hle. exists (longest_proper_prefix_suffix D (m - 1)).
  split.
  { replace (Z.of_nat m - 1) with (Z.of_nat (m - 1)) by lia.
    rewrite at_nat. unfold lps_table. rewrite lookup_map_seq by lia.
    reflexivity. }
  unfold longest_proper_prefix_suffix.
  replace (S (m - 1)) with m by lia.
  assert (Hlen : length (take m D) = m) by (rewrite length_take; lia).
  rewrite Hlen.
  destruct (border_below_spec (take m D) m Hm) as (Hlt & Hb & Hmax).
  split; [exact Hlt|]. split.
  - apply border_lists; [lia|lia|exact Hb].
  - intros k Hk Hbk. apply Hmax; [exact Hk|].
    apply border_lists; [lia|lia|exact Hbk].
Qed.

(** *** The steps of the scan keep what it knows *)

Lemma scan_inv_start (s : bytes) : scan_inv D s 0 0.
Proof.
  pose proof D_length as HL. unfold scan_inv.
  split; [lia|]. split; [lia|]. split; [lia|]. split; [|split].
  - intros t Ht. lia.
  - intros j Hj. lia.
  - intros j Hj. lia.
Qed.

Lemma scan_inv_more (s new : bytes) (m : nat) :
  scan_inv D s (length s) m -> scan_inv D (s ++ new) (length s) m.
Proof.
  intros (Hmi & His & HmL & Hcur & Hlonger & Hnone). unfold scan_inv.
  split; [exact Hmi|]. split; [rewrite length_app; lia|].
  split; [exact HmL|]. split; [|split].
  - apply matched_app; [lia|exact Hcur].
  - intros j Hj Hk Hm. apply matched_app in Hm; [|lia].
    destruct (Hlonger j Hj Hk Hm) as [Hlt _]. lia.
  - intros j Hj Hm. apply matched_app in Hm; [|lia].
    exact (Hnone j Hj Hm).
Qed.

Lemma scan_inv_clean (s : bytes) (m : nat) :
  scan_inv D s (length s) m ->
  forall j : nat, ~ matched D s j (length D).
Proof.
  intros (_ & _ & _ & _ & _ & Hnone) j Hm.
  apply (Hnone j); [|exact Hm].
  apply matched_inside; [exact Hm|pose proof D_length; lia].
Qed.

(** The byte at [i] continues the match, which stays below the length of
    the delimiter. *)
Lemma scan_inv_advance (s : bytes) (i m : nat) :
  scan_inv D s i m -> (i < length s)%nat -> s !! i = D !! m ->
  (m + 1 < length D)%nat -> scan_inv D s (i + 1) (m + 1).
Proof.
  intros (Hmi & His & HmL & Hcur & Hlonger & Hnone) Hi Heq Hm1.
  unfold scan_inv.
  split; [lia|]. split; [lia|]. split; [lia|]. split; [|split].
  - replace (i + 1 - (m + 1))%nat with (i - m)%nat by lia.
    replace (m + 1)%nat with (S m) by lia. apply matched_next.
    split; [exact Hcur|]. replace (i - m + m)%nat with i by lia. exact Heq.
  - intros j Hj Hk Hm. exfalso.
    replace (i + 1 - j)%nat with (S (i - j)) in Hm by lia.
    apply matched_next in Hm as [Hm Hlast].
    replace (j + (i - j))%nat with i in Hlast by lia.
    destruct (Hlonger j ltac:(lia) ltac:(lia) Hm) as [_ Hne].
    exact (Hne Hlast).
  - intros j Hj Hm.
    destruct (decide (j + length D <= i)%nat) as [Hold|Hnew];
      [exact (Hnone j Hold Hm)|].
    replace (length D) with (S (i - j)) in Hm by lia.
    apply matched_next in Hm as [Hm Hlast].
    replace (j + (i - j))%nat with i in Hlast by lia.
    destruct (Hlonger j ltac:(lia) ltac:(lia) Hm) as [_ Hne].
    exact (Hne Hlast).
Qed.

(** The byte at [i] is not the first of the delimiter, and nothing is
    matched. *)
Lemma scan_inv_skip (s : bytes) (i : nat) :
  scan_inv D s i 0 -> (i < length s)%nat -> s !! i <> D !! 0%nat ->
  scan_inv D s (i + 1) 0.
Proof.
  intros (Hmi & His & HmL & Hcur & Hlonger & Hnone) Hi Hne0.
  assert (Hdead : forall j : nat,
             (j <= i)%nat -> (i - j < length D)%nat ->
             ~ matched D s j (S (i - j))).
  { intros j Hj Hk Hm. apply matched_next in Hm as [Hm Hlast].
    replace (j + (i - j))%nat with i in Hlast by lia.
    destruct (decide (j = i)) as [->|Hlt].
    - rewrite Nat.sub_diag in Hlast. exact (Hne0 Hlast).
    - destruct (Hlonger j ltac:(lia) ltac:(lia) Hm) as [_ Hne].
      exact (Hne Hlast). }
  unfold scan_inv.
  split; [lia|]. split; [lia|]. split; [lia|]. split; [|split].
  - intros t Ht. lia.
  - intros j Hj Hk Hm. exfalso.
    replace (i + 1 - j)%nat with (S (i - j)) in Hm by lia.
    exact (Hdead j ltac:(lia) ltac:(lia) Hm).
  - intros j Hj Hm.
    destruct (decide (j + length D <= i)%nat) as [Hold|Hnew];
      [exact (Hnone j Hold Hm)|].
    replace (length D) with (S (i - j)) in Hm by lia.
    exact (Hdead j ltac:(lia) ltac:(lia) Hm).
Qed.

(** The byte at [i] does not continue the match: the scan falls back to
    the longest border of what was matched. *)
Lemma scan_inv_fallback (s : bytes) (i m b : nat) :
  scan_inv D s i m -> (i < length s)%nat -> s !! i <> D !! m ->
  (b < m)%nat -> border D m b ->
  (forall k : nat, (k < m)%nat -> border D m k -> (k <= b)%nat) ->
  scan_inv D s i b.
Proof.
  intros (Hmi & His & HmL & Hcur & Hlonger & Hnone) Hi Hne Hb Hbord Hmax.
  unfold scan_inv.
  split; [lia|]. split; [lia|]. split; [lia|]. split; [|split].
  - intros t Ht.
    replace (i - b + t)%nat with (i - m + (m - b + t))%nat by lia.
    rewrite Hcur by lia. apply Hbord, Ht.
  - intros j Hj Hk Hm.
    destruct (decide (j < i - m)%nat) as [Hbefore|Hafter];
      [exact (Hlonger j Hbefore Hk Hm)|].
    destruct (decide (j = i - m)%nat) as [->|Hbetween].
    + split; [exact Hi|]. replace (i - (i - m))%nat with m by lia.
      exact Hne.
    + exfalso.
      assert (Hle : (i - j <= b)%nat); [|lia].
      apply Hmax; [lia|]. intros t Ht.
      transitivity (s !! (j + t)%nat); [|apply Hm, Ht].
      rewrite <- (Hcur (m - (i - j) + t)%nat) by lia. f_equal. lia.
  - exact Hnone.
Qed.

(** The byte at [i] completes the delimiter: it occurs there, and nowhere
    before, whatever follows. *)
Lemma scan_inv_found (s : bytes) (i m : nat) :
  scan_inv D s i m -> (i < length s)%nat -> s !! i = D !! m ->
  (m + 1 = length D)%nat ->
  s = take (i - m) s ++ D ++ drop (i + 1) s /\
  forall (tail : bytes) (j : nat),
    (j < i - m)%nat -> ~ matched D (s ++ tail) j (length D).
Proof.
  intros (Hmi & His & HmL & Hcur & Hlonger & Hnone) Hi Heq Hm1.
  assert (Hocc : matched D s (i - m) (length D)).
  { replace (length D) with (S m) by lia. apply matched_next.
    split; [exact Hcur|]. replace (i - m + m)%nat with i by lia. exact Heq. }
  split.
  - apply matched_occurrence in Hocc.
    rewrite <- (take_drop (i - m) s) at 1. f_equal.
    rewrite <- (take_drop (length D) (drop (i - m) s)). f_equal.
    + exact Hocc.
    + rewrite drop_drop. f_equal. lia.
  - intros tail j Hj Hm.
    apply matched_app in Hm; [|lia].
    destruct (decide (j + length D <= i)%nat) as [Hold|Hnew];
      [exact (Hnone j Hold Hm)|].
    lia.
Qed.

(** *** The inner loop *)

(** From a state that knows the above, with [2 * (s.length - i) + m]
    passes allowed, the inner loop runs to the end of the bytes, yields a
    chunk at every occurrence that it completes, and knows the same of what
    it keeps. *)
Lemma scan_split (steps : nat) :
  forall (s : bytes) (i m : nat),
    scan_inv D s i m ->
    (2 * (length s - i) + m <= steps)%nat ->
    exists (chunks : list bytes) (s' : bytes) (m' : nat),
      scan steps D (lps_table D) s (Z.of_nat i) (Some (Z.of_nat m))
      = (chunks, Some (s', len s', Some (Z.of_nat m'))) /\
      scan_inv D s' (length s') m' /\
      forall tail : bytes,
        split_seq D (s ++ tail) = chunks ++ split_seq D (s' ++ tail).
Proof.
  induction steps as [|steps IH]; intros s i m Hinv Hfuel.
  - assert (Hi : i = length s) by (destruct Hinv as (? & ? & _); lia).
    subst i. exists [], s, m. split; [|split; [exact Hinv|reflexivity]].
    cbn [scan]. destruct (decide _) as [Hlt|_]; [unfold len in Hlt; lia|].
    reflexivity.
  - cbn [scan]. destruct (decide (Z.of_nat i < len s)) as [Hlt|Hge].
    2:{ assert (Hi : i = length s)
          by (destruct Hinv as (? & ? & _); unfold len in Hge; lia).
        subst i. exists [], s, m.
        split; [reflexivity|]. split; [exact Hinv|reflexivity]. }
    unfold len in Hlt. assert (Hi : (i < length s)%nat) by lia.
    pose proof Hinv as (Hmi & His & HmL & _).
    rewrite !at_nat.
    destruct (decide (s !! i = D !! m)) as [Heq|Hne].
    + destruct (decide (Z.of_nat m + 1 = len D)) as [Hfull|Hpart].
      * unfold len in Hfull.
        destruct (scan_inv_found s i m Hinv Hi Heq ltac:(lia))
          as (Hshape & Hfirst).
        rewrite subarray_prefix by (unfold len; lia).
        rewrite subarray_suffix by lia.
        replace (Z.to_nat (Z.of_nat i + 1 - len D)) with (i - m)%nat
          by (unfold len; lia).
        replace (Z.to_nat (Z.of_nat i + 1)) with (i + 1)%nat by lia.
        destruct (IH (drop (i + 1) s) 0%nat 0%nat
                    (scan_inv_start _)
                    ltac:(rewrite length_drop; lia))
          as (chunks & s' & m' & Hscan & Hinv' & Hsplit).
        change (Z.of_nat 0) with 0 in Hscan. rewrite Hscan.
        exists (take (i - m) s :: chunks), s', m'.
        split; [reflexivity|]. split; [exact Hinv'|].
        intros tail. cbn [app]. rewrite <- Hsplit.
        rewrite Hshape at 1. rewrite <- !app_assoc.
        apply split_seq_first. intros j Hj.
        rewrite length_take in Hj.
        rewrite !app_assoc. rewrite <- (app_assoc _ D).
        rewrite <- Hshape. apply Hfirst. lia.
      * unfold len in Hpart.
        destruct (IH s (i + 1)%nat (m + 1)%nat
                    (scan_inv_advance s i m Hinv Hi Heq ltac:(lia))
                    ltac:(lia))
          as (chunks & s' & m' & Hscan & Hinv' & Hsplit).
        replace (Z.of_nat (i + 1)) with (Z.of_nat i + 1) in Hscan by lia.
        replace (Z.of_nat (m + 1)) with (Z.of_nat m + 1) in Hscan by lia.
        rewrite Hscan. exists chunks, s', m'.
        split; [reflexivity|]. split; [exact Hinv'|exact Hsplit].
    + destruct (decide (Z.of_nat m = 0)) as [Hm0|Hmpos].
      * assert (m = 0%nat) by lia. subst m.
        destruct (IH s (i + 1)%nat 0%nat
                    (scan_inv_skip s i Hinv Hi Hne) ltac:(lia))
          as (chunks & s' & m' & Hscan & Hinv' & Hsplit).
        replace (Z.of_nat (i + 1)) with (Z.of_nat i + 1) in Hscan by lia.
        rewrite Hscan. exists chunks, s', m'.
        split; [reflexivity|]. split; [exact Hinv'|exact Hsplit].
      * destruct (table_entry m ltac:(lia) ltac:(lia))
          as (b & Hentry & Hb & Hbord & Hmax).
        rewrite Hentry.
        destruct (IH s i b
                    (scan_inv_fallback s i m b Hinv Hi Hne Hb Hbord Hmax)
                    ltac:(lia))
          as (chunks & s' & m' & Hscan & Hinv' & Hsplit).
        rewrite Hscan. exists chunks, s', m'.
        split; [reflexivity|]. split; [exact Hinv'|exact Hsplit].
Qed.

(** *** The outer loop *)

Lemma readDelim_loop_split (steps reads : nat) :
  forall (frags : fragments) (s arr : bytes) (m : nat),
    scan_inv D s (length s) m -> 1 <= len arr ->
    (length frags + length (List.concat frags) < reads)%nat ->
    (2 * length (List.concat frags) + length D <= steps)%nat ->
    readDelim_loop reads steps frags D (lps_table D) s arr (len s)
                   (Some (Z.of_nat m))
    = (split_seq D (s ++ List.concat frags), Returned).
Proof.
  induction reads as [|reads IH];
    intros frags s arr m Hinv Harr Hreads Hsteps; [lia|].
  cbn [readDelim_loop]. destruct frags as [|c rest].
  - cbn [reader_read fragments_reader List.concat].
    rewrite app_nil_r.
    rewrite split_seq_none by exact (scan_inv_clean s m Hinv).
    reflexivity.
  - set (dt := take (Z.to_nat (len arr)) c).
    set (rd' := if decide (length c <= Z.to_nat (len arr))%nat then rest
                else drop (Z.to_nat (len arr)) c :: rest).
    assert (Hread : reader_read (c :: rest) (len arr)
                    = (Some (len dt, dt), rd')) by reflexivity.
    rewrite Hread.
    assert (Hcat : dt ++ List.concat rd' = c ++ List.concat rest).
    { unfold dt, rd'. destruct (decide (length c <= Z.to_nat (len arr))%nat).
      - rewrite take_ge by lia. reflexivity.
      - cbn [List.concat]. rewrite app_assoc, take_drop. reflexivity. }
    assert (Hless : (length rd' + length (List.concat rd')
                     < length (c :: rest)
                       + length (List.concat (c :: rest)))%nat).
    { unfold rd'. cbn [List.concat length]. rewrite length_app.
      destruct (decide (length c <= Z.to_nat (len arr))%nat); [lia|].
      cbn [List.concat length]. rewrite length_app, length_drop.
      unfold len in *. lia. }
    assert (Hldt : (length dt <= length arr)%nat)
      by (unfold dt, len; rewrite length_take; lia).
    destruct (decide (len dt < 0)); [pose proof (len_nonneg dt); lia|].
    rewrite deposit_sliceRead by exact Hldt.
    unfold Buffer_writeAll, Buffer_bytes, Buffer_from.
    assert (Hlens : (length dt + length (List.concat rd')
                     = length (List.concat (c :: rest)))%nat).
    { cbn [List.concat]. rewrite <- Hcat, length_app. reflexivity. }
    pose proof Hinv as (_ & _ & HmL & _).
    destruct (scan_split steps (s ++ dt) (length s) m
                (scan_inv_more s dt m Hinv)
                ltac:(rewrite length_app; lia))
      as (chunks & s' & m' & Hscan & Hinv' & Hsplit).
    change (Z.of_nat (length s)) with (len s) in Hscan. rewrite Hscan.
    rewrite (IH rd' s' (deposit arr dt) m' Hinv')
      by (try lia; unfold len in *; rewrite deposit_length; lia).
    cbn [fst snd List.concat]. rewrite <- Hcat, <- Hsplit.
    rewrite <- app_assoc. reflexivity.
Qed.

End Split.

(** With the failure table that the documentation of [createLPS]
    describes, [readDelim] yields the pieces of the stream between the
    occurrences of the delimiter found from left to right, and returns,
    however the source cuts the stream into reads. *)
Lemma readDelim_split (frags : fragments) (delim : bytes)
  (reads steps : nat) :
  delim <> [] ->
  Delim.createLPS steps delim = Some (Delim.lps_table delim) ->
  (length frags + length (List.concat frags) < reads)%nat ->
  (2 * length (List.concat frags) + length delim <= steps)%nat ->
  Delim.readDelim reads steps frags delim
  = (split_seq delim (List.concat frags), Delim.Returned).
Proof.
  intros Hne Hlps Hreads Hsteps. unfold Delim.readDelim. rewrite Hlps.
  unfold Delim.Buffer_new.
  apply (readDelim_loop_split delim Hne steps reads frags [] _ 0%nat).
  - apply scan_inv_start. exact Hne.
  - unfold new_Uint8Array, len. rewrite length_replicate. lia.
  - exact Hreads.
  - exact Hsteps.
Qed.

(** After bytes whose pieces end with an empty one, bytes in which the
    delimiter first occurs at the very end give one more piece and a
    trailing empty one. *)
Lemma split_seq_trailing (delim front body : bytes) :
  delim <> [] ->
  last (split_seq delim front) = Some [] ->
  (forall j : nat,
      (j < length body)%nat ->
      ~ matched delim (body ++ delim) j (length delim)) ->
  split_seq delim (front ++ body ++ delim)
  = removelast (split_seq delim front) ++ [body; []].
Proof.
  intros Hne Hlast Hfirst. unfold split_seq in *.
  rewrite (pieces_app delim Hne front 0%nat (body ++ delim) ltac:(lia) Hlast).
  f_equal.
  pose proof (split_seq_first delim Hne body []) as Hsplit.
  rewrite app_nil_r in Hsplit. exact (Hsplit Hfirst).
Qed.

(** On a delimiter of one byte or of two, [createLPS] gives that table. *)
Lemma createLPS_short (a b : Z) (steps : nat) :
  (1 <= steps)%nat ->
  Delim.createLPS steps [a] = Some (Delim.lps_table [a]) /\
  Delim.createLPS steps [a; b] = Some (Delim.lps_table [a; b]).
Proof.
  intros Hsteps. destruct steps as [|steps]; [lia|]. split.
  - reflexivity.
  - assert (Htable : Delim.lps_table [a; b]
                     = [0; if decide (a = b) then 1 else 0]).
    { unfold Delim.lps_table, Delim.longest_proper_prefix_suffix.
      cbn [length seq map take Delim.border_below Nat.sub drop].
      destruct (decide ([] = [])) as [_|Hnil]; [|congruence].
      destruct (decide ([a] = [b])) as [Hab|Hab];
        destruct (decide (a = b)) as [Hab'|Hab']; try congruence;
        reflexivity. }
    rewrite Htable. unfold Delim.createLPS.
    change (new_Uint8Array (len [a; b])) with [0; 0].
    change (Delim.typed_store [0; 0] 0 0) with [0; 0].
    cbn [Delim.createLPS_loop]. change (len [0; 0]) with 2.
    destruct (decide (1 < 2)) as [_|?]; [|lia].
    change (at_ [a; b] 1) with (Some b). change (at_ [a; b] 0) with (Some a).
    destruct (decide (Some b = Some a)) as [Hab|Hab].
    + destruct (decide (a = b)) as [_|?]; [|congruence].
      destruct steps; reflexivity.
    + destruct (decide (0 = 0)) as [_|?]; [|lia].
      destruct (decide (a = b)) as [?|_]; [congruence|].
      destruct steps; reflexivity.
Qed.

(** ** io/bufio.ts: the last chunk of [readDelim] *)

Section FinalChunk.
Import Delim Scenario.

(** At the end of the stream the generator yields the accumulated bytes and
    returns, whatever the state of the scan. *)
Lemma readDelim_loop_end_of_stream {R : Type} `{Reader R}
  (reads steps : nat) (reader reader' : R)
  (delim delimLPS inputBuffer inspectArr : bytes)
  (inspectIndex : Z) (matchIndex : option Z) :
  reader_read reader (len inspectArr) = (None, reader') ->
  readDelim_loop (S reads) steps reader delim delimLPS inputBuffer inspectArr
                 inspectIndex matchIndex
  = ([inputBuffer], Returned).
Proof. intros Hread. cbn [readDelim_loop]. rewrite Hread. reflexivity. Qed.

(** A run that ends at the end of the stream has yielded a last chunk. *)
Lemma readDelim_loop_returned {R : Type} `{Reader R} (reads steps : nat) :
  forall (reader : R) (delim delimLPS inputBuffer inspectArr : bytes)
         (inspectIndex : Z) (matchIndex : option Z) (ys : list bytes),
    readDelim_loop reads steps reader delim delimLPS inputBuffer inspectArr
                   inspectIndex matchIndex = (ys, Returned) ->
    ys <> [].
Proof.
  induction reads as [|reads IH];
    intros reader delim lps buf arr ii mi ys Hrun.
  - discriminate.
  - cbn [readDelim_loop] in Hrun.
    destruct (reader_read reader (len arr)) as [[[rr stored]|] reader'].
    + destruct (decide (rr < 0)); [discriminate|].
      destruct (scan _ _ _ _ _ _) as [chunks [[[s ii'] mi']|]];
        [|discriminate].
      destruct (readDelim_loop reads _ _ _ _ _ _ _ _) as [ys' e] eqn:Hrec.
      cbn [fst snd] in Hrun. inversion Hrun; subst.
      apply IH in Hrec. destruct chunks; [exact Hrec|discriminate].
    + inversion Hrun. discriminate.
Qed.

(** C10, as it stands, fails: [":::"] ends with the delimiter ["::"], and
    split on it the last chunk is [":"], not the empty chunk. *)
Lemma readDelim_trailing_delimiter_counterexample :
  colons = [58] ++ delim /\
  readDelim 2 16 [colons] delim = ([[]; [58]], Returned) /\
  last (fst (readDelim 2 16 [colons] delim)) <> Some [].
Proof. vm_compute. repeat split. discriminate. Qed.

(** C10, amended: when the source signals the end of the stream,
    [readDelim] yields the bytes accumulated since the last chunk (possibly
    none) as one last chunk and returns, whatever the state of the scan, so
    that every run ending there has yielded that chunk.  When [createLPS]
    returns for the delimiter, a source that is at its end from the start
    gives exactly one empty chunk.  An input whose last byte completes a
    match of the left-to-right scan gives a trailing empty chunk: ["A::"]
    split on ["::"] gives ["A"] and [""], however it is cut into fragments;
    [":::"] gives [""] and [":"].

    In general, for a delimiter on which [createLPS] gives the failure table
    that its documentation describes (every delimiter of one byte or of two
    is one), and however the source cuts the stream into reads, the chunks
    are the pieces of the stream between the occurrences of the delimiter
    found from left to right, each looked for from the end of the one
    before, and [readDelim] returns after them.  The first piece ends where
    the delimiter first occurs and the others are the pieces of what follows
    that occurrence; where it does not occur there is one piece.  So, after
    bytes whose pieces end with an empty one (no bytes, or bytes that end
    with a found occurrence), bytes in which the delimiter first occurs at
    their very end give one more chunk and a trailing empty chunk. *)
Theorem readDelim_final_chunk :
  (forall (R : Type) (rd : Reader R) (reads steps : nat) (reader reader' : R)
          (delim delimLPS inputBuffer inspectArr : bytes)
          (inspectIndex : Z) (matchIndex : option Z),
      reader_read reader (len inspectArr) = (None, reader') ->
      readDelim_loop (S reads) steps reader delim delimLPS inputBuffer
                     inspectArr inspectIndex matchIndex
      = ([inputBuffer], Returned)) /\
  (forall (R : Type) (rd : Reader R) (reads steps : nat) (reader : R)
          (delim : bytes) (ys : list bytes),
      readDelim reads steps reader delim = (ys, Returned) ->
      exists front last, ys = front ++ [last]) /\
  (forall (R : Type) (rd : Reader R) (reads steps : nat) (reader reader' : R)
          (delim delimLPS : bytes),
      createLPS steps delim = Some delimLPS ->
      reader_read reader (len (new_Uint8Array (Z.max 1024 (len delim + 1))))
      = (None, reader') ->
      readDelim (S reads) steps reader delim = ([[]], Returned)) /\
  (forall (frags : fragments) (reads steps : nat),
      List.concat frags = A_ ->
      (length frags < reads)%nat -> (16 <= steps)%nat ->
      readDelim reads steps frags delim = ([[65]; []], Returned)) /\
  (forall (frags : fragments) (reads steps : nat),
      List.concat frags = colons ->
      (length frags < reads)%nat -> (16 <= steps)%nat ->
      readDelim reads steps frags delim = ([[]; [58]], Returned)) /\
  (forall (sep : bytes) (frags : fragments) (reads steps : nat),
      sep <> [] ->
      createLPS steps sep = Some (lps_table sep) ->
      (length frags + length (List.concat frags) < reads)%nat ->
      (2 * length (List.concat frags) + length sep <= steps)%nat ->
      readDelim reads steps frags sep
      = (split_seq sep (List.concat frags), Returned)) /\
  (forall (a b : Z) (steps : nat),
      (1 <= steps)%nat ->
      createLPS steps [a] = Some (lps_table [a]) /\
      createLPS steps [a; b] = Some (lps_table [a; b])) /\
  (forall sep pre post : bytes,
      sep <> [] ->
      (forall j : nat,
          (j < length pre)%nat ->
          ~ matched sep (pre ++ sep ++ post) j (length sep)) ->
      split_seq sep (pre ++ sep ++ post) = pre :: split_seq sep post) /\
  (forall sep l : bytes,
      sep <> [] ->
      (forall j : nat, ~ matched sep l j (length sep)) ->
      split_seq sep l = [l]) /\
  (forall (sep front body : bytes) (frags : fragments) (reads steps : nat),
      sep <> [] ->
      createLPS steps sep = Some (lps_table sep) ->
      (length frags + length (List.concat frags) < reads)%nat ->
      (2 * length (List.concat frags) + length sep <= steps)%nat ->
      List.concat frags = front ++ body ++ sep ->
      last (split_seq sep front) = Some [] ->
      (forall j : nat,
          (j < length body)%nat ->
          ~ matched sep (body ++ sep) j (length sep)) ->
      readDelim reads steps frags sep
      = (removelast (split_seq sep front) ++ [body; []], Returned) /\
      last (fst (readDelim reads steps frags sep)) = Some []).
Proof.
  split; [|split; [|split; [|split; [|split; [|split; [|split;
    [|split; [|split]]]]]]]].
  - intros R rd. apply readDelim_loop_end_of_stream.
  - intros R rd reads steps reader delim ys Hrun. unfold readDelim in Hrun.
    destruct (createLPS steps delim) as [lps|]; [|discriminate].
    apply readDelim_loop_returned in Hrun.
    destruct (exists_last Hrun) as (front & last & ->). eauto.
  - intros R rd reads steps reader reader' delim lps Hlps Hread.
    unfold readDelim. rewrite Hlps.
    apply (readDelim_loop_end_of_stream _ _ _ _ _ _ _ _ _ _ Hread).
  - apply (readDelim_table A_ delim [0; 1] [[65]; []] 16).
    vm_compute. reflexivity.
  - apply (readDelim_table colons delim [0; 1] [[]; [58]] 16).
    vm_compute. reflexivity.
  - intros sep frags reads steps Hne Hlps Hreads Hsteps.
    apply readDelim_split; assumption.
  - intros a b steps Hsteps. apply createLPS_short. exact Hsteps.
  - intros sep pre post Hne Hfirst. apply split_seq_first; assumption.
  - intros sep l Hne Hnone. apply split_seq_none. exact Hnone.
  - intros sep front body frags reads steps Hne Hlps Hreads Hsteps Hcat
           Hfront Hfirst.
    rewrite (readDelim_split frags sep reads steps Hne Hlps Hreads Hsteps).
    rewrite Hcat, (split_seq_trailing sep front body Hne Hfront Hfirst).
    split; [reflexivity|]. cbn [fst].
    change [body; []] with ([body] ++ [[] : bytes]). rewrite app_assoc.
    apply last_snoc.
Qed.

Lemma readDelim_final_chunk_witness :
  readDelim 1 16 ([] : fragments) [10] = ([[]], Returned) /\
  readDelim 3 16 [[65; 58]; [58]] delim = ([[65]; []], Returned) /\
  readDelim 12 16 [[65; 66; 58]; []; [58; 67]; [58; 58]] delim
  = ([[65; 66]; [67]; []], Returned) /\
  last (fst (readDelim 12 16 [[65; 66; 58]; []; [58; 67]; [58; 58]] delim))
  = Some [].
Proof.
  destruct readDelim_final_chunk
    as (_ & _ & Hempty & Htrail & _ & _ & _ & _ & _ & Hlast).
  split; [|split].
  - apply (Hempty fragments _ 0%nat 16%nat [] [] [10] [0]); reflexivity.
  - apply (Htrail [[65; 58]; [58]] 3%nat 16%nat);
      [reflexivity | simpl; lia | lia].
  - apply (Hlast delim [65; 66; 58; 58] [67]
             [[65; 66; 58]; []; [58; 67]; [58; 58]] 12%nat 16%nat).
    + discriminate.
    + vm_compute. reflexivity.
    + simpl. lia.
    + simpl. lia.
    + reflexivity.
    + vm_compute. reflexivity.
    + intros j Hj Hm. simpl in Hj. assert (j = 0%nat) by lia. subst j.
      specialize (Hm 0%nat ltac:(simpl; lia)). discriminate.
Defined.

End FinalChunk.
